(** * ZetaRay: render-graph scheduler and CPU worker pool

    A shallow embedding of
    - [Source/ZetaCore/Support/ThreadPool.cpp] (module [ThreadPool]) and
    - [Source/ZetaCore/Core/RenderGraph.cpp]   (module [RenderGraph]),
    together with the properties of the scheduler that are stated about them.

    Conventions.  C++ [int] fields that carry the sentinel [-1] are [Z];
    a fixed-capacity array together with its element counter
    ([m_frameResources]/[m_lastResIdx], [m_renderNodes]/[m_currRenderPassIdx],
    [Producers]/[CurrProdIdx], [sorted]/[currIdx]) is the list of its first
    [counter] elements, the capacity being checked where the source asserts
    it; a failing [Assert] (fatal in debug builds) is an explicit error
    result; an atomic counter is its value, the memory order being irrelevant
    to a sequential run. *)

From Stdlib Require Import String.
From Stdlib Require Import ZArith List Bool Lia Arith PeanoNat.
From Stdlib Require Import Permutation Sorted.
Import ListNotations.

Set Implicit Arguments.
Local Open Scope Z_scope.

(* ====================================================================== *)
(** * Support/ThreadPool.cpp *)
(* ====================================================================== *)

Module ThreadPool.

(** [TASK_PRIORITY] of Support/Task.h. *)
Inductive TASK_PRIORITY : Type := NORMAL | BACKGROUND.

Definition TASK_PRIORITY_eqb (a b : TASK_PRIORITY) : bool :=
  match a, b with
  | NORMAL, NORMAL | BACKGROUND, BACKGROUND => true
  | _, _ => false
  end.

(** A task: its callback (opaque, named by a number), its priority, its
    signal handle and the signal handles of its outbound adjacencies. *)
Record Task : Type := mkTask {
  Dlg          : nat;
  GetPriority  : TASK_PRIORITY;
  GetSignalHandle : Z;
  GetAdjacencies  : list Z
}.

(** What a thread does to the outside world while it runs a task. *)
Inductive Event : Type :=
| WaitForAdjacentHeadNodes (taskHandle : Z)
| DoTask (dlg : nat)
| SignalAdjacentTailNodes (adjacencies : list Z).

Definition is_wait (e : Event) : bool :=
  match e with WaitForAdjacentHeadNodes _ => true | _ => false end.

Definition is_signal (e : Event) : bool :=
  match e with SignalAdjacentTailNodes _ => true | _ => false end.

(** The members of [ThreadPool] that the task loops touch, and the trace of
    the events of the running thread (most recent last). *)
Record State : Type := mkState {
  m_taskQueue              : list Task;
  m_numTasksInQueue        : Z;
  m_numTasksFinished       : Z;
  m_numTasksToFinishTarget : Z;
  m_shutdown               : bool;
  trace                    : list Event
}.

Definition emit (es : list Event) (s : State) : State :=
  mkState (m_taskQueue s) (m_numTasksInQueue s) (m_numTasksFinished s)
          (m_numTasksToFinishTarget s) (m_shutdown s) (trace s ++ es).

(** [ThreadPool::Enqueue(Task&&)]. *)
Definition Enqueue (task : Task) (s : State) : State :=
  mkState (m_taskQueue s ++ [task]) (m_numTasksInQueue s + 1)
          (m_numTasksFinished s) (m_numTasksToFinishTarget s + 1)
          (m_shutdown s) (trace s).

(** [m_taskQueue.try_dequeue(token, task)]: [None] when nothing could be
    dequeued. *)
Definition try_dequeue (s : State) : option (Task * State) :=
  match m_taskQueue s with
  | [] => None
  | task :: q =>
      Some (task, mkState q (m_numTasksInQueue s) (m_numTasksFinished s)
                          (m_numTasksToFinishTarget s) (m_shutdown s) (trace s))
  end.

(** Events of the body of the [while] loop of [PumpUntilEmpty] for a
    dequeued task (lines 151-161): the wait is not guarded by the priority,
    the signal only by the adjacency list being non-empty. *)
Definition pump_events (task : Task) : list Event :=
  [WaitForAdjacentHeadNodes (GetSignalHandle task); DoTask (Dlg task)]
  ++ (if (0 <? Z.of_nat (length (GetAdjacencies task)))
      then [SignalAdjacentTailNodes (GetAdjacencies task)] else []).

(** Events of one iteration of the loop of [WorkerThread] (lines 208-222):
    both the wait and the signal are guarded by
    [task.GetPriority() != TASK_PRIORITY::BACKGROUND]. *)
Definition worker_events (task : Task) : list Event :=
  (if negb (TASK_PRIORITY_eqb (GetPriority task) BACKGROUND)
   then [WaitForAdjacentHeadNodes (GetSignalHandle task)] else [])
  ++ [DoTask (Dlg task)]
  ++ (if negb (TASK_PRIORITY_eqb (GetPriority task) BACKGROUND)
      then (if (0 <? Z.of_nat (length (GetAdjacencies task)))
            then [SignalAdjacentTailNodes (GetAdjacencies task)] else [])
      else []).

(** The body of the [if (try_dequeue ...)] of [PumpUntilEmpty]. *)
Definition pump_body (task : Task) (s : State) : State :=
  let s1 := mkState (m_taskQueue s) (m_numTasksInQueue s - 1)
                    (m_numTasksFinished s) (m_numTasksToFinishTarget s)
                    (m_shutdown s) (trace s) in
  let s2 := emit (pump_events task) s1 in
  mkState (m_taskQueue s2) (m_numTasksInQueue s2) (m_numTasksFinished s2 + 1)
          (m_numTasksToFinishTarget s2) (m_shutdown s2) (trace s2).

(** The loop of [ThreadPool::PumpUntilEmpty] (lines 141-165), which a call
    on a thread that [Start] has published reaches at once; the lookup of
    the calling thread and its assert (lines 138-139) are in
    [PumpUntilEmpty_on] below.  The loop runs while the counter of queued
    tasks is not zero; a failed [try_dequeue] spins.  [fuel] bounds the number
    of iterations; [None] is a run that did not leave the loop within it. *)
Fixpoint PumpUntilEmpty (fuel : nat) (s : State) : option State :=
  match fuel with
  | O => None
  | S fuel' =>
      if m_numTasksInQueue s =? 0 then Some s
      else match try_dequeue s with
           | Some (task, s1) => PumpUntilEmpty fuel' (pump_body task s1)
           | None => PumpUntilEmpty fuel' s
           end
  end.

(** [ThreadPool::TryFlush] on a thread that [Start] has published, for
    which the lookup of [PumpUntilEmpty] succeeds; [TryFlush_on] below is
    the call on any thread. *)
Definition TryFlush (fuel : nat) (s : State) : option (bool * State) :=
  let success := m_numTasksFinished s =? m_numTasksToFinishTarget s in
  if negb success then
    match PumpUntilEmpty fuel s with
    | Some s' => Some (success, s')
    | None => None
    end
  else
    Some (success,
          mkState (m_taskQueue s) (m_numTasksInQueue s) 0 0
                  (m_shutdown s) (trace s)).

(** One iteration of the [while (true)] of [ThreadPool::WorkerThread]:
    [inl] is the thread leaving the loop (shutdown), [inr None] the thread
    blocked in [wait_dequeue] on an empty queue. *)
Definition WorkerThread_iter (s : State) : State + option State :=
  if m_shutdown s then inl s
  else match try_dequeue s with
       | None => inr None
       | Some (task, s1) =>
           let s2 := mkState (m_taskQueue s1) (m_numTasksInQueue s1 - 1)
                             (m_numTasksFinished s1)
                             (m_numTasksToFinishTarget s1)
                             (m_shutdown s1) (trace s1) in
           let s3 := emit (worker_events task) s2 in
           inr (Some (mkState (m_taskQueue s3) (m_numTasksInQueue s3)
                              (m_numTasksFinished s3 + 1)
                              (m_numTasksToFinishTarget s3)
                              (m_shutdown s3) (trace s3)))
       end.

(** A pool no other thread is touching: the counter of queued tasks is the
    length of the queue. *)
Definition quiescent (s : State) : Prop :=
  m_numTasksInQueue s = Z.of_nat (length (m_taskQueue s)).

(** The events of a task neither wait on inbound signals nor signal
    dependents. *)
Definition no_signal_protocol (es : list Event) : bool :=
  forallb (fun e => negb (is_wait e) && negb (is_signal e)) es.

(* ---------------------------------------------------------------------- *)
(** ** Thread ids, task sets and the accounting of the counters *)

(** [FindThreadIdx] (lines 10-24) from index [i] on; [tid] is
    [GetCurrentThreadId()]. *)
Fixpoint FindThreadIdx_from (i : Z) (threadIds : list Z) (tid : Z) : Z :=
  match threadIds with
  | [] => -1
  | t :: threadIds' =>
      if t =? tid then i else FindThreadIdx_from (i + 1) threadIds' tid
  end.

Definition FindThreadIdx (threadIds : list Z) (tid : Z) : Z :=
  FindThreadIdx_from 0 threadIds tid.

(** How a call of the pool ends: it returns, or an [Assert] stops it. *)
Inductive Outcome (A : Type) : Type :=
| Done (a : A)
| AssertFailed (msg : string).
Arguments Done {A} a.
Arguments AssertFailed {A} msg.

(** The pool with the thread ids that [Start] publishes. *)
Record Pool : Type := mkPool {
  pool              : State;
  m_allThreadIds    : list Z;
  m_totalNumThreads : Z;
  m_start           : bool
}.

(** [ThreadPool::Start]. *)
Definition Start (threadIDs : list Z) (p : Pool) : Outcome Pool :=
  if negb (Z.of_nat (length threadIDs) =? m_totalNumThreads p)
  then AssertFailed "these must match"
  else Done (mkPool (pool p) threadIDs (m_totalNumThreads p) true).

(** [ThreadPool::Enqueue(Task&&)] called on the thread [tid]; the queue
    itself does not fail to allocate. *)
Definition Enqueue_on (tid : Z) (task : Task) (p : Pool) : Outcome Pool :=
  let idx := FindThreadIdx (m_allThreadIds p) tid in
  if negb (negb (idx =? -1)) then AssertFailed "Thread ID was not found"
  else Done (mkPool (Enqueue task (pool p)) (m_allThreadIds p)
               (m_totalNumThreads p) (m_start p)).

(** A [TaskSet] as [Enqueue(TaskSet&&)] reads it. *)
Record TaskSet : Type := mkTaskSet {
  IsFinalized : bool;
  GetTasks    : list Task
}.

(** [ThreadPool::Enqueue(TaskSet&&)] called on the thread [tid]: the two
    counters are raised before the thread id is looked up. *)
Definition Enqueue_TaskSet_on (tid : Z) (ts : TaskSet) (p : Pool) : Outcome Pool :=
  if negb (IsFinalized ts) then AssertFailed "Given TaskSet is not finalized."
  else
    let s := pool p in
    let size := Z.of_nat (length (GetTasks ts)) in
    let idx := FindThreadIdx (m_allThreadIds p) tid in
    if negb (negb (idx =? -1)) then AssertFailed "Thread ID was not found"
    else
      Done (mkPool
              (mkState (m_taskQueue s ++ GetTasks ts) (m_numTasksInQueue s + size)
                 (m_numTasksFinished s) (m_numTasksToFinishTarget s + size)
                 (m_shutdown s) (trace s))
              (m_allThreadIds p) (m_totalNumThreads p) (m_start p)).

(** The pool with another state of its counters and its queue. *)
Definition with_pool (s : State) (p : Pool) : Pool :=
  mkPool s (m_allThreadIds p) (m_totalNumThreads p) (m_start p).

(** [ThreadPool::PumpUntilEmpty] called on the thread [tid] (lines
    136-166): the calling thread is looked up first, and the call stops in
    the assert of line 139 when [Start] has not published it; otherwise the
    loop runs.  [None] is a loop that was not left within [fuel] turns. *)
Definition PumpUntilEmpty_on (tid : Z) (fuel : nat) (p : Pool)
  : option (Outcome Pool) :=
  let idx := FindThreadIdx (m_allThreadIds p) tid in
  if negb (negb (idx =? -1)) then Some (AssertFailed "Thread ID was not found")
  else match PumpUntilEmpty fuel (pool p) with
       | Some s' => Some (Done (with_pool s' p))
       | None => None
       end.

(** [ThreadPool::TryFlush] called on the thread [tid] (lines 168-184). *)
Definition TryFlush_on (tid : Z) (fuel : nat) (p : Pool)
  : option (Outcome (bool * Pool)) :=
  let s := pool p in
  let success := m_numTasksFinished s =? m_numTasksToFinishTarget s in
  if negb success then
    match PumpUntilEmpty_on tid fuel p with
    | Some (Done p') => Some (Done (success, p'))
    | Some (AssertFailed msg) => Some (AssertFailed msg)
    | None => None
    end
  else
    Some (Done (success,
                with_pool (mkState (m_taskQueue s) (m_numTasksInQueue s) 0 0
                                   (m_shutdown s) (trace s)) p)).

(** The counters account for the queue: the counter of queued tasks is the
    length of the queue and the tasks still to finish are the queued
    ones. *)
Definition accounted (s : State) : Prop :=
  quiescent s /\
  m_numTasksFinished s + Z.of_nat (length (m_taskQueue s))
  = m_numTasksToFinishTarget s.

End ThreadPool.

(* ====================================================================== *)
(** * Core/RenderGraph.cpp: data model *)
(* ====================================================================== *)

Module RenderGraph.

(** The capacities and the reserved id range of RenderGraph.h, which is not
    among the sources: they are parameters of the model. *)
Class Limits : Type := {
  MAX_NUM_RENDER_PASSES : Z;
  MAX_NUM_RESOURCES     : Z;
  MAX_NUM_PRODUCERS     : Z;
  DUMMY_RES_COUNT       : Z     (* DUMMY_RES::COUNT *)
}.

(** [D3D12_RESOURCE_STATES] (d3d12.h), the bits named in RenderGraph.cpp. *)
Definition D3D12_RESOURCE_STATE_COMMON : Z := 0.
Definition D3D12_RESOURCE_STATE_PRESENT : Z := 0.
Definition D3D12_RESOURCE_STATE_VERTEX_AND_CONSTANT_BUFFER : Z := 0x1.
Definition D3D12_RESOURCE_STATE_INDEX_BUFFER : Z := 0x2.
Definition D3D12_RESOURCE_STATE_RENDER_TARGET : Z := 0x4.
Definition D3D12_RESOURCE_STATE_UNORDERED_ACCESS : Z := 0x8.
Definition D3D12_RESOURCE_STATE_DEPTH_WRITE : Z := 0x10.
Definition D3D12_RESOURCE_STATE_DEPTH_READ : Z := 0x20.
Definition D3D12_RESOURCE_STATE_NON_PIXEL_SHADER_RESOURCE : Z := 0x40.
Definition D3D12_RESOURCE_STATE_PIXEL_SHADER_RESOURCE : Z := 0x80.
Definition D3D12_RESOURCE_STATE_COPY_DEST : Z := 0x400.
Definition D3D12_RESOURCE_STATE_COPY_SOURCE : Z := 0x800.
Definition D3D12_RESOURCE_STATE_ALL_SHADER_RESOURCE : Z := 0x40 + 0x80.

(** Modelled from the spec: the masks of [Constants] (declared outside the
    sources).  "The read-state mask unions shader-resource, index,
    vertex-constant, and copy-source; the write-state mask unions
    render-target, unordered-access, depth-write, and copy-destination.  The
    illegal-on-compute mask unions render-target, depth-read, depth-write,
    and pixel-shader-resource." *)
Definition READ_STATES : Z :=
  Z.lor D3D12_RESOURCE_STATE_ALL_SHADER_RESOURCE
    (Z.lor D3D12_RESOURCE_STATE_INDEX_BUFFER
       (Z.lor D3D12_RESOURCE_STATE_VERTEX_AND_CONSTANT_BUFFER
              D3D12_RESOURCE_STATE_COPY_SOURCE)).

Definition WRITE_STATES : Z :=
  Z.lor D3D12_RESOURCE_STATE_RENDER_TARGET
    (Z.lor D3D12_RESOURCE_STATE_UNORDERED_ACCESS
       (Z.lor D3D12_RESOURCE_STATE_DEPTH_WRITE
              D3D12_RESOURCE_STATE_COPY_DEST)).

Definition INVALID_COMPUTE_STATES : Z :=
  Z.lor D3D12_RESOURCE_STATE_RENDER_TARGET
    (Z.lor D3D12_RESOURCE_STATE_DEPTH_READ
       (Z.lor D3D12_RESOURCE_STATE_DEPTH_WRITE
              D3D12_RESOURCE_STATE_PIXEL_SHADER_RESOURCE)).

(** [s & mask] read as a C++ condition. *)
Definition intersects (s mask : Z) : bool := negb (Z.land s mask =? 0).

Inductive RENDER_NODE_TYPE : Type := RENDER | ASYNC_COMPUTE.

Definition is_ASYNC_COMPUTE (t : RENDER_NODE_TYPE) : bool :=
  match t with ASYNC_COMPUTE => true | RENDER => false end.

(** [Dependency]: a resource id (uint64) and the state expected of it. *)
Record Dependency : Type := mkDependency {
  ResID         : Z;
  ExpectedState : Z
}.

(** [TransitionBarrier(res, before, after)]. *)
Record Barrier : Type := TransitionBarrier {
  barrierRes  : Z;
  StateBefore : Z;
  StateAfter  : Z
}.

(** The value of an invalid [RenderNodeHandle]. *)
Definition INVALID_NODE_HANDLE : Z := -1.

(** [RenderNode].  [Indegree] is an [int16] in the source; the handle of a
    node is its position in [m_renderNodes].  The callback [Dlg] is opaque
    and named by a number. *)
Record RenderNode : Type := mkRenderNode {
  NodeType              : RENDER_NODE_TYPE;
  ForceSeparateCmdList  : bool;
  Dlg                   : nat;
  Inputs                : list Dependency;
  Outputs               : list Dependency;
  Barriers              : list Barrier;
  Indegree              : Z;
  NodeBatchIdx          : Z;
  HasUnsupportedBarrier : bool;
  GpuDepSourceIdx       : Z;
  OutputMask            : Z;
  AggNodeIdx            : Z
}.

(** [ResourceMetadata].  [Res] is the native pointer ([0] is [nullptr]);
    [Producers] holds the handles written by [AddOutput] this frame, its
    length being [CurrProdIdx]. *)
Record ResourceMetadata : Type := mkResourceMetadata {
  ID                    : Z;
  Res                   : Z;
  State                 : Z;
  IsWindowSizeDependent : bool;
  Producers             : list nat
}.

Definition nullptr : Z := 0.

Definition CurrProdIdx (r : ResourceMetadata) : Z :=
  Z.of_nat (List.length (Producers r)).

(** [AggregateRenderNode] without its name and its fence.  The fields
    [Barriers] and [HasUnsupportedBarrier] of the source are [AggBarriers]
    and [AggHasUnsupportedBarrier] here, the names being taken by
    [RenderNode]. *)
Record AggregateRenderNode : Type := mkAggregateRenderNode {
  IsAsyncCompute           : bool;
  ForceSeparate            : bool;
  Dlgs                     : list nat;
  AggBarriers              : list Barrier;
  BatchIdx                 : Z;
  GpuDepIdx                : Z;
  AggHasUnsupportedBarrier : bool;
  IsLast                   : bool;
  MergeStart               : bool;
  MergeEnd                 : bool;
  MergedCmdListIdx         : Z
}.

(** The members of [RenderGraph]. *)
Record Graph : Type := mkGraph {
  m_frameResources         : list ResourceMetadata;
  m_prevFramesNumResources : Z;
  m_renderNodes            : list RenderNode;
  m_mapping                : list nat;
  m_aggregateNodes         : list AggregateRenderNode;
  m_inBeginEndBlock        : bool;
  m_inPreRegister          : bool
}.

Definition m_lastResIdx (g : Graph) : Z :=
  Z.of_nat (List.length (m_frameResources g)).

Definition m_currRenderPassIdx (g : Graph) : Z :=
  Z.of_nat (List.length (m_renderNodes g)).

(** How a call ends: it returns, or an [Assert] stops the process. *)
Inductive Exit : Type :=
| Returned
| Asserted (msg : string).

(** Results of the builder passes, which stop at the first failing
    [Assert]. *)
Inductive result (A : Type) : Type :=
| Ok (a : A)
| AssertFail (msg : string).
Arguments Ok {A} a.
Arguments AssertFail {A} msg.

Definition bind {A B} (r : result A) (f : A -> result B) : result B :=
  match r with
  | Ok a => f a
  | AssertFail msg => AssertFail msg
  end.

Declare Scope result_scope.
Delimit Scope result_scope with result.
Notation "x <- c ;; k" := (bind c (fun x => k))
  (at level 61, c at next level, right associativity) : result_scope.
Notation "' pat <- c ;; k" := (bind c (fun x => match x with pat => k end))
  (at level 61, pat pattern, c at next level, right associativity) : result_scope.

Definition Assert (cond : bool) (msg : string) : result unit :=
  if cond then Ok tt else AssertFail msg.

(** Array write [a[i] = v]; the index is inside the array wherever the
    source performs one. *)
Fixpoint upd {A} (l : list A) (i : nat) (v : A) : list A :=
  match l, i with
  | [], _ => []
  | _ :: l', O => v :: l'
  | x :: l', S i' => x :: upd l' i' v
  end.

(* ---------------------------------------------------------------------- *)
(** ** Field updates *)

Definition set_Indegree (v : Z) (n : RenderNode) : RenderNode :=
  mkRenderNode (NodeType n) (ForceSeparateCmdList n) (Dlg n) (Inputs n)
    (Outputs n) (Barriers n) v (NodeBatchIdx n) (HasUnsupportedBarrier n)
    (GpuDepSourceIdx n) (OutputMask n) (AggNodeIdx n).

Definition set_OutputMask (v : Z) (n : RenderNode) : RenderNode :=
  mkRenderNode (NodeType n) (ForceSeparateCmdList n) (Dlg n) (Inputs n)
    (Outputs n) (Barriers n) (Indegree n) (NodeBatchIdx n)
    (HasUnsupportedBarrier n) (GpuDepSourceIdx n) v (AggNodeIdx n).

Definition set_NodeBatchIdx (v : Z) (n : RenderNode) : RenderNode :=
  mkRenderNode (NodeType n) (ForceSeparateCmdList n) (Dlg n) (Inputs n)
    (Outputs n) (Barriers n) (Indegree n) v (HasUnsupportedBarrier n)
    (GpuDepSourceIdx n) (OutputMask n) (AggNodeIdx n).

Definition set_GpuDepSourceIdx (v : Z) (n : RenderNode) : RenderNode :=
  mkRenderNode (NodeType n) (ForceSeparateCmdList n) (Dlg n) (Inputs n)
    (Outputs n) (Barriers n) (Indegree n) (NodeBatchIdx n)
    (HasUnsupportedBarrier n) v (OutputMask n) (AggNodeIdx n).

Definition push_Barrier (b : Barrier) (unsupported : bool) (n : RenderNode)
  : RenderNode :=
  mkRenderNode (NodeType n) (ForceSeparateCmdList n) (Dlg n) (Inputs n)
    (Outputs n) (Barriers n ++ [b]) (Indegree n) (NodeBatchIdx n)
    (HasUnsupportedBarrier n || unsupported) (GpuDepSourceIdx n)
    (OutputMask n) (AggNodeIdx n).

Definition push_Input (d : Dependency) (n : RenderNode) : RenderNode :=
  mkRenderNode (NodeType n) (ForceSeparateCmdList n) (Dlg n) (Inputs n ++ [d])
    (Outputs n) (Barriers n) (Indegree n) (NodeBatchIdx n)
    (HasUnsupportedBarrier n) (GpuDepSourceIdx n) (OutputMask n)
    (AggNodeIdx n).

Definition push_Output (d : Dependency) (n : RenderNode) : RenderNode :=
  mkRenderNode (NodeType n) (ForceSeparateCmdList n) (Dlg n) (Inputs n)
    (Outputs n ++ [d]) (Barriers n) (Indegree n) (NodeBatchIdx n)
    (HasUnsupportedBarrier n) (GpuDepSourceIdx n) (OutputMask n)
    (AggNodeIdx n).

Definition set_State (v : Z) (r : ResourceMetadata) : ResourceMetadata :=
  mkResourceMetadata (ID r) (Res r) v (IsWindowSizeDependent r) (Producers r).

Definition push_Producer (h : nat) (r : ResourceMetadata) : ResourceMetadata :=
  mkResourceMetadata (ID r) (Res r) (State r) (IsWindowSizeDependent r)
    (Producers r ++ [h]).

Definition set_frameResources (rs : list ResourceMetadata) (g : Graph) : Graph :=
  mkGraph rs (m_prevFramesNumResources g) (m_renderNodes g) (m_mapping g)
    (m_aggregateNodes g) (m_inBeginEndBlock g) (m_inPreRegister g).

Definition set_renderNodes (ns : list RenderNode) (g : Graph) : Graph :=
  mkGraph (m_frameResources g) (m_prevFramesNumResources g) ns (m_mapping g)
    (m_aggregateNodes g) (m_inBeginEndBlock g) (m_inPreRegister g).

Definition set_mapping (m : list nat) (g : Graph) : Graph :=
  mkGraph (m_frameResources g) (m_prevFramesNumResources g) (m_renderNodes g)
    m (m_aggregateNodes g) (m_inBeginEndBlock g) (m_inPreRegister g).

Definition set_aggregateNodes (a : list AggregateRenderNode) (g : Graph) : Graph :=
  mkGraph (m_frameResources g) (m_prevFramesNumResources g) (m_renderNodes g)
    (m_mapping g) a (m_inBeginEndBlock g) (m_inPreRegister g).

(* ---------------------------------------------------------------------- *)
(** ** Resource table and declarations *)

(** Modelled from the spec: [BinarySearch] of Utility/Utility.h is not among
    the sources.  "Lookup by id uses binary search over [0, count)": a
    lower-bound search over the keys of the inclusive range [beg, end_],
    returning the index of an entry whose key is [key], or [-1]. *)
Fixpoint BinarySearch_loop (fuel : nat) (keys : list Z) (key beg end_ : Z) : Z :=
  match fuel with
  | O => beg
  | S fuel' =>
      if end_ <? beg then beg
      else
        let mid := beg + Z.shiftr (end_ - beg) 1 in
        if nth (Z.to_nat mid) keys 0 <? key
        then BinarySearch_loop fuel' keys key (mid + 1) end_
        else BinarySearch_loop fuel' keys key beg (mid - 1)
  end.

Definition BinarySearch (keys : list Z) (key beg end_ : Z) : Z :=
  if (end_ <? beg) || (beg <? 0) then -1
  else
    let pos := BinarySearch_loop (S (Z.to_nat (end_ - beg + 1))) keys key beg end_ in
    match nth_error keys (Z.to_nat pos) with
    | Some k => if (k =? key) && (beg <=? pos) && (pos <=? end_) then pos else -1
    | None => -1
    end.

(** [RenderGraph::FindFrameResource(key, beg, end)]. *)
Definition FindFrameResource (g : Graph) (key beg end_ : Z) : Z :=
  if end_ - beg =? 0 then -1
  else
    let end_ := if end_ =? -1 then m_lastResIdx g - 1 else end_ in
    BinarySearch (map ID (m_frameResources g)) key beg end_.

(** [FindFrameResource(key)], with the default arguments [beg = 0],
    [end = -1] of the declaration. *)
Definition FindFrameResource_all (g : Graph) (key : Z) : Z :=
  FindFrameResource g key 0 (-1).

(** Modelled from the spec: [ResourceMetadata::Reset(id, res, state, flag)]
    is declared in RenderGraph.h: the entry is reset "with the new handle,
    initial state, and window-size flag"; [producers] is the producer list
    of the slot, emptied by [BeginFrame]. *)
Definition ResourceMetadata_Reset (path res initState : Z)
    (isWindowSizeDependent : bool) (producers : list nat) : ResourceMetadata :=
  mkResourceMetadata path res initState isWindowSizeDependent producers.

(** Modelled from the spec: [RenderNode::Reset(name, type, dlg, force)] is
    declared in RenderGraph.h: a fresh node has no inputs, outputs or
    barriers, no batch index, no GPU dependency ("absent" is [-1]), an empty
    output mask and no aggregate. *)
Definition RenderNode_Reset (t : RENDER_NODE_TYPE) (dlg : nat)
    (forceSeparateCmdList : bool) : RenderNode :=
  mkRenderNode t forceSeparateCmdList dlg [] [] [] 0 (-1) false
    INVALID_NODE_HANDLE 0 (-1).

Section Declarations.
Context {L : Limits}.

(** [RenderGraph::RegisterRenderPass]; the handle returned is the former
    value of [m_currRenderPassIdx]. *)
Definition RegisterRenderPass (t : RENDER_NODE_TYPE) (dlg : nat)
    (forceSeparateCmdList : bool) (g : Graph) : Graph * Z * Exit :=
  if negb (m_inBeginEndBlock g && m_inPreRegister g)
  then (g, INVALID_NODE_HANDLE, Asserted "Invalid call.")
  else
    let h := m_currRenderPassIdx g in
    if negb (h <? MAX_NUM_RENDER_PASSES)
    then (g, h, Asserted "Number of render passes exceeded MAX_NUM_RENDER_PASSES")
    else (set_renderNodes
            (m_renderNodes g ++ [RenderNode_Reset t dlg forceSeparateCmdList]) g,
          h, Returned).

(** [RenderGraph::RegisterResource]. *)
Definition RegisterResource (res path initState : Z)
    (isWindowSizeDependent : bool) (g : Graph) : Graph * Exit :=
  if negb (m_inBeginEndBlock g && m_inPreRegister g)
  then (g, Asserted "Invalid call.")
  else if negb ((res =? nullptr) || (DUMMY_RES_COUNT <? path))
  then (g, Asserted "resource path ID can't take special value")
  else
    let prevPos := FindFrameResource g path 0 (m_prevFramesNumResources g - 1) in
    (* Existing resource *)
    if negb (prevPos =? -1) then
      match nth_error (m_frameResources g) (Z.to_nat prevPos) with
      | Some old =>
          if negb (Res old =? res)
          then (set_frameResources
                  (upd (m_frameResources g) (Z.to_nat prevPos)
                       (ResourceMetadata_Reset path res initState
                          isWindowSizeDependent (Producers old))) g,
                Returned)
          else (g, Returned)
      | None => (g, Returned)
      end
    else
      (* New resource *)
      let pos := m_lastResIdx g in
      if negb (pos <? MAX_NUM_RESOURCES)
      then (g, Asserted "Number of resources exceeded MAX_NUM_RESOURCES")
      else (set_frameResources
              (m_frameResources g
                 ++ [ResourceMetadata_Reset path res initState
                       isWindowSizeDependent []]) g,
            Returned).

(** [RenderGraph::MoveToPostRegister], given the outcome [sortedResources]
    of the [std::sort] of the table by id. *)
Definition MoveToPostRegister (sortedResources : list ResourceMetadata)
    (g : Graph) : Graph * Exit :=
  if negb (m_inBeginEndBlock g && m_inPreRegister g)
  then (g, Asserted "Invalid call.")
  else
    (mkGraph sortedResources (m_prevFramesNumResources g) (m_renderNodes g)
       (m_mapping g) (m_aggregateNodes g) (m_inBeginEndBlock g) false,
     Returned).

(** [RenderNodeHandle::IsValid]. *)
Definition IsValid (h : Z) : bool := negb (h =? INVALID_NODE_HANDLE).

(** The four checks that [AddInput] and [AddOutput] share, the last on the
    state mask [states] of the call. *)
Definition declaration_asserts (g : Graph) (h expectedState states : Z)
    (msg : string) : Exit :=
  if negb (m_inBeginEndBlock g && negb (m_inPreRegister g))
  then Asserted "Invalid call."
  else if negb (IsValid h) then Asserted "Invalid handle"
  else if negb (h <? m_currRenderPassIdx g) then Asserted "Invalid handle"
  else if negb (intersects expectedState states) then Asserted msg
  else Returned.

(** [m_renderNodes[h.Val]] updated by [f]. *)
Definition map_node (h : Z) (f : RenderNode -> RenderNode) (g : Graph) : Graph :=
  match nth_error (m_renderNodes g) (Z.to_nat h) with
  | Some n => set_renderNodes (upd (m_renderNodes g) (Z.to_nat h) (f n)) g
  | None => g
  end.

(** [RenderGraph::AddInput]. *)
Definition AddInput (h pathID expectedState : Z) (g : Graph) : Graph * Exit :=
  match declaration_asserts g h expectedState READ_STATES "Invalid read state." with
  | Asserted msg => (g, Asserted msg)
  | Returned =>
      (* Defer checking for invalid states until later on *)
      (map_node h (push_Input (mkDependency pathID expectedState)) g, Returned)
  end.

(** [RenderGraph::AddOutput].  When the producer array is full the source
    has already incremented [CurrProdIdx] before the [Assert] stops it. *)
Definition AddOutput (h pathID expectedState : Z) (g : Graph) : Graph * Exit :=
  match declaration_asserts g h expectedState WRITE_STATES "Invalid write state." with
  | Asserted msg => (g, Asserted msg)
  | Returned =>
      let async := match nth_error (m_renderNodes g) (Z.to_nat h) with
                   | Some n => is_ASYNC_COMPUTE (NodeType n)
                   | None => false
                   end in
      if negb (negb async || negb (intersects expectedState INVALID_COMPUTE_STATES))
      then (g, Asserted "state transition is not supported on an async-compute command list.")
      else
        let g1 := map_node h (push_Output (mkDependency pathID expectedState)) g in
        let idx := FindFrameResource_all g1 pathID in
        if idx =? -1
        then (g1, Asserted "Invalid resource path.")
        else
          match nth_error (m_frameResources g1) (Z.to_nat idx) with
          | None => (g1, Asserted "Invalid resource path.")
          | Some r =>
              let prodIdx := CurrProdIdx r in
              if negb (prodIdx <? MAX_NUM_PRODUCERS)
              then (g1, Asserted "Number of producers for each resource can't exceed MAX_NUM_PRODUCERS")
              else (set_frameResources
                      (upd (m_frameResources g1) (Z.to_nat idx)
                           (push_Producer (Z.to_nat h) r)) g1,
                    Returned)
          end
  end.

End Declarations.

(* ---------------------------------------------------------------------- *)
(** ** Build: graph edges and in-degrees (lines 344-411) *)

(** The value of a C++ [int16] after a narrowing conversion. *)
Definition int16 (z : Z) : Z := (z + 32768) mod 65536 - 32768.

(** The adjacency map [adjacentTailNodes]: for every handle the handles of
    the nodes that consume one of its outputs. *)
Definition Adjacency : Type := list (list nat).

(** [adjacentTailNodes[prodHandle].push_back(currNode)]. *)
Definition push_adjacent (adj : Adjacency) (prodHandle currNode : nat) : Adjacency :=
  match nth_error adj prodHandle with
  | Some tail => upd adj prodHandle (tail ++ [currNode])
  | None => adj
  end.

(** The loop over the outputs of lines 398-405: the mask bit of the first
    output that names [resID] is set.  [Z.shiftl 1 i] is the value of the
    [int] expression [1 << i] for [i] up to 30, that is for the first 31
    outputs of a pass; from [i = 31] on the C++ shift leaves the range of
    [int] or is undefined, the model goes on with the unbounded shift, and
    statements about masks are made for passes of at most 31 outputs. *)
Fixpoint mark_output (outputs : list Dependency) (i : Z) (resID mask : Z) : Z :=
  match outputs with
  | [] => mask
  | o :: outputs' =>
      if ResID o =? resID then Z.lor mask (Z.shiftl 1 i)
      else mark_output outputs' (i + 1) resID mask
  end.

(** The loop over the producers of one input (lines 380-409). *)
Fixpoint Build_producers (currNode : nat) (input : Dependency)
    (prods : list nat) (node : RenderNode) (adj : Adjacency)
  : result (RenderNode * Adjacency) :=
  match prods with
  | [] => Ok (node, adj)
  | prodHandle :: prods' =>
      if Nat.eqb currNode prodHandle then
        let node1 := set_Indegree (int16 (Indegree node - 1)) node in
        let numOutputs := Z.of_nat (List.length (Outputs node1)) in
        (_ <- Assert (0 <? numOutputs) "invalid graph." ;;
         Build_producers currNode input prods'
           (set_OutputMask
              (mark_output (Outputs node1) 0 (ResID input) (OutputMask node1))
              node1)
           adj)%result
      else
        Build_producers currNode input prods' node
          (push_adjacent adj prodHandle currNode)
  end.

(** The body of the loop over the inputs of a node (lines 365-409). *)
Definition Build_input (g : Graph) (currNode : nat) (input : Dependency)
    (node : RenderNode) (adj : Adjacency) : result (RenderNode * Adjacency) :=
  let idx := FindFrameResource_all g (ResID input) in
  (_ <- Assert (negb (idx =? -1)) "Resource ID was not found." ;;
   match nth_error (m_frameResources g) (Z.to_nat idx) with
   | None => AssertFail "Resource ID was not found."
   | Some r =>
       let numProducers := int16 (CurrProdIdx r) in
       node1 <-
         (if numProducers =? 0 then
            (* Null resources or resources that were produced in prior frames *)
            let node1 := set_Indegree (int16 (Indegree node - 1)) node in
            _ <- Assert (0 <=? Indegree node1) "Invalid indegree for node." ;;
            Ok node1
          else
            (* -1 to avoid double counting *)
            Ok (set_Indegree (int16 (Indegree node + (numProducers - 1))) node)) ;;
       Build_producers currNode input
         (firstn (Z.to_nat numProducers) (Producers r)) node1 adj
   end)%result.

Fixpoint Build_inputs (g : Graph) (currNode : nat) (inputs : list Dependency)
    (node : RenderNode) (adj : Adjacency) : result (RenderNode * Adjacency) :=
  match inputs with
  | [] => Ok (node, adj)
  | input :: inputs' =>
      ('(node1, adj1) <- Build_input g currNode input node adj ;;
       Build_inputs g currNode inputs' node1 adj1)%result
  end.

(** The loop over the nodes (lines 359-411), from handle [currNode] on. *)
Fixpoint Build_nodes (g : Graph) (currNode : nat) (nodes : list RenderNode)
    (adj : Adjacency) : result (list RenderNode * Adjacency) :=
  match nodes with
  | [] => Ok ([], adj)
  | node :: nodes' =>
      ('(node1, adj1) <- Build_inputs g currNode (Inputs node) node adj ;;
       '(nodes1, adj2) <- Build_nodes g (S currNode) nodes' adj1 ;;
       Ok (node1 :: nodes1, adj2))%result
  end.

(** [m_renderNodes[i].Indegree = (int16)m_renderNodes[i].Inputs.size()]. *)
Definition init_Indegree (n : RenderNode) : RenderNode :=
  set_Indegree (int16 (Z.of_nat (List.length (Inputs n)))) n.

(** [RenderGraph::Build] up to the call of [Sort]: the graph with its
    in-degrees and output masks, and the adjacency map. *)
Definition Build_edges (g : Graph) : result (Graph * Adjacency) :=
  (_ <- Assert (m_inBeginEndBlock g && negb (m_inPreRegister g)) "Invalid call." ;;
   let g := mkGraph (m_frameResources g) (m_prevFramesNumResources g)
              (m_renderNodes g) (m_mapping g) (m_aggregateNodes g) false
              (m_inPreRegister g) in
   let numNodes := m_currRenderPassIdx g in
   _ <- Assert (0 <? numNodes) "no render nodes" ;;
   '(nodes, adj) <- Build_nodes g 0 (map init_Indegree (m_renderNodes g))
                      (repeat [] (List.length (m_renderNodes g))) ;;
   Ok (set_renderNodes nodes g, adj))%result.

(* ---------------------------------------------------------------------- *)
(** ** Sort (lines 561-642) *)

(** Moving the nodes with zero in-degree to [sorted] (lines 568-578). *)
Fixpoint Sort_frontier (currNode : nat) (nodes : list RenderNode)
  : list RenderNode * list nat :=
  match nodes with
  | [] => ([], [])
  | node :: nodes' =>
      let '(nodes1, sorted) := Sort_frontier (S currNode) nodes' in
      if Indegree node =? 0
      then (set_NodeBatchIdx 0 node :: nodes1, currNode :: sorted)
      else (node :: nodes1, sorted)
  end.

(** The loop over the successors of a sorted node (lines 588-592). *)
Fixpoint Sort_visit (adjacent : list nat) (nodes : list RenderNode)
    (sorted : list nat) : list RenderNode * list nat :=
  match adjacent with
  | [] => (nodes, sorted)
  | a :: adjacent' =>
      match nth_error nodes a with
      | None => Sort_visit adjacent' nodes sorted
      | Some n =>
          let n1 := set_Indegree (int16 (Indegree n - 1)) n in
          if Indegree n1 =? 0
          then Sort_visit adjacent' (upd nodes a n1) (sorted ++ [a])
          else Sort_visit adjacent' (upd nodes a n1) sorted
      end
  end.

(** The topological loop (lines 583-593): [k] iterations from position
    [currNode] of [sorted]; reading a position that was not yet written is
    the failing [Assert(sorted[currNode].IsValid())]. *)
Fixpoint Sort_topo (k currNode : nat) (adj : Adjacency)
    (nodes : list RenderNode) (sorted : list nat)
  : result (list RenderNode * list nat) :=
  match k with
  | O => Ok (nodes, sorted)
  | S k' =>
      match nth_error sorted currNode with
      | None => AssertFail "invalid handle"
      | Some currHandle =>
          let '(nodes1, sorted1) :=
            Sort_visit (nth currHandle adj []) nodes sorted in
          Sort_topo k' (S currNode) adj nodes1 sorted1
      end
  end.

(** Longest path: the successors of [currHandle] (lines 602-607). *)
Fixpoint Sort_batch_visit (currHandle : nat) (adjacent : list nat)
    (nodes : list RenderNode) : list RenderNode :=
  match adjacent with
  | [] => nodes
  | a :: adjacent' =>
      match nth_error nodes currHandle, nth_error nodes a with
      | Some c, Some n =>
          Sort_batch_visit currHandle adjacent'
            (upd nodes a
               (set_NodeBatchIdx (Z.max (NodeBatchIdx c + 1) (NodeBatchIdx n)) n))
      | _, _ => Sort_batch_visit currHandle adjacent' nodes
      end
  end.

Fixpoint Sort_batch (sorted : list nat) (adj : Adjacency)
    (nodes : list RenderNode) : list RenderNode :=
  match sorted with
  | [] => nodes
  | currHandle :: sorted' =>
      Sort_batch sorted' adj
        (Sort_batch_visit currHandle (nth currHandle adj []) nodes)
  end.

(** [m_mapping[sorted[currNode].Val] = RenderNodeHandle(currNode)]
    (lines 625-626). *)
Fixpoint Sort_mapping (currNode : nat) (sorted : list nat) (mapping : list nat)
  : list nat :=
  match sorted with
  | [] => mapping
  | h :: sorted' => Sort_mapping (S currNode) sorted' (upd mapping h currNode)
  end.

Definition default_RenderNode : RenderNode := RenderNode_Reset RENDER 0 false.

Definition batch_of (nodes : list RenderNode) (h : nat) : Z :=
  NodeBatchIdx (nth h nodes default_RenderNode).

(** The comparison given to [std::sort] (lines 611-614). *)
Definition batch_less (nodes : list RenderNode) (lhs rhs : nat) : bool :=
  batch_of nodes lhs <? batch_of nodes rhs.

(** [std::sort(first, last, comp)] of the C++ standard library, for a
    comparison [comp] that orders the elements by a key: the result is a
    permutation of the range in non-descending order; the order of
    equivalent elements is not specified. *)
Definition std_sort_contract (std_sort : (nat -> nat -> bool) -> list nat -> list nat)
  : Prop :=
  forall (key : nat -> Z) l,
    Permutation l (std_sort (fun lhs rhs => key lhs <? key rhs) l) /\
    StronglySorted (fun x y => key x <= key y)
      (std_sort (fun lhs rhs => key lhs <? key rhs) l).

(* ---------------------------------------------------------------------- *)
(** ** [std::sort] as the library implements it *)

(** The contract above is all that C++ promises of [std::sort]; what the
    call of line 610 does to elements of equal batch index is decided by
    the implementation in the standard library, which is not among the
    sources.  This is the [std::sort] of libstdc++ (GCC 12,
    [bits/stl_algo.h] and [bits/stl_heap.h]), under the names it has
    there: an introsort that partitions ranges of more than 16 elements
    around a median of three, falls back to heap sort when its depth
    limit is used up, and finishes with an insertion sort.  Iterators are
    positions in the array [a]; [comp] compares two elements.  The
    library's unguarded loops rely on an element that stops them inside
    the range; where such a loop would leave the array the model's loop
    ends at position 0 or after [length a] steps. *)
Section StdSort.
Variable comp : nat -> nat -> bool.

(** [*i]. *)
Definition elem (a : list nat) (i : nat) : nat := nth i a 0%nat.

(** [std::iter_swap(i, j)]. *)
Definition iter_swap (a : list nat) (i j : nat) : list nat :=
  upd (upd a i (elem a j)) j (elem a i).

(** [std::__move_median_to_first(result, a, b, c, comp)]. *)
Definition __move_median_to_first (arr : list nat) (result a b c : nat)
  : list nat :=
  if comp (elem arr a) (elem arr b) then
    if comp (elem arr b) (elem arr c) then iter_swap arr result b
    else if comp (elem arr a) (elem arr c) then iter_swap arr result c
    else iter_swap arr result a
  else if comp (elem arr a) (elem arr c) then iter_swap arr result a
  else if comp (elem arr b) (elem arr c) then iter_swap arr result c
  else iter_swap arr result b.

(** The loop of [std::__unguarded_linear_insert(last, comp)] for the value
    [val] taken from [*last]. *)
Fixpoint __unguarded_linear_insert_from (val : nat) (a : list nat) (last : nat)
  : list nat :=
  match last with
  | O => upd a 0 val
  | S next =>
      if comp val (elem a next)
      then __unguarded_linear_insert_from val (upd a last (elem a next)) next
      else upd a last val
  end.

Definition __unguarded_linear_insert (a : list nat) (last : nat) : list nat :=
  __unguarded_linear_insert_from (elem a last) a last.

(** [val = *i; move_backward(first, i, i + 1); *first = val] of
    [std::__insertion_sort]. *)
Definition move_backward_insert (a : list nat) (first i : nat) : list nat :=
  firstn first a ++ [elem a i] ++ firstn (i - first) (skipn first a)
  ++ skipn (S i) a.

(** The loop of [std::__insertion_sort], [n] turns from position [i]. *)
Fixpoint __insertion_sort_loop (n : nat) (a : list nat) (first i : nat)
  : list nat :=
  match n with
  | O => a
  | S n' =>
      __insertion_sort_loop n'
        (if comp (elem a i) (elem a first)
         then move_backward_insert a first i
         else __unguarded_linear_insert a i)
        first (S i)
  end.

(** [std::__insertion_sort(first, last, comp)]. *)
Definition __insertion_sort (a : list nat) (first last : nat) : list nat :=
  if Nat.eqb first last then a
  else __insertion_sort_loop (last - S first) a first (S first).

Fixpoint __unguarded_insertion_sort_loop (n : nat) (a : list nat) (i : nat)
  : list nat :=
  match n with
  | O => a
  | S n' =>
      __unguarded_insertion_sort_loop n' (__unguarded_linear_insert a i) (S i)
  end.

(** [std::__unguarded_insertion_sort(first, last, comp)]. *)
Definition __unguarded_insertion_sort (a : list nat) (first last : nat)
  : list nat :=
  __unguarded_insertion_sort_loop (last - first) a first.

(** [enum { _S_threshold = 16 }]. *)
Definition _S_threshold : nat := 16.

(** [std::__final_insertion_sort(first, last, comp)]. *)
Definition __final_insertion_sort (a : list nat) (first last : nat) : list nat :=
  if (_S_threshold <? last - first)%nat then
    __unguarded_insertion_sort
      (__insertion_sort a first (first + _S_threshold))
      (first + _S_threshold) last
  else __insertion_sort a first last.

(** [while (comp(first, pivot)) ++first;]. *)
Fixpoint scan_up (fuel : nat) (a : list nat) (pivot first : nat) : nat :=
  match fuel with
  | O => first
  | S fuel' =>
      if comp (elem a first) (elem a pivot)
      then scan_up fuel' a pivot (S first) else first
  end.

(** [while (comp(pivot, last)) --last;]. *)
Fixpoint scan_down (a : list nat) (pivot last : nat) : nat :=
  match last with
  | O => O
  | S last' =>
      if comp (elem a pivot) (elem a last)
      then scan_down a pivot last' else last
  end.

(** [std::__unguarded_partition(first, last, pivot, comp)]: the array and
    the cut; every turn of its loop moves [first] up. *)
Fixpoint __unguarded_partition (fuel : nat) (a : list nat)
    (first last pivot : nat) : list nat * nat :=
  match fuel with
  | O => (a, first)
  | S fuel' =>
      let first := scan_up (List.length a) a pivot first in
      let last := scan_down a pivot (pred last) in
      if negb (first <? last)%nat then (a, first)
      else __unguarded_partition fuel' (iter_swap a first last) (S first) last
             pivot
  end.

(** [std::__unguarded_partition_pivot(first, last, comp)]. *)
Definition __unguarded_partition_pivot (a : list nat) (first last : nat)
  : list nat * nat :=
  let mid := (first + (last - first) / 2)%nat in
  let a1 := __move_median_to_first a first (first + 1) mid (last - 1) in
  __unguarded_partition (List.length a) a1 (first + 1) last first.

(** [std::__push_heap(first, holeIndex, topIndex, value, comp)]; the hole
    moves up at every turn. *)
Fixpoint __push_heap (fuel : nat) (a : list nat)
    (first holeIndex topIndex value : nat) : list nat :=
  let parent := ((holeIndex - 1) / 2)%nat in
  match fuel with
  | O => upd a (first + holeIndex) value
  | S fuel' =>
      if (topIndex <? holeIndex)%nat && comp (elem a (first + parent)) value
      then __push_heap fuel' (upd a (first + holeIndex) (elem a (first + parent)))
             first parent topIndex value
      else upd a (first + holeIndex) value
  end.

(** The first loop of [std::__adjust_heap]: the array, the hole and
    [secondChild]. *)
Fixpoint __adjust_heap_loop (fuel : nat) (a : list nat)
    (first holeIndex len secondChild : nat) : list nat * nat * nat :=
  match fuel with
  | O => (a, holeIndex, secondChild)
  | S fuel' =>
      if (secondChild <? (len - 1) / 2)%nat then
        let secondChild := (2 * (secondChild + 1))%nat in
        let secondChild :=
          if comp (elem a (first + secondChild))
                  (elem a (first + (secondChild - 1)))
          then (secondChild - 1)%nat else secondChild in
        __adjust_heap_loop fuel'
          (upd a (first + holeIndex) (elem a (first + secondChild)))
          first secondChild len secondChild
      else (a, holeIndex, secondChild)
  end.

(** [std::__adjust_heap(first, holeIndex, len, value, comp)];
    [(len - 2) / 2] is negative, and so no index, for [len < 2]. *)
Definition __adjust_heap (a : list nat) (first holeIndex len value : nat)
  : list nat :=
  let topIndex := holeIndex in
  let '(a1, holeIndex1, secondChild) :=
    __adjust_heap_loop len a first holeIndex len holeIndex in
  let '(a2, holeIndex2) :=
    if Nat.even len && (2 <=? len)%nat
       && Nat.eqb secondChild ((len - 2) / 2)
    then
      let secondChild := (2 * (secondChild + 1))%nat in
      (upd a1 (first + holeIndex1) (elem a1 (first + (secondChild - 1))),
       (secondChild - 1)%nat)
    else (a1, holeIndex1) in
  __push_heap (S holeIndex2) a2 first holeIndex2 topIndex value.

(** [std::__pop_heap(first, last, result, comp)]. *)
Definition __pop_heap (a : list nat) (first last result : nat) : list nat :=
  let value := elem a result in
  __adjust_heap (upd a result (elem a first)) first 0 (last - first) value.

Fixpoint __make_heap_loop (a : list nat) (first len parent : nat) : list nat :=
  let a1 := __adjust_heap a first parent len (elem a (first + parent)) in
  match parent with
  | O => a1
  | S parent' => __make_heap_loop a1 first len parent'
  end.

(** [std::__make_heap(first, last, comp)]. *)
Definition __make_heap (a : list nat) (first last : nat) : list nat :=
  if (last - first <? 2)%nat then a
  else __make_heap_loop a first (last - first) ((last - first - 2) / 2).

(** [std::__sort_heap(first, last, comp)]. *)
Fixpoint __sort_heap (fuel : nat) (a : list nat) (first last : nat) : list nat :=
  match fuel with
  | O => a
  | S fuel' =>
      if (1 <? last - first)%nat
      then __sort_heap fuel' (__pop_heap a first (last - 1) (last - 1))
             first (last - 1)
      else a
  end.

Fixpoint __heap_select_loop (n : nat) (a : list nat) (first middle i : nat)
  : list nat :=
  match n with
  | O => a
  | S n' =>
      __heap_select_loop n'
        (if comp (elem a i) (elem a first) then __pop_heap a first middle i
         else a)
        first middle (S i)
  end.

(** [std::__heap_select(first, middle, last, comp)]. *)
Definition __heap_select (a : list nat) (first middle last : nat) : list nat :=
  __heap_select_loop (last - middle) (__make_heap a first middle)
    first middle middle.

(** [std::__partial_sort(first, middle, last, comp)]. *)
Definition __partial_sort (a : list nat) (first middle last : nat) : list nat :=
  __sort_heap (middle - first) (__heap_select a first middle last) first middle.

(** [std::__introsort_loop(first, last, depth_limit, comp)]: a turn of its
    loop sorts the part behind the cut by a call of its own and goes on
    with the part before the cut. *)
Fixpoint __introsort_loop (depth_limit : nat) (a : list nat) (first last : nat)
  : list nat :=
  if (_S_threshold <? last - first)%nat then
    match depth_limit with
    | O => __partial_sort a first last last
    | S depth_limit' =>
        let '(a1, cut) := __unguarded_partition_pivot a first last in
        let a2 := __introsort_loop depth_limit' a1 cut last in
        __introsort_loop depth_limit' a2 first cut
    end
  else a.

(** [std::__sort(first, last, comp)], which [std::sort] calls, on the
    whole of [a]; [std::__lg] is the binary logarithm. *)
Definition __sort (a : list nat) : list nat :=
  let first := 0%nat in
  let last := List.length a in
  if Nat.eqb first last then a
  else
    __final_insertion_sort
      (__introsort_loop (Nat.log2 (last - first) * 2) a first last) first last.

End StdSort.

(** The part of [Sort] before the [std::sort]: Kahn's order and the batch
    indices. *)
Definition Sort_kahn (adj : Adjacency) (nodes : list RenderNode)
  : result (list RenderNode * list nat) :=
  let numNodes := List.length nodes in
  let '(nodes0, sorted0) := Sort_frontier 0 nodes in
  (_ <- Assert (0 <? Z.of_nat (List.length sorted0))
          "Graph is not a DAG- no node with 0 dependencies." ;;
   '(nodes1, sorted1) <- Sort_topo numNodes 0 adj nodes0 sorted0 ;;
   _ <- Assert (Nat.eqb numNodes (List.length sorted1)) "Graph is not a DAG" ;;
   Ok (Sort_batch sorted1 adj nodes1, sorted1))%result.

(** [RenderGraph::Sort], over the implementation [std_sort] of
    [std::sort]. *)
Definition Sort (std_sort : (nat -> nat -> bool) -> list nat -> list nat)
    (adj : Adjacency) (g : Graph) : result Graph :=
  ('(nodes, sorted) <- Sort_kahn adj (m_renderNodes g) ;;
   let sorted := std_sort (batch_less nodes) sorted in
   let mapping := Sort_mapping 0 sorted (m_mapping g) in
   (* Shuffle *)
   Ok (set_mapping mapping
         (set_renderNodes
            (map (fun h => nth h nodes default_RenderNode) sorted) g)))%result.

(* ---------------------------------------------------------------------- *)
(** ** InsertResourceBarriers (lines 644-792) *)

(** The two locals [lastDirQueueHandle] and [lastComputeQueueHandle]. *)
Record Cursors : Type := mkCursors {
  lastDirQueueHandle     : Z;
  lastComputeQueueHandle : Z
}.

(** [*getLastSyncedIdx(t)] read and written. *)
Definition getLastSyncedIdx (t : RENDER_NODE_TYPE) (c : Cursors) : Z :=
  if is_ASYNC_COMPUTE t then lastDirQueueHandle c else lastComputeQueueHandle c.

Definition setLastSyncedIdx (t : RENDER_NODE_TYPE) (v : Z) (c : Cursors) : Cursors :=
  if is_ASYNC_COMPUTE t
  then mkCursors v (lastComputeQueueHandle c)
  else mkCursors (lastDirQueueHandle c) v.

(** The values the two cursors are initialised with (lines 651-652). *)
Definition initial_Cursors : Cursors := mkCursors 0 0.

Section Barriers.
Context {L : Limits}.

(** The loop over the producers of one input (lines 732-746); [nodes] is
    [m_renderNodes], of which only [Type] and [NodeBatchIdx] are read. *)
Fixpoint IRB_producers (nodes : list RenderNode) (mapping : list nat)
    (isAsyncCompute : bool) (nodeBatchIdx : Z) (prods : list nat)
    (largestProducerSortedHandle : Z) : result Z :=
  match prods with
  | [] => Ok largestProducerSortedHandle
  | unsortedHandle :: prods' =>
      let sortedHandle := nth unsortedHandle mapping 0%nat in
      let producer := nth sortedHandle nodes default_RenderNode in
      let producerOnDifferentQueue :=
        (isAsyncCompute && negb (is_ASYNC_COMPUTE (NodeType producer)))
        || (negb isAsyncCompute && is_ASYNC_COMPUTE (NodeType producer)) in
      if producerOnDifferentQueue then
        (_ <- Assert (NodeBatchIdx producer <? nodeBatchIdx) "Invalid graph" ;;
         (* case a *)
         IRB_producers nodes mapping isAsyncCompute nodeBatchIdx prods'
           (Z.max largestProducerSortedHandle (Z.of_nat sortedHandle)))%result
      else
        IRB_producers nodes mapping isAsyncCompute nodeBatchIdx prods'
          largestProducerSortedHandle
  end.

(** The loop over the inputs of a node (lines 685-747). *)
Fixpoint IRB_inputs (g : Graph) (inputs : list Dependency)
    (rs : list ResourceMetadata) (node : RenderNode)
    (largestProducerSortedHandle : Z)
  : result (list ResourceMetadata * RenderNode * Z) :=
  match inputs with
  | [] => Ok (rs, node, largestProducerSortedHandle)
  | currInputRes :: inputs' =>
      if ResID currInputRes <? DUMMY_RES_COUNT
      then IRB_inputs g inputs' rs node largestProducerSortedHandle
      else
        let isAsyncCompute := is_ASYNC_COMPUTE (NodeType node) in
        let inputFrameResIdx :=
          FindFrameResource_all (set_frameResources rs g) (ResID currInputRes) in
        (_ <- Assert (negb (inputFrameResIdx =? -1)) "Resource was not found." ;;
         match nth_error rs (Z.to_nat inputFrameResIdx) with
         | None => AssertFail "Resource was not found."
         | Some r =>
             let inputResState := State r in
             let '(rs1, node1) :=
               if negb (intersects inputResState (ExpectedState currInputRes))
               then
                 (upd rs (Z.to_nat inputFrameResIdx)
                      (set_State (ExpectedState currInputRes) r),
                  push_Barrier
                    (TransitionBarrier (Res r) inputResState
                       (ExpectedState currInputRes))
                    (isAsyncCompute
                     && intersects inputResState INVALID_COMPUTE_STATES)
                    node)
               else (rs, node) in
             largest <- IRB_producers (m_renderNodes g) (m_mapping g)
                          isAsyncCompute (NodeBatchIdx node)
                          (firstn (Z.to_nat (CurrProdIdx r)) (Producers r))
                          largestProducerSortedHandle ;;
             IRB_inputs g inputs' rs1 node1 largest
         end)%result
  end.

(** The loop over the outputs of a node (lines 759-784); [i] is the local
    counter of that name.  As in [mark_output], [Z.shiftl 1 i] is the value
    of the [int] expression [1 << i] for the first 31 outputs that are
    tested. *)
Fixpoint IRB_outputs (g : Graph) (outputs : list Dependency) (i : Z)
    (rs : list ResourceMetadata) (node : RenderNode)
  : result (list ResourceMetadata * RenderNode) :=
  match outputs with
  | [] => Ok (rs, node)
  | currOutputRes :: outputs' =>
      if ResID currOutputRes <? DUMMY_RES_COUNT
      then IRB_outputs g outputs' i rs node
      else
        let isAsyncCompute := is_ASYNC_COMPUTE (NodeType node) in
        let skipBarrier := intersects (Z.shiftl 1 i) (OutputMask node) in
        let i := i + 1 in
        let outputFrameResIdx :=
          FindFrameResource_all (set_frameResources rs g) (ResID currOutputRes) in
        (_ <- Assert (negb (outputFrameResIdx =? -1)) "Resource was not found." ;;
         match nth_error rs (Z.to_nat outputFrameResIdx) with
         | None => AssertFail "Resource was not found."
         | Some r =>
             let outputResState := State r in
             let node1 :=
               if negb skipBarrier
                  && negb (intersects (State r) (ExpectedState currOutputRes))
               then
                 push_Barrier
                   (TransitionBarrier (Res r) outputResState
                      (ExpectedState currOutputRes))
                   (isAsyncCompute
                    && intersects outputResState INVALID_COMPUTE_STATES)
                   node
               else node in
             (* Update the resource state *)
             IRB_outputs g outputs' i
               (upd rs (Z.to_nat outputFrameResIdx)
                    (set_State (ExpectedState currOutputRes) r))
               node1
         end)%result
  end.

(** "Case b" (lines 750-754). *)
Definition IRB_case_b (largestProducerSortedHandle : Z) (node : RenderNode)
    (c : Cursors) : RenderNode * Cursors :=
  if negb (largestProducerSortedHandle =? -1)
     && (getLastSyncedIdx (NodeType node) c <? largestProducerSortedHandle)
  then (set_GpuDepSourceIdx largestProducerSortedHandle node,
        setLastSyncedIdx (NodeType node) largestProducerSortedHandle c)
  else (node, c).

(** The body of the loop over the nodes (lines 678-784). *)
Definition IRB_node (g : Graph) (node : RenderNode)
    (rs : list ResourceMetadata) (c : Cursors)
  : result (list ResourceMetadata * RenderNode * Cursors) :=
  ('(rs1, node1, largest) <-
     IRB_inputs g (Inputs node) rs node INVALID_NODE_HANDLE ;;
   let '(node2, c1) := IRB_case_b largest node1 c in
   '(rs2, node3) <- IRB_outputs g (Outputs node) 0 rs1 node2 ;;
   Ok (rs2, node3, c1))%result.

Fixpoint IRB_nodes (g : Graph) (nodes : list RenderNode)
    (rs : list ResourceMetadata) (c : Cursors)
  : result (list ResourceMetadata * list RenderNode * Cursors) :=
  match nodes with
  | [] => Ok (rs, [], c)
  | node :: nodes' =>
      ('(rs1, node1, c1) <- IRB_node g node rs c ;;
       '(rs2, nodes1, c2) <- IRB_nodes g nodes' rs1 c1 ;;
       Ok (rs2, node1 :: nodes1, c2))%result
  end.

(** [RenderGraph::InsertResourceBarriers]; [backBufferID] is
    [App::GetRenderer().GetCurrentBackBuffer().ID()]. *)
Definition InsertResourceBarriers (backBufferID : Z) (g : Graph) : result Graph :=
  ('(rs, nodes, _) <-
     IRB_nodes g (m_renderNodes g) (m_frameResources g) initial_Cursors ;;
   let g1 := set_renderNodes nodes (set_frameResources rs g) in
   let idx := FindFrameResource_all g1 backBufferID in
   if negb (idx =? -1) then
     match nth_error rs (Z.to_nat idx) with
     | Some r =>
         Ok (set_frameResources
               (upd rs (Z.to_nat idx) (set_State D3D12_RESOURCE_STATE_PRESENT r))
               g1)
     | None => Ok g1
     end
   else Ok g1)%result.

End Barriers.

(* ---------------------------------------------------------------------- *)
(** ** JoinRenderNodes (lines 794-897) *)

Definition set_AggNodeIdx (v : Z) (n : RenderNode) : RenderNode :=
  mkRenderNode (NodeType n) (ForceSeparateCmdList n) (Dlg n) (Inputs n)
    (Outputs n) (Barriers n) (Indegree n) (NodeBatchIdx n)
    (HasUnsupportedBarrier n) (GpuDepSourceIdx n) (OutputMask n) v.

(** Modelled from the spec: the constructor [AggregateRenderNode(bool)] is
    declared in RenderGraph.h: a new aggregate has no callbacks and no
    barriers, no GPU dependency and no merged command list ("absent" is
    [-1]), and none of its flags set. *)
Definition AggregateRenderNode_new (isAsyncCompute : bool) : AggregateRenderNode :=
  mkAggregateRenderNode isAsyncCompute false [] [] 0 INVALID_NODE_HANDLE false
    false false false (-1).

Definition is_empty {A} (l : list A) : bool :=
  match l with [] => true | _ :: _ => false end.

(** [AggregateRenderNode::Append] (lines 75-107), the name apart. *)
Definition Append (node : RenderNode) (mappedGpeDepIdx : Z)
    (forceSeparate : bool) (a : AggregateRenderNode) : result AggregateRenderNode :=
  (_ <- Assert (Bool.eqb (IsAsyncCompute a) (is_ASYNC_COMPUTE (NodeType node)))
          "All the nodes in an AggregateRenderNode must have the same type." ;;
   _ <- Assert (is_empty (Dlgs a) || (NodeBatchIdx node =? BatchIdx a))
          "All the nodes in an AggregateRenderNode must have the same batch index." ;;
   _ <- Assert (negb forceSeparate || is_empty (Dlgs a))
          "Aggregate nodes with forceSeparate flag can't have more than one task." ;;
   _ <- Assert (negb (HasUnsupportedBarrier node)
                || is_ASYNC_COMPUTE (NodeType node))
          "Invalid condition." ;;
   Ok (mkAggregateRenderNode (IsAsyncCompute a) forceSeparate
         (Dlgs a ++ [Dlg node]) (AggBarriers a ++ Barriers node)
         (NodeBatchIdx node) (Z.max (GpuDepIdx a) mappedGpeDepIdx)
         (if negb (AggHasUnsupportedBarrier a)
          then HasUnsupportedBarrier node else true)
         (IsLast a) (MergeStart a) (MergeEnd a) (MergedCmdListIdx a)))%result.

(** [m_aggregateNodes.back()] replaced. *)
Definition set_back {A} (l : list A) (v : A) : list A :=
  match l with
  | [] => []
  | _ => removelast l ++ [v]
  end.

(** The steps shared by the three loops that append node [n] to the last
    aggregate (lines 816-826, 843-850 and 877-883). *)
Definition Join_append (n : nat) (forceSeparate : bool)
    (nodes : list RenderNode) (aggs : list AggregateRenderNode)
  : result (list RenderNode * list AggregateRenderNode) :=
  match nth_error nodes n, aggs with
  | Some node, _ :: _ =>
      let gpuDep := GpuDepSourceIdx node in
      let mappedGpuDepIdx :=
        if gpuDep =? -1 then -1
        else AggNodeIdx (nth (Z.to_nat gpuDep) nodes default_RenderNode) in
      (_ <- Assert ((gpuDep =? -1) || negb (mappedGpuDepIdx =? -1))
              "Aggregate node of GPU dependency should come before the dependent node." ;;
       back <- Append node mappedGpuDepIdx forceSeparate
                 (last aggs (AggregateRenderNode_new false)) ;;
       Ok (upd nodes n
             (set_AggNodeIdx (int16 (Z.of_nat (List.length aggs)) - 1) node),
           set_back aggs back))%result
  | _, _ => AssertFail "bug"
  end.

Fixpoint Join_append_all (ns : list nat) (nodes : list RenderNode)
    (aggs : list AggregateRenderNode)
  : result (list RenderNode * list AggregateRenderNode) :=
  match ns with
  | [] => Ok (nodes, aggs)
  | n :: ns' =>
      ('(nodes1, aggs1) <- Join_append n false nodes aggs ;;
       Join_append_all ns' nodes1 aggs1)%result
  end.

(** The lambda [insertAggRndrNode] (lines 803-853) on the two buckets. *)
Definition insertAggRndrNode (nonAsyncComputeNodes asyncComputeNodes : list nat)
    (nodes : list RenderNode) (aggs : list AggregateRenderNode)
  : result (list RenderNode * list AggregateRenderNode) :=
  (_ <- Assert (negb (is_empty nonAsyncComputeNodes)
                || negb (is_empty asyncComputeNodes)) "bug" ;;
   '(nodes1, aggs1) <-
     (if negb (is_empty asyncComputeNodes) then
        let hasGpuFence :=
          existsb (fun n => negb (GpuDepSourceIdx (nth n nodes default_RenderNode) =? -1))
                  asyncComputeNodes in
        let hasUnsupportedBarrier :=
          existsb (fun n => HasUnsupportedBarrier (nth n nodes default_RenderNode))
                  asyncComputeNodes in
        '(nodes1, aggs1) <- Join_append_all asyncComputeNodes nodes
                              (aggs ++ [AggregateRenderNode_new true]) ;;
        let back := last aggs1 (AggregateRenderNode_new true) in
        Ok (nodes1,
            set_back aggs1
              (mkAggregateRenderNode (IsAsyncCompute back) (ForceSeparate back)
                 (Dlgs back) (AggBarriers back) (BatchIdx back)
                 (if hasGpuFence && hasUnsupportedBarrier
                  then -1 else GpuDepIdx back)
                 (AggHasUnsupportedBarrier back) (IsLast back)
                 (MergeStart back) (MergeEnd back) (MergedCmdListIdx back)))
      else Ok (nodes, aggs)) ;;
   if negb (is_empty nonAsyncComputeNodes) then
     Join_append_all nonAsyncComputeNodes nodes1
       (aggs1 ++ [AggregateRenderNode_new false])
   else Ok (nodes1, aggs1))%result.

(** The locals of [JoinRenderNodes] and the two arrays it writes. *)
Record JoinState : Type := mkJoinState {
  currBatchIdx         : Z;
  nonAsyncComputeNodes : list nat;
  asyncComputeNodes    : list nat;
  joinNodes            : list RenderNode;
  joinAggregates       : list AggregateRenderNode
}.

(** The body of the loop over the nodes (lines 855-892). *)
Definition Join_step (currNode : nat) (s : JoinState) : result JoinState :=
  match nth_error (joinNodes s) currNode with
  | None => AssertFail "bug"
  | Some node =>
      (s1 <-
         (if negb (NodeBatchIdx node =? currBatchIdx s) then
            '(nodes1, aggs1) <-
              (if negb (is_empty (nonAsyncComputeNodes s))
                  || negb (is_empty (asyncComputeNodes s))
               then insertAggRndrNode (nonAsyncComputeNodes s)
                      (asyncComputeNodes s) (joinNodes s) (joinAggregates s)
               else Ok (joinNodes s, joinAggregates s)) ;;
            Ok (mkJoinState (NodeBatchIdx node)
                  (if negb (is_empty (nonAsyncComputeNodes s))
                      || negb (is_empty (asyncComputeNodes s))
                   then [] else nonAsyncComputeNodes s)
                  (if negb (is_empty (nonAsyncComputeNodes s))
                      || negb (is_empty (asyncComputeNodes s))
                   then [] else asyncComputeNodes s)
                  nodes1 aggs1)
          else Ok s) ;;
       if ForceSeparateCmdList node then
         '(nodes1, aggs1) <-
           Join_append currNode true (joinNodes s1)
             (joinAggregates s1
                ++ [AggregateRenderNode_new (is_ASYNC_COMPUTE (NodeType node))]) ;;
         Ok (mkJoinState (currBatchIdx s1) (nonAsyncComputeNodes s1)
               (asyncComputeNodes s1) nodes1 aggs1)
       else if is_ASYNC_COMPUTE (NodeType node) then
         Ok (mkJoinState (currBatchIdx s1) (nonAsyncComputeNodes s1)
               (asyncComputeNodes s1 ++ [currNode]) (joinNodes s1)
               (joinAggregates s1))
       else
         Ok (mkJoinState (currBatchIdx s1) (nonAsyncComputeNodes s1 ++ [currNode])
               (asyncComputeNodes s1) (joinNodes s1) (joinAggregates s1)))%result
  end.

Fixpoint Join_loop (currNodes : list nat) (s : JoinState) : result JoinState :=
  match currNodes with
  | [] => Ok s
  | currNode :: currNodes' =>
      (s1 <- Join_step currNode s ;; Join_loop currNodes' s1)%result
  end.

(** [RenderGraph::JoinRenderNodes]. *)
Definition JoinRenderNodes (g : Graph) : result Graph :=
  (s <- Join_loop (seq 0 (List.length (m_renderNodes g)))
          (mkJoinState 0 [] [] (m_renderNodes g) (m_aggregateNodes g)) ;;
   '(nodes, aggs) <- insertAggRndrNode (nonAsyncComputeNodes s)
                       (asyncComputeNodes s) (joinNodes s) (joinAggregates s) ;;
   let back := last aggs (AggregateRenderNode_new false) in
   Ok (set_aggregateNodes
         (set_back aggs
            (mkAggregateRenderNode (IsAsyncCompute back) (ForceSeparate back)
               (Dlgs back) (AggBarriers back) (BatchIdx back) (GpuDepIdx back)
               (AggHasUnsupportedBarrier back) true (MergeStart back)
               (MergeEnd back) (MergedCmdListIdx back)))
         (set_renderNodes nodes g)))%result.

(* ---------------------------------------------------------------------- *)
(** ** MergeSmallNodes (lines 899-957) *)

Definition set_Merge (start end_ : bool) (idx : Z) (a : AggregateRenderNode)
  : AggregateRenderNode :=
  mkAggregateRenderNode (IsAsyncCompute a) (ForceSeparate a) (Dlgs a)
    (AggBarriers a) (BatchIdx a) (GpuDepIdx a) (AggHasUnsupportedBarrier a)
    (IsLast a) start end_ idx.

(** The three locals of the function. *)
Record MergeLocals : Type := mkMergeLocals {
  currOffset : Z;
  cmdListIdx : Z;
  currCount  : Z
}.

(** The test of line 909. *)
Definition mergeable (node : AggregateRenderNode) : bool :=
  negb (IsAsyncCompute node) && negb (ForceSeparate node)
  && Nat.eqb (List.length (Dlgs node)) 1.

(** The block [if (currCount) { ... }] that ends a run, on the aggregate
    [prev] at position [prevIdx] (lines 918-934 and 941-957). *)
Definition Merge_close (aggs : list AggregateRenderNode) (prevIdx : nat)
    (l : MergeLocals) : result (list AggregateRenderNode * Z) :=
  if negb (currCount l =? 0) then
    match nth_error aggs prevIdx with
    | None => Ok (aggs, cmdListIdx l)
    | Some prev =>
        if currCount l =? 1 then
          (_ <- Assert (MergeStart prev && negb (MergedCmdListIdx prev =? -1)) "bug" ;;
           Ok (upd aggs prevIdx
                 (set_Merge false (MergeEnd prev) (MergedCmdListIdx prev - 1) prev),
               cmdListIdx l))%result
        else
          Ok (upd aggs prevIdx
                (set_Merge (MergeStart prev) true (MergedCmdListIdx prev) prev),
              cmdListIdx l + 1)
    end
  else Ok (aggs, cmdListIdx l).

(** The loop of lines 905-939: [k] iterations from [nodeIdx]. *)
Fixpoint Merge_loop (k nodeIdx : nat) (aggs : list AggregateRenderNode)
    (l : MergeLocals) : result (list AggregateRenderNode * MergeLocals) :=
  match k with
  | O => Ok (aggs, l)
  | S k' =>
      match nth_error aggs nodeIdx with
      | None => Ok (aggs, l)
      | Some node =>
          if mergeable node then
            let node1 :=
              set_Merge (currOffset l =? -1) (MergeEnd node) (cmdListIdx l) node in
            Merge_loop k' (S nodeIdx) (upd aggs nodeIdx node1)
              (mkMergeLocals
                 (if currOffset l =? -1 then Z.of_nat nodeIdx else currOffset l)
                 (cmdListIdx l) (currCount l + 1))
          else
            ('(aggs1, cmdListIdx1) <- Merge_close aggs (nodeIdx - 1) l ;;
             Merge_loop k' (S nodeIdx) aggs1 (mkMergeLocals (-1) cmdListIdx1 0))%result
      end
  end.

(** [RenderGraph::MergeSmallNodes]: the aggregates after merging and the
    number of merged command lists. *)
Definition MergeSmallNodes (aggs : list AggregateRenderNode)
  : result (list AggregateRenderNode * Z) :=
  ('(aggs1, l) <- Merge_loop (List.length aggs) 0 aggs (mkMergeLocals (-1) 0 0) ;;
   Merge_close aggs1 (List.length aggs1 - 1) l)%result.

(* ---------------------------------------------------------------------- *)
(** ** Build, as far as the barriers *)

(** Insertion of [x] behind the elements that compare less than it. *)
Fixpoint insert_sorted (comp : nat -> nat -> bool) (x : nat) (l : list nat)
  : list nat :=
  match l with
  | [] => [x]
  | y :: l' => if comp y x then y :: insert_sorted comp x l' else x :: l
  end.

(** Insertion sort, what the implementations of [std::sort] run on short
    ranges; it keeps equivalent elements in their order. *)
Definition insertion_sort (comp : nat -> nat -> bool) (l : list nat) : list nat :=
  fold_right (insert_sorted comp) [] l.

(** A sort that meets the contract of [std::sort] and reverses equivalent
    elements. *)
Definition reversing_sort (comp : nat -> nat -> bool) (l : list nat) : list nat :=
  insertion_sort comp (rev l).

Section BuildPasses.
Context {L : Limits}.

(** [RenderGraph::Build] up to and including [InsertResourceBarriers]. *)
Definition Build_barriers
    (std_sort : (nat -> nat -> bool) -> list nat -> list nat)
    (backBufferID : Z) (g : Graph) : result Graph :=
  ('(g1, adj) <- Build_edges g ;;
   g2 <- Sort std_sort adj g1 ;;
   InsertResourceBarriers backBufferID g2)%result.

(** [RenderGraph::Build] up to and including [MergeSmallNodes]; the task
    graph apart, this is all of [Build]. *)
Definition Build_aggregates
    (std_sort : (nat -> nat -> bool) -> list nat -> list nat)
    (backBufferID : Z) (g : Graph) : result Graph :=
  (g1 <- Build_barriers std_sort backBufferID g ;;
   g2 <- JoinRenderNodes g1 ;;
   '(aggs, _) <- MergeSmallNodes (m_aggregateNodes g2) ;;
   Ok (set_aggregateNodes aggs g2))%result.

(** A sequence of declarations, stopping at the first failing [Assert]. *)
Fixpoint declare (calls : list (Graph -> Graph * Exit)) (g : Graph)
  : Graph * Exit :=
  match calls with
  | [] => (g, Returned)
  | call :: calls' =>
      match call g with
      | (g1, Returned) => declare calls' g1
      | (g1, Asserted msg) => (g1, Asserted msg)
      end
  end.

(** [RegisterRenderPass] without its handle. *)
Definition RegisterRenderPass_ (t : RENDER_NODE_TYPE) (dlg : nat)
    (forceSeparateCmdList : bool) (g : Graph) : Graph * Exit :=
  let '(g1, _, e) := RegisterRenderPass t dlg forceSeparateCmdList g in (g1, e).

(** [MoveToPostRegister] on a table that was registered in the order of its
    ids. *)
Definition MoveToPostRegister_ (g : Graph) : Graph * Exit :=
  MoveToPostRegister (m_frameResources g) g.

End BuildPasses.

(** The graph after [BeginFrame] on a first frame; [m_mapping] has
    [MAX_NUM_RENDER_PASSES] entries. *)
Definition first_frame (maxPasses : nat) : Graph :=
  mkGraph [] 0 [] (repeat 0%nat maxPasses) [] true true.

(* ---------------------------------------------------------------------- *)
(** ** Graph vocabulary used by the statements *)

(** The producers of the resource that [input] names, as [Build] looks them
    up; [None] when the resource is not in the table. *)
Definition input_producers (g : Graph) (input : Dependency) : option (list nat) :=
  let idx := FindFrameResource_all g (ResID input) in
  if idx =? -1 then None
  else option_map Producers (nth_error (m_frameResources g) (Z.to_nat idx)).

(** What one input with producer list [prods] adds to the in-degree of node
    [N]: [-1] when there is no producer and [k - 1] for [k > 0] producers,
    less one for every producer that is [N] itself. *)
Definition indegree_term (N : nat) (prods : list nat) : Z :=
  (if Z.of_nat (List.length prods) =? 0 then -1
   else Z.of_nat (List.length prods) - 1)
  - Z.of_nat (count_occ Nat.eq_dec prods N).

(** The producers of an input from which an edge to [N] is added. *)
Definition edge_sources (N : nat) (prods : list nat) : list nat :=
  filter (fun p => negb (Nat.eqb N p)) prods.

(** Position of the first output that names [resID]. *)
Fixpoint first_output (outputs : list Dependency) (resID : Z) : option nat :=
  match outputs with
  | [] => None
  | o :: outputs' =>
      if ResID o =? resID then Some O
      else option_map S (first_output outputs' resID)
  end.

(** The widest pass whose mask bits [1 << i] are all defined [int]
    values. *)
Definition MAX_MASKED_OUTPUTS : nat := 31.

(** The successors of handle [h] in the adjacency map. *)
Definition successors (adj : Adjacency) (h : nat) : list nat := nth h adj [].

(** Number of edges that end in [m]. *)
Definition in_degree (adj : Adjacency) (m : nat) : nat :=
  count_occ Nat.eq_dec (concat adj) m.

(** The values that fit an [int16]. *)
Definition in_int16 (z : Z) : Prop := -32768 <= z <= 32767.

(** The in-degrees stored in the nodes are those of the adjacency map, whose
    edges stay among the nodes. *)
Definition consistent (nodes : list RenderNode) (adj : Adjacency) : Prop :=
  List.length adj = List.length nodes /\
  map Indegree nodes
    = map (fun m => Z.of_nat (in_degree adj m)) (seq 0 (List.length nodes)) /\
  Forall (Forall (fun m => (m < List.length nodes)%nat)) adj /\
  Forall (fun n => Indegree n <= 32767) nodes.

(** The graph is acyclic: its nodes can be ranked so that every edge goes
    to a node of higher rank. *)
Definition is_DAG (adj : Adjacency) : Prop :=
  exists rank : nat -> nat,
    forall p m, In m (successors adj p) -> (rank p < rank m)%nat.



(** The producer list of an input, empty when the resource is unknown. *)
Definition producers_of (g : Graph) (input : Dependency) : list nat :=
  match input_producers g input with
  | Some prods => prods
  | None => []
  end.

(** Output [j] of [node] is the first output that names the resource of an
    input of which node [N] is itself a producer: the resource is
    ping-ponged between an input and an output of the pass. *)
Definition ping_pong_output (g : Graph) (N : nat) (node : RenderNode) (j : nat)
  : Prop :=
  exists input,
    In input (Inputs node) /\
    In N (producers_of g input) /\
    first_output (Outputs node) (ResID input) = Some j.

(** In-degree of node [N] as the edge construction is described: the number
    of its inputs, plus the term of every input. *)
Definition expected_Indegree (g : Graph) (N : nat) (node : RenderNode) : Z :=
  Z.of_nat (List.length (Inputs node))
  + fold_right Z.add 0
      (map (fun input => indegree_term N (producers_of g input)) (Inputs node)).

(** Output mask of node [N]: for every input that [N] itself produces, the
    bit of the first output that names the resource of the input. *)
Definition expected_OutputMask (g : Graph) (N : nat) (node : RenderNode) : Z :=
  fold_left
    (fun mask input =>
       if existsb (Nat.eqb N) (producers_of g input)
       then mark_output (Outputs node) 0 (ResID input) mask
       else mask)
    (Inputs node) (OutputMask node).

(** The producers from which node [N] receives an edge, one entry per
    producer slot of each input. *)
Definition node_edge_sources (g : Graph) (N : nat) (node : RenderNode) : list nat :=
  flat_map (fun input => edge_sources N (producers_of g input)) (Inputs node).

(** Successors of [p]: every node [M], in handle order from [first] on,
    once for each slot in which [p], distinct from [M], produces an input
    of [M]. *)
Fixpoint expected_successors (g : Graph) (first : nat) (nodes : list RenderNode)
    (p : nat) : list nat :=
  match nodes with
  | [] => []
  | node :: nodes' =>
      repeat first (count_occ Nat.eq_dec (node_edge_sources g first node) p)
      ++ expected_successors g (S first) nodes' p
  end.

(** A node with its in-degree and output mask replaced. *)
Definition with_Indegree_OutputMask (d mask : Z) (node : RenderNode) : RenderNode :=
  set_OutputMask mask (set_Indegree d node).

(** What [Build] asks of the declarations of a node [N]: its inputs name
    known resources, it has an output when it produces one of its inputs,
    the handles of the producers are those of nodes, and inputs and
    producers together fit the [int16] in-degree. *)
Definition well_declared (g : Graph) (N : nat) (node : RenderNode) : Prop :=
  Forall (fun input => input_producers g input <> None) (Inputs node) /\
  (In N (flat_map (producers_of g) (Inputs node)) -> Outputs node <> []) /\
  Forall (fun p => (p < List.length (m_renderNodes g))%nat)
         (flat_map (producers_of g) (Inputs node)) /\
  Z.of_nat (List.length (Inputs node))
  + Z.of_nat (List.length (flat_map (producers_of g) (Inputs node))) <= 32767.

(** The nodes as the edge construction leaves them, from handle [first]
    on. *)
Fixpoint expected_nodes (g : Graph) (first : nat) (nodes : list RenderNode)
  : list RenderNode :=
  match nodes with
  | [] => []
  | node :: nodes' =>
      with_Indegree_OutputMask (expected_Indegree g first node)
        (expected_OutputMask g first node) node
      :: expected_nodes g (S first) nodes'
  end.

(** Edges into [m] that leave the sources [l]. *)
Definition visited_edges (adj : Adjacency) (l : list nat) (m : nat) : nat :=
  count_occ Nat.eq_dec (flat_map (successors adj) l) m.

(** The state of Kahn's loop on a graph of [n] nodes after the edges with
    targets [done] have been followed: every in-degree is what remains to
    be followed, and [sorted] holds, once each, the nodes with nothing
    left. *)
Definition kahn_inv (adj : Adjacency) (n : nat) (nodes : list RenderNode)
    (sorted done : list nat) : Prop :=
  List.length nodes = n /\
  NoDup sorted /\
  Forall (fun m => (m < n)%nat) sorted /\
  (forall m node,
      nth_error nodes m = Some node ->
      Indegree node
      = Z.of_nat (in_degree adj m) - Z.of_nat (count_occ Nat.eq_dec done m)) /\
  (forall m, (m < n)%nat ->
             In m sorted <-> count_occ Nat.eq_dec done m = in_degree adj m).

(** Both cursors of the barrier pass are at or above their initial value. *)
Definition cursors_nonneg (c : Cursors) : Prop :=
  0 <= lastDirQueueHandle c /\ 0 <= lastComputeQueueHandle c.

(* ---------------------------------------------------------------------- *)
(** ** Orders of the nodes *)

(** The order [l] is topological: every handle in it comes after the
    sources of all the edges that end in it. *)
Definition topological (adj : Adjacency) (l : list nat) : Prop :=
  forall j m, nth_error l j = Some m ->
    forall p, In m (successors adj p) -> In p (firstn j l).

(** Position of the first occurrence of [x] in [l]. *)
Fixpoint position (x : nat) (l : list nat) : nat :=
  match l with
  | [] => O
  | y :: l' => if Nat.eqb x y then O else S (position x l')
  end.

(** No edge leads back: no handle of [l] is a successor of itself or of a
    handle behind it. *)
Definition no_back_edge (adj : Adjacency) (l : list nat) : Prop :=
  forall l1 h l2, l = l1 ++ h :: l2 ->
    forall q, In q (h :: l2) -> ~ In h (successors adj q).

(** The batch index of the pass with handle [h] after [Sort]. *)
Definition sorted_batch (g : Graph) (h : nat) : Z :=
  NodeBatchIdx (nth (nth h (m_mapping g) 0%nat) (m_renderNodes g) default_RenderNode).

(* ---------------------------------------------------------------------- *)
(** ** MergeSmallNodes: the validation of the debug build (lines 978-1006) *)

(** The validation at the end of [MergeSmallNodes] (lines 979-1005, debug
    builds); [inMerged] and [currCount] are its locals. *)
Fixpoint Merge_validate (aggs : list AggregateRenderNode) (inMerged : bool)
    (currCount : Z) : result unit :=
  match aggs with
  | [] => Ok tt
  | a :: aggs' =>
      (_ <- Assert (negb inMerged || negb (MergeStart a))
              "RenderGraph: merge validation failed." ;;
       _ <- Assert (inMerged || negb (MergeEnd a))
              "RenderGraph: merge validation failed." ;;
       let inMerged := if MergeStart a then true else inMerged in
       let currCount := if inMerged then currCount + 1 else currCount in
       if MergeEnd a then
         _ <- Assert (negb (MergeStart a)) "RenderGraph: merge validation failed." ;;
         _ <- Assert inMerged "RenderGraph: merge validation failed." ;;
         _ <- Assert (1 <? currCount) "RenderGraph: merge validation failed." ;;
         Merge_validate aggs' false 0
       else Merge_validate aggs' inMerged currCount)%result
  end.

(** [RenderGraph::MergeSmallNodes] of a debug build: the merge, then its
    validation. *)
Definition MergeSmallNodes_validated (aggs : list AggregateRenderNode)
  : result (list AggregateRenderNode * Z) :=
  ('(aggs1, n) <- MergeSmallNodes aggs ;;
   _ <- Merge_validate aggs1 false 0 ;;
   Ok (aggs1, n))%result.

(** An aggregate that no merge has marked. *)
Definition unmerged (a : AggregateRenderNode) : Prop :=
  MergeStart a = false /\ MergeEnd a = false /\ MergedCmdListIdx a = -1.

(** Every index of a merged command list is [-1] or below [n]. *)
Definition merged_below (n : Z) (l : list AggregateRenderNode) : Prop :=
  Forall (fun a => -1 <= MergedCmdListIdx a < n) l.

(** The aggregates of a run that the merge loop has not closed yet: the
    first is marked as the start, all carry the command-list index [idx]. *)
Definition open_run (run : list AggregateRenderNode) (idx : Z) : Prop :=
  match run with
  | [] => True
  | first :: others =>
      MergeStart first = true /\ MergeEnd first = false /\
      Forall (fun a => MergeStart a = false /\ MergeEnd a = false) others /\
      Forall (fun a => MergedCmdListIdx a = idx) run
  end.

(** The validation passes over [done] and leaves it outside a run. *)
Definition valid_closed (done : list AggregateRenderNode) : Prop :=
  forall rest, Merge_validate (done ++ rest) false 0 = Merge_validate rest false 0.

(** What the merge writes: the three merge fields. *)
Definition same_but_merge (a b : AggregateRenderNode) : Prop :=
  IsAsyncCompute a = IsAsyncCompute b /\ ForceSeparate a = ForceSeparate b /\
  Dlgs a = Dlgs b /\ AggBarriers a = AggBarriers b /\ BatchIdx a = BatchIdx b /\
  GpuDepIdx a = GpuDepIdx b /\
  AggHasUnsupportedBarrier a = AggHasUnsupportedBarrier b /\ IsLast a = IsLast b.

(** The state of the merge loop in front of position [length (done ++ run)]. *)
Definition merge_inv (done run : list AggregateRenderNode) (l : MergeLocals) : Prop :=
  (valid_closed done /\ merged_below (cmdListIdx l) done) /\
  open_run run (cmdListIdx l) /\
  currCount l = Z.of_nat (length run) /\
  (currOffset l = -1 <-> run = []) /\
  0 <= cmdListIdx l.

(* ---------------------------------------------------------------------- *)
(** ** What the barrier pass writes *)

(** Resource tables that differ in the recorded states only. *)
Definition same_but_State (rs rs' : list ResourceMetadata) : Prop :=
  map (set_State 0) rs = map (set_State 0) rs'.

(** Nodes that differ in what the barrier pass writes only: the barriers,
    the flag of an unsupported barrier and the GPU dependency. *)
Definition same_but_barriers (n n' : RenderNode) : Prop :=
  NodeType n = NodeType n' /\
  ForceSeparateCmdList n = ForceSeparateCmdList n' /\
  Dlg n = Dlg n' /\ Inputs n = Inputs n' /\ Outputs n = Outputs n' /\
  Indegree n = Indegree n' /\ NodeBatchIdx n = NodeBatchIdx n' /\
  OutputMask n = OutputMask n' /\ AggNodeIdx n = AggNodeIdx n'.

(** The barrier [b] is a transition for one of the dependencies [deps]: it
    leaves a state that shares no bit with the state the dependency
    expects, which it enters, and its resource is the one the table holds
    under the id of the dependency. *)
Definition transition_for (rs : list ResourceMetadata) (deps : list Dependency)
    (b : Barrier) : Prop :=
  intersects (StateBefore b) (StateAfter b) = false /\
  exists d,
    In d deps /\ StateAfter b = ExpectedState d /\
    In (ResID d, barrierRes b) (map (fun r => (ID r, Res r)) rs).

(** The barrier leaves a state that an async-compute command list cannot
    transition from. *)
Definition unsupported_on_compute (b : Barrier) : bool :=
  intersects (StateBefore b) INVALID_COMPUTE_STATES.

(** A node that the barrier pass has not touched. *)
Definition without_barriers (n : RenderNode) : Prop :=
  Barriers n = [] /\ HasUnsupportedBarrier n = false /\
  GpuDepSourceIdx n = INVALID_NODE_HANDLE.

(** The sorted index [d] is that of a producer [h] of one of the inputs
    [inputs], which runs on the other queue than [node] and has a smaller
    batch index. *)
Definition fence_source (g : Graph) (rs : list ResourceMetadata)
    (inputs : list Dependency) (node : RenderNode) (d : Z) : Prop :=
  exists input prods h,
    In input inputs /\
    In (ResID input, prods) (map (fun r => (ID r, Producers r)) rs) /\
    In h prods /\
    let producer :=
      nth (nth h (m_mapping g) 0%nat) (m_renderNodes g) default_RenderNode in
    d = Z.of_nat (nth h (m_mapping g) 0%nat) /\
    is_ASYNC_COMPUTE (NodeType producer) = negb (is_ASYNC_COMPUTE (NodeType node)) /\
    NodeBatchIdx producer < NodeBatchIdx node.

(** What the barrier pass leaves of [node]: [node'], with new barriers
    behind those of [node], each a transition for an input or an output of
    the node, and flagged when the node runs on the compute queue and one
    of the new barriers is unsupported there. *)
Definition barrier_result (rs : list ResourceMetadata) (node node' : RenderNode)
  : Prop :=
  same_but_barriers node node' /\
  exists new,
    Barriers node' = Barriers node ++ new /\
    Forall (transition_for rs (Inputs node ++ Outputs node)) new /\
    HasUnsupportedBarrier node'
    = HasUnsupportedBarrier node
      || (is_ASYNC_COMPUTE (NodeType node) && existsb unsupported_on_compute new).

(* ---------------------------------------------------------------------- *)
(** ** The resource table between the frames *)

(** The ids of the table grow strictly over its first [n] entries. *)
Definition sorted_by_ID (n : nat) (rs : list ResourceMetadata) : Prop :=
  StronglySorted Z.lt (map ID (firstn n rs)).

(** [RenderGraph::BeginFrame].  The producers of every resource and the
    render nodes are reset, the resources themselves are kept; with
    [m_currRenderPassIdx] at zero the node table is empty. *)
Definition BeginFrame (g : Graph) : Graph * Exit :=
  if negb (negb (m_inBeginEndBlock g) && negb (m_inPreRegister g))
  then (g, Asserted "Invalid call.")
  else
    (mkGraph
       (map (fun rm => mkResourceMetadata (ID rm) (Res rm) (State rm)
                         (IsWindowSizeDependent rm) [])
            (m_frameResources g))
       (m_lastResIdx g) [] (m_mapping g) [] true true,
     Returned).

(** [std::sort] of the resource table by id (lines 283-287): a permutation
    in non-descending order of the ids. *)
Definition std_sort_by_ID_contract
    (std_sort : list ResourceMetadata -> list ResourceMetadata) : Prop :=
  forall l,
    Permutation l (std_sort l) /\
    StronglySorted (fun lhs rhs => ID lhs <= ID rhs) (std_sort l).

(** The check of the debug build (lines 290-300): two neighbours of the
    sorted table have the same id. *)
Fixpoint has_duplicate (rs : list ResourceMetadata) : bool :=
  match rs with
  | [] => false
  | lhs :: rs' =>
      match rs' with
      | [] => false
      | rhs :: _ => (ID lhs =? ID rhs) || has_duplicate rs'
      end
  end.

(** The first of the first two neighbours with one id, which is the entry
    [m_frameResources[i]] of the check of lines 290-300 when it finds a
    duplicate. *)
Fixpoint first_duplicate (rs : list ResourceMetadata) : option ResourceMetadata :=
  match rs with
  | [] => None
  | lhs :: rs' =>
      match rs' with
      | [] => None
      | rhs :: _ => if ID lhs =? ID rhs then Some lhs else first_duplicate rs'
      end
  end.

(** How a call that reads through a pointer ends: as other calls do, or in
    the dereference of a null pointer. *)
Inductive DebugExit : Type :=
| Exits (e : Exit)
| NullDereference.

(** [RenderGraph::MoveToPostRegister] in a debug build (lines 277-304),
    over the implementation [std_sort] of [std::sort]: before the assert
    on a duplicate the debug name of the entry is read through its [Res]
    pointer (line 296), which is null for an entry registered without a
    resource. *)
Definition MoveToPostRegister_debug
    (std_sort : list ResourceMetadata -> list ResourceMetadata) (g : Graph)
  : Graph * DebugExit :=
  if negb (m_inBeginEndBlock g && m_inPreRegister g)
  then (g, Exits (Asserted "Invalid call."))
  else
    let sorted := std_sort (m_frameResources g) in
    match first_duplicate sorted with
    | Some lhs =>
        if Res lhs =? nullptr
        then (set_frameResources sorted g, NullDereference)
        else (set_frameResources sorted g,
              Exits (Asserted "Duplicate entries for resource."))
    | None =>
        let '(g', e) := MoveToPostRegister sorted g in (g', Exits e)
    end.

(** Insertion of a resource behind the entries of smaller or equal id, and
    the insertion sort of a table by id. *)
Fixpoint insert_by_ID (x : ResourceMetadata) (l : list ResourceMetadata)
  : list ResourceMetadata :=
  match l with
  | [] => [x]
  | y :: l' => if ID x <? ID y then x :: l else y :: insert_by_ID x l'
  end.

Definition insertion_sort_by_ID (l : list ResourceMetadata) : list ResourceMetadata :=
  fold_right insert_by_ID [] l.

(* ---------------------------------------------------------------------- *)
(** ** BuildTaskGraph: the edges between the tasks (lines 541-558) *)

(** The loop over [j] (lines 545-557) for the aggregate [i] of batch index
    [currBatchIdx], over the aggregates [aggs] from position [j] on.  An
    edge is a call of [ts.AddOutgoingEdge], written as the pair of the
    positions of the two aggregates whose tasks it joins. *)
Fixpoint TaskGraph_edges_from (i : nat) (currBatchIdx : Z) (j : nat)
    (aggs : list AggregateRenderNode) : list (nat * nat) :=
  match aggs with
  | [] => []
  | next :: aggs' =>
      let nextBatchIdx := BatchIdx next in
      if currBatchIdx + 1 <? nextBatchIdx then []
      else
        (if nextBatchIdx =? currBatchIdx + 1 then [(i, j)] else [])
        ++ (if (nextBatchIdx =? currBatchIdx) && ForceSeparate next
            then [(i, j)] else [])
        ++ TaskGraph_edges_from i currBatchIdx (S j) aggs'
  end.

(** The loop over [i] (lines 541-558), over the aggregates from position
    [i] on. *)
Fixpoint TaskGraph_edges (i : nat) (aggs : list AggregateRenderNode)
  : list (nat * nat) :=
  match aggs with
  | [] => []
  | curr :: aggs' =>
      TaskGraph_edges_from i (BatchIdx curr) (S i) aggs'
      ++ TaskGraph_edges (S i) aggs'
  end.

(** The edges that [BuildTaskGraph] adds to the task set. *)
Definition BuildTaskGraph_edges (aggs : list AggregateRenderNode) : list (nat * nat) :=
  TaskGraph_edges 0 aggs.

(** The task of [b] is to wait for the task of [a]: [b] is of the next
    batch, or of the same batch and forced onto a command list of its
    own. *)
Definition waits_for (a b : AggregateRenderNode) : Prop :=
  BatchIdx b = BatchIdx a + 1 \/
  (BatchIdx b = BatchIdx a /\ ForceSeparate b = true).

(* ---------------------------------------------------------------------- *)
(** ** What JoinRenderNodes leaves *)

(** A node without the index of its aggregate, the one field that
    [JoinRenderNodes] writes. *)
Definition unjoined (n : RenderNode) : RenderNode := set_AggNodeIdx 0 n.

(** The pass [node] has been joined into the aggregate at position [p]:
    the aggregate holds its callback, is of its queue and of its batch,
    and is forced onto a command list of its own, which it then has to
    itself, exactly when the pass is. *)
Definition joined_at (aggs : list AggregateRenderNode) (p : nat)
    (node : RenderNode) : Prop :=
  exists a,
    nth_error aggs p = Some a /\
    In (Dlg node) (Dlgs a) /\
    IsAsyncCompute a = is_ASYNC_COMPUTE (NodeType node) /\
    BatchIdx a = NodeBatchIdx node /\
    ForceSeparate a = ForceSeparateCmdList node /\
    (ForceSeparate a = true -> Dlgs a = [Dlg node]).

(** The same, for the aggregate that [AggNodeIdx] names. *)
Definition joined (aggs : list AggregateRenderNode) (node : RenderNode) : Prop :=
  0 <= AggNodeIdx node /\ joined_at aggs (Z.to_nat (AggNodeIdx node)) node.

(** Between two states of the join the passes [ns] have been joined, in
    this order, into aggregates pushed behind [aggs]: the other passes are
    untouched, the joined ones have only their [AggNodeIdx] written, with
    the narrowed size of the aggregate array less one, and the new
    aggregates hold the callbacks of [ns], none of them empty or marked as
    the last, each with the batch index of one of [ns]. *)
Definition join_ext (ns : list nat)
    (nodes : list RenderNode) (aggs : list AggregateRenderNode)
    (nodes' : list RenderNode) (aggs' : list AggregateRenderNode) : Prop :=
  map unjoined nodes' = map unjoined nodes /\
  (forall i, ~ In i ns ->
     nth i nodes' default_RenderNode = nth i nodes default_RenderNode) /\
  exists new,
    aggs' = aggs ++ new /\
    concat (map Dlgs new)
      = map (fun i => Dlg (nth i nodes default_RenderNode)) ns /\
    Forall (fun a => Dlgs a <> [] /\ IsLast a = false /\
                     exists i, In i ns /\
                       BatchIdx a = NodeBatchIdx (nth i nodes default_RenderNode))
           new /\
    (forall i, In i ns ->
       exists p, (length aggs <= p)%nat /\
         AggNodeIdx (nth i nodes' default_RenderNode)
           = int16 (Z.of_nat (S p)) - 1 /\
         joined_at aggs' p (nth i nodes' default_RenderNode)).

(** The invariant of the loop of [JoinRenderNodes] before node [k]: the
    passes below [k] are joined or wait in one of the two buckets, and no
    pass in a bucket asks for a command list of its own. *)
Definition join_inv (nodes0 : list RenderNode) (aggs0 : list AggregateRenderNode)
    (k : nat) (s : JoinState) : Prop :=
  exists done,
    join_ext done nodes0 aggs0 (joinNodes s) (joinAggregates s) /\
    Permutation (done ++ asyncComputeNodes s ++ nonAsyncComputeNodes s) (seq 0 k) /\
    (forall i, In i (asyncComputeNodes s ++ nonAsyncComputeNodes s) ->
       ForceSeparateCmdList (nth i nodes0 default_RenderNode) = false).

(** The aggregates are in the order of their batch indices, none above
    [c], and the passes that wait in the buckets are of batch [c]. *)
Definition batches_upto (nodes0 : list RenderNode) (c : Z) (s : JoinState) : Prop :=
  StronglySorted Z.le (map BatchIdx (joinAggregates s)) /\
  Forall (fun a => BatchIdx a <= c) (joinAggregates s) /\
  (forall i, In i (asyncComputeNodes s ++ nonAsyncComputeNodes s) ->
     batch_of nodes0 i = c).

(** What the loop of [JoinRenderNodes] keeps before node [k] when the
    passes come in the order of their batch indices: [currBatchIdx] is
    the batch of the pass before [k]. *)
Definition join_batches (nodes0 : list RenderNode) (k : nat) (s : JoinState) : Prop :=
  batches_upto nodes0 (currBatchIdx s) s /\
  match k with
  | O => joinAggregates s = [] /\
         asyncComputeNodes s ++ nonAsyncComputeNodes s = []
  | S j => currBatchIdx s = batch_of nodes0 j
  end.

End RenderGraph.

(* ====================================================================== *)
(** * Scenarios *)
(* ====================================================================== *)

Module Scenarios.
Import RenderGraph.

(** The capacities used by the worked examples. *)
Definition example_Limits : Limits :=
  {| MAX_NUM_RENDER_PASSES := 32;
     MAX_NUM_RESOURCES := 64;
     MAX_NUM_PRODUCERS := 5;
     DUMMY_RES_COUNT := 4 |}.

#[local] Existing Instance example_Limits.

Definition UAV : Z := D3D12_RESOURCE_STATE_UNORDERED_ACCESS.
Definition SR_NP : Z := D3D12_RESOURCE_STATE_NON_PIXEL_SHADER_RESOURCE.

(** A frame with one pass and no resource, in the post-register phase. *)
Definition one_pass_frame_declared : Graph * Exit :=
  Eval vm_compute in
  declare [RegisterRenderPass_ RENDER 0 false; MoveToPostRegister_]
    (first_frame 32).

Definition one_pass_frame : Graph := Eval vm_compute in fst one_pass_frame_declared.

(** Four passes: graphics passes 0 and 1 in a chain, then, both reading the
    output of pass 1, the async-compute pass 2 and the graphics pass 3. *)
Definition merge_scenario_declared : Graph * Exit :=
  Eval vm_compute in
  declare
    [RegisterResource 11 101 D3D12_RESOURCE_STATE_COMMON false;
     RegisterResource 12 102 D3D12_RESOURCE_STATE_COMMON false;
     RegisterResource 13 103 D3D12_RESOURCE_STATE_COMMON false;
     RegisterResource 14 104 D3D12_RESOURCE_STATE_COMMON false;
     RegisterRenderPass_ RENDER 0 false;
     RegisterRenderPass_ RENDER 1 false;
     RegisterRenderPass_ ASYNC_COMPUTE 2 false;
     RegisterRenderPass_ RENDER 3 false;
     MoveToPostRegister_;
     AddOutput 0 101 UAV;
     AddInput 1 101 SR_NP; AddOutput 1 102 UAV;
     AddInput 2 102 SR_NP; AddOutput 2 103 UAV;
     AddInput 3 102 SR_NP; AddOutput 3 104 UAV]
    (first_frame 32).

Definition merge_scenario : Graph := Eval vm_compute in fst merge_scenario_declared.

(** The callbacks, queue, batch and merge fields of an aggregate. *)
Definition merge_fields (a : AggregateRenderNode)
  : list nat * bool * Z * (bool * bool * Z) :=
  (Dlgs a, IsAsyncCompute a, BatchIdx a,
   (MergeStart a, MergeEnd a, MergedCmdListIdx a)).

(** Scenario S2: three graphics passes A, B, C (handles 0, 1, 2) write the
    resources 101, 102, 103; three async-compute passes X, Y, Z (handles
    3, 4, 5) read them. *)
Definition scenario_S2_declared : Graph * Exit :=
  Eval vm_compute in
  declare
    [RegisterResource 11 101 D3D12_RESOURCE_STATE_COMMON false;
     RegisterResource 12 102 D3D12_RESOURCE_STATE_COMMON false;
     RegisterResource 13 103 D3D12_RESOURCE_STATE_COMMON false;
     RegisterRenderPass_ RENDER 0 false;
     RegisterRenderPass_ RENDER 1 false;
     RegisterRenderPass_ RENDER 2 false;
     RegisterRenderPass_ ASYNC_COMPUTE 3 false;
     RegisterRenderPass_ ASYNC_COMPUTE 4 false;
     RegisterRenderPass_ ASYNC_COMPUTE 5 false;
     MoveToPostRegister_;
     AddOutput 0 101 UAV; AddOutput 1 102 UAV; AddOutput 2 103 UAV;
     AddInput 3 101 SR_NP; AddInput 4 102 SR_NP; AddInput 5 103 SR_NP]
    (first_frame 32).

Definition scenario_S2 : Graph := Eval vm_compute in fst scenario_S2_declared.

(** A pass that reads resource 101 as a shader resource and writes it
    as UAV; the resource is in the shader-resource state. *)
Definition ping_pong_declared : Graph * Exit :=
  Eval vm_compute in
  declare
    [RegisterResource 11 101 SR_NP false;
     RegisterRenderPass_ RENDER 0 false;
     MoveToPostRegister_;
     AddInput 0 101 SR_NP; AddOutput 0 101 UAV]
    (first_frame 32).

Definition ping_pong : Graph := Eval vm_compute in fst ping_pong_declared.

(** The same pass with a dummy resource as its first output. *)
Definition ping_pong_dummy_declared : Graph * Exit :=
  Eval vm_compute in
  declare
    [RegisterResource nullptr 1 D3D12_RESOURCE_STATE_COMMON false;
     RegisterResource 11 101 SR_NP false;
     RegisterRenderPass_ RENDER 0 false;
     MoveToPostRegister_;
     AddInput 0 101 SR_NP; AddOutput 0 1 UAV; AddOutput 0 101 UAV]
    (first_frame 32).

Definition ping_pong_dummy : Graph := Eval vm_compute in fst ping_pong_dummy_declared.

(** Passes 0 and 1 write resource 102; pass 2 reads 101 (no producer this
    frame) and 102, and reads and writes 103. *)
Definition edge_example_declared : Graph * Exit :=
  Eval vm_compute in
  declare
    [RegisterResource 11 101 SR_NP false;
     RegisterResource 12 102 D3D12_RESOURCE_STATE_COMMON false;
     RegisterResource 13 103 SR_NP false;
     RegisterRenderPass_ RENDER 0 false;
     RegisterRenderPass_ RENDER 1 false;
     RegisterRenderPass_ RENDER 2 false;
     MoveToPostRegister_;
     AddOutput 0 102 UAV; AddOutput 1 102 UAV;
     AddInput 2 101 SR_NP; AddInput 2 102 SR_NP; AddInput 2 103 SR_NP;
     AddOutput 2 103 UAV]
    (first_frame 32).

Definition edge_example : Graph := Eval vm_compute in fst edge_example_declared.

(** Passes 0 and 1 write resource 102; pass 2 reads 101 (no producer this
    frame) and 102, writes 105, and reads and writes 103 and 104, its
    second and third outputs. *)
Definition mask_example_declared : Graph * Exit :=
  Eval vm_compute in
  declare
    [RegisterResource 11 101 SR_NP false;
     RegisterResource 12 102 D3D12_RESOURCE_STATE_COMMON false;
     RegisterResource 13 103 SR_NP false;
     RegisterResource 14 104 SR_NP false;
     RegisterResource 15 105 D3D12_RESOURCE_STATE_COMMON false;
     RegisterRenderPass_ RENDER 0 false;
     RegisterRenderPass_ RENDER 1 false;
     RegisterRenderPass_ RENDER 2 false;
     MoveToPostRegister_;
     AddOutput 0 102 UAV; AddOutput 1 102 UAV;
     AddInput 2 101 SR_NP; AddInput 2 102 SR_NP; AddInput 2 104 SR_NP;
     AddInput 2 103 SR_NP;
     AddOutput 2 105 UAV; AddOutput 2 103 UAV; AddOutput 2 104 UAV]
    (first_frame 32).

Definition mask_example : Graph := Eval vm_compute in fst mask_example_declared.

(** Two passes without inputs or outputs. *)
Definition two_passes_declared : Graph * Exit :=
  Eval vm_compute in
  declare
    [RegisterRenderPass_ RENDER 0 false;
     RegisterRenderPass_ RENDER 1 false;
     MoveToPostRegister_]
    (first_frame 32).

Definition two_passes : Graph := Eval vm_compute in fst two_passes_declared.



(** [edge_example] after the edge construction. *)
Definition edge_example_built : Graph * Adjacency :=
  Eval vm_compute in
  match Build_edges edge_example with
  | Ok r => r
  | AssertFail _ => (edge_example, [])
  end.

(** A pool with two queued tasks and unfinished work. *)
Definition flush_example : ThreadPool.State :=
  ThreadPool.mkState
    [ThreadPool.mkTask 1 ThreadPool.NORMAL 0 [1];
     ThreadPool.mkTask 2 ThreadPool.NORMAL 1 []] 2 3 5 false [].

(** The same pool after [Start] has published the threads 10 and 20. *)
Definition flush_pool : ThreadPool.Pool :=
  ThreadPool.mkPool flush_example [10; 20] 2 true.

(** Pass 0 reads resource 102 and writes 101, pass 1 reads 101 and writes
    102: the two passes wait for each other. *)
Definition cycle_example_declared : Graph * Exit :=
  Eval vm_compute in
  declare
    [RegisterResource 11 101 D3D12_RESOURCE_STATE_COMMON false;
     RegisterResource 12 102 D3D12_RESOURCE_STATE_COMMON false;
     RegisterRenderPass_ RENDER 0 false;
     RegisterRenderPass_ RENDER 1 false;
     MoveToPostRegister_;
     AddInput 0 102 SR_NP; AddOutput 0 101 UAV;
     AddInput 1 101 SR_NP; AddOutput 1 102 UAV]
    (first_frame 32).

Definition cycle_example : Graph := Eval vm_compute in fst cycle_example_declared.

(** [cycle_example] after the edge construction. *)
Definition cycle_example_built : Graph * Adjacency :=
  Eval vm_compute in
  match Build_edges cycle_example with
  | Ok r => r
  | AssertFail _ => (cycle_example, [])
  end.

(** [edge_example] after [Sort]. *)
Definition edge_example_sorted : Graph :=
  Eval vm_compute in
  match Sort insertion_sort (snd edge_example_built) (fst edge_example_built) with
  | Ok g => g
  | AssertFail _ => fst edge_example_built
  end.

(** The aggregates of [merge_scenario] as [JoinRenderNodes] leaves them. *)
Definition merge_scenario_joined : list AggregateRenderNode :=
  Eval vm_compute in
  match (g1 <- Build_barriers insertion_sort 999 merge_scenario ;;
         JoinRenderNodes g1)%result with
  | Ok g => m_aggregateNodes g
  | AssertFail _ => []
  end.

(** Scenario S2 after [Sort], and after the barrier pass. *)
Definition scenario_S2_sorted : Graph :=
  Eval vm_compute in
  match ('(g1, adj) <- Build_edges scenario_S2 ;; Sort insertion_sort adj g1)%result with
  | Ok g => g
  | AssertFail _ => scenario_S2
  end.

Definition scenario_S2_barriers : Graph :=
  Eval vm_compute in
  match InsertResourceBarriers 999 scenario_S2_sorted with
  | Ok g => g
  | AssertFail _ => scenario_S2_sorted
  end.

(** Three resources registered out of the order of their ids, before
    [MoveToPostRegister]. *)
Definition unsorted_frame_declared : Graph * Exit :=
  Eval vm_compute in
  declare
    [RegisterResource 13 103 SR_NP false;
     RegisterResource 11 101 SR_NP false;
     RegisterResource 12 102 D3D12_RESOURCE_STATE_COMMON true;
     RegisterRenderPass_ RENDER 0 false]
    (first_frame 32).

Definition unsorted_frame : Graph := Eval vm_compute in fst unsorted_frame_declared.

(** A frame with one dummy resource kept from the frame before, in which
    that resource is registered again. *)
Definition duplicate_frame_declared : Graph * Exit :=
  Eval vm_compute in
  declare
    [RegisterResource nullptr 1 D3D12_RESOURCE_STATE_COMMON false;
     RegisterRenderPass_ RENDER 0 false]
    (mkGraph [mkResourceMetadata 1 nullptr D3D12_RESOURCE_STATE_COMMON false []]
       1 [] (repeat 0%nat 32) [] true true).

Definition duplicate_frame : Graph := Eval vm_compute in fst duplicate_frame_declared.

(** The frame after that of [edge_example], begun. *)
Definition second_frame : Graph :=
  Eval vm_compute in fst (BeginFrame (fst edge_example_built)).

(** The aggregates of [merge_scenario] after merging. *)
Definition merge_scenario_aggregates : list AggregateRenderNode :=
  Eval vm_compute in
  match MergeSmallNodes merge_scenario_joined with
  | Ok (aggs, _) => aggs
  | AssertFail _ => []
  end.

(* ---------------------------------------------------------------------- *)
(** ** The joined scenario *)

(** [merge_scenario] after the barrier pass, and after [JoinRenderNodes]. *)
Definition merge_scenario_barriers : Graph :=
  Eval vm_compute in
  match Build_barriers insertion_sort 999 merge_scenario with
  | Ok g => g
  | AssertFail _ => merge_scenario
  end.

Definition merge_scenario_joined_graph : Graph :=
  Eval vm_compute in
  match JoinRenderNodes merge_scenario_barriers with
  | Ok g => g
  | AssertFail _ => merge_scenario_barriers
  end.

(** Pass 0 depends on nothing; passes 1 and 2 wait for each other. *)
Definition late_cycle_declared : Graph * Exit :=
  Eval vm_compute in
  declare
    [RegisterResource 11 101 D3D12_RESOURCE_STATE_COMMON false;
     RegisterResource 12 102 D3D12_RESOURCE_STATE_COMMON false;
     RegisterResource 13 103 D3D12_RESOURCE_STATE_COMMON false;
     RegisterRenderPass_ RENDER 0 false;
     RegisterRenderPass_ RENDER 1 false;
     RegisterRenderPass_ RENDER 2 false;
     MoveToPostRegister_;
     AddOutput 0 103 UAV;
     AddInput 1 102 SR_NP; AddOutput 1 101 UAV;
     AddInput 2 101 SR_NP; AddOutput 2 102 UAV]
    (first_frame 32).

Definition late_cycle : Graph := Eval vm_compute in fst late_cycle_declared.

(** [late_cycle] after the edge construction. *)
Definition late_cycle_built : Graph * Adjacency :=
  Eval vm_compute in
  match Build_edges late_cycle with
  | Ok r => r
  | AssertFail _ => (late_cycle, [])
  end.

End Scenarios.

(* ====================================================================== *)
(** * Properties of the worker pool *)
(* ====================================================================== *)

Module ThreadPoolProofs.
Import ThreadPool Scenarios.

(** A worker thread keeps a background task out of the signal protocol. *)
Lemma worker_events_background (dlg : nat) (h : Z) (adj : list Z) :
  worker_events (mkTask dlg BACKGROUND h adj) = [DoTask dlg].
Proof. reflexivity. Qed.

(** The pump waits for every task it dequeued, whatever its priority. *)
Lemma pump_events_wait (task : Task) :
  In (WaitForAdjacentHeadNodes (GetSignalHandle task)) (pump_events task).
Proof. unfold pump_events. simpl. now left. Qed.

(** The pump signals the dependents of every task that has some. *)
Lemma pump_events_signal (task : Task) :
  GetAdjacencies task <> [] ->
  In (SignalAdjacentTailNodes (GetAdjacencies task)) (pump_events task).
Proof.
  intros Hadj. unfold pump_events.
  destruct (GetAdjacencies task) as [|a l] eqn:E; [contradiction|].
  simpl. right. right. now left.
Qed.

Lemma pump_events_background (dlg : nat) (h : Z) (adj : list Z) :
  no_signal_protocol (pump_events (mkTask dlg BACKGROUND h adj)) = false.
Proof. reflexivity. Qed.

(** One turn of the pump on a non-empty quiescent pool. *)
Lemma PumpUntilEmpty_step (fuel : nat) (task : Task) (q : list Task) (s : State) :
  m_taskQueue s = task :: q ->
  quiescent s ->
  exists s1,
    PumpUntilEmpty (S fuel) s = PumpUntilEmpty fuel s1 /\
    m_taskQueue s1 = q /\ quiescent s1 /\
    m_numTasksFinished s1 = m_numTasksFinished s + 1 /\
    m_numTasksToFinishTarget s1 = m_numTasksToFinishTarget s /\
    trace s1 = trace s ++ pump_events task.
Proof.
  intros Hq Hquiet. unfold quiescent in *.
  rewrite Hq in Hquiet. simpl length in Hquiet.
  eexists. split.
  - simpl. destruct (Z.eqb_spec (m_numTasksInQueue s) 0) as [E|_]; [lia|].
    unfold try_dequeue. rewrite Hq. reflexivity.
  - unfold quiescent. simpl. repeat split; lia.
Qed.

(** On a pool that no other thread touches the pump leaves its loop after
    one turn per queued task, having run them all. *)
Lemma PumpUntilEmpty_drains (q : list Task) :
  forall s,
    m_taskQueue s = q ->
    quiescent s ->
    exists s',
      PumpUntilEmpty (S (length q)) s = Some s' /\
      m_taskQueue s' = [] /\
      m_numTasksInQueue s' = 0 /\
      m_numTasksFinished s' = m_numTasksFinished s + Z.of_nat (length q) /\
      m_numTasksToFinishTarget s' = m_numTasksToFinishTarget s /\
      trace s' = trace s ++ flat_map pump_events q.
Proof.
  induction q as [|task q IH]; intros s Hq Hquiet.
  - exists s. unfold quiescent in Hquiet. rewrite Hq in Hquiet. simpl in *.
    rewrite Hquiet. simpl. rewrite app_nil_r. repeat split; auto; lia.
  - destruct (PumpUntilEmpty_step (S (length q)) Hq Hquiet)
      as (s1 & Hrun & Hq1 & Hquiet1 & Hfin & Htgt & Htr).
    destruct (IH s1 Hq1 Hquiet1) as (s' & Hrun' & Hq' & Hn' & Hfin' & Htgt' & Htr').
    exists s'. simpl length. rewrite Hrun, Hrun'.
    repeat split; auto.
    + rewrite Hfin', Hfin. lia.
    + congruence.
    + rewrite Htr', Htr. simpl. now rewrite <- app_assoc.
Qed.

Lemma FindThreadIdx_from_spec (threadIds : list Z) (tid : Z) :
  forall i,
    (~ In tid threadIds /\ FindThreadIdx_from i threadIds tid = -1) \/
    (exists k,
        FindThreadIdx_from i threadIds tid = i + Z.of_nat k /\
        nth_error threadIds k = Some tid /\
        ~ In tid (firstn k threadIds)).
Proof.
  induction threadIds as [|t rest IH]; intros i.
  - left. split; [intros [] | reflexivity].
  - simpl. destruct (Z.eqb_spec t tid) as [->|Hne].
    + right. exists 0%nat. simpl. split; [lia|]. split; [reflexivity | intros []].
    + destruct (IH (i + 1)) as [[Hnot Hres]|(k & Hres & Hnth & Hfirst)].
      * left. split; [|exact Hres]. intros [C|C]; [congruence | contradiction].
      * right. exists (S k). split; [rewrite Hres; lia|]. split; [exact Hnth|].
        simpl. intros [C|C]; [congruence | contradiction].
Qed.

(** What the loop of the pump has done when it is left, whatever other
    threads did to the counter before: it has run a front part of the queue
    in order, the counter of queued tasks is zero, the target is untouched
    and the counter of finished tasks has grown by one per task run. *)
Lemma PumpUntilEmpty_returns (fuel : nat) :
  forall s s',
    PumpUntilEmpty fuel s = Some s' ->
    m_numTasksInQueue s' = 0 /\
    m_numTasksToFinishTarget s' = m_numTasksToFinishTarget s /\
    m_shutdown s' = m_shutdown s /\
    exists pumped,
      m_taskQueue s = pumped ++ m_taskQueue s' /\
      m_numTasksFinished s' = m_numTasksFinished s + Z.of_nat (length pumped) /\
      m_numTasksInQueue s = Z.of_nat (length pumped) /\
      trace s' = trace s ++ flat_map pump_events pumped.
Proof.
  induction fuel as [|fuel IH]; intros s s' Hrun; [discriminate|].
  simpl in Hrun.
  destruct (Z.eqb_spec (m_numTasksInQueue s) 0) as [E|E].
  - injection Hrun as <-. repeat split; auto.
    exists []. simpl. rewrite app_nil_r. repeat split; auto; lia.
  - unfold try_dequeue in Hrun.
    destruct (m_taskQueue s) as [|task q] eqn:Eq.
    + apply IH in Hrun. rewrite Eq in Hrun. exact Hrun.
    + apply IH in Hrun. cbn in Hrun.
      destruct Hrun as (Hn & Htgt & Hsh & pumped & Hq & Hfin & Hcnt & Htr).
      split; [exact Hn|]. split; [exact Htgt|]. split; [exact Hsh|].
      exists (task :: pumped). cbn [app length flat_map].
      split; [now rewrite Hq|]. split; [lia|]. split; [lia|].
      now rewrite Htr, <- app_assoc.
Qed.

(** The lookup of [PumpUntilEmpty] on a thread that was published, and on
    one that was not. *)
Lemma PumpUntilEmpty_on_thread (tid : Z) (fuel : nat) (p : Pool) :
  (In tid (m_allThreadIds p) ->
   PumpUntilEmpty_on tid fuel p
   = match PumpUntilEmpty fuel (pool p) with
     | Some s' => Some (Done (with_pool s' p))
     | None => None
     end) /\
  (~ In tid (m_allThreadIds p) ->
   PumpUntilEmpty_on tid fuel p = Some (AssertFailed "Thread ID was not found")).
Proof.
  unfold PumpUntilEmpty_on.
  destruct (FindThreadIdx_from_spec (m_allThreadIds p) tid 0)
    as [[Hnot Hres]|(k & Hres & Hnth & _)];
    fold (FindThreadIdx (m_allThreadIds p) tid) in Hres; rewrite Hres.
  - split; [intros C; contradiction | reflexivity].
  - assert (Hin : In tid (m_allThreadIds p)) by (eapply nth_error_In; eauto).
    destruct (Z.eqb_spec (0 + Z.of_nat k) (-1)) as [C|_]; [lia|].
    split; [reflexivity | intros C; contradiction].
Qed.

(** C7.  [TryFlush] returns true exactly when the counter of finished tasks
    equals the target at the time of the call: a call that returns returns
    the outcome of that comparison.  When the counters are equal the call
    returns true on every thread, both counters are zero afterwards and
    nothing else has changed.  When they differ the call is the one of
    [PumpUntilEmpty]: on a thread that [Start] has not published it stops
    in the assert 'Thread ID was not found'; when it returns, it returns
    false, the counter of queued tasks is zero, the target is unchanged and
    the counter of finished tasks has grown by the number of pumped tasks,
    not been reset; and on a published thread, with a pool that no other
    thread touches, it does return, having pumped the whole queue. *)
Theorem TryFlush_spec (tid : Z) (p : Pool) :
  let s := pool p in
  let success := m_numTasksFinished s =? m_numTasksToFinishTarget s in
  (forall fuel b p', TryFlush_on tid fuel p = Some (Done (b, p')) -> b = success) /\
  (m_numTasksFinished s = m_numTasksToFinishTarget s ->
   forall fuel,
     TryFlush_on tid fuel p
     = Some (Done (true,
                   with_pool (mkState (m_taskQueue s) (m_numTasksInQueue s) 0 0
                                      (m_shutdown s) (trace s)) p))) /\
  (m_numTasksFinished s <> m_numTasksToFinishTarget s ->
   (~ In tid (m_allThreadIds p) ->
    forall fuel,
      TryFlush_on tid fuel p = Some (AssertFailed "Thread ID was not found")) /\
   (forall fuel b p',
      TryFlush_on tid fuel p = Some (Done (b, p')) ->
      b = false /\ In tid (m_allThreadIds p) /\
      PumpUntilEmpty_on tid fuel p = Some (Done p') /\
      m_allThreadIds p' = m_allThreadIds p /\
      m_numTasksInQueue (pool p') = 0 /\
      m_numTasksToFinishTarget (pool p') = m_numTasksToFinishTarget s /\
      exists pumped,
        m_taskQueue s = pumped ++ m_taskQueue (pool p') /\
        m_numTasksFinished (pool p')
          = m_numTasksFinished s + Z.of_nat (length pumped) /\
        trace (pool p') = trace s ++ flat_map pump_events pumped) /\
   (In tid (m_allThreadIds p) -> quiescent s ->
    exists s',
      TryFlush_on tid (S (length (m_taskQueue s))) p
        = Some (Done (false, with_pool s' p)) /\
      m_taskQueue s' = [] /\ m_numTasksInQueue s' = 0 /\
      m_numTasksToFinishTarget s' = m_numTasksToFinishTarget s /\
      m_numTasksFinished s'
        = m_numTasksFinished s + Z.of_nat (length (m_taskQueue s)) /\
      trace s' = trace s ++ flat_map pump_events (m_taskQueue s))).
Proof.
  cbv zeta. unfold TryFlush_on.
  destruct (Z.eqb_spec (m_numTasksFinished (pool p))
                       (m_numTasksToFinishTarget (pool p))) as [E|E];
    cbn [negb].
  - split; [|split].
    + intros fuel b p' H. now injection H as <- _.
    + intros _ fuel. reflexivity.
    + intros C. contradiction.
  - split; [|split].
    + intros fuel b p' H.
      destruct (PumpUntilEmpty_on tid fuel p) as [[p1|msg]|];
        try discriminate.
      now injection H as <- _.
    + intros C. contradiction.
    + intros _. split; [|split].
      * intros Hnot fuel.
        destruct (PumpUntilEmpty_on_thread tid fuel p) as [_ Hout].
        now rewrite (Hout Hnot).
      * intros fuel b p' H.
        destruct (in_dec Z.eq_dec tid (m_allThreadIds p)) as [Hin|Hnot].
        2:{ destruct (PumpUntilEmpty_on_thread tid fuel p) as [_ Hout].
            rewrite (Hout Hnot) in H. discriminate. }
        destruct (PumpUntilEmpty_on_thread tid fuel p) as [Hon _].
        rewrite (Hon Hin) in H |- *.
        destruct (PumpUntilEmpty fuel (pool p)) as [s'|] eqn:Erun;
          [|discriminate].
        injection H as <- <-.
        destruct (PumpUntilEmpty_returns fuel _ Erun)
          as (Hn & Htgt & _ & pumped & Hq & Hfin & _ & Htr).
        split; [reflexivity|]. split; [exact Hin|]. split; [reflexivity|].
        split; [reflexivity|]. cbn [pool with_pool].
        split; [exact Hn|]. split; [exact Htgt|].
        exists pumped. auto.
      * intros Hin Hquiet.
        destruct (PumpUntilEmpty_drains (s:=pool p) eq_refl Hquiet)
          as (s' & Hrun & Hq & Hn & Hfin & Htgt & Htr).
        destruct (PumpUntilEmpty_on_thread tid (S (length (m_taskQueue (pool p)))) p)
          as [Hon _].
        exists s'. rewrite (Hon Hin), Hrun.
        repeat split; assumption.
Qed.

Lemma TryFlush_spec_witness :
  (forall fuel,
     TryFlush_on 30 fuel flush_pool = Some (AssertFailed "Thread ID was not found")) /\
  exists s',
    TryFlush_on 20 3 flush_pool = Some (Done (false, with_pool s' flush_pool)) /\
    m_numTasksFinished s' = 5 /\ m_numTasksToFinishTarget s' = 5.
Proof.
  destruct (@TryFlush_spec 30 flush_pool) as (_ & _ & Hfalse).
  destruct (@TryFlush_spec 20 flush_pool) as (_ & _ & Hfalse').
  split.
  - apply Hfalse; [discriminate|]. simpl. intros [C|[C|[]]]; discriminate.
  - destruct Hfalse' as (_ & _ & Hrun); [discriminate|].
    destruct Hrun as (s' & Hrun & _ & _ & Htgt & Hfin & _).
    + simpl. auto.
    + reflexivity.
    + exists s'. split; [exact Hrun|]. split; [exact Hfin | exact Htgt].
Defined.

(** C5.  A background task with one dependent, run by a worker thread and
    run by [PumpUntilEmpty]: the worker only invokes the callback, the pump
    first waits on the inbound signals of the task and afterwards signals
    its dependents.  The pump does so for every background task. *)
Theorem PumpUntilEmpty_background_task :
  let task := mkTask 7 BACKGROUND 3 [4] in
  let s := mkState [task] 1 0 1 false [] in
  (exists s', WorkerThread_iter s = inr (Some s') /\ trace s' = [DoTask 7]) /\
  (exists s', PumpUntilEmpty 2 s = Some s' /\
     trace s' = [WaitForAdjacentHeadNodes 3; DoTask 7;
                 SignalAdjacentTailNodes [4]]) /\
  (forall dlg h adj,
     no_signal_protocol (worker_events (mkTask dlg BACKGROUND h adj)) = true /\
     no_signal_protocol (pump_events (mkTask dlg BACKGROUND h adj)) = false).
Proof.
  cbv zeta. split; [|split].
  - eexists. split; reflexivity.
  - eexists. split; reflexivity.
  - intros dlg h adj. split; reflexivity.
Qed.

(* ---------------------------------------------------------------------- *)
(** ** Thread ids *)

(** X5.  [FindThreadIdx] returns [-1] exactly when the calling thread is not
    among the ids, and otherwise the first index that holds its id. *)
Theorem FindThreadIdx_spec (threadIds : list Z) (tid : Z) :
  (FindThreadIdx threadIds tid = -1 <-> ~ In tid threadIds) /\
  (In tid threadIds ->
   exists k,
     FindThreadIdx threadIds tid = Z.of_nat k /\
     nth_error threadIds k = Some tid /\
     ~ In tid (firstn k threadIds)).
Proof.
  unfold FindThreadIdx.
  destruct (FindThreadIdx_from_spec threadIds tid 0)
    as [[Hnot Hres]|(k & Hres & Hnth & Hfirst)].
  - split; [tauto|]. intros Hin. contradiction.
  - assert (Hin : In tid threadIds) by (eapply nth_error_In; eauto).
    split.
    + split; [intros C; lia | intros C; contradiction].
    + intros _. exists k. auto.
Qed.

(** X6.  After [Start] has published the thread ids, [Enqueue] returns on
    the threads among them and stops in its assert on every other thread,
    leaving the pool as it was; [Start] itself asserts that it is given
    [m_totalNumThreads] ids. *)
Theorem Enqueue_on_published_thread (threadIDs : list Z) (p p1 : Pool)
    (tid : Z) (task : Task) :
  Start threadIDs p = Done p1 ->
  Z.of_nat (length threadIDs) = m_totalNumThreads p /\
  (In tid threadIDs ->
   Enqueue_on tid task p1
   = Done (mkPool (Enqueue task (pool p)) threadIDs (m_totalNumThreads p) true)) /\
  (~ In tid threadIDs ->
   Enqueue_on tid task p1 = AssertFailed "Thread ID was not found").
Proof.
  unfold Start. destruct (Z.eqb_spec (Z.of_nat (length threadIDs)) (m_totalNumThreads p))
    as [Hlen|Hlen]; [|discriminate].
  intros Hstart. injection Hstart as <-. split; [exact Hlen|].
  unfold Enqueue_on. cbn [m_allThreadIds pool m_totalNumThreads m_start].
  destruct (FindThreadIdx_from_spec threadIDs tid 0)
    as [[Hnot Hres]|(k & Hres & Hnth & _)]; fold (FindThreadIdx threadIDs tid) in Hres.
  - rewrite Hres. split; [intros C; contradiction | reflexivity].
  - assert (Hin : In tid threadIDs) by (eapply nth_error_In; eauto).
    rewrite Hres. destruct (Z.eqb_spec (0 + Z.of_nat k) (-1)) as [C|_]; [lia|].
    split; [reflexivity | intros C; contradiction].
Qed.

(* ---------------------------------------------------------------------- *)
(** ** The accounting of the counters *)

Lemma accounted_Enqueue (task : Task) (s : State) :
  accounted s -> accounted (Enqueue task s).
Proof.
  unfold accounted, quiescent. intros [Hq Ha]. simpl.
  rewrite length_app. simpl. lia.
Qed.

Lemma Enqueue_fold_state (tasks : list Task) :
  forall s,
    fold_left (fun s task => Enqueue task s) tasks s
    = mkState (m_taskQueue s ++ tasks)
        (m_numTasksInQueue s + Z.of_nat (length tasks))
        (m_numTasksFinished s)
        (m_numTasksToFinishTarget s + Z.of_nat (length tasks))
        (m_shutdown s) (trace s).
Proof.
  induction tasks as [|task tasks IH]; intros s.
  - simpl. rewrite app_nil_r, !Z.add_0_r. now destruct s.
  - cbn [fold_left]. rewrite IH. unfold Enqueue. cbn.
    rewrite <- app_assoc. f_equal; cbn [length]; lia.
Qed.

(** X7.  Enqueueing a finalized task set is enqueueing its tasks one by
    one, and both keep the accounting of the counters: the queued counter
    is the length of the queue, and the finished and the queued tasks
    make up the target. *)
Theorem Enqueue_TaskSet_accounted (tid : Z) (ts : TaskSet) (p : Pool) :
  In tid (m_allThreadIds p) ->
  IsFinalized ts = true ->
  accounted (pool p) ->
  exists p',
    Enqueue_TaskSet_on tid ts p = Done p' /\
    pool p' = fold_left (fun s task => Enqueue task s) (GetTasks ts) (pool p) /\
    accounted (pool p') /\
    m_allThreadIds p' = m_allThreadIds p.
Proof.
  intros Hin Hfinal Hacc. unfold Enqueue_TaskSet_on. rewrite Hfinal. cbn [negb].
  destruct (FindThreadIdx_from_spec (m_allThreadIds p) tid 0)
    as [[Hnot _]|(k & Hres & _)]; [contradiction|].
  fold (FindThreadIdx (m_allThreadIds p) tid) in Hres. rewrite Hres.
  destruct (Z.eqb_spec (0 + Z.of_nat k) (-1)) as [C|_]; [lia|]. cbn [negb].
  eexists. split; [reflexivity|]. cbn [pool m_allThreadIds].
  split; [now rewrite Enqueue_fold_state|]. split; [|reflexivity].
  destruct Hacc as [Hq Ha]. unfold accounted, quiescent in *. cbn.
  rewrite length_app. lia.
Qed.

(** X8.  Two calls of [TryFlush] on a thread that [Start] has published
    flush a pool whose counters account for its queue and that no other
    thread touches: the first, finding work outstanding, pumps all the
    queued tasks in their order and returns false; the second returns true
    and resets both counters.  On a thread that was not published the
    first call stops in the assert of [PumpUntilEmpty] instead. *)
Theorem TryFlush_twice (tid : Z) (p : Pool) :
  accounted (pool p) ->
  m_taskQueue (pool p) <> [] ->
  (In tid (m_allThreadIds p) ->
   exists s1 s2,
     TryFlush_on tid (S (length (m_taskQueue (pool p)))) p
       = Some (Done (false, with_pool s1 p)) /\
     TryFlush_on tid 1 (with_pool s1 p) = Some (Done (true, with_pool s2 p)) /\
     trace s2 = trace (pool p) ++ flat_map pump_events (m_taskQueue (pool p)) /\
     m_taskQueue s2 = [] /\ m_numTasksInQueue s2 = 0 /\
     m_numTasksFinished s2 = 0 /\ m_numTasksToFinishTarget s2 = 0) /\
  (~ In tid (m_allThreadIds p) ->
   forall fuel,
     TryFlush_on tid fuel p = Some (AssertFailed "Thread ID was not found")).
Proof.
  intros [Hquiet Hacc] Hne.
  assert (Hlen : 0 < Z.of_nat (length (m_taskQueue (pool p)))).
  { destruct (m_taskQueue (pool p)); [contradiction | simpl; lia]. }
  assert (Hwork : (m_numTasksFinished (pool p)
                   =? m_numTasksToFinishTarget (pool p)) = false).
  { apply Z.eqb_neq. lia. }
  split.
  - intros Hin.
    destruct (PumpUntilEmpty_drains (s:=pool p) eq_refl Hquiet)
      as (s1 & Hrun & Hq & Hn & Hfin & Htgt & Htr).
    destruct (PumpUntilEmpty_on_thread tid (S (length (m_taskQueue (pool p)))) p)
      as [Hon _].
    exists s1. eexists. split; [|split].
    + unfold TryFlush_on. rewrite Hwork. cbn [negb].
      now rewrite (Hon Hin), Hrun.
    + unfold TryFlush_on. cbn [pool with_pool].
      destruct (Z.eqb_spec (m_numTasksFinished s1) (m_numTasksToFinishTarget s1))
        as [_|E]; [|lia].
      reflexivity.
    + cbn. repeat split; assumption.
  - intros Hnot fuel. unfold TryFlush_on. rewrite Hwork. cbn [negb].
    destruct (PumpUntilEmpty_on_thread tid fuel p) as [_ Hout].
    now rewrite (Hout Hnot).
Qed.

(** X9.  [PumpUntilEmpty] takes the counter of queued tasks, not the queue,
    for the end of its loop: while the counter is not zero and nothing can
    be dequeued it keeps turning, whatever the number of turns it is
    given. *)
Theorem PumpUntilEmpty_spins (s : State) :
  m_numTasksInQueue s <> 0 ->
  m_taskQueue s = [] ->
  forall fuel, PumpUntilEmpty fuel s = None.
Proof.
  intros Hn Hq fuel. induction fuel as [|fuel IH]; [reflexivity|].
  simpl. destruct (Z.eqb_spec (m_numTasksInQueue s) 0) as [E|_]; [contradiction|].
  unfold try_dequeue. rewrite Hq. exact IH.
Qed.

Lemma PumpUntilEmpty_accounted (fuel : nat) :
  forall s s',
    accounted s -> PumpUntilEmpty fuel s = Some s' ->
    accounted s' /\ m_taskQueue s' = [].
Proof.
  induction fuel as [|fuel IH]; intros s s' [Hq Ha] Hrun; [discriminate|].
  simpl in Hrun. unfold quiescent in Hq.
  destruct (Z.eqb_spec (m_numTasksInQueue s) 0) as [E|E].
  - injection Hrun as <-. split; [now split|].
    destruct (m_taskQueue s); [reflexivity | simpl in Hq; lia].
  - unfold try_dequeue in Hrun.
    destruct (m_taskQueue s) as [|task q] eqn:Eq; [simpl in Hq; lia|].
    apply IH in Hrun; [exact Hrun|].
    unfold accounted, quiescent. cbn. simpl in Hq, Ha. lia.
Qed.

(** X10.  The accounting of the counters is an invariant of the pool: it is
    kept when a task is enqueued, when a worker thread runs a task, when
    the queue is pumped (which leaves the queue empty) and when the pool
    is flushed. *)
Theorem accounted_invariant (s : State) :
  accounted s ->
  (forall task, accounted (Enqueue task s)) /\
  (forall s', WorkerThread_iter s = inr (Some s') -> accounted s') /\
  (forall fuel s', PumpUntilEmpty fuel s = Some s' ->
                   accounted s' /\ m_taskQueue s' = []) /\
  (forall fuel b s', TryFlush fuel s = Some (b, s') -> accounted s').
Proof.
  intros Hacc. split; [|split; [|split]].
  - intros task. now apply accounted_Enqueue.
  - intros s' Hiter. unfold WorkerThread_iter in Hiter.
    destruct (m_shutdown s); [discriminate|].
    unfold try_dequeue in Hiter. destruct Hacc as [Hq Ha]. unfold quiescent in Hq.
    destruct (m_taskQueue s) as [|task q] eqn:Eq; [discriminate|].
    injection Hiter as <-. unfold accounted, quiescent. cbn.
    simpl in Hq, Ha. lia.
  - intros fuel s'. now apply PumpUntilEmpty_accounted.
  - intros fuel b s' Hflush. unfold TryFlush in Hflush.
    destruct (Z.eqb_spec (m_numTasksFinished s) (m_numTasksToFinishTarget s)) as [E|E];
      cbn [negb] in Hflush.
    + injection Hflush as _ <-. destruct Hacc as [Hq Ha].
      unfold accounted, quiescent in *. cbn.
      split; [exact Hq | lia].
    + destruct (PumpUntilEmpty fuel s) as [s1|] eqn:Epump; [|discriminate].
      injection Hflush as _ <-.
      now apply (PumpUntilEmpty_accounted fuel Hacc Epump).
Qed.

Lemma flush_example_accounted : accounted flush_example.
Proof. split; reflexivity. Qed.

Lemma accounted_invariant_witness :
  accounted (Enqueue (mkTask 3 BACKGROUND 2 []) flush_example) /\
  forall s', PumpUntilEmpty 3 flush_example = Some s' -> m_taskQueue s' = [].
Proof.
  destruct (@accounted_invariant flush_example flush_example_accounted)
    as (Henq & _ & Hpump & _).
  split; [apply Henq|]. intros s' Hrun. exact (proj2 (Hpump 3%nat s' Hrun)).
Defined.

Lemma TryFlush_twice_witness :
  exists s1 s2,
    TryFlush_on 20 3 flush_pool = Some (Done (false, with_pool s1 flush_pool)) /\
    TryFlush_on 20 1 (with_pool s1 flush_pool)
      = Some (Done (true, with_pool s2 flush_pool)) /\
    m_numTasksFinished s2 = 0.
Proof.
  destruct (@TryFlush_twice 20 flush_pool flush_example_accounted) as [Hon _].
  - discriminate.
  - destruct Hon as (s1 & s2 & H1 & H2 & _ & _ & _ & Hfin & _).
    + simpl. auto.
    + exists s1, s2. split; [exact H1|]. split; [exact H2 | exact Hfin].
Defined.

Lemma PumpUntilEmpty_spins_witness :
  PumpUntilEmpty 1000 (mkState [] 1 0 1 false []) = None.
Proof.
  apply PumpUntilEmpty_spins; [discriminate | reflexivity].
Defined.

Lemma Enqueue_on_published_thread_witness :
  Enqueue_on 30 (mkTask 1 NORMAL 0 []) (mkPool flush_example [10; 20] 2 true)
  = AssertFailed "Thread ID was not found".
Proof.
  apply (@Enqueue_on_published_thread [10; 20] (mkPool flush_example [] 2 false)
           (mkPool flush_example [10; 20] 2 true) 30 (mkTask 1 NORMAL 0 []) eq_refl).
  simpl. intros [C|[C|[]]]; discriminate.
Defined.

Lemma Enqueue_TaskSet_accounted_witness :
  exists p',
    Enqueue_TaskSet_on 20
      (mkTaskSet true [mkTask 3 NORMAL 2 [3]; mkTask 4 NORMAL 3 []])
      (mkPool flush_example [10; 20] 2 true) = Done p' /\
    accounted (pool p').
Proof.
  destruct (@Enqueue_TaskSet_accounted 20
              (mkTaskSet true [mkTask 3 NORMAL 2 [3]; mkTask 4 NORMAL 3 []])
              (mkPool flush_example [10; 20] 2 true))
    as (p' & Hrun & _ & Hacc & _).
  - simpl. auto.
  - reflexivity.
  - exact flush_example_accounted.
  - exists p'. split; [exact Hrun | exact Hacc].
Defined.

End ThreadPoolProofs.

(* ====================================================================== *)
(** * Properties of the render graph *)
(* ====================================================================== *)

Module RenderGraphProofs.
Import RenderGraph Scenarios.

(** Every scenario is declared without a failing [Assert]. *)
Lemma scenarios_declared :
  Forall (fun run : Graph * Exit => snd run = Returned)
    [one_pass_frame_declared; merge_scenario_declared; scenario_S2_declared;
     ping_pong_declared; ping_pong_dummy_declared; edge_example_declared;
     two_passes_declared].
Proof. repeat constructor. Qed.

(* ---------------------------------------------------------------------- *)
(** ** Lists as arrays *)

Lemma upd_length {A} (l : list A) (i : nat) (v : A) :
  length (upd l i v) = length l.
Proof.
  revert i. induction l as [|x l IH]; intros [|i]; simpl; auto.
Qed.

Lemma nth_error_upd_same {A} (l : list A) (i : nat) (v : A) :
  (i < length l)%nat -> nth_error (upd l i v) i = Some v.
Proof.
  revert i. induction l as [|x l IH]; intros [|i] Hlt; simpl in *; try lia; auto.
  apply IH. lia.
Qed.

Lemma nth_error_upd_other {A} (l : list A) (i j : nat) (v : A) :
  i <> j -> nth_error (upd l i v) j = nth_error l j.
Proof.
  revert i j. induction l as [|x l IH]; intros [|i] [|j] Hne; simpl; auto;
    congruence.
Qed.

(* ---------------------------------------------------------------------- *)
(** ** Lookups *)

(** The search only ever reports a position that holds the key. *)
Lemma BinarySearch_found (keys : list Z) (key beg end_ : Z) :
  BinarySearch keys key beg end_ <> -1 ->
  nth_error keys (Z.to_nat (BinarySearch keys key beg end_)) = Some key /\
  beg <= BinarySearch keys key beg end_ <= end_.
Proof.
  unfold BinarySearch.
  destruct ((end_ <? beg) || (beg <? 0)); [congruence|].
  set (pos := BinarySearch_loop _ keys key beg end_).
  destruct (nth_error keys (Z.to_nat pos)) as [k|] eqn:E; [|congruence].
  destruct (Z.eqb_spec k key) as [->|]; simpl; [|congruence].
  destruct (Z.leb_spec beg pos); simpl; [|congruence].
  destruct (Z.leb_spec pos end_); simpl; [|congruence].
  intros _. rewrite E. split; [reflexivity | lia].
Qed.

Lemma BinarySearch_absent (keys : list Z) (key beg end_ : Z) :
  ~ In key keys -> BinarySearch keys key beg end_ = -1.
Proof.
  intros Hnotin.
  destruct (Z.eq_dec (BinarySearch keys key beg end_) (-1)) as [E|E]; [exact E|].
  destruct (BinarySearch_found keys key beg end_ E) as [Hnth _].
  apply nth_error_In in Hnth. contradiction.
Qed.

Lemma FindFrameResource_absent (g : Graph) (key beg end_ : Z) :
  ~ In key (map ID (m_frameResources g)) ->
  FindFrameResource g key beg end_ = -1.
Proof.
  intros Hnotin. unfold FindFrameResource.
  destruct (end_ - beg =? 0); [reflexivity|].
  now apply BinarySearch_absent.
Qed.

(** A range of one entry is reported as empty (line 231). *)
Lemma FindFrameResource_one_entry (g : Graph) (key beg : Z) :
  FindFrameResource g key beg beg = -1.
Proof.
  unfold FindFrameResource. now rewrite Z.sub_diag.
Qed.

Lemma map_node_frameResources (h : Z) (f : RenderNode -> RenderNode) (g : Graph) :
  m_frameResources (map_node h f g) = m_frameResources g.
Proof.
  unfold map_node. now destruct (nth_error (m_renderNodes g) (Z.to_nat h)).
Qed.

Lemma map_node_nth (h : Z) (f : RenderNode -> RenderNode) (g : Graph) (n : RenderNode) :
  nth_error (m_renderNodes g) (Z.to_nat h) = Some n ->
  nth_error (m_renderNodes (map_node h f g)) (Z.to_nat h) = Some (f n).
Proof.
  intros Hn. unfold map_node. rewrite Hn. simpl.
  apply nth_error_upd_same. apply nth_error_Some. congruence.
Qed.

(* ---------------------------------------------------------------------- *)
(** ** Declarations *)

Section DeclarationProofs.
Context {L : Limits}.

(** C10.  For a resource id that is not in the resource table, [AddOutput]
    stops in an [Assert] and the resource table, with every producer list,
    is as it was.  When the call passes the checks that come before the
    lookup (post-register phase, valid handle, a write state that the queue
    of the pass allows), the assert is the one of the lookup, 'Invalid
    resource path.', and the output has already been appended to the pass.
    [AddInput], called in the post-register phase with a valid handle and a
    read state, returns and has recorded the input. *)
Theorem AddOutput_unknown_resource (g : Graph) (h pathID expectedState : Z) :
  ~ In pathID (map ID (m_frameResources g)) ->
  (exists g' msg,
      AddOutput h pathID expectedState g = (g', Asserted msg) /\
      m_frameResources g' = m_frameResources g) /\
  (m_inBeginEndBlock g = true ->
   m_inPreRegister g = false ->
   0 <= h < m_currRenderPassIdx g ->
   intersects expectedState WRITE_STATES = true ->
   (forall n, nth_error (m_renderNodes g) (Z.to_nat h) = Some n ->
              is_ASYNC_COMPUTE (NodeType n) = true ->
              intersects expectedState INVALID_COMPUTE_STATES = false) ->
   exists g' n,
     AddOutput h pathID expectedState g = (g', Asserted "Invalid resource path.") /\
     nth_error (m_renderNodes g) (Z.to_nat h) = Some n /\
     nth_error (m_renderNodes g') (Z.to_nat h)
       = Some (push_Output (mkDependency pathID expectedState) n) /\
     m_frameResources g' = m_frameResources g) /\
  (m_inBeginEndBlock g = true ->
   m_inPreRegister g = false ->
   0 <= h < m_currRenderPassIdx g ->
   intersects expectedState READ_STATES = true ->
   exists g' n,
     AddInput h pathID expectedState g = (g', Returned) /\
     nth_error (m_renderNodes g) (Z.to_nat h) = Some n /\
     nth_error (m_renderNodes g') (Z.to_nat h)
       = Some (push_Input (mkDependency pathID expectedState) n) /\
     m_frameResources g' = m_frameResources g).
Proof.
  intros Hnotin. split; [|split].
  - unfold AddOutput.
    destruct (declaration_asserts g h expectedState WRITE_STATES _) as [|msg].
    + match goal with |- context [if ?c then _ else _] => destruct c end.
      * eauto.
      * unfold FindFrameResource_all.
        rewrite FindFrameResource_absent
          by now rewrite map_node_frameResources.
        simpl. eexists _, _. split; [reflexivity|].
        apply map_node_frameResources.
    + eauto.
  - intros Hblock Hpre [Hh0 Hhn] Hstate Hqueue.
    unfold m_currRenderPassIdx in Hhn.
    destruct (nth_error (m_renderNodes g) (Z.to_nat h)) as [n|] eqn:En.
    2:{ apply nth_error_None in En. lia. }
    exists (map_node h (push_Output (mkDependency pathID expectedState)) g), n.
    split; [|split; [reflexivity|split]].
    + unfold AddOutput, declaration_asserts, IsValid, INVALID_NODE_HANDLE,
        m_currRenderPassIdx.
      rewrite Hblock, Hpre, Hstate, En. simpl.
      destruct (Z.eqb_spec h (-1)); [lia|]. simpl.
      destruct (Z.ltb_spec h (Z.of_nat (length (m_renderNodes g)))); [|lia].
      simpl.
      assert (Hq : negb (negb (is_ASYNC_COMPUTE (NodeType n))
                         || negb (intersects expectedState INVALID_COMPUTE_STATES))
                   = false).
      { destruct (is_ASYNC_COMPUTE (NodeType n)) eqn:Ea; [|reflexivity].
        now rewrite (Hqueue n eq_refl Ea). }
      rewrite Hq. unfold FindFrameResource_all.
      rewrite FindFrameResource_absent
        by now rewrite map_node_frameResources.
      reflexivity.
    + now apply map_node_nth.
    + apply map_node_frameResources.
  - intros Hblock Hpre [Hh0 Hhn] Hstate.
    unfold m_currRenderPassIdx in Hhn.
    destruct (nth_error (m_renderNodes g) (Z.to_nat h)) as [n|] eqn:En.
    2:{ apply nth_error_None in En. lia. }
    exists (map_node h (push_Input (mkDependency pathID expectedState)) g), n.
    split; [|split; [reflexivity|split]].
    + unfold AddInput, declaration_asserts, IsValid, INVALID_NODE_HANDLE,
        m_currRenderPassIdx.
      rewrite Hblock, Hpre, Hstate. simpl.
      destruct (Z.eqb_spec h (-1)); [lia|]. simpl.
      destruct (Z.ltb_spec h (Z.of_nat (length (m_renderNodes g)))); [|lia].
      reflexivity.
    + now apply map_node_nth.
    + apply map_node_frameResources.
Qed.

(** An id that is not in the table is appended at its end, unless the
    table is full. *)
Lemma RegisterResource_new (res path initState : Z) (isWindowSizeDependent : bool)
    (g : Graph) :
  m_inBeginEndBlock g = true ->
  m_inPreRegister g = true ->
  res = nullptr \/ DUMMY_RES_COUNT < path ->
  ~ In path (map ID (m_frameResources g)) ->
  RegisterResource res path initState isWindowSizeDependent g
  = if m_lastResIdx g <? MAX_NUM_RESOURCES
    then (set_frameResources
            (m_frameResources g
               ++ [ResourceMetadata_Reset path res initState
                     isWindowSizeDependent []]) g,
          Returned)
    else (g, Asserted "Number of resources exceeded MAX_NUM_RESOURCES").
Proof.
  intros Hblock Hpre Hid Habsent. unfold RegisterResource.
  rewrite Hblock, Hpre. cbn [andb negb].
  assert (Hassert : (res =? nullptr) || (DUMMY_RES_COUNT <? path) = true).
  { destruct Hid as [->|Hlt].
    - now rewrite Z.eqb_refl.
    - apply orb_true_iff. right. now apply Z.ltb_lt. }
  rewrite Hassert. cbn [negb].
  rewrite FindFrameResource_absent by assumption.
  cbn. now destruct (m_lastResIdx g <? MAX_NUM_RESOURCES).
Qed.

(** With one resource kept from the previous frame every registration
    takes the new-resource branch, whatever the id. *)
Lemma RegisterResource_one_previous (res path initState : Z)
    (isWindowSizeDependent : bool) (g : Graph) :
  m_inBeginEndBlock g = true ->
  m_inPreRegister g = true ->
  res = nullptr \/ DUMMY_RES_COUNT < path ->
  m_prevFramesNumResources g = 1 ->
  RegisterResource res path initState isWindowSizeDependent g
  = if m_lastResIdx g <? MAX_NUM_RESOURCES
    then (set_frameResources
            (m_frameResources g
               ++ [ResourceMetadata_Reset path res initState
                     isWindowSizeDependent []]) g,
          Returned)
    else (g, Asserted "Number of resources exceeded MAX_NUM_RESOURCES").
Proof.
  intros Hblock Hpre Hid Hone. unfold RegisterResource.
  rewrite Hblock, Hpre, Hone. cbn [andb negb].
  assert (Hassert : (res =? nullptr) || (DUMMY_RES_COUNT <? path) = true).
  { destruct Hid as [->|Hlt].
    - now rewrite Z.eqb_refl.
    - apply orb_true_iff. right. now apply Z.ltb_lt. }
  rewrite Hassert. cbn [negb].
  change (1 - 1) with 0. rewrite FindFrameResource_one_entry.
  cbn. now destruct (m_lastResIdx g <? MAX_NUM_RESOURCES).
Qed.

End DeclarationProofs.

#[local] Existing Instance example_Limits.

Lemma AddOutput_unknown_resource_witness :
  (exists g',
      AddOutput 0 55 UAV merge_scenario = (g', Asserted "Invalid resource path.") /\
      m_frameResources g' = m_frameResources merge_scenario) /\
  (exists g', AddInput 0 55 SR_NP merge_scenario = (g', Returned)).
Proof.
  destruct (@AddOutput_unknown_resource example_Limits merge_scenario 0 55 UAV)
    as (_ & Hout & _).
  { vm_compute. intros [C|[C|[C|[C|[]]]]]; discriminate. }
  destruct (@AddOutput_unknown_resource example_Limits merge_scenario 0 55 SR_NP)
    as (_ & _ & Hin).
  { vm_compute. intros [C|[C|[C|[C|[]]]]]; discriminate. }
  split.
  - destruct Hout as (g' & n & Hrun & _ & _ & Hres); try reflexivity.
    + vm_compute. split; [discriminate | reflexivity].
    + exists g'. split; [exact Hrun | exact Hres].
  - destruct Hin as (g2 & n & Hrun & _); try reflexivity.
    + vm_compute. split; [discriminate | reflexivity].
    + exists g2. exact Hrun.
Defined.

(** C9.  With exactly one resource kept from the previous frame,
    [RegisterResource] does not find it: registering its id again, with a
    new native handle or with the same one, appends a second entry with
    that id and leaves the first as it was.  With two resources kept, the
    same calls overwrite the entry, or do nothing. *)
Theorem RegisterResource_one_previous_resource :
  let kept := mkResourceMetadata 100 7 SR_NP false [] in
  let other := mkResourceMetadata 200 9 SR_NP false [] in
  let g1 := mkGraph [kept] 1 [] [] [] true true in
  let g2 := mkGraph [kept; other] 2 [] [] [] true true in
  RegisterResource 8 100 UAV true g1
    = (set_frameResources [kept; mkResourceMetadata 100 8 UAV true []] g1,
       Returned) /\
  RegisterResource 7 100 UAV true g1
    = (set_frameResources [kept; mkResourceMetadata 100 7 UAV true []] g1,
       Returned) /\
  RegisterResource 8 100 UAV true g2
    = (set_frameResources [mkResourceMetadata 100 8 UAV true []; other] g2,
       Returned) /\
  RegisterResource 7 100 UAV true g2 = (g2, Returned).
Proof.
  cbv zeta. repeat split; vm_compute; reflexivity.
Qed.

(* ---------------------------------------------------------------------- *)
(** ** Merging *)

(** Ending a run of one aggregate decrements its command-list index: the
    result is the index of the chain completed before it, and [-1] only
    when there is none. *)
Lemma Merge_close_single (aggs : list AggregateRenderNode) (prevIdx : nat)
    (prev : AggregateRenderNode) (offset k : Z) :
  nth_error aggs prevIdx = Some prev ->
  MergeStart prev = true ->
  MergedCmdListIdx prev = k ->
  k <> -1 ->
  Merge_close aggs prevIdx (mkMergeLocals offset k 1)
    = Ok (upd aggs prevIdx (set_Merge false (MergeEnd prev) (k - 1) prev), k).
Proof.
  intros Hprev Hstart Hidx Hk. unfold Merge_close. simpl.
  rewrite Hprev, Hstart, Hidx.
  destruct (Z.eqb_spec k (-1)); [contradiction|]. reflexivity.
Qed.

(** C3.  [merge_scenario] is joined into four aggregates of one pass each:
    graphics (batch 0), graphics (batch 1), async compute (batch 2) and
    graphics (batch 2).  The first two form a merge chain with command
    list 0.  The last, a run of one, has its [MergeStart] cleared, but its
    [MergedCmdListIdx] is 0, the index of the chain before it, and not
    [-1]. *)
Theorem MergeSmallNodes_single_after_chain :
  exists g,
    Build_aggregates insertion_sort 999 merge_scenario = Ok g /\
    map merge_fields (m_aggregateNodes g)
    = [([0%nat], false, 0, (true, false, 0));
       ([1%nat], false, 1, (false, true, 0));
       ([2%nat], true, 2, (false, false, -1));
       ([3%nat], false, 2, (false, false, 0))].
Proof.
  eexists. split; [vm_compute; reflexivity | reflexivity].
Qed.

(** With no chain before it a run of one is left with [-1]. *)
Lemma MergeSmallNodes_single_first :
  exists aggs,
    MergeSmallNodes
      [mkAggregateRenderNode false false [4%nat] [] 0 (-1) false true
         false false (-1)]
    = Ok (aggs, 0) /\
    map merge_fields aggs = [([4%nat], false, 0, (false, false, -1))].
Proof.
  eexists. split; [vm_compute; reflexivity | reflexivity].
Qed.

(* ---------------------------------------------------------------------- *)
(** ** Barriers and cross-queue fences *)

(** Case b places a fence exactly when a producer on the other queue exists
    and its sorted index is beyond the cursor of the queue. *)
Lemma IRB_case_b_fence (largest : Z) (node : RenderNode) (c : Cursors) :
  largest <> -1 ->
  getLastSyncedIdx (NodeType node) c < largest ->
  IRB_case_b largest node c
    = (set_GpuDepSourceIdx largest node,
       setLastSyncedIdx (NodeType node) largest c).
Proof.
  intros Hvalid Hlt. unfold IRB_case_b.
  destruct (Z.eqb_spec largest (-1)); [contradiction|].
  destruct (Z.ltb_spec (getLastSyncedIdx (NodeType node) c) largest); [|lia].
  reflexivity.
Qed.

Lemma IRB_case_b_no_fence (largest : Z) (node : RenderNode) (c : Cursors) :
  largest <= getLastSyncedIdx (NodeType node) c ->
  IRB_case_b largest node c = (node, c).
Proof.
  intros Hle. unfold IRB_case_b.
  destruct (Z.ltb_spec (getLastSyncedIdx (NodeType node) c) largest); [lia|].
  now rewrite andb_false_r.
Qed.

(** The cursors start at 0 and never decrease. *)
Lemma initial_Cursors_nonneg : cursors_nonneg initial_Cursors.
Proof. unfold cursors_nonneg, initial_Cursors. simpl. lia. Qed.

Lemma IRB_case_b_cursors (largest : Z) (node : RenderNode) (c : Cursors) :
  cursors_nonneg c -> cursors_nonneg (snd (IRB_case_b largest node c)).
Proof.
  intros [Hdir Hcomp]. unfold IRB_case_b.
  destruct (negb (largest =? -1)); simpl; [|now split].
  destruct (Z.ltb_spec (getLastSyncedIdx (NodeType node) c) largest) as [Hlt|Hge];
    simpl; [|now split].
  unfold getLastSyncedIdx, setLastSyncedIdx, cursors_nonneg in *.
  destruct (is_ASYNC_COMPUTE (NodeType node)); simpl; lia.
Qed.

(** Hence a producer at sorted index 0 is never waited for: the first node
    of the execution order gets no fence from any consumer on the other
    queue. *)
Lemma IRB_case_b_index_zero (node : RenderNode) (c : Cursors) :
  cursors_nonneg c -> IRB_case_b 0 node c = (node, c).
Proof.
  intros [Hdir Hcomp]. apply IRB_case_b_no_fence. unfold getLastSyncedIdx.
  destruct (is_ASYNC_COMPUTE (NodeType node)); assumption.
Qed.

(** C1.  Scenario S2, built with a sort that keeps the declaration order
    within a batch: the execution order is A, B, C, X, Y, Z; Y waits on B
    (sorted index 1) and Z on C (sorted index 2), but X, whose producer A
    has sorted index 0, gets no fence at all.  With the sort that reverses
    a batch the order is C, B, A, Z, Y, X and it is Z that does not wait on
    its producer C. *)
Theorem InsertResourceBarriers_S2 :
  (exists g,
     Build_barriers insertion_sort 999 scenario_S2 = Ok g /\
     map Dlg (m_renderNodes g) = [0; 1; 2; 3; 4; 5]%nat /\
     map GpuDepSourceIdx (m_renderNodes g) = [-1; -1; -1; -1; 1; 2]) /\
  (exists g,
     Build_barriers reversing_sort 999 scenario_S2 = Ok g /\
     map Dlg (m_renderNodes g) = [2; 1; 0; 5; 4; 3]%nat /\
     map GpuDepSourceIdx (m_renderNodes g) = [-1; -1; -1; -1; 1; 2]).
Proof.
  split; eexists; (split; [vm_compute; reflexivity|]); split; reflexivity.
Qed.

(** Whatever the mask, an output that is not a dummy leaves its resource in
    the state the output names. *)
Lemma IRB_outputs_state {L : Limits} (g : Graph) (o : Dependency) (i : Z)
    (rs rs' : list ResourceMetadata) (node node' : RenderNode) :
  DUMMY_RES_COUNT <= ResID o ->
  IRB_outputs g [o] i rs node = Ok (rs', node') ->
  exists idx r,
    nth_error rs idx = Some r /\
    rs' = upd rs idx (set_State (ExpectedState o) r).
Proof.
  intros Hreal. simpl.
  destruct (Z.ltb_spec (ResID o) DUMMY_RES_COUNT); [lia|].
  set (idx := FindFrameResource_all _ _).
  destruct (negb (idx =? -1)); unfold bind, Assert; [|intros; discriminate].
  destruct (nth_error rs (Z.to_nat idx)) as [r|] eqn:E; [|intros; discriminate].
  intros Hrun. inversion Hrun; subst. eauto.
Qed.

(** C2.  For the ping-pong pass the mask bit of its output is set and no
    barrier is pushed, but the recorded state of the resource goes from the
    shader-resource state to UAV.  When a dummy output precedes it the mask
    bit set by [Build] is bit 1 while the barrier loop tests bit 0: the
    output gets a barrier although its bit is set. *)
Theorem InsertResourceBarriers_ping_pong :
  map State (m_frameResources ping_pong) = [SR_NP] /\
  (exists g,
     Build_barriers insertion_sort 999 ping_pong = Ok g /\
     map OutputMask (m_renderNodes g) = [1] /\
     map Barriers (m_renderNodes g) = [[]] /\
     map State (m_frameResources g) = [UAV]) /\
  (exists g,
     Build_barriers insertion_sort 999 ping_pong_dummy = Ok g /\
     map OutputMask (m_renderNodes g) = [2] /\
     map Barriers (m_renderNodes g) = [[TransitionBarrier 11 SR_NP UAV]] /\
     map State (m_frameResources g) = [D3D12_RESOURCE_STATE_COMMON; UAV]).
Proof.
  split; [reflexivity|].
  split; eexists; (split; [vm_compute; reflexivity|]); repeat split; reflexivity.
Qed.

(* ---------------------------------------------------------------------- *)
(** ** Edge construction *)

Lemma int16_id (z : Z) : in_int16 z -> int16 z = z.
Proof.
  unfold in_int16, int16. intros H.
  rewrite Z.mod_small by lia. lia.
Qed.

Lemma with_Indegree_OutputMask_id (node : RenderNode) :
  with_Indegree_OutputMask (Indegree node) (OutputMask node) node = node.
Proof. now destruct node. Qed.

(** [mark_output] sets the bit of the first output naming the resource. *)
Lemma mark_output_first (outputs : list Dependency) (resID mask : Z) :
  forall i,
    mark_output outputs i resID mask
    = match first_output outputs resID with
      | Some j => Z.lor mask (Z.shiftl 1 (i + Z.of_nat j))
      | None => mask
      end.
Proof.
  induction outputs as [|o outputs IH]; intros i; simpl; [reflexivity|].
  destruct (ResID o =? resID).
  - now rewrite Z.add_0_r.
  - rewrite IH. destruct (first_output outputs resID) as [j|];
      cbn [option_map]; [|reflexivity].
    do 2 f_equal. lia.
Qed.

Lemma mark_output_idem (outputs : list Dependency) (resID mask : Z) :
  mark_output outputs 0 resID (mark_output outputs 0 resID mask)
  = mark_output outputs 0 resID mask.
Proof.
  rewrite !mark_output_first.
  destruct (first_output outputs resID) as [j|]; [|reflexivity].
  now rewrite <- Z.lor_assoc, Z.lor_diag.
Qed.

(** Appending [N] to the successors of each of [srcs]. *)
Lemma fold_push_adjacent_nth (N : nat) (srcs : list nat) :
  forall (adj : Adjacency) (p : nat),
    nth_error (fold_left (fun a q => push_adjacent a q N) srcs adj) p
    = option_map (fun tail => tail ++ repeat N (count_occ Nat.eq_dec srcs p))
        (nth_error adj p).
Proof.
  induction srcs as [|q srcs IH]; intros adj p; simpl.
  - destruct (nth_error adj p); simpl; [now rewrite app_nil_r | reflexivity].
  - rewrite IH. unfold push_adjacent.
    destruct (nth_error adj q) as [tail|] eqn:Eq.
    + destruct (Nat.eq_dec q p) as [->|Hne].
      * rewrite nth_error_upd_same by (apply nth_error_Some; congruence).
        rewrite Eq. simpl. now rewrite <- app_assoc.
      * rewrite nth_error_upd_other by assumption. reflexivity.
    + destruct (Nat.eq_dec q p) as [->|Hne]; [|reflexivity].
      now rewrite Eq.
Qed.

Lemma fold_push_adjacent_length (N : nat) (srcs : list nat) :
  forall adj : Adjacency,
    length (fold_left (fun a q => push_adjacent a q N) srcs adj) = length adj.
Proof.
  induction srcs as [|q srcs IH]; intros adj; simpl; [reflexivity|].
  rewrite IH. unfold push_adjacent.
  destruct (nth_error adj q); [apply upd_length | reflexivity].
Qed.

#[local] Arguments mark_output : simpl never.

(** The loop over the producers of an input. *)
Lemma Build_producers_spec (N : nat) (input : Dependency) (prods : list nat) :
  forall (node : RenderNode) (adj : Adjacency),
    let c := Z.of_nat (count_occ Nat.eq_dec prods N) in
    in_int16 (Indegree node) ->
    in_int16 (Indegree node - c) ->
    (In N prods -> Outputs node <> []) ->
    Build_producers N input prods node adj
    = Ok (with_Indegree_OutputMask (Indegree node - c)
            (if existsb (Nat.eqb N) prods
             then mark_output (Outputs node) 0 (ResID input) (OutputMask node)
             else OutputMask node)
            node,
          fold_left (fun a q => push_adjacent a q N) (edge_sources N prods) adj).
Proof.
  induction prods as [|p prods IH]; intros node adj c Hd Hdc Hout.
  - simpl. subst c. simpl. rewrite Z.sub_0_r.
    now rewrite with_Indegree_OutputMask_id.
  - subst c. unfold edge_sources. cbn [Build_producers filter existsb count_occ] in *.
    destruct (Nat.eqb_spec N p) as [<-|Hne].
    + destruct (Nat.eq_dec N N) as [_|C]; [|contradiction].
      rewrite Nat2Z.inj_succ in *.
      assert (Hc0 : 0 <= Z.of_nat (count_occ Nat.eq_dec prods N)) by lia.
      unfold in_int16 in *.
      rewrite int16_id by (unfold in_int16; lia).
      cbn [set_Indegree Outputs OutputMask negb orb].
      destruct (Outputs node) as [|o outs] eqn:Eo.
      { exfalso. apply Hout; [now left | reflexivity]. }
      unfold Assert, bind.
      change (0 <? Z.of_nat (length (o :: outs))) with true. cbv iota.
      rewrite IH.
      * cbn [set_OutputMask set_Indegree Indegree Outputs OutputMask]. rewrite Eo.
        f_equal. f_equal. unfold with_Indegree_OutputMask.
        cbn.
        replace (Indegree node - 1 - Z.of_nat (count_occ Nat.eq_dec prods N))
          with (Indegree node - Z.succ (Z.of_nat (count_occ Nat.eq_dec prods N))) by lia.
        destruct (existsb (Nat.eqb N) prods).
        -- rewrite mark_output_idem. reflexivity.
        -- reflexivity.
      * cbn. unfold in_int16. lia.
      * cbn. unfold in_int16. lia.
      * cbn. rewrite Eo. discriminate.
    + destruct (Nat.eq_dec p N) as [C|_]; [congruence|].
      cbn [negb orb]. rewrite IH; auto.
      intros Hin. apply Hout. now right.
Qed.

Lemma input_producers_found (g : Graph) (input : Dependency) (prods : list nat) :
  input_producers g input = Some prods ->
  exists r,
    (FindFrameResource_all g (ResID input) =? -1) = false /\
    nth_error (m_frameResources g)
      (Z.to_nat (FindFrameResource_all g (ResID input))) = Some r /\
    Producers r = prods.
Proof.
  unfold input_producers.
  destruct (FindFrameResource_all g (ResID input) =? -1); [discriminate|].
  destruct (nth_error _ _) as [r|]; [|discriminate].
  simpl. intros H. injection H as <-. eauto.
Qed.

(** The body of the loop over the inputs. *)
Lemma Build_input_spec (g : Graph) (N : nat) (input : Dependency)
    (node : RenderNode) (adj : Adjacency) (prods : list nat) :
  input_producers g input = Some prods ->
  1 <= Indegree node ->
  Indegree node + Z.of_nat (length prods) <= 32767 ->
  (In N prods -> Outputs node <> []) ->
  Build_input g N input node adj
  = Ok (with_Indegree_OutputMask (Indegree node + indegree_term N prods)
          (if existsb (Nat.eqb N) prods
           then mark_output (Outputs node) 0 (ResID input) (OutputMask node)
           else OutputMask node)
          node,
        fold_left (fun a q => push_adjacent a q N) (edge_sources N prods) adj).
Proof.
  intros Hfound Hlow Hhigh Hout.
  destruct (@input_producers_found g input prods Hfound) as (r & Hidx & Hr & Hprods).
  unfold Build_input. rewrite Hidx, Hr. unfold Assert, bind. cbn [negb].
  unfold CurrProdIdx. rewrite Hprods.
  pose proof (count_occ_bound Nat.eq_dec N prods) as Hcount.
  rewrite (int16_id (z := Z.of_nat (length prods))) by (unfold in_int16; lia).
  rewrite Nat2Z.id, firstn_all.
  unfold indegree_term.
  destruct (Z.eqb_spec (Z.of_nat (length prods)) 0) as [Hk|Hk].
  - assert (prods = []) as -> by (destruct prods; [reflexivity | simpl in Hk; lia]).
    rewrite int16_id by (unfold in_int16; lia).
    cbn [set_Indegree Indegree].
    destruct (Z.leb_spec 0 (Indegree node - 1)); [|lia].
    rewrite Build_producers_spec; cbn; unfold in_int16; try lia; try tauto.
    rewrite Z.sub_0_r. reflexivity.
  - rewrite int16_id by (unfold in_int16; lia).
    rewrite Build_producers_spec; cbn [set_Indegree Indegree Outputs OutputMask];
      unfold in_int16; try lia; try assumption.
    replace (Indegree node + (Z.of_nat (length prods) - 1)
             - Z.of_nat (count_occ Nat.eq_dec prods N))
      with (Indegree node
            + (Z.of_nat (length prods) - 1
               - Z.of_nat (count_occ Nat.eq_dec prods N))) by lia.
    reflexivity.
Qed.

(** The loop over the inputs of node [N]. *)
Lemma Build_inputs_spec (g : Graph) (N : nat) (inputs : list Dependency) :
  forall (node : RenderNode) (adj : Adjacency),
    Forall (fun input => input_producers g input <> None) inputs ->
    (In N (flat_map (producers_of g) inputs) -> Outputs node <> []) ->
    Z.of_nat (length inputs) <= Indegree node ->
    Indegree node + Z.of_nat (length (flat_map (producers_of g) inputs)) <= 32767 ->
    Build_inputs g N inputs node adj
    = Ok (with_Indegree_OutputMask
            (Indegree node
             + fold_right Z.add 0
                 (map (fun input => indegree_term N (producers_of g input)) inputs))
            (fold_left
               (fun mask input =>
                  if existsb (Nat.eqb N) (producers_of g input)
                  then mark_output (Outputs node) 0 (ResID input) mask
                  else mask)
               inputs (OutputMask node))
            node,
          fold_left (fun a q => push_adjacent a q N)
            (flat_map (fun input => edge_sources N (producers_of g input)) inputs)
            adj).
Proof.
  induction inputs as [|input inputs IH]; intros node adj Hfound Hout Hlow Hhigh.
  - cbn. rewrite Z.add_0_r. now rewrite with_Indegree_OutputMask_id.
  - inversion Hfound as [|? ? Hin Hrest]; subst.
    destruct (input_producers g input) as [prods|] eqn:Eprods; [|congruence].
    assert (Hp : producers_of g input = prods)
      by (unfold producers_of; now rewrite Eprods).
    cbn [Build_inputs flat_map map fold_right fold_left length] in *.
    rewrite Hp in *. rewrite length_app, Nat2Z.inj_add in Hhigh.
    rewrite Nat2Z.inj_succ in Hlow.
    pose proof (count_occ_bound Nat.eq_dec N prods) as Hcount.
    rewrite (@Build_input_spec g N input node adj prods Eprods); try lia.
    2:{ intros HN. apply Hout. apply in_or_app. now left. }
    unfold bind.
    assert (Hterm : -1 <= indegree_term N prods <= Z.of_nat (length prods)).
    { unfold indegree_term.
      destruct (Z.eqb_spec (Z.of_nat (length prods)) 0) as [Hk|Hk].
      - assert (prods = []) as -> by (destruct prods; [reflexivity | simpl in Hk; lia]).
        simpl. lia.
      - lia. }
    rewrite IH; cbn [with_Indegree_OutputMask set_OutputMask set_Indegree
                       Indegree Outputs OutputMask]; try assumption; try lia.
    + rewrite fold_left_app, Z.add_assoc. reflexivity.
    + intros HN. apply Hout. apply in_or_app. now right.
Qed.

Lemma expected_nodes_init (g : Graph) (nodes : list RenderNode) :
  forall first,
    expected_nodes g first (map init_Indegree nodes) = expected_nodes g first nodes.
Proof.
  induction nodes as [|node nodes IH]; intros first; simpl; [reflexivity|].
  now rewrite IH.
Qed.

Lemma expected_successors_init (g : Graph) (p : nat) (nodes : list RenderNode) :
  forall first,
    expected_successors g first (map init_Indegree nodes) p
    = expected_successors g first nodes p.
Proof.
  induction nodes as [|node nodes IH]; intros first; simpl; [reflexivity|].
  now rewrite IH.
Qed.

(** The loop over the nodes. *)
Lemma Build_nodes_spec (g : Graph) (nodes : list RenderNode) :
  forall (first : nat) (adj : Adjacency),
    (forall i node,
        nth_error nodes i = Some node ->
        Indegree node = Z.of_nat (length (Inputs node)) /\
        well_declared g (first + i) node) ->
    exists adj',
      Build_nodes g first nodes adj = Ok (expected_nodes g first nodes, adj') /\
      length adj' = length adj /\
      forall p,
        nth_error adj' p
        = option_map (fun tail => tail ++ expected_successors g first nodes p)
            (nth_error adj p).
Proof.
  induction nodes as [|node nodes IH]; intros first adj Hnodes.
  - exists adj. simpl. repeat split.
    intros p. destruct (nth_error adj p); simpl; [now rewrite app_nil_r | reflexivity].
  - destruct (Hnodes 0%nat node eq_refl) as [Hinit (Hfound & Hout & _ & Hfit)].
    rewrite Nat.add_0_r in Hout.
    cbn [Build_nodes].
    rewrite Build_inputs_spec; try assumption; try lia.
    unfold bind.
    destruct (IH (S first)
                (fold_left (fun a q => push_adjacent a q first)
                   (node_edge_sources g first node) adj))
      as (adj' & Hrun & Hlen & Hnth).
    { intros i n Hn. specialize (Hnodes (S i) n Hn).
      now rewrite Nat.add_succ_r in Hnodes. }
    unfold node_edge_sources in Hrun. rewrite Hrun.
    exists adj'. split; [|split].
    + cbn [expected_nodes]. unfold expected_Indegree, expected_OutputMask.
      now rewrite Hinit.
    + rewrite Hlen. apply fold_push_adjacent_length.
    + intros p. rewrite Hnth, fold_push_adjacent_nth.
      destruct (nth_error adj p); simpl; [|reflexivity].
      now rewrite <- app_assoc.
Qed.

Lemma expected_nodes_nth (g : Graph) (nodes : list RenderNode) :
  forall first i,
    nth_error (expected_nodes g first nodes) i
    = option_map
        (fun node =>
           with_Indegree_OutputMask (expected_Indegree g (first + i) node)
             (expected_OutputMask g (first + i) node) node)
        (nth_error nodes i).
Proof.
  induction nodes as [|node nodes IH]; intros first [|i]; simpl; try reflexivity.
  - now rewrite Nat.add_0_r.
  - rewrite IH. now rewrite Nat.add_succ_r.
Qed.

(** No node is its own successor. *)
Lemma expected_successors_not_self (g : Graph) (nodes : list RenderNode) :
  forall first p, ~ In p (expected_successors g first nodes p).
Proof.
  induction nodes as [|node nodes IH]; intros first p; simpl; [tauto|].
  intros Hin. apply in_app_or in Hin. destruct Hin as [Hin|Hin].
  - pose proof (repeat_spec _ _ _ Hin) as ->.
    assert (Hzero : count_occ Nat.eq_dec (node_edge_sources g first node) first = 0%nat).
    { apply count_occ_not_In. unfold node_edge_sources. rewrite in_flat_map.
      intros (input & _ & Hsrc). unfold edge_sources in Hsrc.
      apply filter_In in Hsrc. destruct Hsrc as [_ Hne].
      now rewrite Nat.eqb_refl in Hne. }
    rewrite Hzero in Hin. contradiction.
  - now apply IH in Hin.
Qed.

(** The edge construction reads the graph through [Build_input] only. *)
Lemma Build_nodes_ext (g1 g2 : Graph) :
  (forall N input node adj,
      Build_input g1 N input node adj = Build_input g2 N input node adj) ->
  forall nodes first adj,
    Build_nodes g1 first nodes adj = Build_nodes g2 first nodes adj.
Proof.
  intros Hext.
  assert (Hinputs : forall N inputs node adj,
             Build_inputs g1 N inputs node adj = Build_inputs g2 N inputs node adj).
  { intros N inputs. induction inputs as [|input inputs IH]; intros node adj;
      simpl; [reflexivity|].
    rewrite Hext. destruct (Build_input g2 N input node adj) as [[n a]|msg];
      simpl; [apply IH | reflexivity]. }
  induction nodes as [|node nodes IH]; intros first adj; simpl; [reflexivity|].
  rewrite Hinputs.
  destruct (Build_inputs g2 first (Inputs node) node adj) as [[n a]|msg];
    simpl; [|reflexivity].
  now rewrite IH.
Qed.

(** The run of the edge construction on well-declared nodes. *)
Lemma Build_edges_run (g : Graph) :
  m_inBeginEndBlock g = true ->
  m_inPreRegister g = false ->
  m_renderNodes g <> [] ->
  (forall N node,
      nth_error (m_renderNodes g) N = Some node -> well_declared g N node) ->
  exists adj,
    Build_edges g
    = Ok (set_renderNodes (expected_nodes g 0 (m_renderNodes g))
            (mkGraph (m_frameResources g) (m_prevFramesNumResources g)
               (m_renderNodes g) (m_mapping g) (m_aggregateNodes g) false
               false),
          adj) /\
    length adj = length (m_renderNodes g) /\
    (forall p,
        (p < length (m_renderNodes g))%nat ->
        successors adj p = expected_successors g 0 (m_renderNodes g) p).
Proof.
  intros Hblock Hpre Hnonempty Hdecl.
  destruct (@Build_nodes_spec g (map init_Indegree (m_renderNodes g)) 0%nat
              (repeat [] (length (m_renderNodes g))))
    as (adj & Hrun & Hlen & Hnth).
  { intros i node Hnode. rewrite nth_error_map in Hnode.
    destruct (nth_error (m_renderNodes g) i) as [node0|] eqn:E; [|discriminate].
    injection Hnode as <-. split.
    - unfold init_Indegree. cbn [set_Indegree Indegree Inputs].
      pose proof (Hdecl i node0 E) as (_ & _ & _ & Hfit).
      apply int16_id. unfold in_int16. lia.
    - exact (Hdecl i node0 E). }
  rewrite repeat_length in Hlen.
  exists adj. split; [|split; [exact Hlen|]].
  - assert (Hpos : (0 <? Z.of_nat (length (m_renderNodes g))) = true).
    { destruct (m_renderNodes g); [contradiction | reflexivity]. }
    unfold Build_edges. rewrite Hblock, Hpre.
    unfold Assert, bind, m_currRenderPassIdx. cbn [negb andb m_renderNodes].
    rewrite Hpos.
    erewrite Build_nodes_ext with (g2 := g) by reflexivity.
    rewrite Hrun, expected_nodes_init. reflexivity.
  - intros p Hp. unfold successors.
    specialize (Hnth p).
    rewrite nth_error_repeat in Hnth by exact Hp.
    simpl in Hnth. rewrite expected_successors_init in Hnth.
    erewrite nth_error_nth; [|exact Hnth]. reflexivity.
Qed.

Lemma first_output_lt (outputs : list Dependency) (resID : Z) (j : nat) :
  first_output outputs resID = Some j -> (j < length outputs)%nat.
Proof.
  revert j. induction outputs as [|o outputs IH]; intros j Hj; [discriminate|].
  simpl in Hj. destruct (ResID o =? resID).
  - injection Hj as <-. simpl. lia.
  - destruct (first_output outputs resID) as [j'|]; [|discriminate].
    injection Hj as <-. specialize (IH j' eq_refl). simpl. lia.
Qed.

(** The bits of the mask that the loop over the producers leaves: those
    that were set, and those of the ping-pong outputs. *)
Lemma expected_OutputMask_testbit (g : Graph) (N : nat) (node : RenderNode) (b : Z) :
  0 <= b ->
  (Z.testbit (expected_OutputMask g N node) b = true <->
   Z.testbit (OutputMask node) b = true \/
   exists j, b = Z.of_nat j /\ ping_pong_output g N node j).
Proof.
  intros Hb. unfold expected_OutputMask, ping_pong_output.
  generalize (OutputMask node) as mask.
  induction (Inputs node) as [|i0 inputs IH]; intros mask.
  - simpl. split; [now left|].
    intros [H|(j & _ & input & [] & _)]. exact H.
  - cbn [fold_left]. rewrite IH. clear IH.
    assert (Hstep :
      Z.testbit (if existsb (Nat.eqb N) (producers_of g i0)
                 then mark_output (Outputs node) 0 (ResID i0) mask
                 else mask) b = true <->
      Z.testbit mask b = true \/
      exists j, b = Z.of_nat j /\ In N (producers_of g i0) /\
                first_output (Outputs node) (ResID i0) = Some j).
    { destruct (existsb (Nat.eqb N) (producers_of g i0)) eqn:Eex.
      - apply existsb_exists in Eex. destruct Eex as (x & Hx & Exn).
        apply Nat.eqb_eq in Exn. subst x.
        rewrite mark_output_first.
        destruct (first_output (Outputs node) (ResID i0)) as [j|].
        + rewrite Z.lor_spec, Z.shiftl_1_l, Z.pow2_bits_eqb by lia.
          rewrite orb_true_iff, Z.eqb_eq. split.
          * intros [H|H]; [now left|]. right. exists j.
            split; [lia|]. now split.
          * intros [H|(j' & -> & _ & Hj')]; [now left|]. right.
            injection Hj' as ->. lia.
        + split; [now left|]. intros [H|(j & _ & _ & C)]; [exact H | discriminate].
      - split; [now left|]. intros [H|(j & _ & HN & _)]; [exact H|].
        exfalso. assert (C : existsb (Nat.eqb N) (producers_of g i0) = true).
        { apply existsb_exists. exists N. split; [exact HN | apply Nat.eqb_refl]. }
        congruence. }
    rewrite Hstep. split.
    + intros [[H|(j & Hj & HN & Hfirst)]|(j & Hj & input & Hin & HN & Hfirst)].
      * now left.
      * right. exists j. split; [exact Hj|]. exists i0.
        split; [now left|]. now split.
      * right. exists j. split; [exact Hj|]. exists input.
        split; [now right|]. now split.
    + intros [H|(j & Hj & input & [<-|Hin] & HN & Hfirst)].
      * left. now left.
      * left. right. exists j. now repeat split.
      * right. exists j. split; [exact Hj|]. exists input. now repeat split.
Qed.

(** A mask whose set bits are below [n] is a number below [2 ^ n]. *)
Lemma bits_below_range (mask : Z) (n : Z) :
  0 <= n -> 0 <= mask ->
  (forall b, n <= b -> Z.testbit mask b = false) ->
  mask < 2 ^ n.
Proof.
  intros Hn Hmask Hbits.
  destruct (Z.eq_dec mask 0) as [->|Hne]; [apply Z.pow_pos_nonneg; lia|].
  assert (Hpos : 0 < mask) by lia.
  apply Z.log2_lt_pow2; [exact Hpos|].
  destruct (Z.lt_ge_cases (Z.log2 mask) n) as [Hlt|Hge]; [exact Hlt|].
  specialize (Hbits (Z.log2 mask) Hge).
  rewrite Z.bit_log2 in Hbits by exact Hpos. discriminate.
Qed.

(** C6.  [Build], on passes of at most 31 outputs, leaves every node [N]
    with the in-degree [expected_Indegree]: its number of inputs, plus, for
    each input whose resource has [k] producers, [-1] when [k = 0] and
    [k - 1] otherwise, less one for every producer that is [N] itself.  In
    its output mask it has set, beside the bits that were set before,
    exactly the bits of the ping-pong outputs: bit [j] for the first output
    [j] that names the resource of an input which [N] produces itself; a
    mask that was empty stays within the positive range of [int].  Nothing
    else of the node has changed.  The successors of every handle [p] are
    the nodes of which [p] is a producer distinct from the node, one edge
    per producer slot, so that no node is its own successor. *)
Theorem Build_edges_spec (g : Graph) :
  m_inBeginEndBlock g = true ->
  m_inPreRegister g = false ->
  m_renderNodes g <> [] ->
  (forall N node,
      nth_error (m_renderNodes g) N = Some node ->
      well_declared g N node /\
      (length (Outputs node) <= MAX_MASKED_OUTPUTS)%nat) ->
  exists g' adj,
    Build_edges g = Ok (g', adj) /\
    m_frameResources g' = m_frameResources g /\
    length adj = length (m_renderNodes g) /\
    (forall N node,
        nth_error (m_renderNodes g) N = Some node ->
        exists mask,
          nth_error (m_renderNodes g') N
          = Some (with_Indegree_OutputMask (expected_Indegree g N node) mask node) /\
          (forall b, 0 <= b ->
             (Z.testbit mask b = true <->
              Z.testbit (OutputMask node) b = true \/
              exists j, b = Z.of_nat j /\ ping_pong_output g N node j)) /\
          (OutputMask node = 0 -> 0 <= mask < 2 ^ 31)) /\
    (forall p,
        (p < length (m_renderNodes g))%nat ->
        successors adj p = expected_successors g 0 (m_renderNodes g) p) /\
    (forall N, ~ In N (successors adj N)).
Proof.
  intros Hblock Hpre Hnonempty Hdecl.
  destruct (@Build_edges_run g Hblock Hpre Hnonempty
              (fun N node HN => proj1 (Hdecl N node HN)))
    as (adj & Hrun & Hlen & Hsucc).
  eexists _, adj. split; [exact Hrun|].
  split; [reflexivity|]. split; [exact Hlen|]. split; [|split].
  - intros N node HN. cbn [m_renderNodes set_renderNodes].
    exists (expected_OutputMask g N node).
    split; [rewrite expected_nodes_nth, HN; reflexivity|].
    split; [intros b Hb; now apply expected_OutputMask_testbit|].
    intros Hzero.
    assert (Hbits : forall b, 0 <= b ->
              Z.testbit (expected_OutputMask g N node) b = true -> b < 31).
    { intros b Hb Hbit. apply expected_OutputMask_testbit in Hbit; [|exact Hb].
      destruct Hbit as [Hbit|(j & -> & input & _ & _ & Hj)].
      - rewrite Hzero, Z.bits_0 in Hbit. discriminate.
      - apply first_output_lt in Hj.
        destruct (Hdecl N node HN) as [_ Hout].
        unfold MAX_MASKED_OUTPUTS in Hout. lia. }
    assert (Hnonneg : 0 <= expected_OutputMask g N node).
    { destruct (Z.lt_ge_cases (expected_OutputMask g N node) 0) as [Hneg|Hge];
        [|exact Hge].
      exfalso.
      assert (Hbit : Z.testbit (expected_OutputMask g N node) 31 = true).
      { destruct (Z.bits_iff_neg_ex (expected_OutputMask g N node)) as [Hex _].
        destruct (Hex Hneg) as (k & Hk).
        destruct (Z.lt_ge_cases k 31) as [Hk31|Hk31].
        - apply Hk. lia.
        - destruct (Z.eq_dec k 31) as [->|Hne].
          + destruct (Z.testbit (expected_OutputMask g N node) 31) eqn:E;
              [reflexivity|].
            specialize (Hk 32 ltac:(lia)).
            pose proof (Hbits 32 ltac:(lia) Hk). lia.
          + specialize (Hk (k + 1) ltac:(lia)).
            pose proof (Hbits (k + 1) ltac:(lia) Hk). lia. }
      pose proof (Hbits 31 ltac:(lia) Hbit). lia. }
    split; [exact Hnonneg|].
    apply bits_below_range; [lia | exact Hnonneg|].
    intros b Hb. destruct (Z.testbit (expected_OutputMask g N node) b) eqn:E;
      [|reflexivity].
    pose proof (Hbits b ltac:(lia) E). lia.
  - exact Hsucc.
  - intros N HinN.
    destruct (Nat.lt_ge_cases N (length (m_renderNodes g))) as [Hlt|Hge].
    + rewrite Hsucc in HinN by assumption.
      now apply expected_successors_not_self in HinN.
    + unfold successors in HinN. rewrite nth_overflow in HinN by lia.
      contradiction.
Qed.

Lemma edge_example_well_declared (N : nat) (node : RenderNode) :
  nth_error (m_renderNodes edge_example) N = Some node ->
  well_declared edge_example N node.
Proof.
  intros HN.
  do 3 (destruct N as [|N];
        [injection HN as <-; unfold well_declared;
         split; [repeat (constructor; [vm_compute; discriminate|]); constructor|];
         split; [vm_compute; intros; discriminate|];
         split; [vm_compute; repeat constructor|vm_compute; discriminate]|]).
  destruct N; discriminate.
Qed.

Lemma mask_example_well_declared (N : nat) (node : RenderNode) :
  nth_error (m_renderNodes mask_example) N = Some node ->
  well_declared mask_example N node /\
  (length (Outputs node) <= MAX_MASKED_OUTPUTS)%nat.
Proof.
  intros HN.
  do 3 (destruct N as [|N];
        [injection HN as <-; split; [|vm_compute; repeat constructor];
         unfold well_declared;
         split; [repeat (constructor; [vm_compute; discriminate|]); constructor|];
         split; [vm_compute; intros; discriminate|];
         split; [vm_compute; repeat constructor|vm_compute; discriminate]|]).
  destruct N; discriminate.
Qed.

Lemma Build_edges_spec_witness :
  snd mask_example_declared = Returned /\
  exists g' adj,
    Build_edges mask_example = Ok (g', adj) /\
    map Indegree (m_renderNodes g') = [0; 0; 2] /\
    map OutputMask (m_renderNodes g') = [0; 0; 6] /\
    adj = [[2%nat]; [2%nat]; []].
Proof.
  split; [reflexivity|].
  destruct (@Build_edges_spec mask_example eq_refl eq_refl)
    as (g' & adj & Hrun & _ & Hlen & Hnodes & Hsucc & _).
  - discriminate.
  - exact mask_example_well_declared.
  - exists g', adj. split; [exact Hrun|].
    vm_compute in Hrun. injection Hrun as <- <-. repeat split.
Defined.

(* ---------------------------------------------------------------------- *)
(** ** Counting edges *)

Section Counting.
Variable f : nat -> list nat.


(** The targets of a duplicate-free list of sources are among those of any
    list that holds these sources. *)
Lemma count_flat_map_incl (m : nat) (l : list nat) :
  forall L,
    NoDup l -> incl l L ->
    (count_occ Nat.eq_dec (flat_map f l) m <= count_occ Nat.eq_dec (flat_map f L) m)%nat.
Proof.
  induction l as [|x l IH]; intros L Hnd Hincl; simpl; [lia|].
  inversion Hnd as [|? ? Hx Hnd']; subst.
  assert (HxL : In x L) by (apply Hincl; now left).
  destruct (in_split x L HxL) as (L1 & L2 & ->).
  rewrite flat_map_app. simpl. rewrite !count_occ_app.
  assert (Hincl' : incl l (L1 ++ L2)).
  { intros y Hy. assert (HyL : In y (L1 ++ x :: L2)) by (apply Hincl; now right).
    apply in_app_or in HyL. apply in_or_app.
    destruct HyL as [HyL|[->|HyL]]; auto. contradiction. }
  specialize (IH (L1 ++ L2) Hnd' Hincl').
  rewrite flat_map_app, count_occ_app in IH. lia.
Qed.

(** Sources that do not reach [m] do not count. *)
Lemma count_flat_map_filter (m : nat) (L : list nat) :
  count_occ Nat.eq_dec (flat_map f (filter (fun p => existsb (Nat.eqb m) (f p)) L)) m
  = count_occ Nat.eq_dec (flat_map f L) m.
Proof.
  induction L as [|p L IH]; simpl; [reflexivity|].
  destruct (existsb (Nat.eqb m) (f p)) eqn:E; simpl.
  - rewrite !count_occ_app, IH. reflexivity.
  - rewrite count_occ_app, IH.
    assert (Hz : count_occ Nat.eq_dec (f p) m = 0%nat).
    { apply count_occ_not_In. intros Hin.
      assert (Ht : existsb (Nat.eqb m) (f p) = true)
        by (apply existsb_exists; exists m; split; [exact Hin | apply Nat.eqb_refl]).
      congruence. }
    lia.
Qed.

(** When every source of [L] that reaches [m] is in [l], the edges into [m]
    from [L] are among those from [l]. *)
Lemma count_flat_map_sources (m : nat) (l L : list nat) :
  NoDup L ->
  (forall p, In p L -> In m (f p) -> In p l) ->
  (count_occ Nat.eq_dec (flat_map f L) m <= count_occ Nat.eq_dec (flat_map f l) m)%nat.
Proof.
  intros Hnd Hsrc. rewrite <- count_flat_map_filter.
  apply count_flat_map_incl.
  - now apply NoDup_filter.
  - intros p Hp. apply filter_In in Hp. destruct Hp as [HpL Hreach].
    apply existsb_exists in Hreach. destruct Hreach as (y & Hy & Heq).
    apply Nat.eqb_eq in Heq. subst y. now apply Hsrc.
Qed.

End Counting.

Lemma flat_map_nth_seq {A} (l : list (list A)) :
  flat_map (fun h => nth h l []) (seq 0 (length l)) = concat l.
Proof.
  induction l as [|x l IH]; simpl; [reflexivity|].
  rewrite <- seq_shift, flat_map_concat_map, map_map, <- flat_map_concat_map.
  simpl. now rewrite IH.
Qed.

Lemma in_degree_flat_map (adj : Adjacency) (m : nat) :
  in_degree adj m
  = count_occ Nat.eq_dec (flat_map (successors adj) (seq 0 (length adj))) m.
Proof.
  unfold in_degree, successors. now rewrite flat_map_nth_seq.
Qed.

(* ---------------------------------------------------------------------- *)
(** ** Kahn's loop *)

Section Kahn.
Variable adj : Adjacency.
Variable n : nat.
Hypothesis adj_length : length adj = n.
Hypothesis adj_range : Forall (Forall (fun m => (m < n)%nat)) adj.
Hypothesis degree_fits :
  forall m, (m < n)%nat -> Z.of_nat (in_degree adj m) <= 32767.

Lemma successors_range (h : nat) : Forall (fun m => (m < n)%nat) (successors adj h).
Proof.
  unfold successors.
  destruct (Nat.lt_ge_cases h (length adj)) as [Hlt|Hge].
  - rewrite Forall_forall in adj_range. apply adj_range. now apply nth_In.
  - rewrite nth_overflow by assumption. constructor.
Qed.

Lemma visited_edges_bound (l : list nat) (m : nat) :
  NoDup l -> Forall (fun h => (h < n)%nat) l ->
  (visited_edges adj l m <= in_degree adj m)%nat.
Proof.
  intros Hnd Hrange. unfold visited_edges. rewrite in_degree_flat_map.
  apply count_flat_map_incl; [exact Hnd|].
  intros h Hh. rewrite Forall_forall in Hrange. apply in_seq.
  specialize (Hrange h Hh). lia.
Qed.

(** The loop over the successors of a sorted node. *)
Lemma Sort_visit_inv (rest : list nat) :
  forall nodes sorted done,
    kahn_inv adj n nodes sorted done ->
    Forall (fun m => (m < n)%nat) rest ->
    (forall m, (count_occ Nat.eq_dec (done ++ rest) m <= in_degree adj m)%nat) ->
    exists nodes' ext,
      Sort_visit rest nodes sorted = (nodes', sorted ++ ext) /\
      kahn_inv adj n nodes' (sorted ++ ext) (done ++ rest).
Proof.
  induction rest as [|a rest IH]; intros nodes sorted done Hinv Hrange Hbound.
  - exists nodes, []. simpl. now rewrite !app_nil_r.
  - destruct Hinv as (Hlen & Hnd & Hsr & Hdeg & Hiff).
    inversion Hrange as [|? ? Ha Hrange']; subst.
    destruct (nth_error nodes a) as [node|] eqn:Ea.
    2:{ apply nth_error_None in Ea. lia. }
    pose proof (Hdeg a node Ea) as Hda.
    pose proof (Hbound a) as Hba.
    rewrite count_occ_app in Hba. simpl in Hba.
    destruct (Nat.eq_dec a a) as [_|C]; [|contradiction].
    pose proof (degree_fits Ha) as Hfit.
    assert (Hstep : int16 (Indegree node - 1)
                    = Z.of_nat (in_degree adj a)
                      - Z.of_nat (count_occ Nat.eq_dec (done ++ [a]) a)).
    { rewrite int16_id by (unfold in_int16; lia).
      rewrite count_occ_app. simpl.
      destruct (Nat.eq_dec a a) as [_|C]; [|contradiction]. lia. }
    assert (Hnotin : ~ In a sorted).
    { intros Hin. apply (Hiff a Ha) in Hin. lia. }
    set (n1 := set_Indegree (int16 (Indegree node - 1)) node).
    assert (Hdeg' : forall m node',
               nth_error (upd nodes a n1) m = Some node' ->
               Indegree node'
               = Z.of_nat (in_degree adj m)
                 - Z.of_nat (count_occ Nat.eq_dec (done ++ [a]) m)).
    { intros m node' Hm. destruct (Nat.eq_dec a m) as [<-|Hne].
      - rewrite nth_error_upd_same in Hm by lia. injection Hm as <-.
        subst n1. cbn [set_Indegree Indegree]. exact Hstep.
      - rewrite nth_error_upd_other in Hm by assumption.
        rewrite count_occ_app. simpl.
        destruct (Nat.eq_dec a m) as [C|_]; [contradiction|].
        rewrite Nat.add_0_r. now apply Hdeg. }
    assert (Hbound' : forall m,
               (count_occ Nat.eq_dec ((done ++ [a]) ++ rest) m
                <= in_degree adj m)%nat).
    { intros m. rewrite <- app_assoc. apply Hbound. }
    cbn [Sort_visit]. rewrite Ea. fold n1.
    destruct (Z.eqb_spec (Indegree n1) 0) as [Hzero|Hnz].
    + destruct (IH (upd nodes a n1) (sorted ++ [a]) (done ++ [a]))
        as (nodes' & ext & Hrun & Hinv'); try assumption.
      { split; [now rewrite upd_length|].
        split; [apply NoDup_app; auto;
                [constructor; [tauto | constructor]
                | intros x Hx [<-|[]]; contradiction]|].
        split; [apply Forall_app; split; [assumption | now constructor]|].
        split; [exact Hdeg'|].
        intros m Hm. rewrite in_app_iff. destruct (Nat.eq_dec a m) as [<-|Hne].
        - subst n1. cbn [set_Indegree Indegree] in Hzero. rewrite Hstep in Hzero.
          split; [intros _; lia | intros _; right; now left].
        - rewrite count_occ_app. simpl.
          destruct (Nat.eq_dec a m) as [C|_]; [contradiction|].
          rewrite Nat.add_0_r. rewrite <- (Hiff m Hm).
          split; [intros [H|[H|[]]]; [exact H | contradiction] | now left]. }
      replace ((done ++ [a]) ++ rest) with (done ++ a :: rest) in Hinv'
        by now rewrite <- app_assoc.
      exists nodes', ([a] ++ ext). rewrite app_assoc. split; [exact Hrun|].
      exact Hinv'.
    + destruct (IH (upd nodes a n1) sorted (done ++ [a]))
        as (nodes' & ext & Hrun & Hinv'); try assumption.
      { split; [now rewrite upd_length|].
        split; [assumption|]. split; [assumption|]. split; [exact Hdeg'|].
        intros m Hm. destruct (Nat.eq_dec a m) as [<-|Hne].
        - subst n1. cbn [set_Indegree Indegree] in Hnz. rewrite Hstep in Hnz.
          split; [contradiction | intros; lia].
        - rewrite count_occ_app. simpl.
          destruct (Nat.eq_dec a m) as [C|_]; [contradiction|].
          rewrite Nat.add_0_r. apply (Hiff m Hm). }
      replace ((done ++ [a]) ++ rest) with (done ++ a :: rest) in Hinv'
        by now rewrite <- app_assoc.
      exists nodes', ext. split; [exact Hrun | exact Hinv'].
Qed.

(** When every sorted node has been visited and the graph is acyclic, every
    node is sorted. *)
Lemma kahn_complete (rank : nat -> nat) (nodes : list RenderNode)
    (sorted : list nat) :
  (forall p m, In m (successors adj p) -> (rank p < rank m)%nat) ->
  kahn_inv adj n nodes sorted (flat_map (successors adj) sorted) ->
  forall m, (m < n)%nat -> In m sorted.
Proof.
  intros Hrank (Hlen & Hnd & Hsr & Hdeg & Hiff).
  assert (Hall : forall r m, (rank m < r)%nat -> (m < n)%nat -> In m sorted).
  { induction r as [|r IH]; intros m Hr Hm; [lia|].
    apply (Hiff m Hm).
    pose proof (visited_edges_bound m Hnd Hsr) as Hle. unfold visited_edges in Hle.
    assert (Hge : (in_degree adj m
                   <= count_occ Nat.eq_dec (flat_map (successors adj) sorted) m)%nat).
    { rewrite in_degree_flat_map. apply count_flat_map_sources.
      - apply seq_NoDup.
      - intros p Hp Hedge. apply in_seq in Hp.
        apply IH; [specialize (Hrank p m Hedge)|]; lia. }
    lia. }
  intros m Hm. apply (Hall (S (rank m))); [lia | exact Hm].
Qed.

(** The topological loop runs to its end on an acyclic graph. *)
Lemma Sort_topo_inv (rank : nat -> nat) :
  (forall p m, In m (successors adj p) -> (rank p < rank m)%nat) ->
  forall k i nodes sorted,
    kahn_inv adj n nodes sorted (flat_map (successors adj) (firstn i sorted)) ->
    (i <= length sorted)%nat ->
    (i + k <= n)%nat ->
    exists nodes' sorted',
      Sort_topo k i adj nodes sorted = Ok (nodes', sorted') /\
      kahn_inv adj n nodes' sorted'
        (flat_map (successors adj) (firstn (i + k) sorted')) /\
      (i + k <= length sorted')%nat.
Proof.
  intros Hrank.
  induction k as [|k IH]; intros i nodes sorted Hinv Hi Hik.
  - exists nodes, sorted. rewrite Nat.add_0_r. simpl. auto.
  - assert (Hlt : (i < length sorted)%nat).
    { destruct (Nat.eq_dec i (length sorted)) as [->|Hne]; [|lia].
      rewrite firstn_all in Hinv.
      pose proof (kahn_complete rank Hrank Hinv) as Hall.
      destruct Hinv as (_ & Hnd & _).
      assert (Hincl : incl (seq 0 n) sorted)
        by (intros m Hm; apply in_seq in Hm; apply Hall; lia).
      pose proof (NoDup_incl_length (seq_NoDup n 0) Hincl) as Hlen.
      rewrite length_seq in Hlen. lia. }
    destruct (nth_error sorted i) as [h|] eqn:Eh.
    2:{ apply nth_error_None in Eh. lia. }
    assert (Hfirst : firstn (S i) sorted = firstn i sorted ++ [h]).
    { clear - Eh. revert i Eh. induction sorted as [|x l IHl]; intros [|i] Eh;
        simpl in *; try discriminate.
      - now injection Eh as ->.
      - f_equal. now apply IHl. }
    pose proof Hinv as (_ & Hnd & Hsr & _).
    destruct (@Sort_visit_inv (successors adj h) nodes sorted
                (flat_map (successors adj) (firstn i sorted)) Hinv)
      as (nodes1 & ext & Hrun & Hinv1).
    { apply successors_range. }
    { intros m.
      replace (flat_map (successors adj) (firstn i sorted) ++ successors adj h)
        with (flat_map (successors adj) (firstn (S i) sorted))
        by (rewrite Hfirst, flat_map_app; simpl; now rewrite app_nil_r).
      apply visited_edges_bound.
      - rewrite <- (firstn_skipn (S i) sorted) in Hnd.
        now apply NoDup_app_remove_r in Hnd.
      - rewrite <- (firstn_skipn (S i) sorted) in Hsr.
        now apply Forall_app in Hsr. }
    cbn [Sort_topo]. rewrite Eh. fold (successors adj h). rewrite Hrun.
    destruct (IH (S i) nodes1 (sorted ++ ext)) as (nodes' & sorted' & Hrun' & Hinv' & Hlen').
    + replace (firstn (S i) (sorted ++ ext)) with (firstn i sorted ++ [h]).
      * rewrite flat_map_app. simpl. now rewrite app_nil_r.
      * rewrite firstn_app, Hfirst.
        replace (S i - length sorted)%nat with 0%nat by lia.
        now rewrite firstn_O, app_nil_r.
    + rewrite length_app. lia.
    + lia.
    + exists nodes', sorted'. rewrite Hrun'.
      replace (i + S k)%nat with (S i + k)%nat by lia. auto.
Qed.

End Kahn.

(* ---------------------------------------------------------------------- *)
(** ** The frontier, the mapping and the whole of [Sort] *)

Lemma Sort_frontier_spec (nodes : list RenderNode) :
  forall first nodes0 sorted0,
    Sort_frontier first nodes = (nodes0, sorted0) ->
    length nodes0 = length nodes /\
    map Indegree nodes0 = map Indegree nodes /\
    NoDup sorted0 /\
    (forall m,
        In m sorted0 <->
        (first <= m)%nat /\
        exists node, nth_error nodes (m - first) = Some node /\ Indegree node = 0).
Proof.
  induction nodes as [|node nodes IH]; intros first nodes0 sorted0 Hrun.
  - simpl in Hrun. injection Hrun as <- <-.
    split; [reflexivity|]. split; [reflexivity|]. split; [constructor|].
    intros m. split.
    + intros [].
    + intros [_ (node & Hn & _)]. destruct (m - first)%nat; discriminate.
  - simpl in Hrun.
    destruct (Sort_frontier (S first) nodes) as [nodes1 sorted1] eqn:Erec.
    destruct (IH (S first) nodes1 sorted1 Erec) as (Hlen & Hdeg & Hnd & Hiff).
    assert (Htail : forall m,
               ((first <= m)%nat /\
                exists node', nth_error (node :: nodes) (m - first) = Some node'
                              /\ Indegree node' = 0)
               <-> (m = first /\ Indegree node = 0) \/ In m sorted1).
    { intros m. rewrite Hiff. split.
      - intros [Hle (node' & Hn & Hz)].
        destruct (Nat.eq_dec m first) as [->|Hne].
        + left. rewrite Nat.sub_diag in Hn. injection Hn as <-. auto.
        + right. split; [lia|]. exists node'. split; [|exact Hz].
          replace (m - first)%nat with (S (m - S first)) in Hn by lia. exact Hn.
      - intros [[-> Hz]|[Hle (node' & Hn & Hz)]].
        + split; [lia|]. exists node. rewrite Nat.sub_diag. auto.
        + split; [lia|]. exists node'. split; [|exact Hz].
          replace (m - first)%nat with (S (m - S first)) by lia. exact Hn. }
    destruct (Z.eqb_spec (Indegree node) 0) as [Hz|Hnz];
      injection Hrun as <- <-; simpl; rewrite Hlen, Hdeg;
      (split; [reflexivity|]); (split; [reflexivity|]).
    + split.
      * constructor; [|exact Hnd]. intros Hin. apply Hiff in Hin. lia.
      * intros m. rewrite Htail. split.
        -- intros [<-|Hin]; auto.
        -- intros [[-> _]|Hin]; auto.
    + split; [exact Hnd|].
      intros m. rewrite Htail. split; [auto|].
      intros [[_ Hz]|Hin]; [contradiction | exact Hin].
Qed.

Lemma map_seq_nth {A} (f : A -> Z) (g : nat -> Z) (l : list A) (m : nat) (x : A) :
  map f l = map g (seq 0 (length l)) ->
  nth_error l m = Some x ->
  f x = g m.
Proof.
  intros Hmap Hx.
  assert (Hm : (m < length l)%nat) by (apply nth_error_Some; congruence).
  assert (H1 : nth_error (map f l) m = Some (f x)) by now rewrite nth_error_map, Hx.
  rewrite Hmap, nth_error_map in H1.
  rewrite (nth_error_nth' (seq 0 (length l)) 0%nat) in H1
    by now rewrite length_seq.
  rewrite seq_nth in H1 by assumption. simpl in H1. now injection H1.
Qed.

Lemma Sort_batch_visit_length (h : nat) (adjacent : list nat) :
  forall nodes, length (Sort_batch_visit h adjacent nodes) = length nodes.
Proof.
  induction adjacent as [|a adjacent IH]; intros nodes; simpl; [reflexivity|].
  destruct (nth_error nodes h); [|apply IH].
  destruct (nth_error nodes a); rewrite IH; [apply upd_length | reflexivity].
Qed.

Lemma Sort_batch_length (adj : Adjacency) (sorted : list nat) :
  forall nodes, length (Sort_batch sorted adj nodes) = length nodes.
Proof.
  induction sorted as [|h sorted IH]; intros nodes; simpl; [reflexivity|].
  rewrite IH. apply Sort_batch_visit_length.
Qed.

Lemma stored_degree (adj : Adjacency) (nodes : list RenderNode) (m : nat)
    (node : RenderNode) :
  map Indegree nodes
    = map (fun m => Z.of_nat (in_degree adj m)) (seq 0 (length nodes)) ->
  nth_error nodes m = Some node ->
  Indegree node = Z.of_nat (in_degree adj m).
Proof.
  intros Hmap Hm.
  exact (@map_seq_nth _ Indegree (fun m => Z.of_nat (in_degree adj m))
           nodes m node Hmap Hm).
Qed.

(** Kahn's order of a consistent, acyclic graph holds every node once. *)
Lemma Sort_kahn_permutation (adj : Adjacency) (nodes : list RenderNode) :
  nodes <> [] ->
  consistent nodes adj ->
  is_DAG adj ->
  exists nodes' kahn,
    Sort_kahn adj nodes = Ok (nodes', kahn) /\
    length nodes' = length nodes /\
    Permutation kahn (seq 0 (length nodes)).
Proof.
  intros Hnonempty (Hlen & Hdeg & Hrange & Hfit) (rank & Hrank).
  unfold Sort_kahn.
  set (n := length nodes) in *.
  assert (Hfits : forall m, (m < n)%nat -> Z.of_nat (in_degree adj m) <= 32767).
  { intros m Hm.
    destruct (nth_error nodes m) as [node|] eqn:Em.
    2:{ apply nth_error_None in Em. lia. }
    erewrite <- stored_degree; [|exact Hdeg|exact Em].
    rewrite Forall_forall in Hfit. apply Hfit. eapply nth_error_In; eauto. }
  destruct (Sort_frontier 0 nodes) as [nodes0 sorted0] eqn:Efront.
  destruct (@Sort_frontier_spec nodes 0%nat nodes0 sorted0 Efront)
    as (Hlen0 & Hdeg0 & Hnd0 & Hiff0).
  assert (Hinv0 : kahn_inv adj n nodes0 sorted0 []).
  { split; [exact Hlen0|]. split; [exact Hnd0|]. split; [|split].
    - apply Forall_forall. intros m Hm. apply Hiff0 in Hm.
      destruct Hm as [_ (node & Hn & _)]. rewrite Nat.sub_0_r in Hn.
      apply nth_error_Some. congruence.
    - intros m node Hm. simpl. rewrite Z.sub_0_r.
      eapply stored_degree; [|exact Hm]. now rewrite Hdeg0, Hlen0.
    - intros m Hm. simpl. rewrite Hiff0, Nat.sub_0_r.
      destruct (nth_error nodes m) as [node|] eqn:Em.
      2:{ apply nth_error_None in Em. lia. }
      pose proof (@stored_degree adj nodes m node Hdeg Em) as Hd.
      split.
      + intros [_ (node' & Hn & Hz)]. injection Hn as <-. lia.
      + intros Hz. split; [lia|]. exists node. split; [reflexivity | lia]. }
  destruct (@Sort_topo_inv adj n Hlen Hrange Hfits rank Hrank n 0%nat nodes0 sorted0)
    as (nodes1 & sorted1 & Hrun & Hinv1 & Hlen1); try lia; [exact Hinv0|].
  assert (Hfront : (0 <? Z.of_nat (length sorted0)) = true).
  { destruct sorted0 as [|h0 s0]; [|reflexivity]. exfalso.
    assert (Hall : forall m, (m < n)%nat -> In m (@nil nat))
      by (eapply kahn_complete; eauto).
    destruct nodes as [|x xs]; [contradiction|].
    apply (Hall 0%nat). subst n. simpl. lia. }
  rewrite Hfront. unfold Assert, bind. rewrite Hrun.
  destruct Hinv1 as (Hlenn & Hnd1 & Hsr1 & _).
  assert (Hincl : incl sorted1 (seq 0 n)).
  { intros m Hm. rewrite Forall_forall in Hsr1. apply in_seq.
    specialize (Hsr1 m Hm). lia. }
  pose proof (NoDup_incl_length Hnd1 Hincl) as Hle. rewrite length_seq in Hle.
  simpl in Hlen1.
  assert (Hn1 : length sorted1 = n) by lia.
  rewrite Hn1, Nat.eqb_refl.
  eexists _, _. split; [reflexivity|]. split.
  - rewrite Sort_batch_length. exact Hlenn.
  - apply NoDup_Permutation_bis; [exact Hnd1 | rewrite length_seq; lia | exact Hincl].
Qed.

(** The loop that fills [m_mapping]: position [j] of [sorted] is recorded
    at the handle found there. *)
Lemma Sort_mapping_spec (sorted : list nat) :
  forall k mapping,
    NoDup sorted ->
    Forall (fun h => (h < length mapping)%nat) sorted ->
    length (Sort_mapping k sorted mapping) = length mapping /\
    (forall j h, nth_error sorted j = Some h ->
                 nth_error (Sort_mapping k sorted mapping) h = Some (k + j)%nat) /\
    (forall h, ~ In h sorted ->
               nth_error (Sort_mapping k sorted mapping) h = nth_error mapping h).
Proof.
  induction sorted as [|x sorted IH]; intros k mapping Hnd Hrange.
  - simpl. split; [reflexivity|]. split; [|reflexivity].
    intros [|j] h Hj; discriminate.
  - inversion Hnd as [|? ? Hx Hnd']; subst.
    inversion Hrange as [|? ? Hxr Hrange']; subst.
    destruct (IH (S k) (upd mapping x k) Hnd') as (Hlen & Hpos & Hother).
    { now rewrite upd_length. }
    simpl. split; [now rewrite Hlen, upd_length|]. split.
    + intros [|j] h Hj; simpl in Hj.
      * injection Hj as <-. rewrite Hother by assumption.
        rewrite nth_error_upd_same by assumption. f_equal. lia.
      * rewrite (Hpos j h Hj). f_equal. lia.
    + intros h Hh. rewrite Hother by tauto.
      apply nth_error_upd_other. intros ->. apply Hh. now left.
Qed.

Lemma StronglySorted_nth {A} (R : A -> A -> Prop) (l : list A) :
  StronglySorted R l ->
  forall i j x y,
    (i < j)%nat -> nth_error l i = Some x -> nth_error l j = Some y -> R x y.
Proof.
  induction 1 as [|a l Hs IH Hall]; intros i j x y Hij Hi Hj.
  - destruct i; discriminate.
  - destruct j as [|j]; [lia|]. simpl in Hj. destruct i as [|i]; simpl in Hi.
    + injection Hi as <-. rewrite Forall_forall in Hall. apply Hall.
      eapply nth_error_In; eauto.
    + apply (IH i j); [lia | assumption | assumption].
Qed.

(** What [Sort] computes for a consistent, acyclic graph: the sorted order
    is a permutation of the handles and the mapping records the position
    of every handle in it. *)
Lemma Sort_positions
    (std_sort : (nat -> nat -> bool) -> list nat -> list nat)
    (adj : Adjacency) (g : Graph) :
  std_sort_contract std_sort ->
  m_renderNodes g <> [] ->
  consistent (m_renderNodes g) adj ->
  is_DAG adj ->
  (length (m_renderNodes g) <= length (m_mapping g))%nat ->
  exists nodes kahn sorted g',
    Sort_kahn adj (m_renderNodes g) = Ok (nodes, kahn) /\
    sorted = std_sort (batch_less nodes) kahn /\
    Sort std_sort adj g = Ok g' /\
    m_renderNodes g' = map (fun h => nth h nodes default_RenderNode) sorted /\
    Permutation sorted (seq 0 (length (m_renderNodes g))) /\
    StronglySorted (fun x y => batch_of nodes x <= batch_of nodes y) sorted /\
    (forall j h, nth_error sorted j = Some h ->
                 nth h (m_mapping g') 0%nat = j).
Proof.
  intros Hsort Hnonempty Hcons Hdag Hmap.
  destruct (@Sort_kahn_permutation adj _ Hnonempty Hcons Hdag)
    as (nodes & kahn & Hkahn & Hlen & Hperm).
  destruct (Hsort (batch_of nodes) kahn) as [Hperm2 Hsorted].
  change (fun lhs rhs => batch_of nodes lhs <? batch_of nodes rhs)
    with (batch_less nodes) in *.
  set (sorted := std_sort (batch_less nodes) kahn) in *.
  assert (Hps : Permutation sorted (seq 0 (length (m_renderNodes g))))
    by (eapply Permutation_trans; [apply Permutation_sym; exact Hperm2 | exact Hperm]).
  assert (Hnd : NoDup sorted)
    by (eapply Permutation_NoDup; [apply Permutation_sym; exact Hps | apply seq_NoDup]).
  assert (Hrange : Forall (fun h => (h < length (m_mapping g))%nat) sorted).
  { apply Forall_forall. intros h Hh.
    apply (Permutation_in _ Hps) in Hh. apply in_seq in Hh. lia. }
  destruct (@Sort_mapping_spec sorted 0%nat (m_mapping g) Hnd Hrange)
    as (_ & Hpos & _).
  eexists nodes, kahn, sorted, _.
  split; [exact Hkahn|]. split; [reflexivity|]. split.
  { unfold Sort. rewrite Hkahn. unfold bind. reflexivity. }
  split; [reflexivity|]. split; [exact Hps|]. split; [exact Hsorted|].
  intros j h Hj. cbn [m_mapping set_mapping].
  apply nth_error_nth. fold sorted. now rewrite (Hpos j h Hj).
Qed.

(** C8.  On a graph whose in-degrees are those of its edges (as [Build]
    leaves them, see [Build_edges_consistent]) and that is acyclic, [Sort]
    succeeds and leaves in [m_mapping] a bijection of the
    handles [0 .. n-1]: every handle is mapped below [n], no two handles
    are mapped to the same index, and every index below [n] is the image
    of a handle. *)
Theorem Sort_mapping_bijection
    (std_sort : (nat -> nat -> bool) -> list nat -> list nat)
    (adj : Adjacency) (g : Graph) :
  std_sort_contract std_sort ->
  m_renderNodes g <> [] ->
  consistent (m_renderNodes g) adj ->
  is_DAG adj ->
  (length (m_renderNodes g) <= length (m_mapping g))%nat ->
  exists g',
    Sort std_sort adj g = Ok g' /\
    length (m_renderNodes g') = length (m_renderNodes g) /\
    (forall h, (h < length (m_renderNodes g))%nat ->
               (nth h (m_mapping g') 0 < length (m_renderNodes g))%nat) /\
    (forall h1 h2,
        (h1 < length (m_renderNodes g))%nat ->
        (h2 < length (m_renderNodes g))%nat ->
        nth h1 (m_mapping g') 0%nat = nth h2 (m_mapping g') 0%nat ->
        h1 = h2) /\
    (forall i, (i < length (m_renderNodes g))%nat ->
               exists h, (h < length (m_renderNodes g))%nat /\
                         nth h (m_mapping g') 0%nat = i).
Proof.
  intros Hsort Hnonempty Hcons Hdag Hmap.
  destruct (@Sort_positions std_sort adj g Hsort Hnonempty Hcons Hdag Hmap)
    as (nodes & kahn & sorted & g' & _ & _ & Hrun & Hnodes & Hperm & _ & Hpos).
  set (n := length (m_renderNodes g)) in *.
  assert (Hlen : length sorted = n)
    by (rewrite (Permutation_length Hperm); apply length_seq).
  assert (Hfind : forall h, (h < n)%nat ->
                    exists j, (j < n)%nat /\ nth_error sorted j = Some h).
  { intros h Hh.
    assert (Hin : In h sorted).
    { apply (Permutation_in _ (Permutation_sym Hperm)). apply in_seq. lia. }
    apply In_nth_error in Hin. destruct Hin as [j Hj]. exists j. split; [|exact Hj].
    rewrite <- Hlen. apply nth_error_Some. congruence. }
  exists g'. split; [exact Hrun|]. split; [|split; [|split]].
  - now rewrite Hnodes, length_map.
  - intros h Hh. destruct (Hfind h Hh) as (j & Hj & Hnth).
    now rewrite (Hpos j h Hnth).
  - intros h1 h2 Hh1 Hh2 Heq.
    destruct (Hfind h1 Hh1) as (j1 & _ & Hn1).
    destruct (Hfind h2 Hh2) as (j2 & _ & Hn2).
    rewrite (Hpos j1 h1 Hn1), (Hpos j2 h2 Hn2) in Heq. subst j2. congruence.
  - intros i Hi.
    destruct (nth_error sorted i) as [h|] eqn:Eh.
    2:{ apply nth_error_None in Eh. lia. }
    exists h. split; [|exact (Hpos i h Eh)].
    assert (Hin : In h (seq 0 n)).
    { apply (Permutation_in _ Hperm). eapply nth_error_In; eauto. }
    apply in_seq in Hin. lia.
Qed.

Lemma map_nth_seq {A} (l : list A) (d : A) :
  map (fun h => nth h l d) (seq 0 (length l)) = l.
Proof.
  induction l as [|x l IH]; simpl; [reflexivity|].
  rewrite <- seq_shift, map_map. simpl. now rewrite IH.
Qed.


(* ---------------------------------------------------------------------- *)
(** ** Two implementations of [std::sort] *)

Section InsertionSort.
Variable key : nat -> Z.

Let comp (lhs rhs : nat) : bool := key lhs <? key rhs.
Let le_key (x y : nat) : Prop := key x <= key y.

Lemma insert_sorted_perm (x : nat) (l : list nat) :
  Permutation (x :: l) (insert_sorted comp x l).
Proof.
  induction l as [|y l IH]; simpl; [apply Permutation_refl|].
  destruct (comp y x); [|apply Permutation_refl].
  eapply Permutation_trans; [apply perm_swap|]. now constructor.
Qed.

Lemma insert_sorted_Sorted (x : nat) (l : list nat) :
  Sorted le_key l -> Sorted le_key (insert_sorted comp x l).
Proof.
  induction l as [|y l IH]; intros Hs; simpl.
  - repeat constructor.
  - inversion Hs as [|? ? Hs' Hhd]; subst.
    unfold comp at 1. destruct (Z.ltb_spec (key y) (key x)) as [Hlt|Hge].
    + constructor; [now apply IH|].
      destruct l as [|z l]; simpl.
      * constructor. unfold le_key. lia.
      * unfold comp at 1. destruct (Z.ltb_spec (key z) (key x)).
        -- constructor. now inversion Hhd.
        -- constructor. unfold le_key. lia.
    + constructor; [exact Hs|]. constructor. exact Hge.
Qed.

Lemma insertion_sort_perm (l : list nat) :
  Permutation l (insertion_sort comp l).
Proof.
  induction l as [|x l IH]; simpl; [constructor|].
  eapply Permutation_trans; [|apply insert_sorted_perm]. now constructor.
Qed.

Lemma insertion_sort_Sorted (l : list nat) :
  StronglySorted le_key (insertion_sort comp l).
Proof.
  apply Sorted_StronglySorted.
  - intros x y z Hxy Hyz. unfold le_key in *. lia.
  - induction l as [|x l IH]; simpl; [constructor|].
    now apply insert_sorted_Sorted.
Qed.

End InsertionSort.

Lemma insertion_sort_contract : std_sort_contract insertion_sort.
Proof.
  intros key l. split; [apply insertion_sort_perm | apply insertion_sort_Sorted].
Qed.

Lemma reversing_sort_contract : std_sort_contract reversing_sort.
Proof.
  intros key l. unfold reversing_sort. split.
  - eapply Permutation_trans; [apply Permutation_rev | apply insertion_sort_perm].
  - apply insertion_sort_Sorted.
Qed.


(** On the sixteen passes or fewer of the other scenarios [std::sort] is
    the insertion sort: the two sorts leave scenario S2 and the two passes
    in the same order. *)
Lemma Sort_std_sort_short :
  Build_barriers __sort 999 scenario_S2 = Build_barriers insertion_sort 999 scenario_S2 /\
  exists g adj g',
    Build_edges two_passes = Ok (g, adj) /\
    Sort __sort adj g = Ok g' /\
    firstn 2 (m_mapping g') = [0; 1]%nat.
Proof.
  split; [vm_compute; reflexivity|].
  eexists _, _, _. split; [vm_compute; reflexivity|].
  split; [vm_compute; reflexivity | reflexivity].
Qed.

(** With insertion sort the two passes keep their order. *)
Lemma Sort_insertion_two_passes :
  exists g adj g',
    Build_edges two_passes = Ok (g, adj) /\
    Sort insertion_sort adj g = Ok g' /\
    firstn 2 (m_mapping g') = [0; 1]%nat.
Proof.
  eexists _, _, _. split; [vm_compute; reflexivity|].
  split; [vm_compute; reflexivity | reflexivity].
Qed.

Lemma edge_example_consistent :
  consistent (m_renderNodes (fst edge_example_built)) (snd edge_example_built).
Proof.
  unfold consistent. simpl.
  split; [reflexivity|]. split; [reflexivity|].
  split; repeat (constructor; simpl; try lia).
Qed.

Lemma edge_example_DAG : is_DAG (snd edge_example_built).
Proof.
  exists (fun h => h). intros p m Hin.
  do 3 (destruct p as [|p]; [simpl in Hin; intuition lia|]).
  destruct p; contradiction.
Qed.

Lemma Sort_mapping_bijection_witness :
  exists g',
    Sort insertion_sort (snd edge_example_built) (fst edge_example_built) = Ok g' /\
    forall h, (h < 3)%nat -> (nth h (m_mapping g') 0 < 3)%nat.
Proof.
  destruct (@Sort_mapping_bijection insertion_sort (snd edge_example_built)
              (fst edge_example_built) insertion_sort_contract)
    as (g' & Hrun & _ & Hbound & _).
  - discriminate.
  - exact edge_example_consistent.
  - exact edge_example_DAG.
  - simpl. lia.
  - exists g'. split; [exact Hrun | exact Hbound].
Defined.


(* ---------------------------------------------------------------------- *)
(** ** The edge construction feeds Kahn's loop *)

Lemma edge_sources_length (N : nat) (prods : list nat) :
  Z.of_nat (length (edge_sources N prods)) = indegree_term N prods + 1.
Proof.
  unfold indegree_term, edge_sources.
  assert (H : (length (filter (fun p => negb (Nat.eqb N p)) prods)
               + count_occ Nat.eq_dec prods N = length prods)%nat).
  { induction prods as [|p prods IH]; simpl; [reflexivity|].
    destruct (Nat.eqb_spec N p) as [->|Hne]; simpl.
    - destruct (Nat.eq_dec p p) as [_|C]; [lia | contradiction].
    - destruct (Nat.eq_dec p N) as [C|_]; [congruence | lia]. }
  destruct (Z.eqb_spec (Z.of_nat (length prods)) 0); lia.
Qed.

(** The in-degree that [Build] stores is the number of edges it adds. *)
Lemma expected_Indegree_edges (g : Graph) (N : nat) (node : RenderNode) :
  expected_Indegree g N node = Z.of_nat (length (node_edge_sources g N node)).
Proof.
  unfold expected_Indegree, node_edge_sources.
  induction (Inputs node) as [|input inputs IH];
    cbn [length map fold_right flat_map]; [reflexivity|].
  rewrite length_app, Nat2Z.inj_add, edge_sources_length.
  rewrite Nat2Z.inj_succ. lia.
Qed.

Lemma node_edge_sources_incl (g : Graph) (N : nat) (node : RenderNode) (p : nat) :
  In p (node_edge_sources g N node) ->
  In p (flat_map (producers_of g) (Inputs node)).
Proof.
  unfold node_edge_sources. rewrite !in_flat_map.
  intros (input & Hin & Hp). exists input. split; [exact Hin|].
  unfold edge_sources in Hp. now apply filter_In in Hp.
Qed.

Lemma node_edge_sources_length (g : Graph) (N : nat) (node : RenderNode) :
  (length (node_edge_sources g N node)
   <= length (flat_map (producers_of g) (Inputs node)))%nat.
Proof.
  unfold node_edge_sources.
  induction (Inputs node) as [|input inputs IH]; simpl; [lia|].
  rewrite !length_app. unfold edge_sources at 1.
  pose proof (filter_length_le (fun p => negb (Nat.eqb N p)) (producers_of g input)).
  lia.
Qed.

(** Edges into [N] among the successors of [p]. *)
Lemma expected_successors_count (g : Graph) (p N : nat) (nodes : list RenderNode) :
  forall first,
    count_occ Nat.eq_dec (expected_successors g first nodes p) N
    = match nth_error nodes (N - first) with
      | Some node =>
          if (first <=? N)%nat
          then count_occ Nat.eq_dec (node_edge_sources g N node) p
          else 0%nat
      | None => 0%nat
      end.
Proof.
  induction nodes as [|node nodes IH]; intros first; simpl.
  - now destruct (N - first)%nat.
  - rewrite count_occ_app, IH.
    assert (Hrep : forall k,
               count_occ Nat.eq_dec (repeat first k) N
               = if Nat.eq_dec first N then k else 0%nat).
    { induction k as [|k IHk]; simpl.
      - now destruct (Nat.eq_dec first N).
      - destruct (Nat.eq_dec first N); lia. }
    rewrite Hrep.
    destruct (Nat.eq_dec first N) as [->|Hne].
    + rewrite Nat.sub_diag. cbn [nth_error]. rewrite Nat.leb_refl.
      replace (N - S N)%nat with 0%nat by lia.
      destruct nodes as [|x xs]; cbn [nth_error]; [lia|].
      destruct (Nat.leb_spec (S N) N); lia.
    + destruct (Nat.leb_spec first N) as [Hle|Hgt].
      * replace (N - first)%nat with (S (N - S first)) by lia. cbn [nth_error].
        destruct (Nat.leb_spec (S first) N); [reflexivity | lia].
      * replace (N - first)%nat with 0%nat by lia.
        replace (N - S first)%nat with 0%nat by lia. cbn [nth_error].
        destruct nodes as [|x xs]; [reflexivity|].
        destruct (Nat.leb_spec (S first) N); [lia | reflexivity].
Qed.

Lemma expected_successors_range (g : Graph) (p : nat) (nodes : list RenderNode) :
  forall first,
    Forall (fun m => (m < first + length nodes)%nat)
           (expected_successors g first nodes p).
Proof.
  induction nodes as [|node nodes IH]; intros first; simpl; [constructor|].
  apply Forall_app. split.
  - apply Forall_forall. intros m Hm. apply repeat_spec in Hm. lia.
  - eapply Forall_impl; [|apply IH]. intros m Hm. simpl in Hm. lia.
Qed.

Lemma count_occ_flat_map_sum (f : nat -> list nat) (N : nat) (l : list nat) :
  count_occ Nat.eq_dec (flat_map f l) N
  = list_sum (map (fun p => count_occ Nat.eq_dec (f p) N) l).
Proof.
  induction l as [|p l IH]; simpl; [reflexivity|].
  now rewrite count_occ_app, IH.
Qed.

Lemma list_sum_indicator (x : nat) :
  forall n a,
    list_sum (map (fun p => if Nat.eq_dec x p then 1%nat else 0%nat) (seq a n))
    = if ((a <=? x) && (x <? a + n))%nat then 1%nat else 0%nat.
Proof.
  induction n as [|n IH]; intros a; simpl.
  - destruct (Nat.leb_spec a x), (Nat.ltb_spec x (a + 0)); simpl; lia.
  - rewrite IH.
    destruct (Nat.eq_dec x a), (Nat.leb_spec a x), (Nat.leb_spec (S a) x),
      (Nat.ltb_spec x (S a + n)), (Nat.ltb_spec x (a + S n)); simpl; lia.
Qed.

(** Summing the occurrences of every handle below [n] counts the list. *)
Lemma list_sum_count_occ (l : list nat) (n : nat) :
  Forall (fun p => (p < n)%nat) l ->
  list_sum (map (fun p => count_occ Nat.eq_dec l p) (seq 0 n)) = length l.
Proof.
  induction 1 as [|x l Hx Hl IH]; simpl.
  - induction (seq 0 n); simpl; auto.
  - rewrite <- IH.
    assert (Hsplit : forall s,
               list_sum (map (fun p => if Nat.eq_dec x p
                                       then S (count_occ Nat.eq_dec l p)
                                       else count_occ Nat.eq_dec l p) s)
               = (list_sum (map (fun p => if Nat.eq_dec x p then 1 else 0) s)
                  + list_sum (map (fun p => count_occ Nat.eq_dec l p) s))%nat).
    { induction s as [|p s IHs]; simpl; [reflexivity|].
      rewrite IHs. destruct (Nat.eq_dec x p); lia. }
    rewrite Hsplit, list_sum_indicator.
    destruct (Nat.leb_spec 0 x), (Nat.ltb_spec x (0 + n)); simpl; lia.
Qed.

Lemma expected_nodes_length (g : Graph) (nodes : list RenderNode) :
  forall first, length (expected_nodes g first nodes) = length nodes.
Proof.
  induction nodes as [|node nodes IH]; intros first; simpl; [reflexivity|].
  now rewrite IH.
Qed.

(** The graph that [Build] hands to [Sort] is consistent: the in-degree
    stored in every node is the number of edges that end in it. *)
Lemma Build_edges_consistent (g : Graph) :
  m_inBeginEndBlock g = true ->
  m_inPreRegister g = false ->
  m_renderNodes g <> [] ->
  (forall N node,
      nth_error (m_renderNodes g) N = Some node -> well_declared g N node) ->
  exists g' adj,
    Build_edges g = Ok (g', adj) /\
    length (m_renderNodes g') = length (m_renderNodes g) /\
    m_mapping g' = m_mapping g /\
    consistent (m_renderNodes g') adj.
Proof.
  intros Hblock Hpre Hnonempty Hdecl.
  destruct (Build_edges_run Hblock Hpre Hnonempty Hdecl) as (adj & Hrun & Hlen & Hsucc).
  eexists _, adj. split; [exact Hrun|].
  cbn [m_renderNodes set_renderNodes m_mapping].
  set (nodes := m_renderNodes g) in *. set (n := length nodes) in *.
  assert (Hdegree : forall i node,
             nth_error nodes i = Some node ->
             in_degree adj i = length (node_edge_sources g i node)).
  { intros i node Hi.
    rewrite in_degree_flat_map, Hlen, count_occ_flat_map_sum.
    rewrite <- (list_sum_count_occ (l := node_edge_sources g i node) (n := n)).
    - f_equal. apply map_ext_in. intros p Hp. apply in_seq in Hp.
      rewrite Hsucc by lia. rewrite expected_successors_count.
      rewrite Nat.sub_0_r. fold nodes. rewrite Hi. reflexivity.
    - destruct (Hdecl i node Hi) as (_ & _ & Hrange & _).
      rewrite Forall_forall in *. intros p Hp. apply Hrange.
      now apply node_edge_sources_incl in Hp. }
  split; [apply expected_nodes_length|]. split; [reflexivity|].
  unfold consistent. rewrite expected_nodes_length. fold n.
  split; [exact Hlen|]. split; [|split].
  - apply (nth_ext _ _ 0 0).
    + now rewrite !length_map, expected_nodes_length, length_seq.
    + intros i Hi. rewrite length_map, expected_nodes_length in Hi. fold n in Hi.
      destruct (nth_error nodes i) as [node|] eqn:Ei.
      2:{ apply nth_error_None in Ei. fold n in Ei. lia. }
      transitivity (expected_Indegree g i node).
      { apply nth_error_nth.
        rewrite nth_error_map, expected_nodes_nth, Ei. reflexivity. }
      symmetry. transitivity (Z.of_nat (in_degree adj i)).
      { apply nth_error_nth. rewrite nth_error_map.
        rewrite (nth_error_nth' (seq 0 n) 0%nat) by now rewrite length_seq.
        rewrite seq_nth by assumption. reflexivity. }
      rewrite expected_Indegree_edges. f_equal. now apply Hdegree.
  - apply Forall_forall. intros l Hl.
    destruct (In_nth adj l [] Hl) as (p & Hp & <-).
    change (nth p adj []) with (successors adj p).
    rewrite Hsucc by lia.
    apply (expected_successors_range g p nodes 0).
  - apply Forall_forall. intros node' Hin.
    destruct (In_nth_error _ _ Hin) as (i & Hi).
    rewrite expected_nodes_nth in Hi.
    destruct (nth_error nodes i) as [node|] eqn:Ei; [|discriminate].
    injection Hi as <-. cbn.
    rewrite expected_Indegree_edges.
    destruct (Hdecl i node Ei) as (_ & _ & _ & Hfit).
    pose proof (node_edge_sources_length g i node). lia.
Qed.

(* ---------------------------------------------------------------------- *)
(** ** Kahn's order is topological *)

Lemma position_nth (l : list nat) :
  forall j m, NoDup l -> nth_error l j = Some m -> position m l = j.
Proof.
  induction l as [|y l IH]; intros [|j] m Hnd Hj; simpl in *; try discriminate.
  - injection Hj as ->. now rewrite Nat.eqb_refl.
  - inversion Hnd as [|? ? Hy Hnd']; subst.
    destruct (Nat.eqb_spec m y) as [->|Hne].
    + exfalso. apply Hy. eapply nth_error_In; eauto.
    + f_equal. now apply IH.
Qed.

Lemma position_firstn (l : list nat) :
  forall j p, In p (firstn j l) -> (position p l < j)%nat.
Proof.
  induction l as [|y l IH]; intros [|j] p Hin; simpl in *; try contradiction.
  destruct (Nat.eqb_spec p y) as [->|Hne]; [lia|].
  destruct Hin as [->|Hin]; [congruence|].
  specialize (IH j p Hin). lia.
Qed.

Lemma topological_DAG (adj : Adjacency) (l : list nat) :
  NoDup l ->
  (forall p m, In m (successors adj p) -> In m l) ->
  topological adj l ->
  is_DAG adj.
Proof.
  intros Hnd Hall Htopo. exists (fun x => position x l).
  intros p m Hedge.
  destruct (In_nth_error _ _ (Hall p m Hedge)) as [j Hj].
  rewrite (@position_nth l j m Hnd Hj).
  apply position_firstn. exact (Htopo j m Hj p Hedge).
Qed.

Lemma Sort_visit_ext (rest : list nat) :
  forall nodes sorted nodes' sorted',
    Sort_visit rest nodes sorted = (nodes', sorted') ->
    exists ext, sorted' = sorted ++ ext.
Proof.
  induction rest as [|a rest IH]; intros nodes sorted nodes' sorted' Hrun;
    simpl in Hrun.
  - injection Hrun as <- <-. exists []. now rewrite app_nil_r.
  - destruct (nth_error nodes a) as [node|]; [|now apply IH in Hrun].
    destruct (int16 (Indegree node - 1) =? 0).
    + apply IH in Hrun. destruct Hrun as [ext ->].
      exists ([a] ++ ext). now rewrite app_assoc.
    + now apply IH in Hrun.
Qed.

Lemma firstn_S_nth {A} (l : list A) :
  forall i h, nth_error l i = Some h -> firstn (S i) l = firstn i l ++ [h].
Proof.
  induction l as [|x l IHl]; intros [|i] h Eh; simpl in *; try discriminate.
  - now injection Eh as ->.
  - f_equal. now apply IHl.
Qed.

Lemma upd_map_keeps {A B} (f : A -> B) (l : list A) :
  forall i x y, nth_error l i = Some x -> f y = f x -> map f (upd l i y) = map f l.
Proof.
  induction l as [|z l IHl]; intros [|i] x y Ei Hf; simpl in *; try discriminate.
  - injection Ei as ->. now rewrite Hf.
  - f_equal. eapply IHl; eauto.
Qed.

(** Kahn's loop writes nothing but in-degrees. *)
Lemma Sort_visit_keeps {B} (f : RenderNode -> B) :
  (forall v node, f (set_Indegree v node) = f node) ->
  forall rest nodes sorted nodes' sorted',
    Sort_visit rest nodes sorted = (nodes', sorted') ->
    map f nodes' = map f nodes.
Proof.
  intros Hf.
  induction rest as [|a rest IH]; intros nodes sorted nodes' sorted' Hrun;
    simpl in Hrun.
  - now injection Hrun as <- _.
  - destruct (nth_error nodes a) as [node|] eqn:Ea; [|now apply IH in Hrun].
    destruct (int16 (Indegree node - 1) =? 0);
      apply IH in Hrun; rewrite Hrun; eapply upd_map_keeps; eauto.
Qed.

Section KahnOrder.
Variable adj : Adjacency.
Variable n : nat.
Hypothesis adj_length : length adj = n.
Hypothesis adj_range : Forall (Forall (fun m => (m < n)%nat)) adj.
Hypothesis degree_fits :
  forall m, (m < n)%nat -> Z.of_nat (in_degree adj m) <= 32767.

Lemma successors_source (p m : nat) : In m (successors adj p) -> (p < n)%nat.
Proof.
  unfold successors. intros Hin.
  destruct (Nat.lt_ge_cases p (length adj)) as [Hlt|Hge]; [lia|].
  rewrite nth_overflow in Hin by assumption. contradiction.
Qed.

(** When all the edges into [m] leave the sources [l], every source of an
    edge into [m] is in [l]. *)
Lemma sources_visited (l : list nat) (m : nat) :
  NoDup l -> Forall (fun h => (h < n)%nat) l ->
  visited_edges adj l m = in_degree adj m ->
  forall p, In m (successors adj p) -> In p l.
Proof.
  intros Hnd Hrange Hcount p Hedge.
  destruct (in_dec Nat.eq_dec p l) as [Hin|Hnotin]; [exact Hin|exfalso].
  assert (Hp : (p < n)%nat) by (eapply successors_source; eauto).
  assert (Hnd' : NoDup (p :: l)) by now constructor.
  assert (Hrange' : Forall (fun h => (h < n)%nat) (p :: l)) by now constructor.
  pose proof (@visited_edges_bound adj n adj_length (p :: l) m Hnd' Hrange') as Hle.
  unfold visited_edges in *. simpl in Hle. rewrite count_occ_app in Hle.
  assert (Hone : (0 < count_occ Nat.eq_dec (successors adj p) m)%nat)
    by now apply count_occ_In.
  lia.
Qed.

Lemma Sort_topo_order :
  forall k i nodes sorted nodes' sorted',
    kahn_inv adj n nodes sorted (flat_map (successors adj) (firstn i sorted)) ->
    topological adj sorted ->
    (i <= length sorted)%nat ->
    Sort_topo k i adj nodes sorted = Ok (nodes', sorted') ->
    kahn_inv adj n nodes' sorted'
      (flat_map (successors adj) (firstn (i + k) sorted')) /\
    topological adj sorted' /\
    (i + k <= length sorted')%nat /\
    map NodeBatchIdx nodes' = map NodeBatchIdx nodes.
Proof.
  induction k as [|k IH]; intros i nodes sorted nodes' sorted' Hinv Htopo Hi Hrun.
  - simpl in Hrun. injection Hrun as <- <-. rewrite Nat.add_0_r. auto.
  - cbn [Sort_topo] in Hrun.
    destruct (nth_error sorted i) as [h|] eqn:Eh; [|discriminate].
    assert (Hlt : (i < length sorted)%nat) by (apply nth_error_Some; congruence).
    pose proof (@firstn_S_nth _ sorted i h Eh) as Hfirst.
    pose proof Hinv as (_ & Hnd & Hsr & _).
    assert (Hnd1 : NoDup (firstn (S i) sorted)).
    { rewrite <- (firstn_skipn (S i) sorted) in Hnd.
      now apply NoDup_app_remove_r in Hnd. }
    assert (Hsr1 : Forall (fun h => (h < n)%nat) (firstn (S i) sorted)).
    { rewrite <- (firstn_skipn (S i) sorted) in Hsr.
      now apply Forall_app in Hsr. }
    assert (Hdone : flat_map (successors adj) (firstn i sorted) ++ successors adj h
                    = flat_map (successors adj) (firstn (S i) sorted)).
    { rewrite Hfirst, flat_map_app. simpl. now rewrite app_nil_r. }
    destruct (@Sort_visit_inv adj n adj_length adj_range degree_fits
                (successors adj h) nodes sorted
                (flat_map (successors adj) (firstn i sorted)) Hinv)
      as (nodes1 & ext & Hvisit & Hinv1).
    { now apply (@successors_range adj n adj_range). }
    { intros m. rewrite Hdone.
      now apply (@visited_edges_bound adj n adj_length). }
    fold (successors adj h) in Hrun. rewrite Hvisit in Hrun.
    rewrite Hdone in Hinv1.
    assert (Hfirst' : firstn (S i) (sorted ++ ext) = firstn (S i) sorted).
    { rewrite firstn_app.
      replace (S i - length sorted)%nat with 0%nat by lia.
      now rewrite firstn_O, app_nil_r. }
    assert (Htopo1 : topological adj (sorted ++ ext)).
    { intros j m Hj p Hedge.
      destruct (Nat.lt_ge_cases j (length sorted)) as [Hjl|Hjl].
      - rewrite nth_error_app1 in Hj by assumption.
        rewrite firstn_app.
        apply in_or_app. left. exact (Htopo j m Hj p Hedge).
      - assert (Hin : In m (sorted ++ ext)) by (eapply nth_error_In; eauto).
        destruct Hinv1 as (_ & _ & Hsr' & _ & Hiff).
        assert (Hm : (m < n)%nat).
        { rewrite Forall_forall in Hsr'. now apply Hsr'. }
        apply (Hiff m Hm) in Hin.
        pose proof (@sources_visited (firstn (S i) sorted) m Hnd1 Hsr1 Hin p Hedge)
          as Hp.
        rewrite firstn_app. apply in_or_app. left.
        rewrite firstn_all2 by assumption.
        rewrite <- (firstn_skipn (S i) sorted). apply in_or_app. now left. }
    destruct (IH (S i) nodes1 (sorted ++ ext) nodes' sorted') as (Hk & Ht & Hl & Hb).
    + now rewrite Hfirst'.
    + exact Htopo1.
    + rewrite length_app. lia.
    + exact Hrun.
    + replace (i + S k)%nat with (S i + k)%nat by lia.
      split; [exact Hk|]. split; [exact Ht|]. split; [exact Hl|].
      rewrite Hb. exact (Sort_visit_keeps NodeBatchIdx (fun _ _ => eq_refl) _ _ _ Hvisit).
Qed.

End KahnOrder.


Lemma nth_upd_same {A} (l : list A) (i : nat) (v d : A) :
  (i < length l)%nat -> nth i (upd l i v) d = v.
Proof.
  intros Hlt. apply nth_error_nth. now apply nth_error_upd_same.
Qed.

Lemma nth_upd_other {A} (l : list A) (i j : nat) (v d : A) :
  i <> j -> nth j (upd l i v) d = nth j l d.
Proof.
  intros Hne.
  destruct (nth_error l j) as [x|] eqn:Ej.
  - rewrite (nth_error_nth _ _ d Ej). apply nth_error_nth.
    now rewrite nth_error_upd_other.
  - apply nth_error_None in Ej.
    rewrite !nth_overflow; auto. now rewrite upd_length.
Qed.

(** The batch indices after the successors of [h] were visited. *)
Lemma Sort_batch_visit_spec (h : nat) (adjacent : list nat) :
  forall nodes,
    (h < length nodes)%nat ->
    ~ In h adjacent ->
    Forall (fun a => (a < length nodes)%nat) adjacent ->
    forall m,
      batch_of (Sort_batch_visit h adjacent nodes) m
      = if in_dec Nat.eq_dec m adjacent
        then Z.max (batch_of nodes h + 1) (batch_of nodes m)
        else batch_of nodes m.
Proof.
  induction adjacent as [|a adjacent IH]; intros nodes Hh Hnotin Hrange m.
  - reflexivity.
  - inversion Hrange as [|? ? Ha Hrange']; subst.
    assert (Hha : a <> h) by (intros ->; apply Hnotin; now left).
    assert (Hnotin' : ~ In h adjacent) by (intros Hin; apply Hnotin; now right).
    cbn [Sort_batch_visit].
    destruct (nth_error nodes h) as [c|] eqn:Eh.
    2:{ apply nth_error_None in Eh. lia. }
    destruct (nth_error nodes a) as [na|] eqn:Ea.
    2:{ apply nth_error_None in Ea. lia. }
    set (nodes1 := upd nodes a
                     (set_NodeBatchIdx (Z.max (NodeBatchIdx c + 1) (NodeBatchIdx na)) na)).
    assert (Hc : batch_of nodes h = NodeBatchIdx c)
      by (unfold batch_of; now rewrite (nth_error_nth _ _ _ Eh)).
    assert (Hna : batch_of nodes a = NodeBatchIdx na)
      by (unfold batch_of; now rewrite (nth_error_nth _ _ _ Ea)).
    assert (H1h : batch_of nodes1 h = batch_of nodes h)
      by (unfold batch_of, nodes1; now rewrite nth_upd_other).
    assert (H1a : batch_of nodes1 a = Z.max (batch_of nodes h + 1) (batch_of nodes a)).
    { unfold batch_of at 1. unfold nodes1. rewrite nth_upd_same by assumption.
      cbn [set_NodeBatchIdx NodeBatchIdx]. now rewrite Hc, Hna. }
    assert (H1o : forall x, x <> a -> batch_of nodes1 x = batch_of nodes x).
    { intros x Hx. unfold batch_of, nodes1. rewrite nth_upd_other; auto. }
    rewrite (IH nodes1); try assumption.
    2:{ unfold nodes1. now rewrite upd_length. }
    2:{ unfold nodes1. now rewrite upd_length. }
    rewrite H1h.
    destruct (Nat.eq_dec m a) as [->|Hma].
    + rewrite H1a.
      destruct (in_dec Nat.eq_dec a adjacent), (in_dec Nat.eq_dec a (a :: adjacent)) as [|C];
        try lia; exfalso; apply C; now left.
    + rewrite (H1o m Hma).
      destruct (in_dec Nat.eq_dec m adjacent) as [Hin|Hnin],
               (in_dec Nat.eq_dec m (a :: adjacent)) as [Hin'|Hnin'];
        try reflexivity.
      * exfalso. apply Hnin'. now right.
      * exfalso. destruct Hin' as [->|Hin']; [now apply Hma | now apply Hnin].
Qed.

Lemma NoDup_app_disjoint {A} (l1 l2 : list A) :
  NoDup (l1 ++ l2) -> forall x, In x l1 -> In x l2 -> False.
Proof.
  induction l1 as [|y l1 IH]; intros Hnd x H1 H2; [contradiction|].
  simpl in Hnd. inversion Hnd as [|? ? Hy Hnd']; subst.
  destruct H1 as [->|H1].
  - apply Hy. apply in_or_app. now right.
  - exact (IH Hnd' x H1 H2).
Qed.

Lemma topological_no_back_edge (adj : Adjacency) (l : list nat) :
  NoDup l -> topological adj l -> no_back_edge adj l.
Proof.
  intros Hnd Htopo l1 h l2 -> q Hq Hedge.
  assert (Hj : nth_error (l1 ++ h :: l2) (length l1) = Some h).
  { rewrite nth_error_app2 by lia. now rewrite Nat.sub_diag. }
  pose proof (Htopo _ _ Hj q Hedge) as Hin.
  rewrite firstn_app, Nat.sub_diag, firstn_O, app_nil_r in Hin.
  rewrite firstn_all in Hin.
  exact (@NoDup_app_disjoint _ _ _ Hnd q Hin Hq).
Qed.

(** The longest-path loop on an order without back edges. *)
Lemma Sort_batch_spec (adj : Adjacency) (sorted : list nat) :
  forall nodes,
    Forall (fun h => (h < length nodes)%nat) sorted ->
    (forall h, Forall (fun a => (a < length nodes)%nat) (successors adj h)) ->
    no_back_edge adj sorted ->
    let final := Sort_batch sorted adj nodes in
    (forall m, batch_of nodes m <= batch_of final m) /\
    (forall m, (forall q, In q sorted -> ~ In m (successors adj q)) ->
               batch_of final m = batch_of nodes m) /\
    (forall p m, In p sorted -> In m (successors adj p) ->
                 batch_of final p < batch_of final m) /\
    (forall m, batch_of final m = batch_of nodes m \/
               exists p, In p sorted /\ In m (successors adj p) /\
                         batch_of final m = batch_of final p + 1).
Proof.
  induction sorted as [|h rest IH]; intros nodes Hrange Hsucc Hback; cbn zeta.
  - simpl. split; [intros; lia|]. split; [reflexivity|].
    split; [intros p m []|]. intros m. now left.
  - inversion Hrange as [|? ? Hh Hrange']; subst.
    cbn [Sort_batch]. fold (successors adj h).
    set (nodes1 := Sort_batch_visit h (successors adj h) nodes).
    assert (Hself : ~ In h (successors adj h)).
    { apply (Hback [] h rest eq_refl h). now left. }
    assert (Hlen1 : length nodes1 = length nodes)
      by apply Sort_batch_visit_length.
    pose proof (@Sort_batch_visit_spec h (successors adj h) nodes Hh Hself (Hsucc h))
      as Hvisit. fold nodes1 in Hvisit.
    assert (Hback' : no_back_edge adj rest).
    { intros l1 x l2 -> q Hq. apply (Hback (h :: l1) x l2 eq_refl q Hq). }
    destruct (IH nodes1) as (Hmono & Hsame & Hedge & Hatt); try assumption.
    { now rewrite Hlen1. }
    { intros x. now rewrite Hlen1. }
    assert (Hfinal_h : batch_of (Sort_batch rest adj nodes1) h = batch_of nodes h).
    { rewrite Hsame.
      - rewrite Hvisit. destruct (in_dec Nat.eq_dec h (successors adj h)); tauto.
      - intros q Hq. apply (Hback [] h rest eq_refl q). now right. }
    split; [|split; [|split]].
    + intros m. specialize (Hmono m). rewrite Hvisit in Hmono.
      destruct (in_dec Nat.eq_dec m (successors adj h)); lia.
    + intros m Hm. rewrite Hsame by (intros q Hq; apply Hm; now right).
      rewrite Hvisit.
      destruct (in_dec Nat.eq_dec m (successors adj h)) as [Hin|]; [|reflexivity].
      exfalso. apply (Hm h); [now left | exact Hin].
    + intros p m [<-|Hp] Hm.
      * rewrite Hfinal_h. specialize (Hmono m). rewrite Hvisit in Hmono.
        destruct (in_dec Nat.eq_dec m (successors adj h)); [lia | contradiction].
      * now apply Hedge.
    + intros m. destruct (Hatt m) as [Heq|(p & Hp & Hm & Heq)].
      * rewrite Heq, Hvisit.
        destruct (in_dec Nat.eq_dec m (successors adj h)) as [Hin|]; [|now left].
        destruct (Z.max_spec (batch_of nodes h + 1) (batch_of nodes m))
          as [[_ ->]|[_ ->]]; [now left|].
        right. exists h. split; [now left|]. split; [exact Hin|].
        now rewrite Hfinal_h.
      * right. exists p. split; [now right|]. split; [exact Hm | exact Heq].
Qed.

Lemma Sort_frontier_batch (nodes : list RenderNode) :
  forall first nodes0 sorted0,
    Sort_frontier first nodes = (nodes0, sorted0) ->
    map NodeBatchIdx nodes0
    = map (fun node => if Indegree node =? 0 then 0 else NodeBatchIdx node) nodes.
Proof.
  induction nodes as [|node nodes IH]; intros first nodes0 sorted0 Hrun;
    simpl in Hrun.
  - now injection Hrun as <- _.
  - destruct (Sort_frontier (S first) nodes) as [nodes1 sorted1] eqn:Erec.
    specialize (IH _ _ _ Erec). cbn [map].
    destruct (Indegree node =? 0); injection Hrun as <- _; simpl; now rewrite IH.
Qed.

Lemma successors_in_degree (adj : Adjacency) (p m : nat) :
  In m (successors adj p) -> (0 < in_degree adj m)%nat.
Proof.
  intros Hin. unfold in_degree. apply count_occ_In.
  apply in_concat. exists (successors adj p). split; [|exact Hin].
  unfold successors in *.
  destruct (Nat.lt_ge_cases p (length adj)) as [Hlt|Hge].
  - now apply nth_In.
  - rewrite nth_overflow in Hin by assumption. contradiction.
Qed.

Lemma in_degree_source (adj : Adjacency) (m : nat) :
  in_degree adj m <> 0%nat -> exists p, In m (successors adj p).
Proof.
  intros Hne. unfold in_degree in Hne.
  assert (Hin : In m (concat adj)).
  { apply (count_occ_In Nat.eq_dec). lia. }
  apply in_concat in Hin. destruct Hin as (l & Hl & Hm).
  destruct (In_nth _ _ [] Hl) as (p & _ & Hp).
  exists p. unfold successors. now rewrite Hp.
Qed.

(** What Kahn's loop leaves when it runs to its end: an order of all the
    handles that is topological, and the nodes before the longest-path
    loop, whose batch index is [0] where the in-degree was. *)
Lemma Sort_kahn_order (adj : Adjacency) (nodes nodes' : list RenderNode)
    (kahn : list nat) :
  consistent nodes adj ->
  Sort_kahn adj nodes = Ok (nodes', kahn) ->
  Permutation kahn (seq 0 (length nodes)) /\
  topological adj kahn /\
  exists nodes1,
    nodes' = Sort_batch kahn adj nodes1 /\
    length nodes1 = length nodes /\
    map NodeBatchIdx nodes1
    = map (fun node => if Indegree node =? 0 then 0 else NodeBatchIdx node) nodes.
Proof.
  intros (Hlen & Hdeg & Hrange & Hfit) Hrun.
  unfold Sort_kahn in Hrun.
  set (n := length nodes) in *.
  assert (Hfits : forall m, (m < n)%nat -> Z.of_nat (in_degree adj m) <= 32767).
  { intros m Hm.
    destruct (nth_error nodes m) as [node|] eqn:Em.
    2:{ apply nth_error_None in Em. lia. }
    erewrite <- stored_degree; [|exact Hdeg|exact Em].
    rewrite Forall_forall in Hfit. apply Hfit. eapply nth_error_In; eauto. }
  destruct (Sort_frontier 0 nodes) as [nodes0 sorted0] eqn:Efront.
  destruct (@Sort_frontier_spec nodes 0%nat nodes0 sorted0 Efront)
    as (Hlen0 & Hdeg0 & Hnd0 & Hiff0).
  pose proof (@Sort_frontier_batch nodes 0%nat nodes0 sorted0 Efront) as Hbatch0.
  assert (Hinv0 : kahn_inv adj n nodes0 sorted0 []).
  { split; [exact Hlen0|]. split; [exact Hnd0|]. split; [|split].
    - apply Forall_forall. intros m Hm. apply Hiff0 in Hm.
      destruct Hm as [_ (node & Hn & _)]. rewrite Nat.sub_0_r in Hn.
      apply nth_error_Some. congruence.
    - intros m node Hm. simpl. rewrite Z.sub_0_r.
      eapply stored_degree; [|exact Hm]. now rewrite Hdeg0, Hlen0.
    - intros m Hm. simpl. rewrite Hiff0, Nat.sub_0_r.
      destruct (nth_error nodes m) as [node|] eqn:Em.
      2:{ apply nth_error_None in Em. lia. }
      pose proof (@stored_degree adj nodes m node Hdeg Em) as Hd.
      split.
      + intros [_ (node' & Hn & Hz)]. injection Hn as <-. lia.
      + intros Hz. split; [lia|]. exists node. split; [reflexivity | lia]. }
  assert (Htopo0 : topological adj sorted0).
  { intros j m Hj p Hedge. exfalso.
    apply nth_error_In in Hj. apply Hiff0 in Hj.
    destruct Hj as [_ (node & Hn & Hz)]. rewrite Nat.sub_0_r in Hn.
    pose proof (@stored_degree adj nodes m node Hdeg Hn) as Hd.
    pose proof (successors_in_degree _ _ _ Hedge). lia. }
  destruct (0 <? Z.of_nat (length sorted0)); [|discriminate].
  unfold Assert, bind in Hrun.
  destruct (Sort_topo n 0 adj nodes0 sorted0) as [[nodes1 sorted1]|] eqn:Etopo;
    [|discriminate].
  destruct (@Sort_topo_order adj n Hlen Hrange Hfits n 0%nat nodes0 sorted0
              nodes1 sorted1 Hinv0 Htopo0 ltac:(lia) Etopo)
    as (Hinv1 & Htopo1 & Hlen1 & Hbatch1).
  destruct (Nat.eqb_spec n (length sorted1)) as [Hn1|]; [|discriminate].
  injection Hrun as <- <-.
  destruct Hinv1 as (Hlenn & Hnd1 & Hsr1 & _).
  assert (Hincl : incl sorted1 (seq 0 n)).
  { intros m Hm. rewrite Forall_forall in Hsr1. apply in_seq.
    specialize (Hsr1 m Hm). lia. }
  split.
  { apply NoDup_Permutation_bis; [exact Hnd1 | rewrite length_seq; lia | exact Hincl]. }
  split; [exact Htopo1|].
  exists nodes1. split; [reflexivity|]. split; [congruence|].
  now rewrite Hbatch1, Hbatch0.
Qed.

(** A graph that Kahn's loop sorts to its end is acyclic. *)
Lemma Sort_kahn_DAG (adj : Adjacency) (nodes nodes' : list RenderNode)
    (kahn : list nat) :
  consistent nodes adj ->
  Sort_kahn adj nodes = Ok (nodes', kahn) ->
  is_DAG adj.
Proof.
  intros Hcons Hrun.
  destruct (Sort_kahn_order Hcons Hrun) as (Hperm & Htopo & _).
  destruct Hcons as (Hlen & _ & Hrange & _).
  apply (@topological_DAG adj kahn).
  - eapply Permutation_NoDup; [apply Permutation_sym; exact Hperm | apply seq_NoDup].
  - intros p m Hedge.
    apply (Permutation_in _ (Permutation_sym Hperm)). apply in_seq.
    pose proof (@successors_range adj _ Hrange p) as Hr.
    rewrite Forall_forall in Hr. specialize (Hr m Hedge). lia.
  - exact Htopo.
Qed.

Lemma Sort_Ok_kahn
    (std_sort : (nat -> nat -> bool) -> list nat -> list nat)
    (adj : Adjacency) (g g' : Graph) :
  Sort std_sort adj g = Ok g' ->
  exists nodes kahn, Sort_kahn adj (m_renderNodes g) = Ok (nodes, kahn).
Proof.
  unfold Sort. destruct (Sort_kahn adj (m_renderNodes g)) as [[nodes kahn]|];
    [eauto | discriminate].
Qed.

Lemma Sort_frontier_none (nodes : list RenderNode) :
  forall i,
    snd (Sort_frontier i nodes) = [] <->
    existsb (fun node => Indegree node =? 0) nodes = false.
Proof.
  induction nodes as [|node nodes IH]; intros i; simpl; [tauto|].
  specialize (IH (S i)).
  destruct (Sort_frontier (S i) nodes) as [nodes1 sorted] eqn:E. simpl in IH.
  destruct (Indegree node =? 0); simpl.
  - split; discriminate.
  - exact IH.
Qed.

(** The topological loop stops in no other assert than the one on the
    handle it reads. *)
Lemma Sort_topo_assert (adj : Adjacency) (k : nat) :
  forall i nodes sorted msg,
    Sort_topo k i adj nodes sorted = AssertFail msg -> msg = "invalid handle"%string.
Proof.
  induction k as [|k IH]; intros i nodes sorted msg H; [discriminate|].
  simpl in H. destruct (nth_error sorted i) as [h|].
  - destruct (Sort_visit (nth h adj []) nodes sorted) as [nodes1 sorted1].
    eapply IH; eauto.
  - now injection H as <-.
Qed.

(** With in-degrees that are those of the edges, [Sort] fails in one of two
    asserts only: the one on an empty frontier, and the one on the handle
    read from a slot of [sorted] that was never written.  The assert after
    the loop cannot fail: a loop that ends has sorted every node. *)
Lemma Sort_kahn_assert (adj : Adjacency) (nodes : list RenderNode) (msg : string) :
  consistent nodes adj ->
  Sort_kahn adj nodes = AssertFail msg ->
  msg = if existsb (fun node => Indegree node =? 0) nodes
        then "invalid handle"%string
        else "Graph is not a DAG- no node with 0 dependencies."%string.
Proof.
  intros (Hlen & Hdeg & Hrange & Hfit) Hrun.
  unfold Sort_kahn in Hrun.
  set (n := length nodes) in *.
  assert (Hfits : forall m, (m < n)%nat -> Z.of_nat (in_degree adj m) <= 32767).
  { intros m Hm.
    destruct (nth_error nodes m) as [node|] eqn:Em.
    2:{ apply nth_error_None in Em. lia. }
    erewrite <- stored_degree; [|exact Hdeg|exact Em].
    rewrite Forall_forall in Hfit. apply Hfit. eapply nth_error_In; eauto. }
  pose proof (Sort_frontier_none nodes 0) as Hnone.
  destruct (Sort_frontier 0 nodes) as [nodes0 sorted0] eqn:Efront.
  destruct (@Sort_frontier_spec nodes 0%nat nodes0 sorted0 Efront)
    as (Hlen0 & Hdeg0 & Hnd0 & Hiff0).
  simpl in Hnone.
  assert (Hinv0 : kahn_inv adj n nodes0 sorted0 []).
  { split; [exact Hlen0|]. split; [exact Hnd0|]. split; [|split].
    - apply Forall_forall. intros m Hm. apply Hiff0 in Hm.
      destruct Hm as [_ (node & Hn & _)]. rewrite Nat.sub_0_r in Hn.
      apply nth_error_Some. congruence.
    - intros m node Hm. simpl. rewrite Z.sub_0_r.
      eapply stored_degree; [|exact Hm]. now rewrite Hdeg0, Hlen0.
    - intros m Hm. simpl. rewrite Hiff0, Nat.sub_0_r.
      destruct (nth_error nodes m) as [node|] eqn:Em.
      2:{ apply nth_error_None in Em. lia. }
      pose proof (@stored_degree adj nodes m node Hdeg Em) as Hd.
      split.
      + intros [_ (node' & Hn & Hz)]. injection Hn as <-. lia.
      + intros Hz. split; [lia|]. exists node. split; [reflexivity | lia]. }
  assert (Htopo0 : topological adj sorted0).
  { intros j m Hj p Hedge. exfalso.
    apply nth_error_In in Hj. apply Hiff0 in Hj.
    destruct Hj as [_ (node & Hn & Hz)]. rewrite Nat.sub_0_r in Hn.
    pose proof (@stored_degree adj nodes m node Hdeg Hn) as Hd.
    pose proof (successors_in_degree _ _ _ Hedge). lia. }
  destruct (0 <? Z.of_nat (length sorted0)) eqn:Epos.
  2:{ assert (Hnil : sorted0 = []).
      { destruct sorted0; [reflexivity|]. simpl length in Epos.
        apply Z.ltb_ge in Epos. lia. }
      rewrite (proj1 Hnone Hnil). simpl in Hrun. now injection Hrun as <-. }
  - assert (Eex : existsb (fun node => Indegree node =? 0) nodes = true).
    { apply not_false_is_true. intros C. apply Hnone in C. subst sorted0.
      discriminate. }
    rewrite Eex. clear Hnone.
    unfold Assert, bind in Hrun.
    destruct (Sort_topo n 0 adj nodes0 sorted0) as [[nodes1 sorted1]|m] eqn:Etopo.
    + exfalso.
      destruct (@Sort_topo_order adj n Hlen Hrange Hfits n 0%nat nodes0 sorted0
                  nodes1 sorted1 Hinv0 Htopo0 ltac:(lia) Etopo)
        as ((_ & Hnd1 & Hsr1 & _) & _ & Hlen1 & _).
      assert (Hincl : incl sorted1 (seq 0 n)).
      { intros m Hm. rewrite Forall_forall in Hsr1. apply in_seq.
        specialize (Hsr1 m Hm). lia. }
      pose proof (NoDup_incl_length Hnd1 Hincl) as Hle.
      rewrite length_seq in Hle.
      destruct (Nat.eqb_spec n (length sorted1)) as [_|Hne]; [discriminate | lia].
    + injection Hrun as <-. eapply Sort_topo_assert; eauto.
Qed.

Lemma Sort_assert
    (std_sort : (nat -> nat -> bool) -> list nat -> list nat)
    (adj : Adjacency) (g : Graph) (msg : string) :
  Sort std_sort adj g = AssertFail msg ->
  Sort_kahn adj (m_renderNodes g) = AssertFail msg.
Proof.
  unfold Sort. destruct (Sort_kahn adj (m_renderNodes g)) as [[nodes kahn]|m];
    [discriminate | intros H; cbn [bind] in H; now injection H as ->].
Qed.

Lemma late_cycle_returns :
  snd late_cycle_declared = Returned /\
  Build_edges late_cycle = Ok late_cycle_built.
Proof. split; reflexivity. Qed.

Lemma late_cycle_consistent :
  consistent (m_renderNodes (fst late_cycle_built)) (snd late_cycle_built).
Proof.
  unfold consistent. simpl.
  split; [reflexivity|]. split; [reflexivity|].
  split; repeat (constructor; simpl; try lia).
Qed.

Lemma late_cycle_cyclic : ~ is_DAG (snd late_cycle_built).
Proof.
  intros (rank & Hrank).
  assert (H12 : (rank 1 < rank 2)%nat) by (apply Hrank; simpl; auto).
  assert (H21 : (rank 2 < rank 1)%nat) by (apply Hrank; simpl; auto).
  lia.
Qed.

(** X1.  With in-degrees that are those of the edges, [Sort] returns
    exactly on the acyclic graphs.  On a graph with a cycle it stops in an
    assert: in 'Graph is not a DAG- no node with 0 dependencies.' when no
    pass has in-degree zero, and otherwise in 'invalid handle', when the
    topological loop reads a slot of [sorted] that was never written; the
    assert 'Graph is not a DAG' that follows the loop never fails. *)
Theorem Sort_succeeds_iff_acyclic
    (std_sort : (nat -> nat -> bool) -> list nat -> list nat)
    (adj : Adjacency) (g : Graph) :
  std_sort_contract std_sort ->
  m_renderNodes g <> [] ->
  consistent (m_renderNodes g) adj ->
  (length (m_renderNodes g) <= length (m_mapping g))%nat ->
  ((exists g', Sort std_sort adj g = Ok g') <-> is_DAG adj) /\
  (~ is_DAG adj ->
   Sort std_sort adj g
   = AssertFail
       (if existsb (fun node => Indegree node =? 0) (m_renderNodes g)
        then "invalid handle"%string
        else "Graph is not a DAG- no node with 0 dependencies."%string)) /\
  Sort std_sort adj g <> AssertFail "Graph is not a DAG"%string.
Proof.
  intros Hsort Hnonempty Hcons Hmap.
  assert (Hok : forall g', Sort std_sort adj g = Ok g' -> is_DAG adj).
  { intros g' Hrun. destruct (Sort_Ok_kahn _ _ _ Hrun) as (nodes & kahn & Hk).
    exact (Sort_kahn_DAG Hcons Hk). }
  assert (Hmsg : forall msg, Sort std_sort adj g = AssertFail msg ->
            msg = if existsb (fun node => Indegree node =? 0) (m_renderNodes g)
                  then "invalid handle"%string
                  else "Graph is not a DAG- no node with 0 dependencies."%string).
  { intros msg Hrun. apply Sort_assert in Hrun.
    exact (Sort_kahn_assert Hcons Hrun). }
  split; [|split].
  - split.
    + intros [g' Hrun]. exact (Hok g' Hrun).
    + intros Hdag.
      destruct (@Sort_positions std_sort adj g Hsort Hnonempty Hcons Hdag Hmap)
        as (_ & _ & _ & g' & _ & _ & Hrun & _).
      now exists g'.
  - intros Hcyc. destruct (Sort std_sort adj g) as [g'|msg] eqn:Erun.
    + exfalso. exact (Hcyc (Hok g' eq_refl)).
    + now rewrite (Hmsg msg eq_refl).
  - intros Hrun. apply Hmsg in Hrun.
    destruct (existsb _ _); discriminate.
Qed.

(** [Sort] in terms of the batch indices [nodes] that its longest-path
    loop computes: the pass with handle [h] keeps its batch index, and a
    smaller batch index means an earlier position. *)
Lemma Sort_layers
    (std_sort : (nat -> nat -> bool) -> list nat -> list nat)
    (adj : Adjacency) (g g' : Graph) :
  std_sort_contract std_sort ->
  consistent (m_renderNodes g) adj ->
  (length (m_renderNodes g) <= length (m_mapping g))%nat ->
  Sort std_sort adj g = Ok g' ->
  exists nodes kahn,
    Sort_kahn adj (m_renderNodes g) = Ok (nodes, kahn) /\
    (forall h, (h < length (m_renderNodes g))%nat ->
               sorted_batch g' h = batch_of nodes h) /\
    (forall a b,
        (a < length (m_renderNodes g))%nat ->
        (b < length (m_renderNodes g))%nat ->
        batch_of nodes a < batch_of nodes b ->
        (nth a (m_mapping g') 0 < nth b (m_mapping g') 0)%nat).
Proof.
  intros Hsort Hcons Hmap Hrun.
  destruct (Sort_Ok_kahn _ _ _ Hrun) as (nodes0 & kahn0 & Hkahn0).
  pose proof (Sort_kahn_DAG Hcons Hkahn0) as Hdag.
  assert (Hnonempty : m_renderNodes g <> []).
  { intros Hnil. rewrite Hnil in Hkahn0. discriminate. }
  destruct (@Sort_positions std_sort adj g Hsort Hnonempty Hcons Hdag Hmap)
    as (nodes & kahn & sorted & g2 & Hkahn & _ & Hrun2 & Hnodes & Hperm & Hsorted & Hpos).
  rewrite Hrun in Hrun2. injection Hrun2 as <-.
  rewrite Hkahn0 in Hkahn. injection Hkahn as <- <-.
  set (n := length (m_renderNodes g)) in *.
  assert (Hfind : forall h, (h < n)%nat -> exists j, nth_error sorted j = Some h).
  { intros h Hh. apply In_nth_error.
    apply (Permutation_in _ (Permutation_sym Hperm)). apply in_seq. lia. }
  exists nodes0, kahn0. split; [exact Hkahn0|]. split.
  - intros h Hh. destruct (Hfind h Hh) as (j & Hj).
    unfold sorted_batch. rewrite (Hpos j h Hj), Hnodes.
    unfold batch_of. f_equal. apply nth_error_nth.
    now rewrite nth_error_map, Hj.
  - intros a b Ha Hb Hbatch.
    destruct (Hfind a Ha) as (ja & Hja). destruct (Hfind b Hb) as (jb & Hjb).
    rewrite (Hpos ja a Hja), (Hpos jb b Hjb).
    destruct (Nat.lt_trichotomy ja jb) as [Hlt|[Heq|Hgt]]; [exact Hlt| |].
    + subst jb. rewrite Hja in Hjb. injection Hjb as ->. lia.
    + pose proof (StronglySorted_nth Hsorted Hgt Hjb Hja) as Hle.
      simpl in Hle. lia.
Qed.

(** The batch indices of [Sort_kahn] on the edges of the graph. *)
Lemma Sort_kahn_batches (adj : Adjacency) (nodes0 nodes : list RenderNode)
    (kahn : list nat) :
  consistent nodes0 adj ->
  Sort_kahn adj nodes0 = Ok (nodes, kahn) ->
  exists nodes1,
    map NodeBatchIdx nodes1
    = map (fun node => if Indegree node =? 0 then 0 else NodeBatchIdx node) nodes0 /\
    length nodes1 = length nodes0 /\
    (forall m, batch_of nodes1 m <= batch_of nodes m) /\
    (forall m, in_degree adj m = 0%nat -> batch_of nodes m = batch_of nodes1 m) /\
    (forall p m, In m (successors adj p) -> batch_of nodes p < batch_of nodes m) /\
    (forall m, batch_of nodes m = batch_of nodes1 m \/
               exists p, In m (successors adj p) /\
                         batch_of nodes m = batch_of nodes p + 1) /\
    (forall m, (m < length nodes0)%nat -> in_degree adj m <> 0%nat ->
               exists p, In m (successors adj p) /\ 0 <= batch_of nodes p).
Proof.
  intros Hcons Hrun.
  destruct (Sort_kahn_order Hcons Hrun) as (Hperm & Htopo & nodes1 & -> & Hlen1 & Hb1).
  pose proof Hcons as (Hlen & Hdeg & Hrange & _).
  assert (Hnd : NoDup kahn)
    by (eapply Permutation_NoDup; [apply Permutation_sym; exact Hperm | apply seq_NoDup]).
  assert (Hin : forall h, In h kahn <-> (h < length nodes0)%nat).
  { intros h. split; intros Hh.
    - apply (Permutation_in _ Hperm) in Hh. apply in_seq in Hh. lia.
    - apply (Permutation_in _ (Permutation_sym Hperm)). apply in_seq. lia. }
  assert (Hsrc : forall p m, In m (successors adj p) -> In p kahn).
  { intros p m Hedge. apply Hin. rewrite <- Hlen.
    unfold successors in Hedge.
    destruct (Nat.lt_ge_cases p (length adj)) as [Hlt|Hge]; [exact Hlt|].
    rewrite nth_overflow in Hedge by assumption. contradiction. }
  destruct (@Sort_batch_spec adj kahn nodes1) as (Hmono & Hsame & Hedge & Hatt).
  { apply Forall_forall. intros h Hh. apply Hin in Hh. lia. }
  { intros h. rewrite Hlen1. apply (@successors_range adj _ Hrange). }
  { now apply topological_no_back_edge. }
  assert (Hedge' : forall p m, In m (successors adj p) ->
             batch_of (Sort_batch kahn adj nodes1) p
             < batch_of (Sort_batch kahn adj nodes1) m).
  { intros p m He. apply Hedge; [eapply Hsrc; eauto | exact He]. }
  assert (Hz : forall m, (m < length nodes0)%nat -> in_degree adj m = 0%nat ->
                         batch_of nodes1 m = 0).
  { intros m Hm Hd.
    destruct (nth_error nodes0 m) as [node|] eqn:Em.
    2:{ apply nth_error_None in Em. lia. }
    pose proof (@stored_degree adj nodes0 m node Hdeg Em) as Hs.
    unfold batch_of.
    assert (E1 : nth_error (map NodeBatchIdx nodes1) m
                 = Some (if Indegree node =? 0 then 0 else NodeBatchIdx node))
      by now rewrite Hb1, nth_error_map, Em.
    rewrite nth_error_map in E1.
    destruct (nth_error nodes1 m) as [node1|] eqn:E1m; [|discriminate].
    rewrite (nth_error_nth _ _ _ E1m). injection E1 as ->.
    rewrite Hs, Hd. reflexivity. }
  assert (Hnonneg : forall j m, nth_error kahn j = Some m ->
                      0 <= batch_of (Sort_batch kahn adj nodes1) m).
  { induction j as [j IHj] using lt_wf_ind. intros m Hj.
    assert (Hm : (m < length nodes0)%nat) by (apply Hin; eapply nth_error_In; eauto).
    destruct (Nat.eq_dec (in_degree adj m) 0) as [Hd|Hd].
    - specialize (Hmono m). rewrite (Hz m Hm Hd) in Hmono. exact Hmono.
    - destruct (in_degree_source _ _ Hd) as (p & He).
      pose proof (Htopo j m Hj p He) as Hp.
      apply In_nth_error in Hp. destruct Hp as (j' & Hj').
      assert (Hlt : (j' < j)%nat).
      { assert (Hl : (j' < length (firstn j kahn))%nat)
          by (apply nth_error_Some; congruence).
        rewrite length_firstn in Hl. lia. }
      assert (Hj2 : nth_error kahn j' = Some p).
      { rewrite <- (firstn_skipn j kahn). rewrite nth_error_app1; [exact Hj'|].
        apply nth_error_Some. congruence. }
      specialize (IHj j' Hlt p Hj2). specialize (Hedge' p m He). lia. }
  exists nodes1. split; [exact Hb1|]. split; [exact Hlen1|]. split; [exact Hmono|].
  split.
  { intros m Hd. apply Hsame. intros q _ He.
    pose proof (successors_in_degree _ _ _ He). lia. }
  split; [exact Hedge'|]. split.
  { intros m. destruct (Hatt m) as [Heq|(p & _ & He & Heq)]; [now left|].
    right. now exists p. }
  intros m Hm Hd. destruct (in_degree_source _ _ Hd) as (p & He).
  exists p. split; [exact He|].
  assert (Hp : In p kahn) by (eapply Hsrc; eauto).
  apply In_nth_error in Hp. destruct Hp as (j & Hj). exact (Hnonneg j p Hj).
Qed.

(** X2.  [Sort] places every producer before its consumers: along every
    edge of the graph the position in the sorted node table and the batch
    index both grow strictly. *)
Theorem Sort_producers_first
    (std_sort : (nat -> nat -> bool) -> list nat -> list nat)
    (adj : Adjacency) (g g' : Graph) :
  std_sort_contract std_sort ->
  consistent (m_renderNodes g) adj ->
  (length (m_renderNodes g) <= length (m_mapping g))%nat ->
  Sort std_sort adj g = Ok g' ->
  forall p m,
    In m (successors adj p) ->
    (nth p (m_mapping g') 0 < nth m (m_mapping g') 0)%nat /\
    sorted_batch g' p < sorted_batch g' m.
Proof.
  intros Hsort Hcons Hmap Hrun p m Hedge.
  destruct (@Sort_layers std_sort adj g g' Hsort Hcons Hmap Hrun) as (nodes & kahn & Hkahn & Hb & Hord).
  destruct (@Sort_kahn_batches adj _ nodes kahn Hcons Hkahn) as (_ & _ & _ & _ & _ & He & _).
  pose proof Hcons as (Hlen & _ & Hrange & _).
  assert (Hp : (p < length (m_renderNodes g))%nat).
  { rewrite <- Hlen. unfold successors in Hedge.
    destruct (Nat.lt_ge_cases p (length adj)) as [Hlt|Hge]; [exact Hlt|].
    rewrite nth_overflow in Hedge by assumption. contradiction. }
  assert (Hm : (m < length (m_renderNodes g))%nat).
  { pose proof (@successors_range adj _ Hrange p) as Hr.
    rewrite Forall_forall in Hr. exact (Hr m Hedge). }
  specialize (He p m Hedge).
  split.
  - now apply Hord.
  - now rewrite (Hb p Hp), (Hb m Hm).
Qed.

(** X3.  The batch index that [Sort] gives a pass is the length of the
    longest path that ends in it: [0] for a pass without incoming edge,
    and otherwise one more than the largest batch index among the sources
    of its incoming edges. *)
Theorem Sort_batch_longest_path
    (std_sort : (nat -> nat -> bool) -> list nat -> list nat)
    (adj : Adjacency) (g g' : Graph) :
  std_sort_contract std_sort ->
  consistent (m_renderNodes g) adj ->
  (length (m_renderNodes g) <= length (m_mapping g))%nat ->
  Forall (fun node => NodeBatchIdx node <= 0) (m_renderNodes g) ->
  Sort std_sort adj g = Ok g' ->
  forall m,
    (m < length (m_renderNodes g))%nat ->
    (in_degree adj m = 0%nat -> sorted_batch g' m = 0) /\
    (in_degree adj m <> 0%nat ->
     exists p, In m (successors adj p) /\
               sorted_batch g' m = sorted_batch g' p + 1) /\
    (forall p, In m (successors adj p) ->
               sorted_batch g' p + 1 <= sorted_batch g' m).
Proof.
  intros Hsort Hcons Hmap Hfresh Hrun m Hm.
  destruct (@Sort_layers std_sort adj g g' Hsort Hcons Hmap Hrun) as (nodes & kahn & Hkahn & Hb & _).
  destruct (@Sort_kahn_batches adj _ nodes kahn Hcons Hkahn)
    as (nodes1 & Hb1 & Hlen1 & Hmono & Hsame & He & Hatt & Hsrc).
  pose proof Hcons as (Hlen & Hdeg & Hrange & _).
  assert (Hp : forall p, In m (successors adj p) -> (p < length (m_renderNodes g))%nat).
  { intros p Hedge. rewrite <- Hlen. unfold successors in Hedge.
    destruct (Nat.lt_ge_cases p (length adj)) as [Hlt|Hge]; [exact Hlt|].
    rewrite nth_overflow in Hedge by assumption. contradiction. }
  assert (H1 : batch_of nodes1 m
               = if Nat.eqb (in_degree adj m) 0 then 0
                 else batch_of (m_renderNodes g) m).
  { destruct (nth_error (m_renderNodes g) m) as [node|] eqn:Em.
    2:{ apply nth_error_None in Em. lia. }
    pose proof (@stored_degree adj _ m node Hdeg Em) as Hs.
    assert (E1 : nth_error (map NodeBatchIdx nodes1) m
                 = Some (if Indegree node =? 0 then 0 else NodeBatchIdx node))
      by now rewrite Hb1, nth_error_map, Em.
    rewrite nth_error_map in E1.
    destruct (nth_error nodes1 m) as [node1|] eqn:E1m; [|discriminate].
    unfold batch_of. rewrite (nth_error_nth _ _ _ E1m), (nth_error_nth _ _ _ Em).
    injection E1 as ->. rewrite Hs.
    destruct (Nat.eqb_spec (in_degree adj m) 0) as [->|Hne]; [reflexivity|].
    destruct (Z.eqb_spec (Z.of_nat (in_degree adj m)) 0); [lia | reflexivity]. }
  rewrite (Hb m Hm).
  split; [|split].
  - intros Hd. rewrite (Hsame m Hd), H1, Hd. reflexivity.
  - intros Hd.
    destruct (Hatt m) as [Heq|(p & Hedge & Heq)].
    + exfalso.
      destruct (Hsrc m Hm Hd) as (p & Hedge & Hpos).
      specialize (He p m Hedge).
      rewrite Heq, H1 in He.
      destruct (Nat.eqb_spec (in_degree adj m) 0) as [|_]; [contradiction|].
      assert (Hle : batch_of (m_renderNodes g) m <= 0).
      { unfold batch_of. rewrite Forall_forall in Hfresh. apply Hfresh.
        apply nth_In. exact Hm. }
      lia.
    + exists p. split; [exact Hedge|]. now rewrite (Hb p (Hp p Hedge)).
  - intros p Hedge. rewrite (Hb p (Hp p Hedge)).
    specialize (He p m Hedge). lia.
Qed.

Lemma cycle_example_returns :
  snd cycle_example_declared = Returned /\
  Build_edges cycle_example = Ok cycle_example_built.
Proof. split; reflexivity. Qed.

Lemma cycle_example_consistent :
  consistent (m_renderNodes (fst cycle_example_built)) (snd cycle_example_built).
Proof.
  unfold consistent. simpl.
  split; [reflexivity|]. split; [reflexivity|].
  split; repeat (constructor; simpl; try lia).
Qed.

Lemma cycle_example_cyclic : ~ is_DAG (snd cycle_example_built).
Proof.
  intros (rank & Hrank).
  assert (H01 : (rank 0 < rank 1)%nat) by (apply Hrank; simpl; auto).
  assert (H10 : (rank 1 < rank 0)%nat) by (apply Hrank; simpl; auto).
  lia.
Qed.

Lemma Sort_succeeds_iff_acyclic_witness :
  (exists g',
      Sort insertion_sort (snd edge_example_built) (fst edge_example_built) = Ok g') /\
  Sort insertion_sort (snd cycle_example_built) (fst cycle_example_built)
  = AssertFail "Graph is not a DAG- no node with 0 dependencies." /\
  Sort insertion_sort (snd late_cycle_built) (fst late_cycle_built)
  = AssertFail "invalid handle".
Proof.
  split; [|split].
  - destruct (@Sort_succeeds_iff_acyclic insertion_sort (snd edge_example_built)
                (fst edge_example_built) insertion_sort_contract) as [[_ Hok] _].
    + discriminate.
    + exact edge_example_consistent.
    + simpl. lia.
    + apply Hok. exact edge_example_DAG.
  - destruct (@Sort_succeeds_iff_acyclic insertion_sort (snd cycle_example_built)
                (fst cycle_example_built) insertion_sort_contract)
      as (_ & Hfail & _).
    + discriminate.
    + exact cycle_example_consistent.
    + simpl. lia.
    + exact (Hfail cycle_example_cyclic).
  - destruct (@Sort_succeeds_iff_acyclic insertion_sort (snd late_cycle_built)
                (fst late_cycle_built) insertion_sort_contract)
      as (_ & Hfail & _).
    + discriminate.
    + exact late_cycle_consistent.
    + simpl. lia.
    + exact (Hfail late_cycle_cyclic).
Defined.

Lemma edge_example_sorted_run :
  Sort insertion_sort (snd edge_example_built) (fst edge_example_built)
  = Ok edge_example_sorted.
Proof. reflexivity. Qed.

Lemma Sort_producers_first_witness :
  (nth 0 (m_mapping edge_example_sorted) 0 < nth 2 (m_mapping edge_example_sorted) 0)%nat /\
  sorted_batch edge_example_sorted 0 < sorted_batch edge_example_sorted 2.
Proof.
  apply (@Sort_producers_first insertion_sort (snd edge_example_built)
           (fst edge_example_built) edge_example_sorted insertion_sort_contract
           edge_example_consistent).
  - simpl. lia.
  - exact edge_example_sorted_run.
  - simpl. auto.
Defined.

Lemma Sort_batch_longest_path_witness :
  sorted_batch edge_example_sorted 0 = 0 /\
  exists p, In 2%nat (successors (snd edge_example_built) p) /\
            sorted_batch edge_example_sorted 2 = sorted_batch edge_example_sorted p + 1.
Proof.
  split.
  - apply (@Sort_batch_longest_path insertion_sort (snd edge_example_built)
             (fst edge_example_built) edge_example_sorted insertion_sort_contract
             edge_example_consistent).
    + simpl. lia.
    + repeat constructor; simpl; lia.
    + exact edge_example_sorted_run.
    + simpl. lia.
    + reflexivity.
  - apply (@Sort_batch_longest_path insertion_sort (snd edge_example_built)
             (fst edge_example_built) edge_example_sorted insertion_sort_contract
             edge_example_consistent).
    + simpl. lia.
    + repeat constructor; simpl; lia.
    + exact edge_example_sorted_run.
    + simpl. lia.
    + discriminate.
Defined.

(* ---------------------------------------------------------------------- *)
(** ** The merge passes its validation *)

Lemma Forall2_same_refl (l : list AggregateRenderNode) :
  Forall2 same_but_merge l l.
Proof.
  induction l; constructor; [unfold same_but_merge; tauto | assumption].
Qed.

Lemma Forall2_same_trans (l1 l2 l3 : list AggregateRenderNode) :
  Forall2 same_but_merge l1 l2 -> Forall2 same_but_merge l2 l3 ->
  Forall2 same_but_merge l1 l3.
Proof.
  intros H12. revert l3. induction H12 as [|a b l1 l2 Hab _ IH]; intros l3 H23;
    inversion H23; subst; constructor.
  - unfold same_but_merge in *. intuition congruence.
  - now apply IH.
Qed.

Lemma valid_closed_nil : valid_closed [].
Proof. intros rest. reflexivity. Qed.

Lemma valid_closed_app (l1 l2 : list AggregateRenderNode) :
  valid_closed l1 -> valid_closed l2 -> valid_closed (l1 ++ l2).
Proof.
  intros H1 H2 rest. now rewrite <- app_assoc, H1, H2.
Qed.

Lemma valid_closed_unmerged (a : AggregateRenderNode) :
  unmerged a -> valid_closed [a].
Proof.
  intros (Hs & He & _) rest. simpl. now rewrite Hs, He.
Qed.

Lemma Merge_validate_inside (mid : list AggregateRenderNode) :
  forall c rest,
    Forall (fun a => MergeStart a = false /\ MergeEnd a = false) mid ->
    Merge_validate (mid ++ rest) true c
    = Merge_validate rest true (c + Z.of_nat (length mid)).
Proof.
  induction mid as [|a mid IH]; intros c rest Hmid.
  - simpl. now rewrite Z.add_0_r.
  - inversion Hmid as [|? ? [Hs He] Hmid']; subst.
    cbn [app Merge_validate length]. rewrite Hs, He.
    cbn [negb orb Assert bind]. rewrite IH by assumption. f_equal. lia.
Qed.

(** A run of one aggregate, un-marked again. *)
Lemma valid_closed_single (a : AggregateRenderNode) (idx : Z) :
  MergeEnd a = false -> valid_closed [set_Merge false (MergeEnd a) idx a].
Proof.
  intros He rest. simpl. now rewrite He.
Qed.

(** A run of two or more aggregates, closed at its last one. *)
Lemma valid_closed_run (first last_ : AggregateRenderNode)
    (mid : list AggregateRenderNode) :
  MergeStart first = true -> MergeEnd first = false ->
  Forall (fun a => MergeStart a = false /\ MergeEnd a = false) mid ->
  MergeStart last_ = false ->
  valid_closed
    (first :: mid ++ [set_Merge (MergeStart last_) true (MergedCmdListIdx last_) last_]).
Proof.
  intros Hs He Hmid Hl rest.
  cbn [app Merge_validate]. rewrite Hs, He. cbn [negb orb Assert bind].
  rewrite <- app_assoc, Merge_validate_inside by assumption.
  cbn [app Merge_validate set_Merge MergeStart MergeEnd]. rewrite Hl.
  cbn [negb orb Assert bind].
  destruct (Z.ltb_spec 1 (0 + 1 + Z.of_nat (length mid) + 1)); [reflexivity | lia].
Qed.

Lemma nth_error_last_app {A} (pre : list A) (x : A) (rest : list A) :
  nth_error ((pre ++ [x]) ++ rest) (length (pre ++ [x]) - 1) = Some x.
Proof.
  rewrite length_app. simpl.
  replace (length pre + 1 - 1)%nat with (length pre) by lia.
  rewrite <- app_assoc. rewrite nth_error_app2 by lia.
  now rewrite Nat.sub_diag.
Qed.

Lemma nth_error_middle {A} (pre : list A) (x : A) (rest : list A) :
  nth_error (pre ++ x :: rest) (length pre) = Some x.
Proof.
  rewrite nth_error_app2 by lia. now rewrite Nat.sub_diag.
Qed.

Lemma upd_middle {A} (pre : list A) (x y : A) (rest : list A) :
  upd (pre ++ x :: rest) (length pre) y = pre ++ y :: rest.
Proof.
  induction pre as [|z pre IH]; simpl; [reflexivity|]. now rewrite IH.
Qed.

Lemma upd_last_app {A} (pre : list A) (x y : A) (rest : list A) :
  upd ((pre ++ [x]) ++ rest) (length (pre ++ [x]) - 1) y = (pre ++ [y]) ++ rest.
Proof.
  rewrite length_app. simpl.
  replace (length pre + 1 - 1)%nat with (length pre) by lia.
  rewrite <- !app_assoc. simpl. apply upd_middle.
Qed.

Lemma open_run_last (run : list AggregateRenderNode) (idx : Z) :
  open_run run idx -> run <> [] ->
  exists front prev,
    run = front ++ [prev] /\ MergedCmdListIdx prev = idx /\ MergeEnd prev = false /\
    (front = [] -> MergeStart prev = true) /\
    (front <> [] ->
     MergeStart prev = false /\
     exists first mid, front = first :: mid /\
       MergeStart first = true /\ MergeEnd first = false /\
       Forall (fun a => MergeStart a = false /\ MergeEnd a = false) mid).
Proof.
  intros Hrun Hne. destruct run as [|first others]; [contradiction|].
  destruct Hrun as (Hs & He & Hoth & Hidx).
  destruct (exists_last Hne) as (front & prev & Heq).
  exists front, prev. split; [exact Heq|].
  assert (Hprev : In prev (first :: others)) by (rewrite Heq; apply in_or_app; right; now left).
  split; [rewrite Forall_forall in Hidx; now apply Hidx|].
  destruct front as [|f mid].
  - simpl in Heq. injection Heq as -> ->.
    split; [exact He|]. split; [intros _; exact Hs | intros C; contradiction].
  - simpl in Heq. injection Heq as -> ->.
    assert (Hum : MergeStart prev = false /\ MergeEnd prev = false).
    { rewrite Forall_forall in Hoth. apply Hoth. apply in_or_app. right. now left. }
    split; [apply Hum|]. split; [discriminate|]. intros _.
    split; [apply Hum|]. exists f, mid. split; [reflexivity|].
    split; [exact Hs|]. split; [exact He|].
    now apply Forall_app in Hoth.
Qed.

Lemma merged_below_mono (n n' : Z) (l : list AggregateRenderNode) :
  n <= n' -> merged_below n l -> merged_below n' l.
Proof.
  intros Hle. apply Forall_impl. intros a Ha. lia.
Qed.

(** Closing the run that ends in front of [rest]. *)
Lemma Merge_close_inv (done run rest : list AggregateRenderNode) (l : MergeLocals) :
  merge_inv done run l ->
  exists pre' idx',
    Merge_close ((done ++ run) ++ rest) (length (done ++ run) - 1) l
    = Ok (pre' ++ rest, idx') /\
    valid_closed pre' /\ merged_below idx' pre' /\
    length pre' = length (done ++ run) /\
    Forall2 same_but_merge (done ++ run) pre' /\ 0 <= idx'.
Proof.
  intros ((Hdone & Hbelow) & Hrun & Hcount & Hoff & Hidx).
  unfold Merge_close.
  destruct run as [|r0 run0] eqn:Erun.
  - rewrite Hcount. simpl. rewrite app_nil_r.
    exists done, (cmdListIdx l). split; [reflexivity|].
    split; [exact Hdone|]. split; [exact Hbelow|]. split; [reflexivity|].
    split; [apply Forall2_same_refl | exact Hidx].
  - rewrite <- Erun in *.
    assert (Hne : run <> []) by (rewrite Erun; discriminate).
    destruct (open_run_last _ Hrun Hne)
      as (front & prev & Heq & Hpidx & Hpend & Hfirst & Hmore).
    assert (Hall : Forall (fun a => MergedCmdListIdx a = cmdListIdx l) run).
    { rewrite Erun in Hrun |- *. apply Hrun. }
    destruct (Z.eqb_spec (currCount l) 0) as [Hz|_].
    { rewrite Hz in Hcount. rewrite Erun in Hcount. simpl in Hcount. lia. }
    cbn [negb].
    rewrite Heq. rewrite (app_assoc done front [prev]).
    rewrite nth_error_last_app, !upd_last_app.
    destruct (Z.eqb_spec (currCount l) 1) as [Hone|Hmany].
    + assert (Hf : front = []).
      { rewrite Heq, length_app in Hcount. simpl in Hcount.
        destruct front; [reflexivity | simpl in Hcount; lia]. }
      subst front. rewrite (Hfirst eq_refl), Hpidx.
      destruct (Z.eqb_spec (cmdListIdx l) (-1)) as [C|_]; [lia|].
      cbn. rewrite app_nil_r.
      eexists _, _. split; [reflexivity|].
      split; [|split; [|split; [|split]]].
      * apply valid_closed_app; [exact Hdone|].
        now apply valid_closed_single.
      * apply Forall_app. split; [exact Hbelow|].
        constructor; [|constructor]. simpl. lia.
      * now rewrite !length_app.
      * apply Forall2_app; [apply Forall2_same_refl|].
        constructor; [|constructor]. unfold same_but_merge. simpl. tauto.
      * exact Hidx.
    + assert (Hf : front <> []).
      { intros ->. rewrite Heq in Hcount. simpl in Hcount. lia. }
      destruct (Hmore Hf) as (Hps & first & mid & -> & Hfs & Hfe & Hmid).
      eexists _, _. split; [reflexivity|].
      split; [|split; [|split; [|split]]].
      * rewrite <- app_assoc. apply valid_closed_app; [exact Hdone|].
        cbn [app]. now apply valid_closed_run.
      * rewrite <- app_assoc. apply Forall_app. split.
        { apply (@merged_below_mono (cmdListIdx l)); [lia | exact Hbelow]. }
        rewrite Heq in Hall. apply Forall_app in Hall. destruct Hall as [Hfront _].
        apply Forall_app. split.
        { eapply Forall_impl; [|exact Hfront]. intros a Ha. simpl in Ha. lia. }
        constructor; [|constructor]. simpl. lia.
      * now rewrite !length_app.
      * apply Forall2_app; [apply Forall2_same_refl|].
        constructor; [|constructor]. unfold same_but_merge. simpl. tauto.
      * lia.
Qed.

(** The merge loop over the aggregates [rest] that no merge has marked. *)
Lemma Merge_loop_inv (rest : list AggregateRenderNode) :
  forall done run l,
    merge_inv done run l ->
    Forall unmerged rest ->
    exists done' run' l',
      Merge_loop (length rest) (length (done ++ run)) ((done ++ run) ++ rest) l
      = Ok (done' ++ run', l') /\
      merge_inv done' run' l' /\
      Forall2 same_but_merge ((done ++ run) ++ rest) (done' ++ run').
Proof.
  induction rest as [|x rest IH]; intros done run l Hinv Hrest.
  - exists done, run, l. simpl. rewrite app_nil_r. split; [reflexivity|].
    split; [exact Hinv | apply Forall2_same_refl].
  - inversion Hrest as [|? ? (Hxs & Hxe & Hxi) Hrest']; subst.
    cbn [length Merge_loop]. rewrite nth_error_middle.
    destruct (mergeable x) eqn:Emerge.
    + rewrite upd_middle.
      set (x1 := set_Merge (currOffset l =? -1) (MergeEnd x) (cmdListIdx l) x).
      set (l1 := mkMergeLocals
                   (if currOffset l =? -1 then Z.of_nat (length (done ++ run))
                    else currOffset l)
                   (cmdListIdx l) (currCount l + 1)).
      destruct Hinv as (Hdone & Hrun & Hcount & Hoff & Hidx).
      assert (Hinv1 : merge_inv done (run ++ [x1]) l1).
      { split; [exact Hdone|]. split; [|split; [|split]].
        - cbn [l1 cmdListIdx]. destruct run as [|first others].
          + assert (E : currOffset l = -1) by now apply Hoff.
            simpl. unfold x1. rewrite E. cbn.
            split; [reflexivity|]. split; [exact Hxe|]. split; constructor; auto.
          + destruct Hrun as (Hs & He & Hoth & Hall).
            assert (E : (currOffset l =? -1) = false).
            { apply Z.eqb_neq. intros C. apply Hoff in C. discriminate. }
            simpl. split; [exact Hs|]. split; [exact He|]. split.
            * apply Forall_app. split; [exact Hoth|].
              constructor; [|constructor]. unfold x1. rewrite E. cbn. auto.
            * inversion Hall; subst. constructor; [assumption|].
              apply Forall_app. split; [assumption|].
              constructor; [reflexivity | constructor].
        - cbn [l1 currCount]. rewrite length_app. simpl. lia.
        - cbn [l1 currOffset]. split.
          + intros C. exfalso.
            destruct (Z.eqb_spec (currOffset l) (-1)); lia.
          + intros C. destruct run; discriminate.
        - exact Hidx. }
      destruct (IH done (run ++ [x1]) l1 Hinv1 Hrest') as (done' & run' & l' & Hloop & Hinv' & Hsame).
      exists done', run', l'.
      replace (S (length (done ++ run))) with (length (done ++ run ++ [x1]))
        by (rewrite !length_app; simpl; lia).
      replace ((done ++ run) ++ x1 :: rest) with ((done ++ run ++ [x1]) ++ rest)
        by (now rewrite <- !app_assoc).
      split; [exact Hloop|]. split; [exact Hinv'|].
      eapply Forall2_same_trans; [|exact Hsame].
      replace ((done ++ run ++ [x1]) ++ rest) with ((done ++ run) ++ x1 :: rest)
        by (now rewrite <- !app_assoc).
      apply Forall2_app; [apply Forall2_same_refl|].
      constructor; [|apply Forall2_same_refl].
      unfold same_but_merge, x1. simpl. tauto.
    + destruct (@Merge_close_inv done run (x :: rest) l Hinv)
        as (pre' & idx' & Hclose & Hvalid & Hbelow & Hlen & Hsame0 & Hidx').
      rewrite Hclose. cbn [bind].
      set (l1 := mkMergeLocals (-1) idx' 0).
      assert (Hinv1 : merge_inv (pre' ++ [x]) [] l1).
      { split; [split|split; [exact I|split; [reflexivity|split; [tauto | exact Hidx']]]].
        - apply valid_closed_app; [exact Hvalid|].
          apply valid_closed_unmerged. now repeat split.
        - apply Forall_app. split; [exact Hbelow|].
          constructor; [|constructor]. rewrite Hxi. cbn [l1 cmdListIdx]. lia. }
      destruct (IH (pre' ++ [x]) [] l1 Hinv1 Hrest')
        as (done' & run' & l' & Hloop & Hinv' & Hsame).
      exists done', run', l'.
      rewrite app_nil_r in Hloop, Hsame.
      replace (S (length (done ++ run))) with (length (pre' ++ [x]))
        by (rewrite length_app, Hlen; simpl; lia).
      replace (pre' ++ x :: rest) with ((pre' ++ [x]) ++ rest)
        by (now rewrite <- app_assoc).
      split; [exact Hloop|]. split; [exact Hinv'|].
      eapply Forall2_same_trans; [|exact Hsame].
      replace ((pre' ++ [x]) ++ rest) with (pre' ++ x :: rest)
        by (now rewrite <- app_assoc).
      apply Forall2_app; [exact Hsame0|].
      apply Forall2_same_refl.
Qed.

(** X4.  On aggregates that carry no merge mark, [MergeSmallNodes] runs
    through: its "bug" assert does not fire and the marks it leaves pass
    the validation of the debug build.  It writes nothing but the three
    merge fields, and every command-list index it leaves is [-1] or below
    the number of merged command lists that it returns. *)
Theorem MergeSmallNodes_passes_validation (aggs : list AggregateRenderNode) :
  Forall unmerged aggs ->
  exists aggs' n,
    MergeSmallNodes aggs = Ok (aggs', n) /\
    MergeSmallNodes_validated aggs = Ok (aggs', n) /\
    Forall2 same_but_merge aggs aggs' /\
    merged_below n aggs' /\ 0 <= n.
Proof.
  intros Hfresh.
  assert (Hinv0 : merge_inv [] [] (mkMergeLocals (-1) 0 0)).
  { split; [split; [apply valid_closed_nil | constructor]|].
    split; [exact I|]. split; [reflexivity|]. split; [tauto | simpl; lia]. }
  destruct (@Merge_loop_inv aggs [] [] _ Hinv0 Hfresh)
    as (done & run & l & Hloop & Hinv & Hsame).
  simpl in Hloop, Hsame.
  destruct (@Merge_close_inv done run [] l Hinv)
    as (pre' & idx' & Hclose & Hvalid & Hbelow & Hlen & Hsame' & Hidx').
  rewrite !app_nil_r in Hclose.
  assert (Hrun : MergeSmallNodes aggs = Ok (pre', idx')).
  { unfold MergeSmallNodes. rewrite Hloop. cbn [bind]. exact Hclose. }
  exists pre', idx'. split; [exact Hrun|]. split.
  - unfold MergeSmallNodes_validated. rewrite Hrun. cbn [bind].
    specialize (Hvalid []). rewrite app_nil_r in Hvalid. rewrite Hvalid.
    reflexivity.
  - split; [|split; [exact Hbelow | exact Hidx']].
    eapply Forall2_same_trans; [exact Hsame | exact Hsame'].
Qed.

Lemma merge_scenario_joined_run :
  exists g,
    (g1 <- Build_barriers insertion_sort 999 merge_scenario ;;
     JoinRenderNodes g1)%result = Ok g /\
    m_aggregateNodes g = merge_scenario_joined /\
    length merge_scenario_joined = 4%nat.
Proof. eexists. split; [vm_compute; reflexivity|]. split; reflexivity. Qed.

Lemma MergeSmallNodes_passes_validation_witness :
  exists aggs' n, MergeSmallNodes_validated merge_scenario_joined = Ok (aggs', n).
Proof.
  destruct (@MergeSmallNodes_passes_validation merge_scenario_joined)
    as (aggs' & n & _ & Hrun & _).
  - repeat constructor.
  - exists aggs', n. exact Hrun.
Defined.

(* ---------------------------------------------------------------------- *)
(** ** The barriers of a node *)

Lemma same_but_State_refl (rs : list ResourceMetadata) : same_but_State rs rs.
Proof. reflexivity. Qed.

Lemma same_but_State_trans (rs1 rs2 rs3 : list ResourceMetadata) :
  same_but_State rs1 rs2 -> same_but_State rs2 rs3 -> same_but_State rs1 rs3.
Proof. unfold same_but_State. congruence. Qed.

Lemma same_but_State_upd (rs : list ResourceMetadata) (i : nat)
    (r : ResourceMetadata) (v : Z) :
  nth_error rs i = Some r -> same_but_State rs (upd rs i (set_State v r)).
Proof.
  intros Hi. unfold same_but_State. symmetry.
  eapply upd_map_keeps; [exact Hi | reflexivity].
Qed.

Lemma same_but_State_keys (rs rs' : list ResourceMetadata) :
  same_but_State rs rs' ->
  map ID rs = map ID rs' /\
  map (fun r => (ID r, Res r)) rs = map (fun r => (ID r, Res r)) rs' /\
  map Producers rs = map Producers rs' /\
  length rs = length rs'.
Proof.
  unfold same_but_State. intros H.
  assert (H1 : map ID (map (set_State 0) rs) = map ID (map (set_State 0) rs'))
    by now rewrite H.
  assert (H2 : map (fun r => (ID r, Res r)) (map (set_State 0) rs)
               = map (fun r => (ID r, Res r)) (map (set_State 0) rs'))
    by now rewrite H.
  assert (H3 : map Producers (map (set_State 0) rs)
               = map Producers (map (set_State 0) rs'))
    by now rewrite H.
  rewrite !map_map in H1, H2, H3. simpl in H1, H2, H3.
  split; [exact H1|]. split; [exact H2|]. split; [exact H3|].
  apply (f_equal (@length _)) in H. now rewrite !length_map in H.
Qed.

Lemma same_but_barriers_refl (n : RenderNode) : same_but_barriers n n.
Proof. unfold same_but_barriers. tauto. Qed.

Lemma same_but_barriers_trans (n1 n2 n3 : RenderNode) :
  same_but_barriers n1 n2 -> same_but_barriers n2 n3 -> same_but_barriers n1 n3.
Proof. unfold same_but_barriers. intuition congruence. Qed.

Lemma firstn_In_incl {A} (k : nat) (l : list A) (x : A) :
  In x (firstn k l) -> In x l.
Proof.
  intros Hin. rewrite <- (firstn_skipn k l). apply in_or_app. now left.
Qed.

(** The lookup of an id in the table finds an entry with that id. *)
Lemma FindFrameResource_all_found (g : Graph) (key : Z) (r : ResourceMetadata) :
  FindFrameResource_all g key <> -1 ->
  nth_error (m_frameResources g) (Z.to_nat (FindFrameResource_all g key)) = Some r ->
  ID r = key.
Proof.
  unfold FindFrameResource_all, FindFrameResource. cbn.
  intros Hfound Hr.
  destruct (BinarySearch_found _ _ _ _ Hfound) as [Hkey _].
  rewrite nth_error_map, Hr in Hkey. simpl in Hkey. congruence.
Qed.

Section BarrierProofs.
Context {L : Limits}.

(** The loop over the producers of an input: the largest index grows, and
    only to the index of a producer on the other queue. *)
Lemma IRB_producers_spec (nodes : list RenderNode) (mapping : list nat)
    (isAsyncCompute : bool) (nodeBatchIdx : Z) (prods : list nat) :
  forall largest largest',
    IRB_producers nodes mapping isAsyncCompute nodeBatchIdx prods largest
    = Ok largest' ->
    largest <= largest' /\
    (largest' = largest \/
     exists h,
       In h prods /\
       largest' = Z.of_nat (nth h mapping 0%nat) /\
       is_ASYNC_COMPUTE (NodeType (nth (nth h mapping 0%nat) nodes default_RenderNode))
       = negb isAsyncCompute /\
       NodeBatchIdx (nth (nth h mapping 0%nat) nodes default_RenderNode)
       < nodeBatchIdx).
Proof.
  induction prods as [|h prods IH]; intros largest largest' Hrun; simpl in Hrun.
  - injection Hrun as <-. split; [lia | now left].
  - set (s := nth h mapping 0%nat) in *.
    set (producer := nth s nodes default_RenderNode) in *.
    destruct (isAsyncCompute && negb (is_ASYNC_COMPUTE (NodeType producer))
              || negb isAsyncCompute && is_ASYNC_COMPUTE (NodeType producer))
      eqn:Ecross.
    + destruct (Z.ltb_spec (NodeBatchIdx producer) nodeBatchIdx) as [Hlt|];
        [|discriminate].
      cbn [Assert bind] in Hrun.
      destruct (IH _ _ Hrun) as [Hle [Heq|(h' & Hin & Hrest)]].
      * split; [lia|].
        destruct (Z.max_spec largest (Z.of_nat s)) as [[_ E]|[_ E]].
        -- right. exists h. split; [now left|]. fold s producer.
           split; [congruence|]. split; [|exact Hlt].
           destruct isAsyncCompute, (is_ASYNC_COMPUTE (NodeType producer));
             simpl in *; congruence.
        -- left. congruence.
      * split; [lia|]. right. exists h'. split; [now right | exact Hrest].
    + destruct (IH _ _ Hrun) as [Hle [Heq|(h' & Hin & Hrest)]].
      * split; [exact Hle | now left].
      * split; [exact Hle|]. right. exists h'. split; [now right | exact Hrest].
Qed.

Lemma transition_for_incl (rs rs' : list ResourceMetadata)
    (deps deps' : list Dependency) (b : Barrier) :
  same_but_State rs rs' -> incl deps deps' ->
  transition_for rs' deps b -> transition_for rs deps' b.
Proof.
  intros Hsame Hincl (Hreal & d & Hd & Hafter & Hres).
  split; [exact Hreal|]. exists d. split; [now apply Hincl|]. split; [exact Hafter|].
  destruct (same_but_State_keys Hsame) as (_ & Hkeys & _). now rewrite Hkeys.
Qed.

Lemma fence_source_incl (g : Graph) (rs rs' : list ResourceMetadata)
    (inputs inputs' : list Dependency) (node node' : RenderNode) (d : Z) :
  same_but_State rs rs' -> incl inputs inputs' ->
  NodeType node = NodeType node' -> NodeBatchIdx node = NodeBatchIdx node' ->
  fence_source g rs' inputs node d -> fence_source g rs inputs' node' d.
Proof.
  intros Hsame Hincl Htype Hbatch (input & prods & h & Hin & Hres & Hh & Hrest).
  exists input, prods, h. split; [now apply Hincl|]. split.
  - unfold same_but_State in Hsame.
    assert (H3 : map (fun r => (ID r, Producers r)) (map (set_State 0) rs)
                 = map (fun r => (ID r, Producers r)) (map (set_State 0) rs'))
      by now rewrite Hsame.
    rewrite !map_map in H3. simpl in H3. now rewrite H3.
  - split; [exact Hh|]. rewrite <- Htype, <- Hbatch. exact Hrest.
Qed.

(** What the loop over the inputs of a node leaves. *)
Lemma IRB_inputs_spec (g : Graph) (inputs : list Dependency) :
  forall rs node largest rs' node' largest',
    IRB_inputs g inputs rs node largest = Ok (rs', node', largest') ->
    same_but_State rs rs' /\
    same_but_barriers node node' /\
    GpuDepSourceIdx node' = GpuDepSourceIdx node /\
    (exists new,
        Barriers node' = Barriers node ++ new /\
        Forall (transition_for rs inputs) new /\
        HasUnsupportedBarrier node'
        = HasUnsupportedBarrier node
          || (is_ASYNC_COMPUTE (NodeType node) && existsb unsupported_on_compute new)) /\
    largest <= largest' /\
    (largest' = largest \/ fence_source g rs inputs node largest').
Proof.
  induction inputs as [|input inputs IH];
    intros rs node largest rs' node' largest' Hrun; simpl in Hrun.
  - injection Hrun as <- <- <-.
    split; [apply same_but_State_refl|]. split; [apply same_but_barriers_refl|].
    split; [reflexivity|]. split.
    + exists []. rewrite app_nil_r. split; [reflexivity|]. split; [constructor|].
      simpl. now rewrite andb_false_r, orb_false_r.
    + split; [lia | now left].
  - assert (Hwiden : forall rs1 node1 l1,
              IRB_inputs g inputs rs1 node1 l1 = Ok (rs', node', largest') ->
              same_but_State rs rs1 -> same_but_barriers node node1 ->
              GpuDepSourceIdx node1 = GpuDepSourceIdx node ->
              (exists new1,
                  Barriers node1 = Barriers node ++ new1 /\
                  Forall (transition_for rs (input :: inputs)) new1 /\
                  HasUnsupportedBarrier node1
                  = HasUnsupportedBarrier node
                    || (is_ASYNC_COMPUTE (NodeType node)
                        && existsb unsupported_on_compute new1)) ->
              largest <= l1 ->
              (l1 = largest \/ fence_source g rs (input :: inputs) node l1) ->
              same_but_State rs rs' /\
              same_but_barriers node node' /\
              GpuDepSourceIdx node' = GpuDepSourceIdx node /\
              (exists new,
                  Barriers node' = Barriers node ++ new /\
                  Forall (transition_for rs (input :: inputs)) new /\
                  HasUnsupportedBarrier node'
                  = HasUnsupportedBarrier node
                    || (is_ASYNC_COMPUTE (NodeType node)
                        && existsb unsupported_on_compute new)) /\
              largest <= largest' /\
              (largest' = largest \/ fence_source g rs (input :: inputs) node largest')).
    { intros rs1 node1 l1 Hrest Hs1 Hn1 Hg1 (new1 & Hb1 & Ht1 & Hf1) Hl1 Hc1.
      destruct (IH _ _ _ _ _ _ Hrest)
        as (Hs2 & Hn2 & Hg2 & (new2 & Hb2 & Ht2 & Hf2) & Hl2 & Hc2).
      assert (Htype : NodeType node = NodeType node1) by apply Hn1.
      assert (Hbatch : NodeBatchIdx node = NodeBatchIdx node1) by apply Hn1.
      split; [eapply same_but_State_trans; eauto|].
      split; [eapply same_but_barriers_trans; eauto|].
      split; [congruence|]. split.
      - exists (new1 ++ new2). split; [rewrite Hb2, Hb1; now rewrite app_assoc|].
        split.
        + apply Forall_app. split; [exact Ht1|].
          eapply Forall_impl; [|exact Ht2]. intros b Hb.
          apply (@transition_for_incl rs rs1 inputs); auto.
          intros x Hx. now right.
        + rewrite Hf2, Hf1, existsb_app, <- Htype.
          destruct (HasUnsupportedBarrier node), (is_ASYNC_COMPUTE (NodeType node)),
            (existsb unsupported_on_compute new1); reflexivity.
      - split; [lia|].
        destruct Hc2 as [->|Hc2]; [exact Hc1|]. right.
        apply (@fence_source_incl g rs rs1 inputs (input :: inputs) node1 node);
          auto.
        intros x Hx. now right. }
    destruct (ResID input <? DUMMY_RES_COUNT).
    { apply (Hwiden rs node largest Hrun);
        [apply same_but_State_refl | apply same_but_barriers_refl | reflexivity | | lia
        | now left].
      exists []. rewrite app_nil_r. split; [reflexivity|]. split; [constructor|].
      simpl. now rewrite andb_false_r, orb_false_r. }
    set (idx := FindFrameResource_all (set_frameResources rs g) (ResID input)) in *.
    destruct (Z.eqb_spec idx (-1)) as [|Hfound]; [discriminate|].
    cbn [negb Assert bind] in Hrun.
    destruct (nth_error rs (Z.to_nat idx)) as [r|] eqn:Er; [|discriminate].
    assert (Hid : ID r = ResID input).
    { apply (@FindFrameResource_all_found (set_frameResources rs g) (ResID input) r);
        [exact Hfound | exact Er]. }
    assert (Hkey : In (ResID input, Res r) (map (fun r => (ID r, Res r)) rs)).
    { rewrite <- Hid. apply (in_map (fun r => (ID r, Res r))).
      eapply nth_error_In; eauto. }
    assert (Hprods : In (ResID input, Producers r)
                       (map (fun r => (ID r, Producers r)) rs)).
    { rewrite <- Hid. apply (in_map (fun r => (ID r, Producers r))).
      eapply nth_error_In; eauto. }
    destruct (negb (intersects (State r) (ExpectedState input))) eqn:Ebar.
    + destruct (IRB_producers (m_renderNodes g) (m_mapping g)
                  (is_ASYNC_COMPUTE (NodeType node)) (NodeBatchIdx node)
                  (firstn (Z.to_nat (CurrProdIdx r)) (Producers r)) largest)
        as [l1|] eqn:Eprod; [|discriminate].
      cbn [bind] in Hrun.
      destruct (IRB_producers_spec _ _ _ _ _ _ Eprod) as [Hl1 Hc1].
      apply (Hwiden _ _ l1 Hrun).
      * now apply same_but_State_upd.
      * unfold same_but_barriers. simpl. tauto.
      * reflexivity.
      * eexists [_]. split; [reflexivity|]. split.
        -- constructor; [|constructor]. split.
           ++ simpl. now apply negb_true_iff in Ebar.
           ++ exists input. split; [now left|]. split; [reflexivity | exact Hkey].
        -- simpl. unfold unsupported_on_compute. simpl.
           now rewrite orb_false_r.
      * exact Hl1.
      * destruct Hc1 as [->|(h & Hh & Hd & Ht & Hb)]; [now left|]. right.
        exists input, (Producers r), h. split; [now left|]. split; [exact Hprods|].
        split; [|cbn zeta; auto].
        eapply (@firstn_In_incl nat); exact Hh.
    + destruct (IRB_producers (m_renderNodes g) (m_mapping g)
                  (is_ASYNC_COMPUTE (NodeType node)) (NodeBatchIdx node)
                  (firstn (Z.to_nat (CurrProdIdx r)) (Producers r)) largest)
        as [l1|] eqn:Eprod; [|discriminate].
      cbn [bind] in Hrun.
      destruct (IRB_producers_spec _ _ _ _ _ _ Eprod) as [Hl1 Hc1].
      apply (Hwiden _ _ l1 Hrun).
      * apply same_but_State_refl.
      * apply same_but_barriers_refl.
      * reflexivity.
      * exists []. rewrite app_nil_r. split; [reflexivity|]. split; [constructor|].
        simpl. now rewrite andb_false_r, orb_false_r.
      * exact Hl1.
      * destruct Hc1 as [->|(h & Hh & Hd & Ht & Hb)]; [now left|]. right.
        exists input, (Producers r), h. split; [now left|]. split; [exact Hprods|].
        split; [|cbn zeta; auto].
        eapply (@firstn_In_incl nat); exact Hh.
Qed.

(** What the loop over the outputs of a node leaves. *)
Lemma IRB_outputs_spec (g : Graph) (outputs : list Dependency) :
  forall i rs node rs' node',
    IRB_outputs g outputs i rs node = Ok (rs', node') ->
    same_but_State rs rs' /\
    same_but_barriers node node' /\
    GpuDepSourceIdx node' = GpuDepSourceIdx node /\
    (exists new,
        Barriers node' = Barriers node ++ new /\
        Forall (transition_for rs outputs) new /\
        HasUnsupportedBarrier node'
        = HasUnsupportedBarrier node
          || (is_ASYNC_COMPUTE (NodeType node) && existsb unsupported_on_compute new)).
Proof.
  induction outputs as [|output outputs IH];
    intros i rs node rs' node' Hrun; simpl in Hrun.
  - injection Hrun as <- <-.
    split; [apply same_but_State_refl|]. split; [apply same_but_barriers_refl|].
    split; [reflexivity|].
    exists []. rewrite app_nil_r. split; [reflexivity|]. split; [constructor|].
    simpl. now rewrite andb_false_r, orb_false_r.
  - assert (Hwiden : forall i1 rs1 node1 new1,
              IRB_outputs g outputs i1 rs1 node1 = Ok (rs', node') ->
              same_but_State rs rs1 -> same_but_barriers node node1 ->
              GpuDepSourceIdx node1 = GpuDepSourceIdx node ->
              Barriers node1 = Barriers node ++ new1 ->
              Forall (transition_for rs (output :: outputs)) new1 ->
              HasUnsupportedBarrier node1
              = HasUnsupportedBarrier node
                || (is_ASYNC_COMPUTE (NodeType node)
                    && existsb unsupported_on_compute new1) ->
              same_but_State rs rs' /\
              same_but_barriers node node' /\
              GpuDepSourceIdx node' = GpuDepSourceIdx node /\
              (exists new,
                  Barriers node' = Barriers node ++ new /\
                  Forall (transition_for rs (output :: outputs)) new /\
                  HasUnsupportedBarrier node'
                  = HasUnsupportedBarrier node
                    || (is_ASYNC_COMPUTE (NodeType node)
                        && existsb unsupported_on_compute new))).
    { intros i1 rs1 node1 new1 Hrest Hs1 Hn1 Hg1 Hb1 Ht1 Hf1.
      destruct (IH _ _ _ _ _ Hrest) as (Hs2 & Hn2 & Hg2 & (new2 & Hb2 & Ht2 & Hf2)).
      assert (Htype : NodeType node = NodeType node1) by apply Hn1.
      split; [eapply same_but_State_trans; eauto|].
      split; [eapply same_but_barriers_trans; eauto|].
      split; [congruence|].
      exists (new1 ++ new2). split; [rewrite Hb2, Hb1; now rewrite app_assoc|].
      split.
      - apply Forall_app. split; [exact Ht1|].
        eapply Forall_impl; [|exact Ht2]. intros b Hb.
        apply (@transition_for_incl rs rs1 outputs); auto.
        intros x Hx. now right.
      - rewrite Hf2, Hf1, existsb_app, <- Htype.
        destruct (HasUnsupportedBarrier node), (is_ASYNC_COMPUTE (NodeType node)),
          (existsb unsupported_on_compute new1); reflexivity. }
    destruct (ResID output <? DUMMY_RES_COUNT).
    { apply (Hwiden i rs node [] Hrun);
        [apply same_but_State_refl | apply same_but_barriers_refl | reflexivity
        | now rewrite app_nil_r | constructor |].
      simpl. now rewrite andb_false_r, orb_false_r. }
    set (idx := FindFrameResource_all (set_frameResources rs g) (ResID output)) in *.
    destruct (Z.eqb_spec idx (-1)) as [|Hfound]; [discriminate|].
    cbn [negb Assert bind] in Hrun.
    destruct (nth_error rs (Z.to_nat idx)) as [r|] eqn:Er; [|discriminate].
    assert (Hid : ID r = ResID output).
    { apply (@FindFrameResource_all_found (set_frameResources rs g) (ResID output) r);
        [exact Hfound | exact Er]. }
    assert (Hkey : In (ResID output, Res r) (map (fun r => (ID r, Res r)) rs)).
    { rewrite <- Hid. apply (in_map (fun r => (ID r, Res r))).
      eapply nth_error_In; eauto. }
    destruct (negb (intersects (Z.shiftl 1 i) (OutputMask node))
              && negb (intersects (State r) (ExpectedState output))) eqn:Ebar.
    + apply andb_true_iff in Ebar. destruct Ebar as [_ Ebar].
      eapply (Hwiden _ _ _ [_] Hrun).
      * now apply same_but_State_upd.
      * unfold same_but_barriers. simpl. tauto.
      * reflexivity.
      * reflexivity.
      * constructor; [|constructor]. split.
        -- simpl. now apply negb_true_iff in Ebar.
        -- exists output. split; [now left|]. split; [reflexivity | exact Hkey].
      * simpl. unfold unsupported_on_compute. simpl. now rewrite orb_false_r.
    + eapply (Hwiden _ _ _ [] Hrun).
      * now apply same_but_State_upd.
      * apply same_but_barriers_refl.
      * reflexivity.
      * now rewrite app_nil_r.
      * constructor.
      * simpl. now rewrite andb_false_r, orb_false_r.
Qed.

(** What the body of the loop over the nodes leaves: the barriers of the
    node, and either no fence and the cursors as they were, or a fence on
    a producer of the other queue whose index is above the cursor, which
    moves there. *)
Lemma IRB_node_spec (g : Graph) (node : RenderNode) (rs : list ResourceMetadata)
    (c : Cursors) (rs' : list ResourceMetadata) (node' : RenderNode) (c' : Cursors) :
  IRB_node g node rs c = Ok (rs', node', c') ->
  same_but_State rs rs' /\
  barrier_result rs node node' /\
  ((GpuDepSourceIdx node' = GpuDepSourceIdx node /\ c' = c) \/
   (fence_source g rs (Inputs node) node (GpuDepSourceIdx node') /\
    getLastSyncedIdx (NodeType node) c < GpuDepSourceIdx node' /\
    c' = setLastSyncedIdx (NodeType node) (GpuDepSourceIdx node') c)).
Proof.
  unfold IRB_node. intros Hrun.
  destruct (IRB_inputs g (Inputs node) rs node INVALID_NODE_HANDLE)
    as [[[rs1 node1] largest]|] eqn:Ein; [|discriminate].
  cbn [bind] in Hrun.
  destruct (IRB_inputs_spec _ _ _ _ _ Ein)
    as (Hs1 & Hn1 & Hg1 & (new1 & Hb1 & Ht1 & Hf1) & Hl1 & Hc1).
  destruct (IRB_case_b largest node1 c) as [node2 c1] eqn:Eb.
  destruct (IRB_outputs g (Outputs node) 0 rs1 node2) as [[rs2 node3]|] eqn:Eout;
    [|discriminate].
  cbn [bind] in Hrun. injection Hrun as <- <- <-.
  destruct (IRB_outputs_spec _ _ _ _ _ Eout)
    as (Hs2 & Hn2 & Hg2 & (new2 & Hb2 & Ht2 & Hf2)).
  assert (Htype : NodeType node = NodeType node1) by apply Hn1.
  assert (H12 : same_but_barriers node1 node2 /\ Barriers node2 = Barriers node1 /\
                HasUnsupportedBarrier node2 = HasUnsupportedBarrier node1).
  { unfold IRB_case_b in Eb.
    destruct (negb (largest =? -1)
              && (getLastSyncedIdx (NodeType node1) c <? largest));
      injection Eb as <- <-; simpl;
      (split; [unfold same_but_barriers; simpl; tauto | auto]). }
  destruct H12 as (Hn12 & Hb12 & Hf12).
  assert (Htype2 : NodeType node1 = NodeType node2) by apply Hn12.
  split; [eapply same_but_State_trans; eauto|]. split.
  - split.
    + eapply same_but_barriers_trans; [exact Hn1|].
      eapply same_but_barriers_trans; [exact Hn12 | exact Hn2].
    + exists (new1 ++ new2). split; [rewrite Hb2, Hb12, Hb1; now rewrite app_assoc|].
      split.
      * apply Forall_app. split.
        -- eapply Forall_impl; [|exact Ht1]. intros b Hb.
           apply (@transition_for_incl rs rs (Inputs node)); auto.
           ++ apply same_but_State_refl.
           ++ intros x Hx. apply in_or_app. now left.
        -- eapply Forall_impl; [|exact Ht2]. intros b Hb.
           apply (@transition_for_incl rs rs1 (Outputs node)); auto.
           intros x Hx. apply in_or_app. now right.
      * rewrite Hf2, Hf12, Hf1, existsb_app, <- Htype2, <- Htype.
        destruct (HasUnsupportedBarrier node), (is_ASYNC_COMPUTE (NodeType node)),
          (existsb unsupported_on_compute new1); reflexivity.
  - rewrite Hg2. unfold IRB_case_b in Eb. rewrite <- Htype in Eb.
    destruct (Z.eqb_spec largest (-1)) as [Hm|Hm]; cbn [negb andb] in Eb.
    + injection Eb as <- <-. left. split; [exact Hg1 | reflexivity].
    + destruct (Z.ltb_spec (getLastSyncedIdx (NodeType node) c) largest) as [Hlt|Hge];
        injection Eb as <- <-.
      * right. cbn [set_GpuDepSourceIdx GpuDepSourceIdx].
        split; [|split; [exact Hlt | reflexivity]].
        destruct Hc1 as [C|Hsrc]; [unfold INVALID_NODE_HANDLE in C; lia | exact Hsrc].
      * left. split; [exact Hg1 | reflexivity].
Qed.

(** The loop over the nodes, as far as barriers go. *)
Lemma IRB_nodes_barriers (g : Graph) (nodes : list RenderNode) :
  forall rs c rs' out c',
    IRB_nodes g nodes rs c = Ok (rs', out, c') ->
    same_but_State rs rs' /\ Forall2 (barrier_result rs) nodes out.
Proof.
  induction nodes as [|node nodes IH]; intros rs c rs' out c' Hrun; simpl in Hrun.
  - injection Hrun as <- <- <-. split; [apply same_but_State_refl | constructor].
  - destruct (IRB_node g node rs c) as [[[rs1 node1] c1]|] eqn:Enode; [|discriminate].
    cbn [bind] in Hrun.
    destruct (IRB_nodes g nodes rs1 c1) as [[[rs2 nodes1] c2]|] eqn:Erest;
      [|discriminate].
    cbn [bind] in Hrun. injection Hrun as <- <- <-.
    destruct (IRB_node_spec _ _ _ _ Enode) as (Hs1 & Hres & _).
    destruct (IH _ _ _ _ _ Erest) as (Hs2 & Hall).
    split; [eapply same_but_State_trans; eauto|].
    constructor; [exact Hres|].
    eapply Forall2_impl; [|exact Hall].
    intros n n' (Hsame & new & Hb & Ht & Hf). split; [exact Hsame|].
    exists new. split; [exact Hb|]. split; [|exact Hf].
    eapply Forall_impl; [|exact Ht]. intros b Hb'.
    apply (@transition_for_incl rs rs1 (Inputs n ++ Outputs n)); auto.
    intros x Hx. exact Hx.
Qed.

Lemma getLastSyncedIdx_set (t t' : RENDER_NODE_TYPE) (v : Z) (c : Cursors) :
  getLastSyncedIdx t' (setLastSyncedIdx t v c)
  = if Bool.eqb (is_ASYNC_COMPUTE t) (is_ASYNC_COMPUTE t') then v
    else getLastSyncedIdx t' c.
Proof. destruct t, t'; reflexivity. Qed.

Lemma Forall2_nth_error {A B} (R : A -> B -> Prop) (l : list A) (l' : list B) :
  Forall2 R l l' ->
  forall k y, nth_error l' k = Some y ->
              exists x, nth_error l k = Some x /\ R x y.
Proof.
  induction 1 as [|a b l l' Hab _ IH]; intros [|k] y Hk; simpl in *;
    try discriminate.
  - injection Hk as <-. eauto.
  - now apply IH.
Qed.

(** The loop over the nodes, as far as fences go: the cursors only grow,
    every fence is on a producer of the other queue at an index between
    the cursor before and the cursor after, and the fences of the nodes of
    one queue grow strictly. *)
Lemma IRB_nodes_fences (g : Graph) (nodes : list RenderNode) :
  forall rs c rs' out c',
    IRB_nodes g nodes rs c = Ok (rs', out, c') ->
    Forall without_barriers nodes ->
    (forall t, getLastSyncedIdx t c <= getLastSyncedIdx t c') /\
    Forall2
      (fun node node' =>
         NodeType node' = NodeType node /\
         (GpuDepSourceIdx node' = -1 \/
          (fence_source g rs (Inputs node) node (GpuDepSourceIdx node') /\
           getLastSyncedIdx (NodeType node) c < GpuDepSourceIdx node'
           <= getLastSyncedIdx (NodeType node) c')))
      nodes out /\
    (forall i j ni nj,
        (i < j)%nat ->
        nth_error out i = Some ni -> nth_error out j = Some nj ->
        NodeType ni = NodeType nj ->
        GpuDepSourceIdx ni <> -1 -> GpuDepSourceIdx nj <> -1 ->
        GpuDepSourceIdx ni < GpuDepSourceIdx nj).
Proof.
  induction nodes as [|node nodes IH]; intros rs c rs' out c' Hrun Hfresh;
    simpl in Hrun.
  - injection Hrun as <- <- <-. split; [intros; lia|]. split; [constructor|].
    intros [|i] j ni nj _ Hi; discriminate.
  - inversion Hfresh as [|? ? (_ & _ & Hgpu) Hfresh']; subst.
    destruct (IRB_node g node rs c) as [[[rs1 node1] c1]|] eqn:Enode; [|discriminate].
    cbn [bind] in Hrun.
    destruct (IRB_nodes g nodes rs1 c1) as [[[rs2 nodes1] c2]|] eqn:Erest;
      [|discriminate].
    cbn [bind] in Hrun. injection Hrun as <- <- <-.
    destruct (IRB_node_spec _ _ _ _ Enode) as (Hs1 & (Hsame & _) & Hfence).
    assert (Htype : NodeType node1 = NodeType node) by (symmetry; apply Hsame).
    destruct (IH _ _ _ _ _ Erest Hfresh') as (Hmono & Hall & Hinc).
    assert (Hstep : (forall t, getLastSyncedIdx t c <= getLastSyncedIdx t c1) /\
                    (GpuDepSourceIdx node1 = -1 \/
                     (fence_source g rs (Inputs node) node (GpuDepSourceIdx node1) /\
                      getLastSyncedIdx (NodeType node) c < GpuDepSourceIdx node1 /\
                      GpuDepSourceIdx node1 = getLastSyncedIdx (NodeType node) c1))).
    { destruct Hfence as [[Hg ->]|(Hsrc & Hlt & ->)].
      - split; [intros; lia|]. left. now rewrite Hg.
      - split.
        + intros t. rewrite getLastSyncedIdx_set.
          destruct (Bool.eqb (is_ASYNC_COMPUTE (NodeType node)) (is_ASYNC_COMPUTE t))
            eqn:E; [|lia].
          apply Bool.eqb_prop in E. unfold getLastSyncedIdx in *. rewrite <- E. lia.
        + right. split; [exact Hsrc|]. split; [exact Hlt|].
          rewrite getLastSyncedIdx_set. now rewrite Bool.eqb_reflx. }
    destruct Hstep as [Hmono1 Hhead].
    split; [intros t; specialize (Hmono t); specialize (Hmono1 t); lia|].
    split.
    + constructor.
      * split; [exact Htype|].
        destruct Hhead as [Hm|(Hsrc & Hlt & Heq)]; [now left|]. right.
        split; [exact Hsrc|]. specialize (Hmono (NodeType node)). lia.
      * eapply Forall2_impl; [|exact Hall].
        intros n n' (Ht & [Hm|(Hsrc & Hlt & Hle)]); (split; [exact Ht|]);
          [now left|]. right. split.
        -- apply (@fence_source_incl g rs rs1 (Inputs n) (Inputs n) n n); auto.
           intros x Hx. exact Hx.
        -- specialize (Hmono1 (NodeType n)). lia.
    + intros [|i] [|j] ni nj Hij Hi Hj Hty Hni Hnj; simpl in Hi, Hj; try lia.
      * injection Hi as <-.
        destruct (Forall2_nth_error Hall _ Hj) as (n & _ & Htn & [Hm|(_ & Hlt & _)]);
          [contradiction|].
        destruct Hhead as [Hm|(_ & _ & Heq)]; [contradiction|].
        rewrite Heq. rewrite <- Htn, <- Hty, Htype in Hlt. exact Hlt.
      * apply (Hinc i j ni nj); auto. lia.
Qed.

(** X11.  What [InsertResourceBarriers] writes.  Of the resource table it
    changes recorded states only; of a node, only the barriers, the flag of
    an unsupported barrier and the GPU dependency.  Every barrier of a
    node is a transition for one of its inputs or outputs: into the state
    that the dependency expects, from a state that shares no bit with it,
    on the native resource registered under the id of the dependency.  A
    node is flagged exactly when it runs on the compute queue and one of
    its barriers leaves a state that cannot be left there. *)
Theorem InsertResourceBarriers_barriers (backBufferID : Z) (g g' : Graph) :
  InsertResourceBarriers backBufferID g = Ok g' ->
  Forall without_barriers (m_renderNodes g) ->
  same_but_State (m_frameResources g) (m_frameResources g') /\
  m_mapping g' = m_mapping g /\
  m_aggregateNodes g' = m_aggregateNodes g /\
  Forall2
    (fun node node' =>
       same_but_barriers node node' /\
       Forall (transition_for (m_frameResources g) (Inputs node ++ Outputs node))
              (Barriers node') /\
       HasUnsupportedBarrier node'
       = is_ASYNC_COMPUTE (NodeType node)
         && existsb unsupported_on_compute (Barriers node'))
    (m_renderNodes g) (m_renderNodes g').
Proof.
  unfold InsertResourceBarriers. intros Hrun Hfresh.
  destruct (IRB_nodes g (m_renderNodes g) (m_frameResources g) initial_Cursors)
    as [[[rs nodes] c]|] eqn:Enodes; [|discriminate].
  cbn [bind] in Hrun.
  destruct (IRB_nodes_barriers _ _ _ _ Enodes) as (Hs & Hall).
  assert (Hnodes : m_renderNodes g' = nodes /\ m_mapping g' = m_mapping g /\
                   m_aggregateNodes g' = m_aggregateNodes g /\
                   same_but_State rs (m_frameResources g')).
  { destruct (negb (FindFrameResource_all
                      (set_renderNodes nodes (set_frameResources rs g)) backBufferID
                    =? -1)).
    - destruct (nth_error rs _) as [r|] eqn:Er; injection Hrun as <-; cbn.
      + repeat split; auto. now apply same_but_State_upd.
      + repeat split; auto.
    - injection Hrun as <-. cbn. repeat split; auto. }
  destruct Hnodes as (-> & Hmap & Hagg & Hs').
  split; [eapply same_but_State_trans; eauto|]. split; [exact Hmap|].
  split; [exact Hagg|].
  clear - Hall Hfresh.
  induction Hall as [|n n' l l' (Hsame & new & Hb & Ht & Hf) _ IH]; [constructor|].
  inversion Hfresh as [|? ? (Hnob & Hnof & _) Hfresh']; subst.
  constructor; [|now apply IH].
  rewrite Hnob in Hb. simpl in Hb. rewrite Hnof in Hf. simpl in Hf.
  rewrite Hb. auto.
Qed.

(** X12.  The fences of [InsertResourceBarriers] on a node table in the order
    of the batch indices, when [m_mapping] sends the recorded producers of
    the resources to positions of the node table (the other entries of
    [m_mapping], which may be left from earlier frames, are not read).  A
    node waits, if at all, for a producer of one of its inputs that runs on
    the other queue in an earlier batch; the index it waits for lies
    strictly between 0 and its own index, and the nodes of one queue wait
    for strictly growing indices, so that no fence repeats what an earlier
    fence of the queue has waited for. *)
Theorem InsertResourceBarriers_fences (backBufferID : Z) (g g' : Graph) :
  InsertResourceBarriers backBufferID g = Ok g' ->
  Forall without_barriers (m_renderNodes g) ->
  StronglySorted Z.le (map NodeBatchIdx (m_renderNodes g)) ->
  Forall (fun r =>
            Forall (fun h => (nth h (m_mapping g) 0 < length (m_renderNodes g))%nat)
                   (Producers r))
         (m_frameResources g) ->
  forall k node node',
    nth_error (m_renderNodes g) k = Some node ->
    nth_error (m_renderNodes g') k = Some node' ->
    GpuDepSourceIdx node' <> -1 ->
    0 < GpuDepSourceIdx node' < Z.of_nat k /\
    fence_source g (m_frameResources g) (Inputs node) node (GpuDepSourceIdx node') /\
    (forall j nj,
        (k < j)%nat ->
        nth_error (m_renderNodes g') j = Some nj ->
        NodeType nj = NodeType node' ->
        GpuDepSourceIdx nj <> -1 ->
        GpuDepSourceIdx node' < GpuDepSourceIdx nj).
Proof.
  unfold InsertResourceBarriers. intros Hrun Hfresh Hsorted Hmap k node node' Hk Hk' Hdep.
  destruct (IRB_nodes g (m_renderNodes g) (m_frameResources g) initial_Cursors)
    as [[[rs nodes] c]|] eqn:Enodes; [|discriminate].
  cbn [bind] in Hrun.
  assert (Hnodes : m_renderNodes g' = nodes).
  { destruct (negb (FindFrameResource_all
                      (set_renderNodes nodes (set_frameResources rs g)) backBufferID
                    =? -1)).
    - destruct (nth_error rs _) as [r|]; now injection Hrun as <-.
    - now injection Hrun as <-. }
  rewrite Hnodes in *.
  destruct (IRB_nodes_fences _ _ _ Enodes Hfresh) as (_ & Hall & Hinc).
  destruct (Forall2_nth_error Hall _ Hk') as (n & Hn & Htn & [Hm|(Hsrc & Hlt & _)]);
    [contradiction|].
  rewrite Hk in Hn. injection Hn as <-.
  split; [|split; [exact Hsrc|]].
  - split.
    + assert (H0 : getLastSyncedIdx (NodeType node) initial_Cursors = 0)
        by (destruct (NodeType node); reflexivity).
      lia.
    + destruct Hsrc as (input & prods & h & _ & Hprods & Hh & Hd & _ & Hbatch).
      cbn zeta in Hd, Hbatch.
      assert (Hs : (nth h (m_mapping g) 0 < length (m_renderNodes g))%nat).
      { apply in_map_iff in Hprods. destruct Hprods as (r & Hr & Hin).
        injection Hr as _ <-.
        rewrite Forall_forall in Hmap. specialize (Hmap r Hin).
        rewrite Forall_forall in Hmap. now apply Hmap. }
      set (s := nth h (m_mapping g) 0%nat) in *.
      assert (Hklen : (k < length (m_renderNodes g))%nat)
        by (apply nth_error_Some; congruence).
      destruct (nth_error (m_renderNodes g) s) as [ns|] eqn:Ens.
      2:{ apply nth_error_None in Ens. lia. }
      rewrite (nth_error_nth _ _ _ Ens) in Hbatch.
      assert (Hks : nth_error (map NodeBatchIdx (m_renderNodes g)) k
                    = Some (NodeBatchIdx node)) by now rewrite nth_error_map, Hk.
      assert (Hss : nth_error (map NodeBatchIdx (m_renderNodes g)) s
                    = Some (NodeBatchIdx ns)) by now rewrite nth_error_map, Ens.
      rewrite Hd.
      destruct (Nat.lt_trichotomy s k) as [Hlt'|[Heq|Hgt]]; [lia| |].
      * subst s. rewrite Heq, Hk in Ens. injection Ens as <-. lia.
      * pose proof (StronglySorted_nth Hsorted Hgt Hks Hss). lia.
  - intros j nj Hkj Hj Hty Hnj. apply (Hinc k j node' nj); auto.
Qed.

End BarrierProofs.

Lemma scenario_S2_barriers_run :
  ('(g1, adj) <- Build_edges scenario_S2 ;; Sort insertion_sort adj g1)%result
  = Ok scenario_S2_sorted /\
  InsertResourceBarriers 999 scenario_S2_sorted = Ok scenario_S2_barriers.
Proof. split; vm_compute; reflexivity. Qed.

Lemma scenario_S2_sorted_fresh :
  Forall without_barriers (m_renderNodes scenario_S2_sorted).
Proof. repeat constructor. Qed.

Lemma InsertResourceBarriers_barriers_witness :
  same_but_State (m_frameResources scenario_S2_sorted)
                 (m_frameResources scenario_S2_barriers) /\
  length (m_renderNodes scenario_S2_barriers) = 6%nat.
Proof.
  destruct (@InsertResourceBarriers_barriers example_Limits 999 scenario_S2_sorted
              scenario_S2_barriers (proj2 scenario_S2_barriers_run)
              scenario_S2_sorted_fresh) as (Hsame & _).
  split; [exact Hsame | reflexivity].
Defined.

Lemma InsertResourceBarriers_fences_witness :
  exists node',
    nth_error (m_renderNodes scenario_S2_barriers) 4 = Some node' /\
    0 < GpuDepSourceIdx node' < 4.
Proof.
  eexists. split; [reflexivity|].
  assert (Hsorted : StronglySorted Z.le
                      (map NodeBatchIdx (m_renderNodes scenario_S2_sorted)))
    by (repeat constructor; simpl; lia).
  assert (Hmap : Forall
                   (fun r =>
                      Forall (fun h => (nth h (m_mapping scenario_S2_sorted) 0
                                        < length (m_renderNodes scenario_S2_sorted))%nat)
                             (Producers r))
                   (m_frameResources scenario_S2_sorted))
    by (repeat constructor).
  exact (proj1 (@InsertResourceBarriers_fences example_Limits 999 scenario_S2_sorted
                  scenario_S2_barriers (proj2 scenario_S2_barriers_run)
                  scenario_S2_sorted_fresh Hsorted Hmap 4%nat _ _ eq_refl eq_refl
                  ltac:(discriminate))).
Defined.

(* ---------------------------------------------------------------------- *)
(** ** Lookups in a sorted table *)

Lemma StronglySorted_lt_nth (keys : list Z) :
  StronglySorted Z.lt keys ->
  forall i j, (i < j)%nat -> (j < length keys)%nat -> nth i keys 0 < nth j keys 0.
Proof.
  intros Hs i j Hij Hj.
  assert (Hi : nth_error keys i = Some (nth i keys 0))
    by (apply nth_error_nth'; lia).
  assert (Hj' : nth_error keys j = Some (nth j keys 0))
    by (apply nth_error_nth'; lia).
  exact (StronglySorted_nth Hs Hij Hi Hj').
Qed.

(** The loop of the search is a lower bound: it stops at the first position
    of the range whose key is not below [key]. *)
Lemma BinarySearch_loop_lower_bound (keys : list Z) (key : Z) :
  (forall i j, (i < j)%nat -> (j < length keys)%nat -> nth i keys 0 < nth j keys 0) ->
  forall fuel beg end_,
    0 <= beg -> end_ < Z.of_nat (length keys) ->
    (Z.to_nat (end_ - beg + 1) < fuel)%nat ->
    let pos := BinarySearch_loop fuel keys key beg end_ in
    beg <= pos /\ (beg <= end_ + 1 -> pos <= end_ + 1) /\
    (forall i, beg <= i < pos -> nth (Z.to_nat i) keys 0 < key) /\
    (forall i, pos <= i <= end_ -> key <= nth (Z.to_nat i) keys 0).
Proof.
  intros Hsorted.
  induction fuel as [|fuel IH]; intros beg end_ Hbeg Hend Hfuel; [lia|].
  cbn [BinarySearch_loop]. cbn zeta.
  destruct (Z.ltb_spec end_ beg) as [Hempty|Hrange].
  - split; [lia|]. split; [lia|]. split; intros i Hi; lia.
  - rewrite Z.shiftr_div_pow2 by lia. change (2 ^ 1) with 2.
    set (mid := beg + (end_ - beg) / 2).
    assert (Hmid : beg <= mid <= end_).
    { subst mid. pose proof (Z.div_pos (end_ - beg) 2 ltac:(lia) ltac:(lia)).
      pose proof (Z.div_le_upper_bound (end_ - beg) 2 (end_ - beg) ltac:(lia) ltac:(lia)).
      lia. }
    assert (Hle : forall i j, 0 <= i -> i <= j -> j < Z.of_nat (length keys) ->
                    nth (Z.to_nat i) keys 0 <= nth (Z.to_nat j) keys 0).
    { intros i j Hi Hij Hj. destruct (Z.eq_dec i j) as [->|Hne]; [lia|].
      apply Z.lt_le_incl. apply Hsorted; lia. }
    destruct (Z.ltb_spec (nth (Z.to_nat mid) keys 0) key) as [Hlt|Hge].
    + destruct (IH (mid + 1) end_) as (H1 & H2 & H3 & H4); try lia.
      split; [lia|]. split; [lia|]. split; [|exact H4].
      intros i Hi. destruct (Z.le_gt_cases i mid) as [Hi'|Hi'].
      * specialize (Hle i mid ltac:(lia) Hi' ltac:(lia)). lia.
      * apply H3. lia.
    + destruct (IH beg (mid - 1)) as (H1 & H2 & H3 & H4); try lia.
      split; [lia|]. split; [lia|]. split; [exact H3|].
      intros i Hi. destruct (Z.le_gt_cases mid i) as [Hi'|Hi'].
      * specialize (Hle mid i ltac:(lia) Hi' ltac:(lia)). lia.
      * apply H4. lia.
Qed.

(** On keys that grow strictly the search finds the position of a key of
    its range. *)
Lemma BinarySearch_complete (keys : list Z) (key beg end_ : Z) (p : nat) :
  StronglySorted Z.lt keys ->
  0 <= beg <= Z.of_nat p -> Z.of_nat p <= end_ < Z.of_nat (length keys) ->
  nth_error keys p = Some key ->
  BinarySearch keys key beg end_ = Z.of_nat p.
Proof.
  intros Hsorted Hbeg Hend Hp.
  pose proof (StronglySorted_lt_nth Hsorted) as Hnth.
  unfold BinarySearch.
  destruct (Z.ltb_spec end_ beg); [lia|]. destruct (Z.ltb_spec beg 0); [lia|].
  cbn [orb].
  destruct (@BinarySearch_loop_lower_bound keys key Hnth
              (S (Z.to_nat (end_ - beg + 1))) beg end_) as (H1 & H2 & H3 & H4);
    try lia.
  set (pos := BinarySearch_loop _ keys key beg end_) in *.
  assert (Hkey : nth p keys 0 = key) by now apply nth_error_nth.
  assert (Hpos : pos = Z.of_nat p).
  { destruct (Z.lt_trichotomy pos (Z.of_nat p)) as [Hlt|[Heq|Hgt]]; [|exact Heq|].
    - specialize (H4 pos ltac:(lia)).
      pose proof (Hnth (Z.to_nat pos) p ltac:(lia)
                    ltac:(apply nth_error_Some; congruence)). lia.
    - specialize (H3 (Z.of_nat p) ltac:(lia)). rewrite Nat2Z.id in H3. lia. }
  rewrite Hpos, Nat2Z.id, Hp, Z.eqb_refl.
  destruct (Z.leb_spec beg (Z.of_nat p)); [|lia].
  destruct (Z.leb_spec (Z.of_nat p) end_); [|lia]. reflexivity.
Qed.

Lemma sorted_by_ID_nth (n : nat) (rs : list ResourceMetadata) (i : nat)
    (r : ResourceMetadata) :
  (i < n)%nat -> nth_error rs i = Some r ->
  nth_error (map ID (firstn n rs)) i = Some (ID r).
Proof.
  intros Hi Hr. rewrite nth_error_map, nth_error_firstn.
  destruct (Nat.ltb_spec i n); [|lia]. now rewrite Hr.
Qed.

(** The search over the range reads the keys of the range only. *)
Lemma BinarySearch_loop_firstn (keys : list Z) (key : Z) (n : nat) :
  forall fuel beg end_,
    0 <= beg -> end_ < Z.of_nat n ->
    BinarySearch_loop fuel (firstn n keys) key beg end_
    = BinarySearch_loop fuel keys key beg end_.
Proof.
  induction fuel as [|fuel IH]; intros beg end_ Hbeg Hend; [reflexivity|].
  cbn [BinarySearch_loop]. cbn zeta.
  destruct (Z.ltb_spec end_ beg) as [Hempty|Hrange]; [reflexivity|].
  rewrite Z.shiftr_div_pow2 by lia. change (2 ^ 1) with 2.
  set (mid := beg + (end_ - beg) / 2).
  assert (Hmid : beg <= mid <= end_).
  { subst mid. pose proof (Z.div_pos (end_ - beg) 2 ltac:(lia) ltac:(lia)).
    pose proof (Z.div_le_upper_bound (end_ - beg) 2 (end_ - beg) ltac:(lia) ltac:(lia)).
    lia. }
  assert (Hnth : nth (Z.to_nat mid) (firstn n keys) 0 = nth (Z.to_nat mid) keys 0).
  { rewrite <- (firstn_skipn n keys) at 2.
    destruct (Nat.lt_ge_cases (Z.to_nat mid) (length (firstn n keys))) as [Hl|Hl].
    - now rewrite app_nth1.
    - rewrite length_firstn in Hl.
      assert (Hk : (length keys <= Z.to_nat mid)%nat) by lia.
      rewrite firstn_skipn. rewrite !nth_overflow; auto.
      rewrite length_firstn. lia. }
  rewrite Hnth.
  destruct (nth (Z.to_nat mid) keys 0 <? key); apply IH; lia.
Qed.

(** The lookup of an id over the first [n] entries, which are sorted. *)
Lemma FindFrameResource_sorted (g : Graph) (n i : nat) (r : ResourceMetadata) :
  sorted_by_ID n (m_frameResources g) ->
  (2 <= n <= length (m_frameResources g))%nat ->
  (i < n)%nat ->
  nth_error (m_frameResources g) i = Some r ->
  FindFrameResource g (ID r) 0 (Z.of_nat n - 1) = Z.of_nat i.
Proof.
  intros Hsorted Hn Hi Hr. unfold FindFrameResource.
  destruct (Z.eqb_spec (Z.of_nat n - 1 - 0) 0); [lia|].
  destruct (Z.eqb_spec (Z.of_nat n - 1) (-1)); [lia|].
  assert (Hlen : length (firstn n (map ID (m_frameResources g))) = n)
    by (rewrite length_firstn, length_map; lia).
  unfold sorted_by_ID in Hsorted. rewrite <- firstn_map in Hsorted.
  assert (Hnth : nth_error (firstn n (map ID (m_frameResources g))) i = Some (ID r))
    by (rewrite firstn_map; now apply sorted_by_ID_nth).
  pose proof (@BinarySearch_complete (firstn n (map ID (m_frameResources g)))
                (ID r) 0 (Z.of_nat n - 1) i Hsorted ltac:(lia)
                ltac:(rewrite Hlen; lia) Hnth) as Hc.
  unfold BinarySearch in *.
  destruct (Z.ltb_spec (Z.of_nat n - 1) 0); [lia|]. cbn [orb] in *.
  rewrite BinarySearch_loop_firstn in Hc by lia.
  set (pos := BinarySearch_loop _ (map ID (m_frameResources g)) (ID r) 0 _) in *.
  change (0 <? 0) with false in Hc |- *. cbv iota in Hc |- *.
  destruct (nth_error (firstn n (map ID (m_frameResources g))) (Z.to_nat pos))
    as [k|] eqn:Ek; [|lia].
  destruct ((k =? ID r) && (0 <=? pos) && (pos <=? Z.of_nat n - 1)) eqn:Etest;
    [|lia].
  assert (Hposn : (Z.to_nat pos < n)%nat).
  { rewrite <- Hlen. apply nth_error_Some. congruence. }
  rewrite nth_error_firstn in Ek.
  destruct (Nat.ltb_spec (Z.to_nat pos) n); [|lia].
  rewrite Ek, Etest. exact Hc.
Qed.

Lemma FindFrameResource_all_sorted (g : Graph) (i : nat) (r : ResourceMetadata) :
  sorted_by_ID (length (m_frameResources g)) (m_frameResources g) ->
  nth_error (m_frameResources g) i = Some r ->
  FindFrameResource_all g (ID r) = Z.of_nat i.
Proof.
  intros Hsorted Hr. unfold sorted_by_ID in Hsorted. rewrite firstn_all in Hsorted.
  assert (Hi : (i < length (m_frameResources g))%nat)
    by (apply nth_error_Some; congruence).
  unfold FindFrameResource_all, FindFrameResource, m_lastResIdx. cbn.
  apply BinarySearch_complete; try assumption.
  - lia.
  - rewrite length_map. lia.
  - now rewrite nth_error_map, Hr.
Qed.

(** X13.  In a table whose ids grow strictly, the lookup of an id returns the
    position of the entry with that id, and [-1] exactly when no entry has
    it. *)
Theorem FindFrameResource_lookup (g : Graph) (key : Z) :
  sorted_by_ID (length (m_frameResources g)) (m_frameResources g) ->
  (FindFrameResource_all g key = -1 <-> ~ In key (map ID (m_frameResources g))) /\
  (forall i r,
      nth_error (m_frameResources g) i = Some r -> ID r = key ->
      FindFrameResource_all g key = Z.of_nat i).
Proof.
  intros Hsorted.
  assert (Hfound : forall i r,
             nth_error (m_frameResources g) i = Some r -> ID r = key ->
             FindFrameResource_all g key = Z.of_nat i).
  { intros i r Hr <-. now apply FindFrameResource_all_sorted. }
  split; [|exact Hfound]. split.
  - intros Hnone Hin. apply in_map_iff in Hin. destruct Hin as (r & Hid & Hr).
    apply In_nth_error in Hr. destruct Hr as (i & Hi).
    rewrite (Hfound i r Hi Hid) in Hnone. lia.
  - intros Hnotin. now apply FindFrameResource_absent.
Qed.

Section TableProofs.
Context {L : Limits}.

(** A resource among at least two kept from the previous frames is found
    again: it is overwritten when its native handle has changed and left
    as it is otherwise. *)
Lemma RegisterResource_kept (res path initState : Z) (isWindowSizeDependent : bool)
    (g : Graph) (n i : nat) (old : ResourceMetadata) :
  m_inBeginEndBlock g = true ->
  m_inPreRegister g = true ->
  res = nullptr \/ DUMMY_RES_COUNT < path ->
  m_prevFramesNumResources g = Z.of_nat n ->
  sorted_by_ID n (m_frameResources g) ->
  (2 <= n <= length (m_frameResources g))%nat ->
  (i < n)%nat ->
  nth_error (m_frameResources g) i = Some old ->
  ID old = path ->
  RegisterResource res path initState isWindowSizeDependent g
  = if Res old =? res then (g, Returned)
    else (set_frameResources
            (upd (m_frameResources g) i
                 (ResourceMetadata_Reset path res initState isWindowSizeDependent
                    (Producers old))) g,
          Returned).
Proof.
  intros Hblock Hpre Hid Hprev Hsorted Hn Hi Hold Hpath. unfold RegisterResource.
  rewrite Hblock, Hpre. cbn [andb negb].
  assert (Hassert : (res =? nullptr) || (DUMMY_RES_COUNT <? path) = true).
  { destruct Hid as [->|Hlt].
    - now rewrite Z.eqb_refl.
    - apply orb_true_iff. right. now apply Z.ltb_lt. }
  rewrite Hassert. cbn [negb]. rewrite Hprev, <- Hpath.
  rewrite (FindFrameResource_sorted g Hsorted Hn Hi Hold).
  destruct (Z.eqb_spec (Z.of_nat i) (-1)); [lia|]. cbn [negb].
  rewrite Nat2Z.id, Hold. now destruct (Res old =? res).
Qed.

(** X14.  The resource table across a frame boundary.  [BeginFrame], when
    it returns, keeps the id, the native handle, the recorded state and the
    window flag of every resource, empties the producer lists, the node
    table and the aggregates, takes the size of the table for the number
    of resources of the previous frames and opens the pre-register phase,
    whatever the size and the order of the table.  When the table holds at
    least two resources, sorted by id, any of them that is registered again
    in the new frame is found: with the same native handle the table stays
    as it is, so that the recorded state carries over, and with another
    handle the entry is overwritten in place.  When the table holds one
    resource, registering it again does not find it and appends a second
    entry with its id. *)
Theorem BeginFrame_keeps_resources (g0 g : Graph) :
  BeginFrame g0 = (g, Returned) ->
  (map (fun r => (ID r, Res r, State r, IsWindowSizeDependent r)) (m_frameResources g)
   = map (fun r => (ID r, Res r, State r, IsWindowSizeDependent r))
         (m_frameResources g0) /\
   Forall (fun r => Producers r = []) (m_frameResources g) /\
   m_renderNodes g = [] /\ m_aggregateNodes g = [] /\
   m_prevFramesNumResources g = m_lastResIdx g /\
   m_inBeginEndBlock g = true /\ m_inPreRegister g = true) /\
  (sorted_by_ID (length (m_frameResources g0)) (m_frameResources g0) ->
   (2 <= length (m_frameResources g0))%nat ->
   forall i old res initState isWindowSizeDependent,
     nth_error (m_frameResources g) i = Some old ->
     res = nullptr \/ DUMMY_RES_COUNT < ID old ->
     RegisterResource res (ID old) initState isWindowSizeDependent g
     = if Res old =? res then (g, Returned)
       else (set_frameResources
               (upd (m_frameResources g) i
                    (ResourceMetadata_Reset (ID old) res initState
                       isWindowSizeDependent [])) g,
             Returned)) /\
  (1 < MAX_NUM_RESOURCES ->
   forall old res initState isWindowSizeDependent,
     m_frameResources g = [old] ->
     res = nullptr \/ DUMMY_RES_COUNT < ID old ->
     RegisterResource res (ID old) initState isWindowSizeDependent g
     = (set_frameResources
          [old; ResourceMetadata_Reset (ID old) res initState
                  isWindowSizeDependent []] g,
        Returned)).
Proof.
  unfold BeginFrame.
  destruct (m_inBeginEndBlock g0) eqn:Eblock; [intros; discriminate|].
  destruct (m_inPreRegister g0) eqn:Epre; [intros; discriminate|].
  cbn [negb andb]. intros Hrun. injection Hrun as <-.
  cbn [m_frameResources m_renderNodes m_aggregateNodes m_prevFramesNumResources
       m_inBeginEndBlock m_inPreRegister].
  set (rs := map _ (m_frameResources g0)).
  set (g := mkGraph rs (m_lastResIdx g0) [] (m_mapping g0) [] true true).
  assert (Hids : map ID rs = map ID (m_frameResources g0))
    by (unfold rs; now rewrite map_map).
  assert (Hlen' : length rs = length (m_frameResources g0))
    by (unfold rs; now rewrite length_map).
  assert (Hprods : Forall (fun r => Producers r = []) rs).
  { unfold rs. apply Forall_forall. intros r Hr. apply in_map_iff in Hr.
    destruct Hr as (r0 & <- & _). reflexivity. }
  split; [|split].
  - split; [unfold rs; now rewrite map_map|].
    split; [exact Hprods|]. split; [reflexivity|]. split; [reflexivity|].
    split; [unfold m_lastResIdx; cbn; now rewrite Hlen'|].
    split; reflexivity.
  - intros Hsorted Hlen i old res initState isWindowSizeDependent Hold Hid.
    assert (Hp : Producers old = []).
    { rewrite Forall_forall in Hprods. apply Hprods. eapply nth_error_In; eauto. }
    rewrite <- Hp.
    apply (@RegisterResource_kept res (ID old) initState isWindowSizeDependent g
             (length rs) i old); auto.
    + unfold m_lastResIdx. cbn. now rewrite Hlen'.
    + unfold sorted_by_ID in *. cbn [m_frameResources g].
      rewrite firstn_all in *. now rewrite Hids.
    + cbn [m_frameResources g]. lia.
    + apply nth_error_Some. cbn [m_frameResources g] in Hold. congruence.
  - intros Hmax old res initState isWindowSizeDependent Hone Hid.
    assert (Hlen0 : length (m_frameResources g0) = 1%nat)
      by (rewrite <- Hlen', Hone; reflexivity).
    unfold RegisterResource.
    cbn [m_inBeginEndBlock m_inPreRegister g andb negb].
    assert (Hok : (res =? nullptr) || (DUMMY_RES_COUNT <? ID old) = true).
    { apply orb_true_iff. destruct Hid as [->|Hid].
      - left. apply Z.eqb_refl.
      - right. now apply Z.ltb_lt. }
    rewrite Hok. cbn [negb].
    unfold FindFrameResource, m_lastResIdx.
    cbn [m_prevFramesNumResources m_frameResources g].
    unfold m_lastResIdx. rewrite Hlen0, Hone. cbn [length Z.of_nat].
    change (Z.pos (Pos.of_succ_nat 0) - 1 - 0 =? 0) with true. cbv iota.
    change (negb (-1 =? -1)) with false. cbv iota.
    destruct (Z.ltb_spec (Z.pos (Pos.of_succ_nat 0)) MAX_NUM_RESOURCES) as [_|C];
      [reflexivity | lia].
Qed.

(** X15.  [AddOutput] on a resource of the sorted table, from a pass that may
    write the state: the output is appended to the pass, and the pass is
    appended to the producers of the resource, unless the resource has
    [MAX_NUM_PRODUCERS] producers already, in which case the output has
    been recorded when the assert stops the call. *)
Theorem AddOutput_records_producer (g : Graph) (h pathID expectedState : Z)
    (i : nat) (r : ResourceMetadata) (node : RenderNode) :
  m_inBeginEndBlock g = true ->
  m_inPreRegister g = false ->
  0 <= h ->
  nth_error (m_renderNodes g) (Z.to_nat h) = Some node ->
  intersects expectedState WRITE_STATES = true ->
  (is_ASYNC_COMPUTE (NodeType node) = true ->
   intersects expectedState INVALID_COMPUTE_STATES = false) ->
  sorted_by_ID (length (m_frameResources g)) (m_frameResources g) ->
  nth_error (m_frameResources g) i = Some r ->
  ID r = pathID ->
  let g1 := set_renderNodes
              (upd (m_renderNodes g) (Z.to_nat h)
                   (push_Output (mkDependency pathID expectedState) node)) g in
  AddOutput h pathID expectedState g
  = if CurrProdIdx r <? MAX_NUM_PRODUCERS
    then (set_frameResources
            (upd (m_frameResources g) i (push_Producer (Z.to_nat h) r)) g1,
          Returned)
    else (g1, Asserted "Number of producers for each resource can't exceed MAX_NUM_PRODUCERS").
Proof.
  intros Hblock Hpre Hh Hnode Hstate Hcompute Hsorted Hr Hid g1.
  assert (Hlt : h < m_currRenderPassIdx g).
  { unfold m_currRenderPassIdx.
    assert (Z.to_nat h < length (m_renderNodes g))%nat
      by (apply nth_error_Some; congruence).
    lia. }
  unfold AddOutput, declaration_asserts, IsValid, INVALID_NODE_HANDLE.
  rewrite Hblock, Hpre, Hstate. cbn [negb andb].
  destruct (Z.eqb_spec h (-1)); [lia|]. cbn [negb].
  destruct (Z.ltb_spec h (m_currRenderPassIdx g)); [|lia]. cbn [negb].
  rewrite Hnode.
  assert (Hc : negb (negb (is_ASYNC_COMPUTE (NodeType node))
                     || negb (intersects expectedState INVALID_COMPUTE_STATES))
               = false).
  { destruct (is_ASYNC_COMPUTE (NodeType node)); [|reflexivity].
    now rewrite Hcompute. }
  rewrite Hc.
  assert (Hg1 : map_node h (push_Output (mkDependency pathID expectedState)) g = g1)
    by (unfold map_node; now rewrite Hnode).
  rewrite Hg1.
  assert (Hfind : FindFrameResource_all g1 pathID = Z.of_nat i).
  { rewrite <- Hid. now apply FindFrameResource_all_sorted. }
  rewrite Hfind. destruct (Z.eqb_spec (Z.of_nat i) (-1)); [lia|].
  rewrite Nat2Z.id. cbn [g1 m_frameResources set_renderNodes]. rewrite Hr.
  now destruct (CurrProdIdx r <? MAX_NUM_PRODUCERS).
Qed.

End TableProofs.

Lemma sorted_strictly (l : list ResourceMetadata) :
  StronglySorted (fun lhs rhs => ID lhs <= ID rhs) l ->
  has_duplicate l = false ->
  StronglySorted Z.lt (map ID l).
Proof.
  induction 1 as [|a l Hs IH Hall]; intros Hdup; [constructor|].
  destruct l as [|b l'].
  - simpl. constructor; constructor.
  - cbn [has_duplicate] in Hdup. apply orb_false_iff in Hdup.
    destruct Hdup as [Hab Hdup]. apply Z.eqb_neq in Hab.
    specialize (IH Hdup). cbn [map] in *.
    constructor; [exact IH|].
    inversion Hall as [|? ? Hle _]; subst.
    inversion IH as [|? ? _ Hlt]; subst.
    constructor; [lia|].
    eapply Forall_impl; [|exact Hlt]. intros x Hx. lia.
Qed.

Lemma StronglySorted_lt_NoDup (keys : list Z) :
  StronglySorted Z.lt keys -> NoDup keys.
Proof.
  induction 1 as [|a l Hs IH Hall]; constructor; [|exact IH].
  intros Hin. rewrite Forall_forall in Hall. specialize (Hall a Hin). lia.
Qed.

Lemma first_duplicate_spec (l : list ResourceMetadata) :
  match first_duplicate l with
  | None => has_duplicate l = false
  | Some lhs =>
      exists pre rhs post, l = pre ++ lhs :: rhs :: post /\ ID lhs = ID rhs
  end.
Proof.
  induction l as [|a l IH]; [reflexivity|].
  destruct l as [|b l']; [reflexivity|].
  change (first_duplicate (a :: b :: l'))
    with (if ID a =? ID b then Some a else first_duplicate (b :: l')).
  change (has_duplicate (a :: b :: l'))
    with ((ID a =? ID b) || has_duplicate (b :: l')).
  destruct (Z.eqb_spec (ID a) (ID b)) as [E|E]; cbn [orb].
  - now exists [], b, l'.
  - destruct (first_duplicate (b :: l')) as [lhs|].
    + destruct IH as (pre & rhs & post & Hl & Hid).
      exists (a :: pre), rhs, post.
      split; [simpl; now rewrite Hl | exact Hid].
    + exact IH.
Qed.

(** X16.  [MoveToPostRegister], in a debug build, sorts the table by id and
    ends the pre-register phase exactly when no two resources were
    registered with the same id; every registered resource is then found
    by the lookup of its id, at the position that holds it.  With two
    resources of the same id the call does not return and the pre-register
    phase is not ended: at the first two neighbours of the sorted table
    with one id it reads the debug name through the [Res] pointer of the
    first of them, which is the dereference of a null pointer when that
    entry was registered without a resource, and otherwise it stops in the
    assert on duplicate entries. *)
Theorem MoveToPostRegister_sorts
    (std_sort : list ResourceMetadata -> list ResourceMetadata) (g : Graph) :
  std_sort_by_ID_contract std_sort ->
  m_inBeginEndBlock g = true ->
  m_inPreRegister g = true ->
  (NoDup (map ID (m_frameResources g)) ->
   exists g',
     MoveToPostRegister_debug std_sort g = (g', Exits Returned) /\
     Permutation (m_frameResources g) (m_frameResources g') /\
     sorted_by_ID (length (m_frameResources g')) (m_frameResources g') /\
     m_inBeginEndBlock g' = true /\ m_inPreRegister g' = false /\
     m_renderNodes g' = m_renderNodes g /\
     forall r, In r (m_frameResources g) ->
               exists i, FindFrameResource_all g' (ID r) = Z.of_nat i /\
                         nth_error (m_frameResources g') i = Some r) /\
  (~ NoDup (map ID (m_frameResources g)) ->
   exists lhs rhs g',
     first_duplicate (std_sort (m_frameResources g)) = Some lhs /\
     In lhs (m_frameResources g) /\ In rhs (m_frameResources g) /\
     ID lhs = ID rhs /\
     MoveToPostRegister_debug std_sort g
     = (g', if Res lhs =? nullptr then NullDereference
            else Exits (Asserted "Duplicate entries for resource.")) /\
     m_inPreRegister g' = true).
Proof.
  intros Hsort Hblock Hpre.
  destruct (Hsort (m_frameResources g)) as [Hperm Hsorted].
  unfold MoveToPostRegister_debug, MoveToPostRegister.
  rewrite Hblock, Hpre. cbn [andb negb].
  set (sorted := std_sort (m_frameResources g)) in *.
  pose proof (first_duplicate_spec sorted) as Hfirst.
  destruct (first_duplicate sorted) as [lhs|] eqn:Efirst.
  - destruct Hfirst as (pre & rhs & post & Hl & Hid).
    split.
    + intros Hnd. exfalso.
      assert (Hnd' : NoDup (map ID sorted)).
      { eapply Permutation_NoDup; [apply Permutation_map; exact Hperm | exact Hnd]. }
      rewrite Hl, map_app in Hnd'. apply NoDup_app_remove_l in Hnd'.
      cbn [map] in Hnd'. inversion Hnd' as [|? ? Ha _]; subst.
      apply Ha. rewrite Hid. now left.
    + intros _. exists lhs, rhs.
      assert (Hin : forall r, In r sorted -> In r (m_frameResources g)).
      { intros r Hr. exact (Permutation_in _ (Permutation_sym Hperm) Hr). }
      exists (set_frameResources sorted g). split; [reflexivity|].
      split; [apply Hin; rewrite Hl; apply in_or_app; right; now left|].
      split; [apply Hin; rewrite Hl; apply in_or_app; right; right; now left|].
      split; [exact Hid|].
      split; [|exact Hpre].
      destruct (Z.eqb (Res lhs) nullptr); reflexivity.
  - pose proof (sorted_strictly Hsorted Hfirst) as Hstrict.
    split.
    + intros _. eexists. split; [reflexivity|].
      cbn [m_frameResources m_inBeginEndBlock m_inPreRegister m_renderNodes].
      split; [exact Hperm|]. split.
      { unfold sorted_by_ID. now rewrite firstn_all. }
      split; [reflexivity|]. split; [reflexivity|]. split; [reflexivity|].
      intros r Hr. apply (Permutation_in _ Hperm) in Hr.
      apply In_nth_error in Hr. destruct Hr as (i & Hi).
      exists i. split; [|exact Hi].
      apply FindFrameResource_all_sorted; [|exact Hi].
      unfold sorted_by_ID. cbn [m_frameResources]. now rewrite firstn_all.
    + intros Hdup. exfalso. apply Hdup.
      eapply Permutation_NoDup;
        [apply Permutation_sym; apply Permutation_map; exact Hperm|].
      now apply StronglySorted_lt_NoDup.
Qed.

Lemma insert_by_ID_perm (x : ResourceMetadata) (l : list ResourceMetadata) :
  Permutation (x :: l) (insert_by_ID x l).
Proof.
  induction l as [|y l IH]; simpl; [apply Permutation_refl|].
  destruct (ID x <? ID y); [apply Permutation_refl|].
  eapply Permutation_trans; [apply perm_swap | now apply perm_skip].
Qed.

Lemma insert_by_ID_sorted (x : ResourceMetadata) (l : list ResourceMetadata) :
  StronglySorted (fun lhs rhs => ID lhs <= ID rhs) l ->
  StronglySorted (fun lhs rhs => ID lhs <= ID rhs) (insert_by_ID x l).
Proof.
  induction 1 as [|y l Hs IH Hall]; simpl; [repeat constructor|].
  destruct (Z.ltb_spec (ID x) (ID y)) as [Hlt|Hge].
  - constructor; [now constructor|].
    constructor; [lia|]. eapply Forall_impl; [|exact Hall]. intros z Hz. simpl in Hz. lia.
  - constructor; [exact IH|].
    apply (Permutation_Forall (insert_by_ID_perm x l)).
    constructor; [lia | exact Hall].
Qed.

Lemma insertion_sort_by_ID_contract : std_sort_by_ID_contract insertion_sort_by_ID.
Proof.
  intros l. unfold insertion_sort_by_ID. induction l as [|x l [IHp IHs]]; simpl.
  - split; constructor.
  - split.
    + eapply Permutation_trans; [apply perm_skip; exact IHp | apply insert_by_ID_perm].
    + now apply insert_by_ID_sorted.
Qed.

Lemma table_scenarios_run :
  snd unsorted_frame_declared = Returned /\
  BeginFrame (fst edge_example_built) = (second_frame, Returned).
Proof. split; reflexivity. Qed.

Lemma edge_example_sorted_by_ID :
  sorted_by_ID (length (m_frameResources edge_example)) (m_frameResources edge_example).
Proof. unfold sorted_by_ID. simpl. repeat constructor. Qed.

Lemma FindFrameResource_lookup_witness :
  FindFrameResource_all edge_example 102 = 1 /\
  FindFrameResource_all edge_example 55 = -1.
Proof.
  split.
  - destruct (@FindFrameResource_lookup edge_example 102 edge_example_sorted_by_ID)
      as [_ Hfound].
    exact (Hfound 1%nat _ eq_refl eq_refl).
  - destruct (@FindFrameResource_lookup edge_example 55 edge_example_sorted_by_ID)
      as [[_ Habsent] _].
    apply Habsent. simpl. intros [C|[C|[C|[]]]]; discriminate.
Defined.

Lemma BeginFrame_keeps_resources_witness :
  RegisterResource 12 102 UAV false second_frame = (second_frame, Returned) /\
  map State (m_frameResources second_frame)
  = map State (m_frameResources (fst edge_example_built)).
Proof.
  destruct (@BeginFrame_keeps_resources example_Limits (fst edge_example_built)
              second_frame (proj2 table_scenarios_run))
    as ((Hkept & _) & Hreg & _).
  split.
  - apply (Hreg ltac:(unfold sorted_by_ID; simpl; repeat constructor)
                ltac:(simpl; lia) 1%nat _ 12 UAV false eq_refl).
    right. reflexivity.
  - apply (f_equal (map (fun x => snd (fst x)))) in Hkept.
    rewrite !map_map in Hkept. exact Hkept.
Defined.

Lemma AddOutput_records_producer_witness :
  exists g', AddOutput 0 101 UAV edge_example = (g', Returned) /\
             map Producers (m_frameResources g') = [[0%nat]; [0; 1]%nat; [2%nat]].
Proof.
  eexists. split.
  - apply (@AddOutput_records_producer example_Limits edge_example 0 101 UAV 0%nat
             (mkResourceMetadata 101 11 SR_NP false [])
             (mkRenderNode RENDER false 0 [] [mkDependency 102 UAV] [] 0 (-1) false
                (-1) 0 (-1))).
    + reflexivity.
    + reflexivity.
    + lia.
    + reflexivity.
    + reflexivity.
    + discriminate.
    + exact edge_example_sorted_by_ID.
    + reflexivity.
    + reflexivity.
  - reflexivity.
Defined.

Lemma MoveToPostRegister_sorts_witness :
  (exists g',
     MoveToPostRegister_debug insertion_sort_by_ID unsorted_frame
     = (g', Exits Returned) /\
     sorted_by_ID (length (m_frameResources g')) (m_frameResources g')) /\
  (exists g',
     MoveToPostRegister_debug insertion_sort_by_ID duplicate_frame
     = (g', NullDereference)).
Proof.
  split.
  - destruct (@MoveToPostRegister_sorts insertion_sort_by_ID unsorted_frame
                insertion_sort_by_ID_contract eq_refl eq_refl) as [Hok _].
    destruct Hok as (g' & Hrun & _ & Hsorted & _).
    + simpl. repeat constructor; simpl; intuition discriminate.
    + exists g'. split; [exact Hrun | exact Hsorted].
  - destruct (@MoveToPostRegister_sorts insertion_sort_by_ID duplicate_frame
                insertion_sort_by_ID_contract eq_refl eq_refl) as [_ Hdup].
    destruct Hdup as (lhs & rhs & g' & Hfirst & _ & _ & _ & Hrun & _).
    + simpl. intros Hnd. inversion Hnd as [|? ? Ha _]; subst.
      apply Ha. now left.
    + exists g'. vm_compute in Hfirst. injection Hfirst as <-. exact Hrun.
Defined.

(* ---------------------------------------------------------------------- *)
(** ** The edges of the task graph *)

Lemma TaskGraph_edges_from_spec (i : nat) (currBatchIdx : Z)
    (aggs : list AggregateRenderNode) :
  forall j,
    StronglySorted Z.le (map BatchIdx aggs) ->
    Forall (fun b => currBatchIdx <= BatchIdx b) aggs ->
    NoDup (TaskGraph_edges_from i currBatchIdx j aggs) /\
    forall i' j',
      In (i', j') (TaskGraph_edges_from i currBatchIdx j aggs) <->
      i' = i /\
      exists k b,
        j' = (j + k)%nat /\ nth_error aggs k = Some b /\
        (BatchIdx b = currBatchIdx + 1 \/
         (BatchIdx b = currBatchIdx /\ ForceSeparate b = true)).
Proof.
  induction aggs as [|next aggs IH]; intros j Hsorted Hge.
  - simpl. split; [constructor|]. intros i' j'. split; [intros []|].
    intros (_ & [|k] & b & _ & Hk & _); discriminate.
  - cbn [map] in Hsorted. inversion Hsorted as [|? ? Hs Hall]; subst.
    inversion Hge as [|? ? Hnext Hge']; subst.
    cbn [TaskGraph_edges_from]. cbn zeta.
    destruct (Z.ltb_spec (currBatchIdx + 1) (BatchIdx next)) as [Hbreak|Hgo].
    + split; [constructor|]. intros i' j'. split; [intros []|].
      intros (_ & k & b & _ & Hk & Hcond). exfalso.
      assert (Hb : BatchIdx next <= BatchIdx b).
      { destruct k as [|k]; simpl in Hk.
        - injection Hk as <-. lia.
        - rewrite Forall_forall in Hall. apply Hall.
          apply in_map. eapply nth_error_In; eauto. }
      lia.
    + destruct (IH (S j) Hs Hge') as [Hnd Hiff].
      set (here := (if BatchIdx next =? currBatchIdx + 1 then [(i, j)] else [])
                   ++ (if (BatchIdx next =? currBatchIdx) && ForceSeparate next
                       then [(i, j)] else [])).
      assert (Hhere : here = [(i, j)] /\
                      (BatchIdx next = currBatchIdx + 1 \/
                       (BatchIdx next = currBatchIdx /\ ForceSeparate next = true))
                      \/
                      here = [] /\
                      ~ (BatchIdx next = currBatchIdx + 1 \/
                         (BatchIdx next = currBatchIdx /\ ForceSeparate next = true))).
      { unfold here.
        destruct (Z.eqb_spec (BatchIdx next) (currBatchIdx + 1)) as [E1|E1];
          destruct (Z.eqb_spec (BatchIdx next) currBatchIdx) as [E2|E2];
          try lia; cbn [andb app].
        - left. split; [reflexivity | now left].
        - destruct (ForceSeparate next) eqn:Ef.
          + left. split; [reflexivity | right; now split].
          + right. split; [reflexivity|]. intros [C|[_ C]]; [lia | discriminate]. }
      rewrite app_assoc. fold here.
      assert (Hlater : forall i' j',
                 In (i', j') (TaskGraph_edges_from i currBatchIdx (S j) aggs) ->
                 (j < j')%nat).
      { intros i' j' Hin. apply Hiff in Hin.
        destruct Hin as (_ & k & b & -> & _). lia. }
      split.
      * destruct Hhere as [[-> _]|[-> _]]; [|exact Hnd].
        cbn [app]. constructor; [|exact Hnd].
        intros Hin. apply Hlater in Hin. lia.
      * intros i' j'. rewrite in_app_iff, Hiff. split.
        -- intros [Hin|(-> & k & b & -> & Hk & Hcond)].
           ++ destruct Hhere as [[E Hcond]|[E _]]; rewrite E in Hin;
                [|contradiction].
              destruct Hin as [Hin|[]]. injection Hin as <- <-.
              split; [reflexivity|]. exists 0%nat, next.
              split; [lia|]. split; [reflexivity | exact Hcond].
           ++ split; [reflexivity|]. exists (S k), b.
              split; [lia|]. split; [exact Hk | exact Hcond].
        -- intros (-> & [|k] & b & -> & Hk & Hcond); simpl in Hk.
           ++ injection Hk as <-. left.
              destruct Hhere as [[E _]|[_ C]]; [|contradiction].
              rewrite E, Nat.add_0_r. now left.
           ++ right. split; [reflexivity|]. exists k, b.
              split; [lia|]. split; [exact Hk | exact Hcond].
Qed.

Lemma TaskGraph_edges_spec (aggs : list AggregateRenderNode) :
  forall i,
    StronglySorted Z.le (map BatchIdx aggs) ->
    NoDup (TaskGraph_edges i aggs) /\
    forall i' j',
      In (i', j') (TaskGraph_edges i aggs) <->
      exists k1 k2 a b,
        i' = (i + k1)%nat /\ j' = (i + k2)%nat /\ (k1 < k2)%nat /\
        nth_error aggs k1 = Some a /\ nth_error aggs k2 = Some b /\
        waits_for a b.
Proof.
  induction aggs as [|curr aggs IH]; intros i Hsorted.
  - simpl. split; [constructor|]. intros i' j'. split; [intros []|].
    intros ([|k1] & k2 & a & b & _ & _ & _ & Hk & _); discriminate.
  - cbn [map] in Hsorted. inversion Hsorted as [|? ? Hs Hall]; subst.
    assert (Hge : Forall (fun b => BatchIdx curr <= BatchIdx b) aggs)
      by now rewrite Forall_map in Hall.
    destruct (@TaskGraph_edges_from_spec i (BatchIdx curr) aggs (S i) Hs Hge)
      as [Hnd1 Hiff1].
    destruct (IH (S i) Hs) as [Hnd2 Hiff2].
    cbn [TaskGraph_edges]. split.
    + apply NoDup_app; [exact Hnd1 | exact Hnd2|].
      intros [i' j'] H1 H2. apply Hiff1 in H1. apply Hiff2 in H2.
      destruct H1 as (-> & _). destruct H2 as (k1 & _ & _ & _ & Hi & _). lia.
    + intros i' j'. rewrite in_app_iff, Hiff1, Hiff2. unfold waits_for. split.
      * intros [(-> & k & b & -> & Hk & Hcond)
               |(k1 & k2 & a & b & -> & -> & Hlt & Hk1 & Hk2 & Hcond)].
        -- exists 0%nat, (S k), curr, b.
           split; [lia|]. split; [lia|]. split; [lia|].
           split; [reflexivity|]. split; [exact Hk | exact Hcond].
        -- exists (S k1), (S k2), a, b.
           split; [lia|]. split; [lia|]. split; [lia|].
           split; [exact Hk1|]. split; [exact Hk2 | exact Hcond].
      * intros ([|k1] & k2 & a & b & -> & -> & Hlt & Hk1 & Hk2 & Hcond);
          simpl in Hk1.
        -- injection Hk1 as <-. destruct k2 as [|k2]; [lia|]. simpl in Hk2.
           left. split; [lia|]. exists k2, b.
           split; [lia|]. split; [exact Hk2 | exact Hcond].
        -- destruct k2 as [|k2]; [lia|]. simpl in Hk2.
           right. exists k1, k2, a, b.
           split; [lia|]. split; [lia|]. split; [lia|].
           split; [exact Hk1|]. split; [exact Hk2 | exact Hcond].
Qed.

(** X17.  The edges of the task graph, for aggregates in the order of their
    batch indices: the task of an aggregate waits exactly for the tasks of
    the aggregates of the batch before it and, when it is forced onto a
    command list of its own, for those placed before it in its own batch.
    Every such edge is added once, and from an earlier aggregate to a
    later one. *)
Theorem BuildTaskGraph_edges_spec (aggs : list AggregateRenderNode) :
  StronglySorted Z.le (map BatchIdx aggs) ->
  NoDup (BuildTaskGraph_edges aggs) /\
  forall i j,
    In (i, j) (BuildTaskGraph_edges aggs) <->
    (i < j)%nat /\
    exists a b,
      nth_error aggs i = Some a /\ nth_error aggs j = Some b /\ waits_for a b.
Proof.
  intros Hsorted. destruct (@TaskGraph_edges_spec aggs 0%nat Hsorted) as [Hnd Hiff].
  split; [exact Hnd|]. intros i j. unfold BuildTaskGraph_edges. rewrite Hiff.
  split.
  - intros (k1 & k2 & a & b & -> & -> & Hlt & Hk1 & Hk2 & Hw). simpl.
    split; [exact Hlt|]. exists a, b. auto.
  - intros (Hlt & a & b & Hi & Hj & Hw). exists i, j, a, b. simpl.
    repeat split; auto.
Qed.

Lemma merge_scenario_aggregates_run :
  MergeSmallNodes merge_scenario_joined = Ok (merge_scenario_aggregates, 1) /\
  map BatchIdx merge_scenario_aggregates = [0; 1; 2; 2].
Proof. split; reflexivity. Qed.

Lemma BuildTaskGraph_edges_spec_witness :
  BuildTaskGraph_edges merge_scenario_aggregates
  = [(0, 1); (1, 2); (1, 3)]%nat /\
  NoDup (BuildTaskGraph_edges merge_scenario_aggregates).
Proof.
  split; [reflexivity|].
  apply (@BuildTaskGraph_edges_spec merge_scenario_aggregates).
  simpl. repeat constructor; lia.
Defined.

(* ---------------------------------------------------------------------- *)
(** ** Joining the passes *)

Lemma unjoined_fields (n n' : RenderNode) :
  unjoined n = unjoined n' ->
  NodeType n = NodeType n' /\ ForceSeparateCmdList n = ForceSeparateCmdList n' /\
  Dlg n = Dlg n' /\ NodeBatchIdx n = NodeBatchIdx n' /\
  Barriers n = Barriers n' /\ GpuDepSourceIdx n = GpuDepSourceIdx n' /\
  HasUnsupportedBarrier n = HasUnsupportedBarrier n'.
Proof.
  unfold unjoined, set_AggNodeIdx. intros H. injection H. intros. tauto.
Qed.

Lemma unjoined_nth (l l' : list RenderNode) (i : nat) :
  map unjoined l = map unjoined l' ->
  unjoined (nth i l default_RenderNode) = unjoined (nth i l' default_RenderNode).
Proof.
  intros H.
  rewrite <- !(map_nth unjoined). now rewrite H.
Qed.

Lemma unjoined_upd (l : list RenderNode) (i : nat) (node : RenderNode) (v : Z) :
  nth_error l i = Some node ->
  map unjoined (upd l i (set_AggNodeIdx v node)) = map unjoined l.
Proof.
  intros Hi. eapply upd_map_keeps; [exact Hi | reflexivity].
Qed.

(** What a successful [Append] has checked and what it returns. *)
Lemma Append_inv (node : RenderNode) (m : Z) (force : bool)
    (a a' : AggregateRenderNode) :
  Append node m force a = Ok a' ->
  Dlgs a' = Dlgs a ++ [Dlg node] /\
  IsAsyncCompute a' = IsAsyncCompute a /\
  IsAsyncCompute a = is_ASYNC_COMPUTE (NodeType node) /\
  BatchIdx a' = NodeBatchIdx node /\
  (Dlgs a <> [] -> NodeBatchIdx node = BatchIdx a) /\
  ForceSeparate a' = force /\
  (force = true -> Dlgs a = []) /\
  IsLast a' = IsLast a.
Proof.
  unfold Append.
  destruct (Bool.eqb (IsAsyncCompute a) (is_ASYNC_COMPUTE (NodeType node))) eqn:Et;
    [|discriminate].
  cbn [Assert bind].
  destruct (is_empty (Dlgs a) || (NodeBatchIdx node =? BatchIdx a)) eqn:Eb;
    [|discriminate].
  cbn [Assert bind].
  destruct (negb force || is_empty (Dlgs a)) eqn:Ef; [|discriminate].
  cbn [Assert bind].
  destruct (negb (HasUnsupportedBarrier node) || is_ASYNC_COMPUTE (NodeType node));
    [|discriminate].
  cbn [Assert bind]. intros H. injection H as <-. cbn.
  apply Bool.eqb_prop in Et.
  repeat split; auto.
  - intros Hne. destruct (Dlgs a); [contradiction|]. simpl in Eb.
    now apply Z.eqb_eq in Eb.
  - intros ->. simpl in Ef. now destruct (Dlgs a).
Qed.

Lemma set_back_last {A} (front : list A) (x y : A) :
  set_back (front ++ [x]) y = front ++ [y].
Proof.
  unfold set_back. destruct (front ++ [x]) eqn:E.
  - destruct front; discriminate.
  - rewrite <- E. now rewrite removelast_last.
Qed.

(** What a successful [Join_append] does. *)
Lemma Join_append_inv (n : nat) (force : bool) (nodes : list RenderNode)
    (front : list AggregateRenderNode) (a0 : AggregateRenderNode)
    (nodes' : list RenderNode) (aggs' : list AggregateRenderNode) :
  Join_append n force nodes (front ++ [a0]) = Ok (nodes', aggs') ->
  exists node a1 m,
    nth_error nodes n = Some node /\
    nodes' = upd nodes n
               (set_AggNodeIdx (int16 (Z.of_nat (S (length front))) - 1) node) /\
    aggs' = front ++ [a1] /\
    Append node m force a0 = Ok a1.
Proof.
  unfold Join_append.
  destruct (nth_error nodes n) as [node|] eqn:En; [|intros; discriminate].
  destruct (front ++ [a0]) as [|x l] eqn:E; [destruct front; discriminate|].
  rewrite <- E. clear E x l.
  destruct (Assert _ _) as [[]|]; [|intros; discriminate]. cbn [bind].
  rewrite last_last.
  destruct (Append node _ force a0) as [a1|] eqn:Ea; [|intros; discriminate].
  cbn [bind]. intros H. injection H as <- <-.
  exists node, a1. eexists. split; [reflexivity|]. split.
  - rewrite length_app. simpl. now rewrite Nat.add_1_r.
  - split; [apply set_back_last | exact Ea].
Qed.

(** What a successful run of appends to the last aggregate does: the
    callbacks of the listed nodes are added in order, the nodes keep
    everything but the index of their aggregate, and each listed node is
    of the aggregate's queue and batch. *)
Lemma Join_append_all_inv (ns : list nat) :
  forall (nodes : list RenderNode) (front : list AggregateRenderNode)
         (a0 : AggregateRenderNode) (nodes' : list RenderNode)
         (aggs' : list AggregateRenderNode),
  Join_append_all ns nodes (front ++ [a0]) = Ok (nodes', aggs') ->
  NoDup ns ->
  exists a,
    aggs' = front ++ [a] /\
    Dlgs a = Dlgs a0 ++ map (fun i => Dlg (nth i nodes default_RenderNode)) ns /\
    IsAsyncCompute a = IsAsyncCompute a0 /\
    IsLast a = IsLast a0 /\
    (ns <> [] -> ForceSeparate a = false) /\
    (Dlgs a0 <> [] -> BatchIdx a = BatchIdx a0) /\
    map unjoined nodes' = map unjoined nodes /\
    (forall i, In i ns ->
       (i < length nodes)%nat /\
       is_ASYNC_COMPUTE (NodeType (nth i nodes default_RenderNode))
         = IsAsyncCompute a0 /\
       NodeBatchIdx (nth i nodes default_RenderNode) = BatchIdx a /\
       AggNodeIdx (nth i nodes' default_RenderNode)
         = int16 (Z.of_nat (S (length front))) - 1) /\
    (forall i, ~ In i ns ->
       nth i nodes' default_RenderNode = nth i nodes default_RenderNode).
Proof.
  induction ns as [|n ns IH]; intros nodes front a0 nodes' aggs' H Hnd.
  - simpl in H. injection H as <- <-. exists a0.
    simpl. rewrite app_nil_r. repeat split; auto; try contradiction.
  - simpl in H.
    destruct (Join_append n false nodes (front ++ [a0])) as [[nodes1 aggs1]|] eqn:E1;
      [|discriminate].
    cbn [bind] in H.
    apply Join_append_inv in E1.
    destruct E1 as (node & a1 & m & En & -> & -> & Ea).
    apply Append_inv in Ea.
    destruct Ea as (Hd1 & Has1 & Hty & Hb1 & Hb0 & Hf1 & _ & Hl1).
    inversion Hnd as [|? ? Hnin Hnd']; subst.
    destruct (IH _ _ _ _ _ H Hnd')
      as (a & -> & Hd & Has & Hl & Hf & Hb & Hu & Hin & Hout).
    assert (Hlt : (n < length nodes)%nat).
    { apply nth_error_Some. congruence. }
    assert (Hnode : nth n nodes default_RenderNode = node).
    { now apply nth_error_nth. }
    assert (Hu1 : map unjoined (upd nodes n
                   (set_AggNodeIdx (int16 (Z.of_nat (S (length front))) - 1) node))
                  = map unjoined nodes).
    { now apply unjoined_upd. }
    assert (Hba : BatchIdx a = NodeBatchIdx node).
    { rewrite Hb; [exact Hb1|]. rewrite Hd1. now destruct (Dlgs a0). }
    exists a. split; [reflexivity|]. split.
    { rewrite Hd, Hd1, <- app_assoc. simpl. rewrite Hnode. do 2 f_equal.
      apply map_ext. intros i.
      now destruct (@unjoined_fields _ _ (@unjoined_nth _ _ i Hu1)) as (_ & _ & ? & _). }
    split; [congruence|]. split; [congruence|]. split.
    { intros _. destruct ns as [|n' ns'].
      - simpl in H. injection H as _ H. apply app_inj_tail in H.
        destruct H as [_ <-]. exact Hf1.
      - apply Hf. discriminate. }
    split.
    { intros Hne. rewrite Hba. now apply Hb0. }
    split; [congruence|]. split.
    { intros i [<-|Hi].
      - rewrite Hnode. split; [exact Hlt|]. split; [now rewrite Hty|].
        split; [now rewrite Hba|].
        rewrite (Hout n Hnin). now rewrite nth_upd_same.
      - destruct (Hin i Hi) as (Hi1 & Hi2 & Hi3 & Hi4).
        rewrite upd_length in Hi1.
        destruct (@unjoined_fields _ _ (@unjoined_nth _ _ i Hu1))
          as (Hty' & _ & _ & Hb' & _).
        split; [exact Hi1|]. split; [congruence|]. split; [congruence|].
        exact Hi4. }
    intros i Hi. rewrite Hout; [|intros Hc; apply Hi; now right].
    apply nth_upd_other. intros ->. apply Hi. now left.
Qed.

(** The same into an aggregate that has just been pushed. *)
Lemma Join_append_all_fresh (ns : list nat) (b : bool)
    (nodes : list RenderNode) (aggs : list AggregateRenderNode)
    (nodes' : list RenderNode) (aggs' : list AggregateRenderNode) :
  Join_append_all ns nodes (aggs ++ [AggregateRenderNode_new b]) = Ok (nodes', aggs') ->
  NoDup ns -> ns <> [] ->
  exists a,
    aggs' = aggs ++ [a] /\
    Dlgs a = map (fun i => Dlg (nth i nodes default_RenderNode)) ns /\
    IsAsyncCompute a = b /\ IsLast a = false /\ ForceSeparate a = false /\
    map unjoined nodes' = map unjoined nodes /\
    (forall i, In i ns ->
       (i < length nodes)%nat /\
       is_ASYNC_COMPUTE (NodeType (nth i nodes default_RenderNode)) = b /\
       NodeBatchIdx (nth i nodes default_RenderNode) = BatchIdx a /\
       AggNodeIdx (nth i nodes' default_RenderNode)
         = int16 (Z.of_nat (S (length aggs))) - 1) /\
    (forall i, ~ In i ns ->
       nth i nodes' default_RenderNode = nth i nodes default_RenderNode).
Proof.
  intros H Hnd Hne.
  destruct (@Join_append_all_inv _ _ _ _ _ _ H Hnd)
    as (a & -> & Hd & Has & Hl & Hf & _ & Hu & Hin & Hout).
  exists a. simpl in *. repeat split; auto; now apply Hin.
Qed.


Lemma joined_at_app (aggs ext : list AggregateRenderNode) (p : nat)
    (node : RenderNode) :
  joined_at aggs p node -> joined_at (aggs ++ ext) p node.
Proof.
  intros (a & Ha & H). exists a. split; [|exact H].
  rewrite nth_error_app1; [exact Ha|]. apply nth_error_Some. congruence.
Qed.

Lemma joined_at_set_back (front : list AggregateRenderNode)
    (b b' : AggregateRenderNode) (p : nat) (node : RenderNode) :
  joined_at (front ++ [b]) p node ->
  Dlgs b' = Dlgs b -> IsAsyncCompute b' = IsAsyncCompute b ->
  BatchIdx b' = BatchIdx b -> ForceSeparate b' = ForceSeparate b ->
  joined_at (front ++ [b']) p node.
Proof.
  intros (a & Ha & H) Hd Hq Hb Hf.
  destruct (Nat.lt_ge_cases p (length front)) as [Hlt|Hge].
  - exists a. split; [|exact H].
    rewrite nth_error_app1 in Ha |- *; auto.
  - rewrite nth_error_app2 in Ha by exact Hge.
    exists b'. rewrite nth_error_app2 by exact Hge.
    destruct (p - length front)%nat as [|q]; simpl in Ha |- *.
    + injection Ha as <-. split; [reflexivity|].
      rewrite Hd, Hq, Hb, Hf. exact H.
    + now destruct q.
Qed.

Lemma joined_at_unjoined (aggs : list AggregateRenderNode) (p : nat)
    (node node' : RenderNode) :
  joined_at aggs p node -> unjoined node = unjoined node' ->
  joined_at aggs p node'.
Proof.
  intros (a & Ha & H) Hu.
  destruct (@unjoined_fields _ _ Hu) as (Ht & Hf & Hd & Hb & _).
  exists a. split; [exact Ha|]. now rewrite <- Ht, <- Hf, <- Hd, <- Hb.
Qed.

Lemma join_ext_refl (nodes : list RenderNode) (aggs : list AggregateRenderNode) :
  join_ext [] nodes aggs nodes aggs.
Proof.
  split; [reflexivity|]. split; [reflexivity|].
  exists []. rewrite app_nil_r. repeat split; auto. contradiction.
Qed.

Lemma join_ext_trans (ns1 ns2 : list nat)
    (nodes nodes1 nodes2 : list RenderNode)
    (aggs aggs1 aggs2 : list AggregateRenderNode) :
  join_ext ns1 nodes aggs nodes1 aggs1 ->
  join_ext ns2 nodes1 aggs1 nodes2 aggs2 ->
  (forall i, In i ns1 -> In i ns2 -> False) ->
  join_ext (ns1 ++ ns2) nodes aggs nodes2 aggs2.
Proof.
  intros (Hu1 & Hout1 & new1 & -> & Hc1 & Hf1 & Hin1)
         (Hu2 & Hout2 & new2 & -> & Hc2 & Hf2 & Hin2) Hdisj.
  split; [congruence|]. split.
  { intros i Hi. rewrite Hout2, Hout1; auto;
      intros Hc; apply Hi; apply in_or_app; auto. }
  exists (new1 ++ new2). split; [now rewrite app_assoc|]. split.
  { rewrite !map_app, concat_app, Hc1, Hc2. f_equal.
    apply map_ext. intros i.
    now destruct (@unjoined_fields _ _ (@unjoined_nth _ _ i Hu1))
      as (_ & _ & ? & _). }
  split.
  { apply Forall_app. split.
    - eapply Forall_impl; [|exact Hf1].
      intros a (Ha & Hl & i & Hi & Hb). split; [exact Ha|]. split; [exact Hl|].
      exists i. split; [apply in_or_app; now left | exact Hb].
    - eapply Forall_impl; [|exact Hf2].
      intros a (Ha & Hl & i & Hi & Hb). split; [exact Ha|]. split; [exact Hl|].
      exists i. split; [apply in_or_app; now right|].
      now destruct (@unjoined_fields _ _ (@unjoined_nth _ _ i Hu1))
        as (_ & _ & _ & <- & _). }
  intros i Hi. apply in_app_or in Hi. destruct Hi as [Hi|Hi].
  - destruct (Hin1 i Hi) as (p & Hp & Hidx & Hj).
    exists p. rewrite Hout2 by (intros Hc; exact (Hdisj i Hi Hc)).
    split; [exact Hp|]. split; [exact Hidx|]. now apply joined_at_app.
  - destruct (Hin2 i Hi) as (p & Hp & Hidx & Hj).
    exists p. rewrite length_app in Hp. split; [lia|]. now split.
Qed.

(** A bucket joined into an aggregate of its own (lines 809-827 and
    839-851); [a'] is the aggregate after the fence of line 832 has been
    settled. *)
Lemma bucket_join_ext (ns : list nat) (b : bool)
    (nodes : list RenderNode) (aggs : list AggregateRenderNode)
    (nodes' : list RenderNode) (aggs' : list AggregateRenderNode) :
  Join_append_all ns nodes (aggs ++ [AggregateRenderNode_new b]) = Ok (nodes', aggs') ->
  NoDup ns -> ns <> [] ->
  (forall i, In i ns ->
     ForceSeparateCmdList (nth i nodes default_RenderNode) = false) ->
  exists a, aggs' = aggs ++ [a] /\
    forall a', Dlgs a' = Dlgs a -> IsAsyncCompute a' = IsAsyncCompute a ->
      BatchIdx a' = BatchIdx a -> ForceSeparate a' = ForceSeparate a ->
      IsLast a' = IsLast a ->
      join_ext ns nodes aggs nodes' (aggs ++ [a']).
Proof.
  intros H Hnd Hne Hforce.
  destruct (@Join_append_all_fresh _ _ _ _ _ _ H Hnd Hne)
    as (a & -> & Hd & Has & Hl & Hf & Hu & Hin & Hout).
  exists a. split; [reflexivity|].
  intros a' Hd' Hq' Hb' Hf' Hl'.
  split; [exact Hu|]. split; [exact Hout|].
  exists [a']. split; [reflexivity|]. split.
  { simpl. now rewrite app_nil_r, Hd'. }
  split.
  { constructor; [|constructor]. split; [|split; [congruence|]].
    - rewrite Hd', Hd. destruct ns; [contradiction | discriminate].
    - destruct ns as [|i ns']; [contradiction|].
      exists i. split; [now left|].
      destruct (Hin i (or_introl eq_refl)) as (_ & _ & Hb & _). congruence. }
  intros i Hi. destruct (Hin i Hi) as (_ & Hty & Hb & Hidx).
  destruct (@unjoined_fields _ _ (@unjoined_nth _ _ i Hu))
    as (Ht1 & Hf1 & Hd1 & Hb1 & _).
  exists (length aggs). split; [lia|]. split; [exact Hidx|].
  exists a'. split.
  { rewrite nth_error_app2 by lia. now rewrite Nat.sub_diag. }
  split.
  { rewrite Hd', Hd, Hd1. now apply (in_map (fun j => Dlg (nth j nodes default_RenderNode))). }
  split; [congruence|]. split; [congruence|]. split.
  { rewrite Hf', Hf, Hf1. symmetry. now apply Hforce. }
  rewrite Hf', Hf. discriminate.
Qed.

(** A pass that forces a command list of its own (lines 873-886). *)
Lemma forced_join_ext (n : nat) (b : bool)
    (nodes : list RenderNode) (aggs : list AggregateRenderNode)
    (nodes' : list RenderNode) (aggs' : list AggregateRenderNode) :
  Join_append n true nodes (aggs ++ [AggregateRenderNode_new b]) = Ok (nodes', aggs') ->
  ForceSeparateCmdList (nth n nodes default_RenderNode) = true ->
  join_ext [n] nodes aggs nodes' aggs'.
Proof.
  intros H Hforce.
  apply Join_append_inv in H.
  destruct H as (node & a1 & m & En & -> & -> & Ea).
  apply Append_inv in Ea.
  destruct Ea as (Hd1 & Has1 & Hty & Hb1 & _ & Hf1 & _ & Hl1).
  simpl in Hd1, Has1, Hty, Hl1.
  assert (Hlt : (n < length nodes)%nat).
  { apply nth_error_Some. congruence. }
  assert (Hnode : nth n nodes default_RenderNode = node).
  { now apply nth_error_nth. }
  split; [now apply unjoined_upd|]. split.
  { intros i Hi. apply nth_upd_other. intros ->. apply Hi. now left. }
  exists [a1]. split; [reflexivity|]. split.
  { simpl. now rewrite Hd1, Hnode. }
  split.
  { constructor; [|constructor]. split; [now rewrite Hd1|].
    split; [exact Hl1|]. exists n. split; [now left | congruence]. }
  intros i [<-|[]].
  rewrite nth_upd_same by exact Hlt.
  exists (length aggs). split; [lia|]. split; [reflexivity|].
  exists a1. split.
  { rewrite nth_error_app2 by lia. now rewrite Nat.sub_diag. }
  rewrite Hnode in Hforce.
  cbn [set_AggNodeIdx Dlg NodeType NodeBatchIdx ForceSeparateCmdList].
  rewrite Hd1. split; [now left|]. split; [congruence|].
  split; [exact Hb1|]. split; [congruence|]. reflexivity.
Qed.

(** [insertAggRndrNode] joins the two buckets, the async-compute one
    first, and fails on two empty buckets. *)
Lemma insertAggRndrNode_join_ext (nonA asy : list nat)
    (nodes : list RenderNode) (aggs : list AggregateRenderNode)
    (nodes' : list RenderNode) (aggs' : list AggregateRenderNode) :
  insertAggRndrNode nonA asy nodes aggs = Ok (nodes', aggs') ->
  NoDup (asy ++ nonA) ->
  (forall i, In i (asy ++ nonA) ->
     ForceSeparateCmdList (nth i nodes default_RenderNode) = false) ->
  join_ext (asy ++ nonA) nodes aggs nodes' aggs' /\ asy ++ nonA <> [].
Proof.
  unfold insertAggRndrNode. intros H Hnd Hforce.
  destruct (negb (is_empty nonA) || negb (is_empty asy)) eqn:Ene; [|discriminate].
  cbn [Assert bind] in H.
  destruct asy as [|x asy].
  - destruct nonA as [|y nonA]; [discriminate Ene|].
    cbn [is_empty negb bind] in H. split; [|discriminate].
    destruct (@bucket_join_ext _ _ _ _ _ _ H Hnd ltac:(discriminate) Hforce)
      as (a & -> & Hext).
    now apply Hext.
  - split; [|discriminate].
    cbn [is_empty negb] in H. cbv zeta in H.
    destruct (Join_append_all (x :: asy) nodes (aggs ++ [AggregateRenderNode_new true]))
      as [[n1 a1]|] eqn:E1; [|discriminate].
    cbn [bind] in H.
    assert (Hnd1 : NoDup (x :: asy)).
    { now apply NoDup_app_remove_r in Hnd. }
    destruct (@bucket_join_ext _ _ _ _ _ _ E1 Hnd1 ltac:(discriminate)
                ltac:(intros i Hi; apply Hforce; apply in_or_app; now left))
      as (a & -> & Hext).
    rewrite last_last, set_back_last in H.
    match type of H with
    | context [aggs ++ [?a']] =>
        pose proof (Hext a' eq_refl eq_refl eq_refl eq_refl eq_refl) as Hext1;
        set (a1 := a') in *
    end.
    clearbody a1. clear Hext.
    destruct nonA as [|y nonA].
    + cbn [is_empty negb] in H. injection H as <- <-.
      now rewrite app_nil_r.
    + cbn [is_empty negb] in H.
      assert (Hnd2 : NoDup (y :: nonA)).
      { now apply NoDup_app_remove_l in Hnd. }
      assert (Hforce2 : forall i, In i (y :: nonA) ->
                ForceSeparateCmdList (nth i n1 default_RenderNode) = false).
      { intros i Hi.
        destruct (@unjoined_fields _ _ (@unjoined_nth _ _ i (proj1 Hext1)))
          as (_ & -> & _).
        apply Hforce. apply in_or_app. now right. }
      destruct (@bucket_join_ext _ _ _ _ _ _ H Hnd2 ltac:(discriminate) Hforce2)
        as (a2 & -> & Hext2).
      eapply join_ext_trans; [exact Hext1 | now apply Hext2 |].
      exact (@NoDup_app_disjoint _ _ _ Hnd).
Qed.

Lemma Permutation_push (a b c s : list nat) (k : nat) :
  Permutation (a ++ b ++ c) s ->
  Permutation ((a ++ [k]) ++ b ++ c) (s ++ [k]) /\
  Permutation (a ++ (b ++ [k]) ++ c) (s ++ [k]) /\
  Permutation (a ++ b ++ c ++ [k]) (s ++ [k]).
Proof.
  intros H.
  assert (Hk : Permutation (k :: a ++ b ++ c) (s ++ [k])).
  { etransitivity; [|apply Permutation_cons_append]. now constructor. }
  split; [|split].
  - etransitivity; [|exact Hk]. rewrite <- app_assoc. simpl.
    apply Permutation_sym, Permutation_middle.
  - etransitivity; [|exact Hk]. rewrite <- app_assoc. simpl.
    rewrite !app_assoc.
    etransitivity; [apply Permutation_sym, Permutation_middle|].
    now rewrite <- app_assoc.
  - rewrite !app_assoc. apply Permutation_app_tail. now rewrite <- app_assoc.
Qed.

Lemma StronglySorted_app_const (l l2 : list Z) (c : Z) :
  StronglySorted Z.le l -> Forall (fun x => x <= c) l ->
  Forall (fun x => x = c) l2 -> StronglySorted Z.le (l ++ l2).
Proof.
  intros Hs Hle Heq. induction Hs as [|a l Hs IH Ha]; simpl.
  - induction Heq as [|x l2 -> Heq IH]; constructor; [exact IH|].
    eapply Forall_impl; [|exact Heq]. intros y ->. lia.
  - inversion Hle as [|? ? Hac Hle']; subst.
    constructor; [now apply IH|].
    apply Forall_app. split; [exact Ha|].
    eapply Forall_impl; [|exact Heq]. intros y ->. exact Hac.
Qed.

Lemma batch_of_mono (nodes0 : list RenderNode) (i j : nat) :
  StronglySorted Z.le (map NodeBatchIdx nodes0) ->
  (i <= j)%nat -> (j < length nodes0)%nat ->
  batch_of nodes0 i <= batch_of nodes0 j.
Proof.
  intros Hs Hij Hj.
  destruct (Nat.eq_dec i j) as [->|Hne]; [lia|].
  unfold batch_of.
  eapply (@StronglySorted_nth _ Z.le _ Hs i j); [lia | |];
    rewrite nth_error_map;
    (rewrite (@nth_error_nth' _ _ _ default_RenderNode); [reflexivity | lia]).
Qed.

(** Aggregates pushed for passes of batch [c'] keep the aggregates in the
    order of their batch indices. *)
Lemma batches_push (nodes0 : list RenderNode) (ns : list nat)
    (nodes : list RenderNode) (aggs : list AggregateRenderNode)
    (nodes' : list RenderNode) (aggs' : list AggregateRenderNode) (c c' : Z) :
  join_ext ns nodes aggs nodes' aggs' ->
  map unjoined nodes = map unjoined nodes0 ->
  (forall i, In i ns -> batch_of nodes0 i = c') -> c <= c' ->
  StronglySorted Z.le (map BatchIdx aggs) ->
  Forall (fun a => BatchIdx a <= c) aggs ->
  StronglySorted Z.le (map BatchIdx aggs') /\
  Forall (fun a => BatchIdx a <= c') aggs'.
Proof.
  intros (_ & _ & new & -> & _ & Hnew & _) Hu Hns Hc Hs Hle.
  assert (Hle' : Forall (fun a => BatchIdx a <= c') aggs).
  { eapply Forall_impl; [|exact Hle]. intros a Ha. simpl in Ha. lia. }
  assert (Heq : Forall (fun a => BatchIdx a = c') new).
  { eapply Forall_impl; [|exact Hnew].
    intros a (_ & _ & i & Hi & ->). rewrite <- (Hns i Hi). unfold batch_of.
    now destruct (@unjoined_fields _ _ (@unjoined_nth _ _ i Hu))
      as (_ & _ & _ & ? & _). }
  split.
  - rewrite map_app. eapply StronglySorted_app_const.
    + exact Hs.
    + apply Forall_map. exact Hle'.
    + apply Forall_map. exact Heq.
  - apply Forall_app. split; [exact Hle'|].
    eapply Forall_impl; [|exact Heq]. intros a ->. lia.
Qed.

Lemma buckets_empty (nonA asy : list nat) :
  negb (is_empty nonA) || negb (is_empty asy) = false -> asy ++ nonA = [].
Proof. destruct nonA, asy; simpl; intros H; try discriminate; reflexivity. Qed.

(** One turn of the loop of [JoinRenderNodes] keeps its invariant, and,
    on passes in the order of their batch indices, the order of the
    aggregates. *)
Lemma Join_step_inv (nodes0 : list RenderNode) (aggs0 : list AggregateRenderNode)
    (k : nat) (s s' : JoinState) :
  Join_step k s = Ok s' ->
  join_inv nodes0 aggs0 k s ->
  join_inv nodes0 aggs0 (S k) s' /\
  (StronglySorted Z.le (map NodeBatchIdx nodes0) ->
   join_batches nodes0 k s -> join_batches nodes0 (S k) s').
Proof.
  unfold Join_step.
  destruct (nth_error (joinNodes s) k) as [node|] eqn:En; [|discriminate].
  intros H Hinv.
  match type of H with
  | (bind ?blk _ = _) => destruct blk as [s1|] eqn:E1; [|discriminate]
  end.
  cbn [bind] in H.
  assert (Hus : map unjoined (joinNodes s) = map unjoined nodes0).
  { now destruct Hinv as (done & (Hu & _) & _). }
  assert (Hnode : unjoined node = unjoined (nth k nodes0 default_RenderNode)).
  { rewrite <- (nth_error_nth _ _ default_RenderNode En).
    now apply unjoined_nth. }
  assert (Hk : (k < length nodes0)%nat).
  { apply (f_equal (@length _)) in Hus. rewrite !length_map in Hus.
    rewrite <- Hus. apply nth_error_Some. congruence. }
  destruct (@unjoined_fields _ _ Hnode) as (_ & Hf0 & _ & Hb0 & _).
  fold (batch_of nodes0 k) in Hb0.
  assert (Hinv1 : join_inv nodes0 aggs0 k s1 /\
            (StronglySorted Z.le (map NodeBatchIdx nodes0) ->
             join_batches nodes0 k s ->
             batches_upto nodes0 (currBatchIdx s1) s1 /\
             currBatchIdx s1 = batch_of nodes0 k)).
  { destruct (NodeBatchIdx node =? currBatchIdx s) eqn:Ebatch; cbn [negb] in E1.
    { injection E1 as <-. split; [exact Hinv|].
      intros _ [Hb _]. apply Z.eqb_eq in Ebatch. split; [exact Hb | congruence]. }
    assert (Hcurr : StronglySorted Z.le (map NodeBatchIdx nodes0) ->
              join_batches nodes0 k s ->
              (joinAggregates s = [] /\
               asyncComputeNodes s ++ nonAsyncComputeNodes s = []) \/
              currBatchIdx s <= batch_of nodes0 k).
    { intros Hsorted [_ Hprev]. destruct k as [|j]; [now left|]. right.
      rewrite Hprev. apply batch_of_mono; auto. }
    destruct (negb (is_empty (nonAsyncComputeNodes s))
              || negb (is_empty (asyncComputeNodes s))) eqn:Eb.
    - destruct (insertAggRndrNode _ _ _ _) as [[n1 a1]|] eqn:Ei; [|discriminate].
      cbn [bind] in E1. injection E1 as <-.
      destruct Hinv as (done & Hext & Hperm & Hforce).
      assert (Hnd : NoDup (done ++ asyncComputeNodes s ++ nonAsyncComputeNodes s)).
      { eapply Permutation_NoDup; [apply Permutation_sym; exact Hperm|].
        apply seq_NoDup. }
      destruct (@insertAggRndrNode_join_ext _ _ _ _ _ _ Ei) as [Hext' Hne].
      { now apply NoDup_app_remove_l in Hnd. }
      { intros i Hi.
        destruct (@unjoined_fields _ _ (@unjoined_nth _ _ i (proj1 Hext)))
          as (_ & -> & _).
        now apply Hforce. }
      cbn [joinNodes joinAggregates asyncComputeNodes nonAsyncComputeNodes
           currBatchIdx].
      split.
      + exists (done ++ asyncComputeNodes s ++ nonAsyncComputeNodes s).
        cbn [joinNodes joinAggregates asyncComputeNodes nonAsyncComputeNodes].
        split.
        { eapply join_ext_trans; [exact Hext | exact Hext' |].
          exact (@NoDup_app_disjoint _ _ _ Hnd). }
        split; [now rewrite !app_nil_r | contradiction].
      + intros Hsorted Hbat.
        destruct (Hcurr Hsorted Hbat) as [[_ Hnone]|Hle]; [contradiction|].
        destruct Hbat as [(Hs & Hall & Hbuck) _].
        destruct (@batches_push nodes0 _ _ _ _ _ (currBatchIdx s)
                    (currBatchIdx s) Hext' Hus Hbuck ltac:(lia) Hs Hall)
          as [Hs1 Hall1].
        split; [|exact Hb0].
        unfold batches_upto.
        cbn [joinNodes joinAggregates asyncComputeNodes nonAsyncComputeNodes].
        split; [exact Hs1|]. split; [|contradiction].
        eapply Forall_impl; [|exact Hall1]. intros a Ha. simpl in Ha. lia.
    - cbn [bind] in E1. injection E1 as <-. split; [exact Hinv|].
      intros Hsorted Hbat. cbn [currBatchIdx]. split; [|exact Hb0].
      apply buckets_empty in Eb.
      destruct (Hcurr Hsorted Hbat) as [[Hnil _]|Hle];
        destruct Hbat as [(Hs & Hall & _) _];
        unfold batches_upto;
        cbn [joinNodes joinAggregates asyncComputeNodes nonAsyncComputeNodes];
        rewrite Eb.
      + rewrite Hnil. repeat split; [constructor | constructor | contradiction].
      + split; [exact Hs|]. split; [|contradiction].
        eapply Forall_impl; [|exact Hall]. intros a Ha. simpl in Ha. lia. }
  clear E1 Hinv Hus.
  destruct Hinv1 as [(done & Hext & Hperm & Hforce) Hbat1].
  assert (Hus1 : map unjoined (joinNodes s1) = map unjoined nodes0).
  { exact (proj1 Hext). }
  assert (Hbelow : forall i,
            In i (done ++ asyncComputeNodes s1 ++ nonAsyncComputeNodes s1) ->
            i <> k).
  { intros i Hi. apply (Permutation_in _ Hperm) in Hi.
    apply in_seq in Hi. lia. }
  destruct (@Permutation_push _ _ _ _ k Hperm) as (Hp1 & Hp2 & Hp3).
  rewrite <- seq_S in Hp1, Hp2, Hp3.
  destruct (ForceSeparateCmdList node) eqn:Ef.
  - destruct (Join_append k true _ _) as [[n1 a1]|] eqn:Ej; [|discriminate].
    cbn [bind] in H. injection H as <-.
    apply forced_join_ext in Ej.
    2:{ destruct (@unjoined_fields _ _ (@unjoined_nth _ _ k Hus1))
          as (_ & -> & _).
        congruence. }
    split.
    + exists (done ++ [k]).
      cbn [joinNodes joinAggregates asyncComputeNodes nonAsyncComputeNodes].
      split.
      { eapply join_ext_trans; [exact Hext | exact Ej |].
        intros i Hi [<-|[]]. apply (Hbelow k); [|reflexivity].
        apply in_or_app. now left. }
      split; [exact Hp1 | exact Hforce].
    + intros Hsorted Hbat.
      destruct (Hbat1 Hsorted Hbat) as [(Hs & Hall & Hbuck) Hcurr].
      destruct (@batches_push nodes0 [k] _ _ _ _ (currBatchIdx s1)
                  (currBatchIdx s1) Ej Hus1) as [Hs1 Hall1]; auto; try lia.
      { intros i [<-|[]]. now symmetry. }
      split; [|exact Hcurr].
      unfold batches_upto.
      cbn [joinNodes joinAggregates asyncComputeNodes nonAsyncComputeNodes
           currBatchIdx].
      auto.
  - destruct (is_ASYNC_COMPUTE (NodeType node));
      injection H as <-; (split; [exists done|]);
      unfold join_batches, batches_upto;
      cbn [joinNodes joinAggregates asyncComputeNodes nonAsyncComputeNodes
           currBatchIdx];
      try (split; [exact Hext|]).
    + split; [exact Hp2|].
      intros i Hi. rewrite <- app_assoc in Hi.
      apply in_app_or in Hi. destruct Hi as [Hi|Hi].
      * apply Hforce. apply in_or_app. now left.
      * destruct Hi as [<-|Hi]; [congruence|].
        apply Hforce. apply in_or_app. now right.
    + intros Hsorted Hbat.
      destruct (Hbat1 Hsorted Hbat) as [(Hs & Hall & Hbuck) Hcurr].
      split; [|exact Hcurr]. split; [exact Hs|]. split; [exact Hall|].
      intros i Hi. rewrite <- app_assoc in Hi.
      apply in_app_or in Hi. destruct Hi as [Hi|Hi].
      * apply Hbuck. apply in_or_app. now left.
      * destruct Hi as [<-|Hi]; [now symmetry|].
        apply Hbuck. apply in_or_app. now right.
    + split; [exact Hp3|].
      intros i Hi. rewrite app_assoc in Hi.
      apply in_app_or in Hi. destruct Hi as [Hi|[<-|[]]].
      * now apply Hforce.
      * congruence.
    + intros Hsorted Hbat.
      destruct (Hbat1 Hsorted Hbat) as [(Hs & Hall & Hbuck) Hcurr].
      split; [|exact Hcurr]. split; [exact Hs|]. split; [exact Hall|].
      intros i Hi. rewrite app_assoc in Hi.
      apply in_app_or in Hi. destruct Hi as [Hi|[<-|[]]].
      * now apply Hbuck.
      * now symmetry.
Qed.

Lemma Join_loop_inv (nodes0 : list RenderNode) (aggs0 : list AggregateRenderNode)
    (n : nat) :
  forall (k : nat) (s s' : JoinState),
  Join_loop (seq k n) s = Ok s' ->
  join_inv nodes0 aggs0 k s ->
  join_inv nodes0 aggs0 (k + n) s' /\
  (StronglySorted Z.le (map NodeBatchIdx nodes0) ->
   join_batches nodes0 k s -> join_batches nodes0 (k + n) s').
Proof.
  induction n as [|n IH]; intros k s s' H Hinv.
  - simpl in H. injection H as <-. rewrite Nat.add_0_r. auto.
  - simpl in H.
    destruct (Join_step k s) as [s1|] eqn:E1; [|discriminate].
    cbn [bind] in H.
    rewrite Nat.add_succ_r, <- Nat.add_succ_l.
    destruct (@Join_step_inv nodes0 aggs0 _ _ _ E1 Hinv) as [Hinv1 Hbat1].
    destruct (IH _ _ _ H Hinv1) as [Hinv' Hbat'].
    split; [exact Hinv'|]. auto.
Qed.

Lemma concat_length_nonempty {A} (ls : list (list A)) :
  Forall (fun l => l <> []) ls -> (length ls <= length (concat ls))%nat.
Proof.
  induction 1 as [|l ls Hl _ IH]; simpl; [lia|].
  rewrite length_app. destruct l; [contradiction|]. simpl. lia.
Qed.

(** The state in which a successful [JoinRenderNodes] ends: every pass has
    been joined, and the last aggregate is the one marked [IsLast]. *)
Lemma JoinRenderNodes_join_ext (g g' : Graph) :
  JoinRenderNodes g = Ok g' ->
  exists done front back back',
    Permutation done (seq 0 (length (m_renderNodes g))) /\
    join_ext done (m_renderNodes g) (m_aggregateNodes g) (m_renderNodes g')
      (m_aggregateNodes g ++ front ++ [back]) /\
    m_aggregateNodes g' = m_aggregateNodes g ++ front ++ [back'] /\
    Dlgs back' = Dlgs back /\ IsAsyncCompute back' = IsAsyncCompute back /\
    BatchIdx back' = BatchIdx back /\ ForceSeparate back' = ForceSeparate back /\
    IsLast back' = true /\
    (m_aggregateNodes g = [] ->
     StronglySorted Z.le (map NodeBatchIdx (m_renderNodes g)) ->
     StronglySorted Z.le (map BatchIdx (front ++ [back]))).
Proof.
  unfold JoinRenderNodes. intros H.
  destruct (Join_loop _ _) as [s|] eqn:El; [|discriminate].
  cbn [bind] in H.
  destruct (insertAggRndrNode _ _ _ _) as [[nodes aggs]|] eqn:Ei; [|discriminate].
  cbn [bind] in H. injection H as <-.
  apply (@Join_loop_inv (m_renderNodes g) (m_aggregateNodes g)) in El.
  2:{ exists []. split; [apply join_ext_refl|]. split; [reflexivity|].
      intros i []. }
  destruct El as [(done & Hext & Hperm & Hforce) Hbat]. simpl in Hperm.
  assert (Hnd : NoDup (done ++ asyncComputeNodes s ++ nonAsyncComputeNodes s)).
  { eapply Permutation_NoDup; [apply Permutation_sym; exact Hperm|].
    apply seq_NoDup. }
  destruct (@insertAggRndrNode_join_ext _ _ _ _ _ _ Ei) as [Hext' Hne].
  { now apply NoDup_app_remove_l in Hnd. }
  { intros i Hi.
    destruct (@unjoined_fields _ _ (@unjoined_nth _ _ i (proj1 Hext)))
      as (_ & -> & _).
    now apply Hforce. }
  assert (Hsorted : m_aggregateNodes g = [] ->
            StronglySorted Z.le (map NodeBatchIdx (m_renderNodes g)) ->
            StronglySorted Z.le (map BatchIdx aggs)).
  { intros Hnil Hs.
    destruct (Hbat Hs) as [(Hs1 & Hall1 & Hbuck) _].
    { split; [|now split].
      unfold batches_upto. cbn [joinAggregates asyncComputeNodes
                                nonAsyncComputeNodes app].
      rewrite Hnil. repeat split; [constructor | constructor | contradiction]. }
    exact (proj1 (@batches_push (m_renderNodes g) _ _ _ _ _ (currBatchIdx s)
                    (currBatchIdx s) Hext' (proj1 Hext) Hbuck ltac:(lia)
                    Hs1 Hall1)). }
  pose proof (@join_ext_trans _ _ _ _ _ _ _ _ Hext Hext'
                (@NoDup_app_disjoint _ _ _ Hnd)) as Hall.
  destruct Hall as (Hu & Hout & new & -> & Hc & Hf & Hin).
  assert (Hnew : new <> []).
  { intros ->. simpl in Hc. symmetry in Hc. apply map_eq_nil in Hc.
    apply app_eq_nil in Hc. now destruct Hc as [_ Hc]. }
  destruct (exists_last Hnew) as (front & back & ->).
  exists (done ++ asyncComputeNodes s ++ nonAsyncComputeNodes s), front, back.
  eexists. split; [exact Hperm|]. split.
  { cbn [m_renderNodes set_aggregateNodes set_renderNodes].
    split; [exact Hu|]. split; [exact Hout|].
    exists (front ++ [back]). now repeat split. }
  cbn [m_aggregateNodes set_aggregateNodes].
  rewrite !app_assoc, last_last, set_back_last.
  split; [reflexivity|]. cbn. repeat split.
  intros Hnil Hs. specialize (Hsorted Hnil Hs).
  rewrite Hnil in Hsorted. exact Hsorted.
Qed.

(** X18.  A successful [JoinRenderNodes] on at most 32767 passes, started
    with no aggregate, writes nothing into the passes but [AggNodeIdx],
    and leaves every pass joined: [AggNodeIdx] is the position of an
    aggregate that holds the callback of the pass, runs on its queue, has
    its batch index and, exactly when the pass forces a command list of
    its own, is forced as well and holds nothing else. *)
Theorem JoinRenderNodes_joins_every_pass (g g' : Graph) :
  JoinRenderNodes g = Ok g' ->
  m_aggregateNodes g = [] ->
  Z.of_nat (length (m_renderNodes g)) <= 32767 ->
  map unjoined (m_renderNodes g') = map unjoined (m_renderNodes g) /\
  Forall (joined (m_aggregateNodes g')) (m_renderNodes g').
Proof.
  intros H Hnil Hlen.
  destruct (@JoinRenderNodes_join_ext _ _ H)
    as (done & front & back & back' & Hperm & Hext & -> & Hd & Hq & Hb & Hf & _ & _).
  destruct Hext as (Hu & _ & new & Hnew & Hc & Hne & Hin).
  split; [exact Hu|].
  apply app_inv_head in Hnew. subst new. rewrite Hnil in *. cbn [app] in *.
  assert (Hcount : (length (front ++ [back]) <= length (m_renderNodes g))%nat).
  { rewrite <- (length_seq (length (m_renderNodes g)) 0).
    rewrite <- (Permutation_length Hperm).
    rewrite <- (length_map (fun i => Dlg (nth i (m_renderNodes g) default_RenderNode))).
    rewrite <- Hc, <- (length_map Dlgs (front ++ [back])).
    apply concat_length_nonempty. apply Forall_map.
    eapply Forall_impl; [|exact Hne]. now intros a [Ha _]. }
  apply Forall_forall. intros node Hnode.
  destruct (In_nth _ _ default_RenderNode Hnode) as (i & Hi & <-).
  assert (Hdone : In i done).
  { apply (Permutation_in _ (Permutation_sym Hperm)). apply in_seq.
    apply (f_equal (@length _)) in Hu. rewrite !length_map in Hu. lia. }
  destruct (Hin i Hdone) as (p & _ & Hidx & Hj).
  assert (Hp : (p < length (front ++ [back]))%nat).
  { destruct Hj as (a & Ha & _). apply nth_error_Some. congruence. }
  rewrite int16_id in Hidx by (unfold in_int16; lia).
  replace (Z.of_nat (S p) - 1) with (Z.of_nat p) in Hidx by lia.
  unfold joined. rewrite Hidx.
  split; [lia|]. rewrite Nat2Z.id.
  eapply joined_at_set_back; eauto.
Qed.

Lemma JoinRenderNodes_joins_every_pass_witness :
  Forall (joined (m_aggregateNodes merge_scenario_joined_graph))
         (m_renderNodes merge_scenario_joined_graph).
Proof.
  exact (proj2 (@JoinRenderNodes_joins_every_pass merge_scenario_barriers
                  merge_scenario_joined_graph
                  ltac:(vm_compute; reflexivity) ltac:(reflexivity)
                  ltac:(apply Z.leb_le; vm_compute; reflexivity))).
Defined.

(** X19.  A successful [JoinRenderNodes], started with no aggregate, deals
    the callbacks of the passes out to the aggregates: the callbacks of
    all aggregates together are those of all passes, each as often as it
    was registered; no aggregate is empty, so there are at most as many
    aggregates as passes; and [IsLast] marks the last aggregate and no
    other. *)
Theorem JoinRenderNodes_deals_callbacks (g g' : Graph) :
  JoinRenderNodes g = Ok g' ->
  m_aggregateNodes g = [] ->
  Permutation (concat (map Dlgs (m_aggregateNodes g')))
              (map Dlg (m_renderNodes g)) /\
  Forall (fun a => Dlgs a <> []) (m_aggregateNodes g') /\
  (length (m_aggregateNodes g') <= length (m_renderNodes g))%nat /\
  exists front back,
    m_aggregateNodes g' = front ++ [back] /\
    IsLast back = true /\ Forall (fun a => IsLast a = false) front.
Proof.
  intros H Hnil.
  destruct (@JoinRenderNodes_join_ext _ _ H)
    as (done & front & back & back' & Hperm & Hext & -> & Hd & _ & _ & _ & Hl & _).
  destruct Hext as (_ & _ & new & Hnew & Hc & Hne & _).
  apply app_inv_head in Hnew. subst new. rewrite Hnil. simpl.
  apply Forall_app in Hne. destruct Hne as [Hfront Hback].
  inversion Hback as [|? ? [Hb _] _]; subst.
  assert (Hdlgs : map Dlgs (front ++ [back']) = map Dlgs (front ++ [back])).
  { rewrite !map_app. simpl. now rewrite Hd. }
  assert (Hperm' : Permutation (concat (map Dlgs (front ++ [back'])))
                     (map Dlg (m_renderNodes g))).
  { rewrite Hdlgs, Hc.
    etransitivity; [apply Permutation_map; exact Hperm|].
    rewrite <- (map_map (fun i => nth i (m_renderNodes g) default_RenderNode) Dlg).
    now rewrite map_nth_seq. }
  assert (Hall : Forall (fun a => Dlgs a <> []) (front ++ [back'])).
  { apply Forall_app. split.
    - eapply Forall_impl; [|exact Hfront]. now intros a [Ha _].
    - constructor; [congruence | constructor]. }
  split; [exact Hperm'|]. split; [exact Hall|]. split.
  { rewrite <- (length_map Dlg (m_renderNodes g)).
    rewrite <- (Permutation_length Hperm').
    rewrite <- (length_map Dlgs (front ++ [back'])).
    apply concat_length_nonempty. now apply Forall_map. }
  exists front, back'. split; [reflexivity|]. split; [exact Hl|].
  eapply Forall_impl; [|exact Hfront]. now intros a (_ & Ha & _).
Qed.

Lemma JoinRenderNodes_deals_callbacks_witness :
  Permutation (concat (map Dlgs (m_aggregateNodes merge_scenario_joined_graph)))
              (map Dlg (m_renderNodes merge_scenario_barriers)).
Proof.
  exact (proj1 (@JoinRenderNodes_deals_callbacks merge_scenario_barriers
                  merge_scenario_joined_graph
                  ltac:(vm_compute; reflexivity) ltac:(reflexivity))).
Defined.


(** X20.  When the passes are in the order of their batch indices, as
    [Sort] leaves them, a successful [JoinRenderNodes] started with no
    aggregate leaves the aggregates in the order of their batch indices,
    which is the order the edge loop of [BuildTaskGraph] relies on. *)
Theorem JoinRenderNodes_batches_sorted (g g' : Graph) :
  JoinRenderNodes g = Ok g' ->
  m_aggregateNodes g = [] ->
  StronglySorted Z.le (map NodeBatchIdx (m_renderNodes g)) ->
  StronglySorted Z.le (map BatchIdx (m_aggregateNodes g')).
Proof.
  intros H Hnil Hs.
  destruct (@JoinRenderNodes_join_ext _ _ H)
    as (done & front & back & back' & _ & _ & -> & _ & _ & Hb & _ & _ & Hsorted).
  rewrite Hnil. cbn [app].
  specialize (Hsorted Hnil Hs).
  rewrite map_app in Hsorted |- *. simpl in Hsorted |- *. now rewrite Hb.
Qed.

Lemma JoinRenderNodes_batches_sorted_witness :
  StronglySorted Z.le (map BatchIdx (m_aggregateNodes merge_scenario_joined_graph)).
Proof.
  apply (@JoinRenderNodes_batches_sorted merge_scenario_barriers
           merge_scenario_joined_graph).
  - vm_compute; reflexivity.
  - reflexivity.
  - vm_compute. repeat (constructor; [|repeat constructor; discriminate]).
    constructor.
Defined.

End RenderGraphProofs.
